(** * TableRepair: the audit engine and the repair orchestration

    A shallow embedding of the audit service (grid builder, issue detector,
    audit coordinator), of the repair service (key rotation, cost, the
    bounded retry protocol, the expected-column hint) and of the repair
    worker (backoff scheduling, positional table replacement), followed by
    the properties of the specification that were checked against them.

    JavaScript strings are sequences of UTF-16 code units; the DOM library
    and the model providers are external collaborators and appear as
    parameters of the sections that use them. *)

From Stdlib Require Import ZArith NArith Lia Bool List Ascii DecimalString DecimalNat Floats.
From stdpp Require Import base tactics option list strings sorting gmap.

Set Default Proof Using "Type".
Open Scope nat_scope.

(* ====================================================================== *)
(** ** JavaScript strings and regular expressions *)
(* ====================================================================== *)

Module JS.
Local Open Scope N_scope.

(** A UTF-16 code unit. *)
Definition char := N.

(** A JavaScript string value. *)
Definition jsstring := list char.

(** The code units of an ASCII literal. *)
Definition lit (s : string) : jsstring :=
  map N_of_ascii (String.list_ascii_of_string s).

(** A single ASCII character as a code unit. *)
Definition ch (a : ascii) : char := N_of_ascii a.

Definition in_range (lo hi c : char) : bool := (lo <=? c)%N && (c <=? hi)%N.

(** WhiteSpace and LineTerminator of ECMAScript: what [String.prototype.trim]
    strips and what the class [\s] matches. *)
Definition is_space (c : char) : bool :=
  in_range 9 13 c || (c =? 32)%N || (c =? 160)%N || (c =? 5760)%N
  || in_range 8192 8202 c || (c =? 8232)%N || (c =? 8233)%N
  || (c =? 8239)%N || (c =? 8287)%N || (c =? 12288)%N || (c =? 65279)%N.

(** Line terminators: the characters [.] does not match. *)
Definition is_line_terminator (c : char) : bool :=
  (c =? 10)%N || (c =? 13)%N || (c =? 8232)%N || (c =? 8233)%N.

Definition is_digit (c : char) : bool := in_range 48 57 c.
Definition is_upper (c : char) : bool := in_range 65 90 c.
Definition is_lower (c : char) : bool := in_range 97 122 c.
Definition is_alpha (c : char) : bool := is_upper c || is_lower c.

(** Latin-1 letters with a case pair 32 apart (À-Þ and à-þ, without × and ÷). *)
Definition is_upper_latin1 (c : char) : bool :=
  in_range 192 222 c && negb (c =? 215)%N.
Definition is_lower_latin1 (c : char) : bool :=
  in_range 224 254 c && negb (c =? 247)%N.

(** [String.prototype.toLowerCase] on the Basic Latin and Latin-1 Supplement
    blocks, the repertoire of the Portuguese texts the service receives;
    other code units are left as they are, where the method also folds the
    cased letters of other blocks (Greek, Cyrillic, Latin Extended), some of
    them to more than one code unit. *)
Definition lower_char (c : char) : char :=
  if is_upper c || is_upper_latin1 c then (c + 32)%N else c.
Definition upper_char (c : char) : char :=
  if is_lower c || is_lower_latin1 c then (c - 32)%N else c.
Definition toLowerCase (s : jsstring) : jsstring := map lower_char s.

Fixpoint trimStart (s : jsstring) : jsstring :=
  match s with
  | c :: s' => if is_space c then trimStart s' else s
  | [] => []
  end.
Definition trimEnd (s : jsstring) : jsstring := rev (trimStart (rev s)).
Definition trim (s : jsstring) : jsstring := trimEnd (trimStart s).

Definition str_eqb (a b : jsstring) : bool := bool_decide (a = b).

Fixpoint startsWith (s p : jsstring) : bool :=
  match p, s with
  | [], _ => true
  | a :: p', b :: s' => (a =? b)%N && startsWith s' p'
  | _ :: _, [] => false
  end.
Definition endsWith (s p : jsstring) : bool := startsWith (rev s) (rev p).
Fixpoint includes (s p : jsstring) : bool :=
  startsWith s p || match s with [] => false | _ :: s' => includes s' p end.

(** [s.substring(0, n)] and [s.slice(0, n)] for [0 <= n]. *)
Definition substring0 (n : nat) (s : jsstring) : jsstring := take n s.

(** The decimal numeral of a natural number, as template literals print it. *)
Definition of_nat (n : nat) : jsstring :=
  lit (NilEmpty.string_of_uint (Nat.to_uint n)).

(** [xs.join(sep)]. *)
Fixpoint join (sep : jsstring) (xs : list jsstring) : jsstring :=
  match xs with
  | [] => []
  | [x] => x
  | x :: rest => x ++ sep ++ join sep rest
  end.

(** *** Regular expressions

    Patterns are matched by derivatives.  A JavaScript pattern without
    anchors is searched for anywhere in the subject ([test], [match]); the
    anchors [^] and [$] are rendered by the four entry points below. *)

Inductive regex : Type :=
| Void
| Eps
| Cls (p : char -> bool)
| Cat (r s : regex)
| Alt (r s : regex)
| Star (r : regex).

Fixpoint nullable (r : regex) : bool :=
  match r with
  | Void => false
  | Eps => true
  | Cls _ => false
  | Cat r s => nullable r && nullable s
  | Alt r s => nullable r || nullable s
  | Star _ => true
  end.

Definition cat (r s : regex) : regex :=
  match r, s with
  | Void, _ => Void
  | _, Void => Void
  | Eps, _ => s
  | _, Eps => r
  | _, _ => Cat r s
  end.

Definition alt (r s : regex) : regex :=
  match r, s with
  | Void, _ => s
  | _, Void => r
  | _, _ => Alt r s
  end.

Fixpoint deriv (c : char) (r : regex) : regex :=
  match r with
  | Void => Void
  | Eps => Void
  | Cls p => if p c then Eps else Void
  | Cat r s =>
      if nullable r then alt (cat (deriv c r) s) (deriv c s)
      else cat (deriv c r) s
  | Alt r s => alt (deriv c r) (deriv c s)
  | Star r => cat (deriv c r) (Star r)
  end.

(** The whole subject is a word of the pattern. *)
Fixpoint matches (r : regex) (s : jsstring) : bool :=
  match s with
  | [] => nullable r
  | c :: s' => matches (deriv c r) s'
  end.

Definition any : regex := Cls (fun _ => true).
Definition dot : regex := Cls (fun c => negb (is_line_terminator c)).
Definition space : regex := Cls is_space.
Definition digit : regex := Cls is_digit.
Definition alpha : regex := Cls is_alpha.
Definition chr (c : char) : regex := Cls (N.eqb c).
Definition asc (a : ascii) : regex := chr (ch a).
(** One of the characters of an ASCII literal: a class [[...]]. *)
Definition one_of (s : string) : regex :=
  Cls (fun c => existsb (N.eqb c) (lit s)).
(** None of them: a class [[^...]]. *)
Definition none_of (s : string) : regex :=
  Cls (fun c => negb (existsb (N.eqb c) (lit s))).
(** A letter under the [i] flag: the letter or its other case. *)
Definition chr_i (c : char) : regex :=
  Cls (fun d => (d =? c)%N || (d =? lower_char c)%N || (d =? upper_char c)%N).
Definition plus (r : regex) : regex := Cat r (Star r).
Definition opt (r : regex) : regex := Alt Eps r.
Fixpoint sq (rs : list regex) : regex :=
  match rs with
  | [] => Eps
  | [r] => r
  | r :: rs' => Cat r (sq rs')
  end.
Fixpoint alts (rs : list regex) : regex :=
  match rs with
  | [] => Void
  | [r] => r
  | r :: rs' => Alt r (alts rs')
  end.
(** A literal word, and the same under the [i] flag. *)
Definition word (s : jsstring) : regex := sq (map chr s).
Definition word_i (s : jsstring) : regex := sq (map chr_i s).

(** [/r/.test(s)] *)
Definition test (r : regex) (s : jsstring) : bool :=
  matches (Cat (Star any) (Cat r (Star any))) s.
(** [/^r/.test(s)] *)
Definition test_prefix (r : regex) (s : jsstring) : bool :=
  matches (Cat r (Star any)) s.
(** [/r$/.test(s)] *)
Definition test_suffix (r : regex) (s : jsstring) : bool :=
  matches (Cat (Star any) r) s.
(** [/^r$/.test(s)] *)
Definition test_full (r : regex) (s : jsstring) : bool := matches r s.

(** The words of a pattern: what [matches] decides. *)
Inductive Matches : regex -> jsstring -> Prop :=
| M_eps : Matches Eps []
| M_cls p c : p c = true -> Matches (Cls p) [c]
| M_cat r s u v : Matches r u -> Matches s v -> Matches (Cat r s) (u ++ v)
| M_alt_l r s u : Matches r u -> Matches (Alt r s) u
| M_alt_r r s u : Matches s u -> Matches (Alt r s) u
| M_star_nil r : Matches (Star r) []
| M_star_cons r u v : Matches r u -> Matches (Star r) v -> Matches (Star r) (u ++ v).

(** [(s.match(/c/g) || []).length] for a single character [c]. *)
Definition count_char (c : char) (s : jsstring) : nat :=
  length (List.filter (N.eqb c) s).

End JS.

(* ====================================================================== *)
(** ** The document tree the DOM library builds *)
(* ====================================================================== *)

Module Dom.
Import JS.

(** A node of a parsed document.  Elements carry their lower-case local
    name and their attributes in source order. *)
#[warnings="-register-all"]
Inductive node : Type :=
| Text (data : jsstring)
| Comment (data : jsstring)
| Element (tag : string) (attrs : list (string * jsstring)) (children : list node).

Definition tagName (n : node) : string :=
  match n with Element t _ _ => t | _ => "" end.
Definition attributes (n : node) : list (string * jsstring) :=
  match n with Element _ a _ => a | _ => [] end.
Definition childNodes (n : node) : list node :=
  match n with Element _ _ cs => cs | _ => [] end.
Definition isElement (n : node) : bool :=
  match n with Element _ _ _ => true | _ => false end.

(** [el.getAttribute(name)]: [None] is [null]. *)
Definition getAttribute (name : string) (n : node) : option jsstring :=
  snd <$> List.find (fun kv => String.eqb (fst kv) name) (attributes n).
Definition hasAttribute (name : string) (n : node) : bool :=
  bool_decide (is_Some (getAttribute name n)).

(** [el.textContent]: the text of the descendants, comments left out. *)
Fixpoint textContent (n : node) : jsstring :=
  match n with
  | Text d => d
  | Comment _ => []
  | Element _ _ cs => flat_map textContent cs
  end.

(** *** Serialisation ([innerHTML], [outerHTML]) *)

Definition void_elements : list string :=
  ["area"; "base"; "basefont"; "bgsound"; "br"; "col"; "embed"; "frame";
   "hr"; "img"; "input"; "keygen"; "link"; "meta"; "param"; "source";
   "track"; "wbr"].
Definition raw_text_elements : list string :=
  ["style"; "script"; "xmp"; "iframe"; "noembed"; "noframes"; "plaintext"].
Definition is_void (t : string) : bool := bool_decide (t ∈ void_elements).
Definition is_raw_text (t : string) : bool := bool_decide (t ∈ raw_text_elements).

Definition escape_text (s : jsstring) : jsstring :=
  flat_map (fun c =>
    if (c =? 38)%N then lit "&amp;"
    else if (c =? 160)%N then lit "&nbsp;"
    else if (c =? 60)%N then lit "&lt;"
    else if (c =? 62)%N then lit "&gt;"
    else [c]) s.
Definition escape_attribute (s : jsstring) : jsstring :=
  flat_map (fun c =>
    if (c =? 38)%N then lit "&amp;"
    else if (c =? 160)%N then lit "&nbsp;"
    else if (c =? 34)%N then lit "&quot;"
    else [c]) s.

Definition serialize_attribute (kv : string * jsstring) : jsstring :=
  lit " " ++ lit (fst kv) ++ lit "=" ++ [34%N] ++ escape_attribute (snd kv) ++ [34%N].

(** The HTML fragment serialisation algorithm; [raw] says that the parent is
    an element whose text is written out as it is. *)
Fixpoint serialize (raw : bool) (n : node) : jsstring :=
  match n with
  | Text d => if raw then d else escape_text d
  | Comment d => lit "<!--" ++ d ++ lit "-->"
  | Element t a cs =>
      lit "<" ++ lit t ++ flat_map serialize_attribute a ++ lit ">"
      ++ (if is_void t then []
          else flat_map (serialize (is_raw_text t)) cs ++ lit "</" ++ lit t ++ lit ">")
  end.

Definition outerHTML (n : node) : jsstring := serialize false n.
Definition innerHTML (n : node) : jsstring :=
  flat_map (serialize (is_raw_text (tagName n))) (childNodes n).

(** *** Element references

    An element of a document is referred to by its path from the document
    node; the reference also carries the names of its ancestors, nearest
    first, so that the walk along [parentElement] needs no second lookup. *)
Record elem : Type := mkElem {
  e_path : list nat;
  e_anc : list string;
  e_node : node
}.

(** The element descendants of a node, in document order. *)
Fixpoint descendants_from (pth : list nat) (anc : list string) (n : node) : list elem :=
  match n with
  | Element t _ cs =>
      (fix go (i : nat) (l : list node) {struct l} : list elem :=
         match l with
         | [] => []
         | c :: l' =>
             (if isElement c then [mkElem (pth ++ [i]) (t :: anc) c] else [])
             ++ descendants_from (pth ++ [i]) (t :: anc) c
             ++ go (S i) l'
         end) 0 cs
  | _ => []
  end.

Definition descendants (e : elem) : list elem :=
  descendants_from (e_path e) (e_anc e) (e_node e).

(** [a.contains(b)]: [b] is [a] or lies below it. *)
Definition contains (a b : elem) : bool :=
  bool_decide (e_path a `prefix_of` e_path b).

(** *** The selectors the services use *)

Inductive simple_selector : Type :=
| ByTag (t : string)            (* table *)
| ByAttr (a : string).          (* [rowspan] *)

Inductive complex_selector : Type :=
| Simple (s : simple_selector)
| Descendant (anc : string) (s : simple_selector)   (* td table *)
| ScopeChild (s : simple_selector).                  (* :scope > tr *)

(** A selector list: alternatives separated by commas. *)
Definition selector := list complex_selector.

Definition matches_simple (s : simple_selector) (n : node) : bool :=
  match s with
  | ByTag t => isElement n && String.eqb (tagName n) t
  | ByAttr a => hasAttribute a n
  end.

Definition matches_complex (scope e : elem) (c : complex_selector) : bool :=
  match c with
  | Simple s => matches_simple s (e_node e)
  | Descendant a s => matches_simple s (e_node e) && bool_decide (a ∈ e_anc e)
  | ScopeChild s =>
      matches_simple s (e_node e) && (length (e_path e) =? S (length (e_path scope)))
  end.

Definition querySelectorAll (sel : selector) (scope : elem) : list elem :=
  List.filter (fun e => existsb (matches_complex scope e) sel) (descendants scope).
Definition querySelector (sel : selector) (scope : elem) : option elem :=
  head (querySelectorAll sel scope).

Definition tags (ts : list string) : selector := map (fun t => Simple (ByTag t)) ts.

(** The document node over a root element. *)
Definition document (root : node) : elem :=
  mkElem [] [] (Element "#document" [] [root]).

(** *** Mutation *)

(** The tree with the subtree at the relative path [p] replaced by the nodes
    [new]: none for [remove()], one for [replaceWith(node)]. *)
Fixpoint splice_at (p : list nat) (new : list node) (n : node) {struct p} : node :=
  match p, n with
  | [i], Element t a cs => Element t a (take i cs ++ new ++ drop (S i) cs)
  | i :: p', Element t a cs => Element t a (alter (splice_at p' new) i cs)
  | _, _ => n
  end.

End Dom.

(* ====================================================================== *)
(** ** The audit service *)
(* ====================================================================== *)

Module AuditService.
Import JS Dom.

(** *** Data model *)

Inductive severity : Type := BAD | WARN.

Inductive issue_type : Type :=
| MARKDOWN_TABLE_IN_FIELD | CONTENT_SWALLOW | MARKDOWN_DETECTED | INVALID_HTML
| NO_DATA | NESTED_TABLE | NO_HEADER | TABLE_1x1 | EMPTY_TABLE
| SPLIT_HEADER | HEADER_EMPTY | HEADER_LATEX_BROKEN | HEADER_BROKEN_STYLE
| MISSING_HEADER_TEXT | HEADER_DUP | GHOST_COLUMNS | GHOST_COLUMN
| COL_MISMATCH | SPLIT_CELL | AI_LAZY | LATEX_BROKEN | BROKEN_ENTITY
| BROKEN_STYLE_VALUE | TRUNCATED_CONTENT | WHITESPACE_ONLY | CELL_HOLE
| INVALID_ROWSPAN | BROKEN_STYLE.

#[global] Instance severity_eq_dec : EqDecision severity.
Proof. solve_decision. Defined.
#[global] Instance issue_type_eq_dec : EqDecision issue_type.
Proof. solve_decision. Defined.

(** The fields of a question that are audited, in the order of
    [FIELDS_TO_AUDIT]. *)
Inductive field : Type :=
| F_enunciado | F_resolucao | F_resolucao_aprofundada | F_texto_associado.

#[global] Instance field_eq_dec : EqDecision field.
Proof. solve_decision. Defined.

Definition FIELDS_TO_AUDIT : list field :=
  [F_enunciado; F_resolucao; F_resolucao_aprofundada; F_texto_associado].

(** A question identifier: [string | number]. *)
Inductive ident : Type := IdString (s : jsstring) | IdNumber (n : Z).

#[global] Instance ident_eq_dec : EqDecision ident.
Proof. solve_decision. Defined.

(** A question; [None] is a field that is absent, [null] or not a string. *)
Record Question : Type := {
  q_id : option ident;
  q_id_pasta : option ident;
  q_id_resolucao : option ident;
  q_enunciado : option jsstring;
  q_resolucao : option jsstring;
  q_resolucao_aprofundada : option jsstring;
  q_texto_associado : option jsstring;
  q_materia : option jsstring
}.

Definition q_field (q : Question) (f : field) : option jsstring :=
  match f with
  | F_enunciado => q_enunciado q
  | F_resolucao => q_resolucao q
  | F_resolucao_aprofundada => q_resolucao_aprofundada q
  | F_texto_associado => q_texto_associado q
  end.

(** [location?: { row?, col? }] *)
Record location : Type := { loc_row : option Z; loc_col : option Z }.

#[global] Instance location_eq_dec : EqDecision location.
Proof. solve_decision. Defined.

Definition nowhere : location := {| loc_row := None; loc_col := None |}.
Definition at_col (c : Z) : location := {| loc_row := None; loc_col := Some c |}.
Definition at_row (r : Z) : location := {| loc_row := Some r; loc_col := None |}.
Definition at_cell (r c : Z) : location := {| loc_row := Some r; loc_col := Some c |}.

(** An issue.  The random [id] of the source is left out: it takes no part
    in any decision. *)
Record Issue : Type := {
  i_qid : ident;
  i_questionIndex : nat;
  i_field : field;
  i_tableIndex : nat;
  i_severity : severity;
  i_type : issue_type;
  i_title : jsstring;
  i_location : location;
  i_rawHtml : jsstring;
  i_fullText : jsstring
}.

#[global] Instance Issue_eq_dec : EqDecision Issue.
Proof. solve_decision. Defined.

Record Context : Type := {
  c_qid : ident;
  c_questionIndex : nat;
  c_field : field;
  c_tableIndex : nat;
  c_fullText : jsstring
}.

(** *** Helpers *)

Definition getQuestionId (q : Question) : ident :=
  let present (o : option ident) : option ident :=
    match o with
    | Some (IdString []) => None
    | _ => o
    end in
  match present (q_id q), present (q_id_pasta q), present (q_id_resolucao q) with
  | Some i, _, _ => i
  | None, Some i, _ => i
  | None, None, Some i => i
  | None, None, None => IdString (lit "UNKNOWN")
  end.

Definition createIssue (context : Context) (sev : severity) (ty : issue_type)
    (title : jsstring) (loc : location) (rawHtml : jsstring) : Issue :=
  {| i_qid := c_qid context;
     i_questionIndex := c_questionIndex context;
     i_field := c_field context;
     i_tableIndex := c_tableIndex context;
     i_severity := sev;
     i_type := ty;
     i_title := title;
     i_location := loc;
     i_rawHtml := rawHtml;
     i_fullText := c_fullText context |}.

(** The decimal numeral of an integer. *)
Definition of_Z (z : Z) : jsstring :=
  match z with
  | Zneg p => lit "-" ++ of_nat (Pos.to_nat p)
  | _ => of_nat (Z.to_nat z)
  end.

Definition media_selector : selector :=
  tags ["img"; "svg"; "canvas"; "video"; "audio"; "iframe"; "math"].

(** [/<br\s*\/?>/i] *)
Definition REGEX_BR : regex :=
  sq [asc "<"; chr_i (ch "b"); chr_i (ch "r"); Star space; opt (asc "/"); asc ">"].

Definition cellHasContent (cell : elem) : bool :=
  let text := trim (textContent (e_node cell)) in
  if negb (str_eqb text []) then true
  else if bool_decide (is_Some (querySelector media_selector cell)) then true
  else if test REGEX_BR (innerHTML (e_node cell)) then true
  else false.

(** [parseInt(s, 10)]: leading white space, an optional sign, then the
    longest run of digits; [None] is [NaN].  The value is the integer the
    digits write, which is what [parseInt] returns for numerals below
    [2^53]; above, a JavaScript number is the nearest double, and from 309
    digits on it is [Infinity]. *)
Fixpoint digits_value (acc : Z) (s : jsstring) : Z :=
  match s with
  | c :: s' => if is_digit c then digits_value (10 * acc + Z.of_N (c - 48)%N) s' else acc
  | [] => acc
  end.

Definition parseInt10 (s : jsstring) : option Z :=
  let body (s : jsstring) : option Z :=
    match s with
    | c :: _ => if is_digit c then Some (digits_value 0 s) else None
    | [] => None
    end in
  match trimStart s with
  | c :: s' =>
      if (c =? 45)%N then Z.opp <$> body s'
      else if (c =? 43)%N then body s'
      else body (c :: s')
  | [] => None
  end.

(** [safeInt(v, 1)], for the numerals [parseInt10] reads exactly. *)
Definition safeInt (v : option jsstring) : nat :=
  match parseInt10 (default [] v) with
  | Some n => if (n <? 1)%Z then 1 else Z.to_nat n
  | None => 1
  end.

Definition getText (el : elem) : jsstring := trim (textContent (e_node el)).

(** *** LaTeX balance *)

(** [/^[RU]?\$\s*[\d.,]/] *)
Definition REGEX_CURRENCY_PREFIX : regex :=
  sq [opt (one_of "RU"); asc "$"; Star space;
       Cls (fun c => is_digit c || (c =? 46)%N || (c =? 44)%N)].
(** [/R\$/] *)
Definition REGEX_REAIS : regex := word (lit "R$").
(** [/^\$[^$]*\\[a-zA-Z]/] *)
Definition REGEX_DOLLAR_COMMAND : regex :=
  sq [asc "$"; Star (none_of "$"); chr 92%N; alpha].
(** [/\\(frac|sqrt|vec|sum|int|prod|alpha|beta|gamma|delta|sigma|omega|theta|phi|text)\{/] *)
Definition REGEX_LATEX_MACRO : regex :=
  sq [chr 92%N;
       alts (map (fun w => word (lit w))
               ["frac"; "sqrt"; "vec"; "sum"; "int"; "prod"; "alpha"; "beta";
                "gamma"; "delta"; "sigma"; "omega"; "theta"; "phi"; "text"]);
       asc "{"].
(** [/\\[a-zA-Z]/] *)
Definition REGEX_LATEX_COMMAND : regex := sq [chr 92%N; alpha].

Record LatexBalance : Type := { broken : bool; reason : jsstring }.

Definition checkLatexBalance (text : jsstring) : LatexBalance :=
  let trimmed := trim text in
  if length trimmed <? 3 then {| broken := false; reason := [] |}
  else if test_prefix REGEX_CURRENCY_PREFIX trimmed || test REGEX_REAIS trimmed
  then {| broken := false; reason := [] |}
  else if str_eqb trimmed (lit "{") || str_eqb trimmed (lit "}")
          || str_eqb trimmed (lit "$") || str_eqb trimmed (lit "($")
          || str_eqb trimmed (lit "$)")
  then {| broken := true; reason := lit "Orphan symbol" |}
  else if test_prefix REGEX_DOLLAR_COMMAND trimmed && (count_char 36%N trimmed =? 1)
  then {| broken := true; reason := lit "Starts with $ but unclosed" |}
  else if test REGEX_LATEX_MACRO trimmed && negb (includes trimmed (lit "$"))
  then {| broken := true; reason := lit "LaTeX command without $" |}
  else {| broken := false; reason := [] |}.

(** *** Grid builder *)

Record GridCell : Type := {
  gc_el : elem;
  gc_row : Z;
  gc_col : nat;
  gc_colspan : nat;
  gc_rowspan : nat
}.

Record TableGrid : Type := {
  expectedCols : nat;
  headerCells : list GridCell;
  bodyCells : list GridCell;
  rowWidths : list nat;
  colHasContent : list bool
}.

Definition cell_selector : selector := tags ["th"; "td"].

Definition computeExpectedColsFromHeader (headerCells : list elem) : nat :=
  foldl (fun acc c => acc + safeInt (getAttribute "colspan" (e_node c))) 0 headerCells.

(** The array [pendingRowspans]: a slot never written is a hole ([None]),
    which reads as [undefined]. *)
Abbreviation pending := (list (option nat)).

(** [pendingRowspans[c] && pendingRowspans[c] > 0] *)
Definition reserved (p : pending) (c : nat) : bool :=
  match p !! c with
  | Some (Some (S _)) => true
  | _ => false
  end.

(** [pendingRowspans[c] || 0] *)
Definition pending_or_0 (p : pending) (c : nat) : nat :=
  match p !! c with
  | Some (Some n) => n
  | _ => 0
  end.

(** [a[c] = v] on a JavaScript array: a write past the end grows the array
    and leaves holes in between. *)
Definition array_set {A} (a : list (option A)) (c : nat) (v : A) : list (option A) :=
  <[c := Some v]> (a ++ replicate (S c - length a) None).

(** The loop of [nextFreeCol]: at most [length p] steps are ever needed, as
    no slot at or past the end is reserved. *)
Fixpoint nextFreeCol_loop (fuel : nat) (p : pending) (c : nat) : nat :=
  match fuel with
  | 0 => c
  | S fuel' => if reserved p c then nextFreeCol_loop fuel' p (S c) else c
  end.
Definition nextFreeCol (p : pending) (startCol : nat) : nat :=
  nextFreeCol_loop (length p) p startCol.

Definition computeRowWidth (p : pending) (placedRightEdge : nat) : nat :=
  foldl (fun right c => if reserved p c && (right <? c + 1) then c + 1 else right)
        placedRightEdge (seq 0 (length p)).

(** The header cells, laid out left to right on row [-1]. *)
Fixpoint place_header (col : nat) (cells : list elem) : list GridCell :=
  match cells with
  | [] => []
  | cell :: rest =>
      let colspan := safeInt (getAttribute "colspan" (e_node cell)) in
      let rowspan := safeInt (getAttribute "rowspan" (e_node cell)) in
      {| gc_el := cell; gc_row := (-1)%Z; gc_col := col;
         gc_colspan := colspan; gc_rowspan := rowspan |}
      :: place_header (col + colspan) rest
  end.

(** What the body loop of [buildGrid] carries from cell to cell and from row
    to row. *)
Record GridState : Type := {
  st_pending : pending;
  st_colHasContent : list bool;
  st_bodyCells : list GridCell
}.

(** [colHasContent[col + i] = true] for [i < colspan], the array grown with
    [false] when it is too short. *)
Definition mark_content (chc : list bool) (col colspan : nat) : list bool :=
  let needed := col + colspan in
  let grown := chc ++ replicate (needed - length chc) false in
  foldl (fun a i => <[col + i := true]> a) grown (seq 0 colspan).

(** [pendingRowspans[col + i] = Math.max(pendingRowspans[col + i] || 0, rowspan - 1)]
    for [i < colspan]. *)
Definition reserve (p : pending) (col colspan rowspan : nat) : pending :=
  foldl (fun a i => array_set a (col + i) (Nat.max (pending_or_0 a (col + i)) (rowspan - 1)))
        p (seq 0 colspan).

(** One cell of a body row. *)
Definition place_cell (rIdx : nat) (acc : nat * nat * GridState) (cell : elem)
    : nat * nat * GridState :=
  let '(col0, placedRightEdge, st) := acc in
  let col := nextFreeCol (st_pending st) col0 in
  let colspan := safeInt (getAttribute "colspan" (e_node cell)) in
  let rowspan := safeInt (getAttribute "rowspan" (e_node cell)) in
  let gc := {| gc_el := cell; gc_row := Z.of_nat rIdx; gc_col := col;
               gc_colspan := colspan; gc_rowspan := rowspan |} in
  let chc := if cellHasContent cell
             then mark_content (st_colHasContent st) col colspan
             else st_colHasContent st in
  let p := if 1 <? rowspan
           then reserve (st_pending st) col colspan rowspan
           else st_pending st in
  let col' := col + colspan in
  (col', Nat.max placedRightEdge col',
   {| st_pending := p; st_colHasContent := chc;
      st_bodyCells := st_bodyCells st ++ [gc] |}).

(** The end of a row: every positive counter goes down by one. *)
Definition decrement (p : pending) : pending :=
  map (fun o => match o with Some (S n) => Some n | _ => o end) p.

(** One body row: its cells, its width, then the decrement. *)
Definition place_row (acc : GridState * list nat) (row : nat * elem)
    : GridState * list nat :=
  let '(st, widths) := acc in
  let '(rIdx, tr) := row in
  let cells := querySelectorAll (tags ["td"; "th"]) tr in
  let '(_, placedRightEdge, st1) := foldl (place_cell rIdx) (0, 0, st) cells in
  let w := computeRowWidth (st_pending st1) placedRightEdge in
  ({| st_pending := decrement (st_pending st1);
      st_colHasContent := st_colHasContent st1;
      st_bodyCells := st_bodyCells st1 |},
   widths ++ [w]).

Definition buildGrid (headerRowEl : option elem) (bodyRowEls : list elem) : TableGrid :=
  let headerRowCellsEls :=
    match headerRowEl with
    | Some h => querySelectorAll cell_selector h
    | None => []
    end in
  let expected := computeExpectedColsFromHeader headerRowCellsEls in
  let header := place_header 0 headerRowCellsEls in
  let st0 := {| st_pending := [];
                st_colHasContent := replicate (Nat.max expected 1) false;
                st_bodyCells := [] |} in
  let '(st, widths) := foldl place_row (st0, []) (imap pair bodyRowEls) in
  let derivedExpected := if 0 <? expected then expected else foldr Nat.max 0 widths in
  let finalWidth := Nat.max derivedExpected (length (st_colHasContent st)) in
  {| expectedCols := derivedExpected;
     headerCells := header;
     bodyCells := st_bodyCells st;
     rowWidths := widths;
     colHasContent :=
       st_colHasContent st ++ replicate (finalWidth - length (st_colHasContent st)) false |}.

(** *** Patterns of the issue detector *)

(** [REGEX_SPLIT_CELL]: between [^] and [$], either [\s*\$\s*] or
    [\s*[A-Za-z]_\{?\d+\}?\s*]; tested with [test_full]. *)
Definition REGEX_SPLIT_CELL : regex :=
  Alt (sq [Star space; asc "$"; Star space])
      (sq [Star space; alpha; asc "_"; opt (asc "{"); plus digit; opt (asc "}");
           Star space]).

(** [/^[\s]*[><=+*/][\s]*$/], tested with [test_full]. *)
Definition REGEX_SPLIT_OPERATOR : regex :=
  sq [Star space; one_of "><=+*/"; Star space].

(** [/\[.*(incompleta|fórmula|formula|missing|erro|check|todo|inserir|preencher).*\]/i] *)
Definition REGEX_AI_LAZY : regex :=
  sq [asc "["; Star dot;
      alts (map word_i
              [lit "incompleta"; lit "f" ++ [243%N] ++ lit "rmula"; lit "formula";
               lit "missing"; lit "erro"; lit "check"; lit "todo"; lit "inserir";
               lit "preencher"]);
      Star dot; asc "]"].

(** A negative lookahead on one character class that closes a searched
    pattern: the subject ends here, or goes on with a character outside the
    class.  To be tested with [test_suffix]. *)
Definition not_followed_by (p : char -> bool) : regex :=
  Alt Eps (Cat (Cls (fun c => negb (p c))) (Star any)).

(** [/&[a-zA-Z]+(?![a-zA-Z;])|&#\d*(?![0-9;])/], tested with [test_suffix]. *)
Definition REGEX_BROKEN_ENTITY : regex :=
  Alt (sq [asc "&"; plus alpha;
           not_followed_by (fun c => is_alpha c || (c =? 59)%N)])
      (sq [asc "&"; asc "#"; Star digit;
           not_followed_by (fun c => is_digit c || (c =? 59)%N)]).

Definition LT : regex := Cls is_line_terminator.

(** [/(^\s*\|.+\|\s*$)\s*\n\s*\|[\s:-]+\|\s*$/m], tested with [test_full]:
    under the [m] flag [^] stands at the start or after a line terminator and
    [$] at the end or before one; the inner [$] is followed by [\s*\n], so the
    character after it is the line feed itself or a line terminator that the
    white space run starts with. *)
Definition REGEX_MD_TABLE : regex :=
  sq [Alt Eps (Cat (Star any) LT);
      Star space; asc "|"; plus dot; asc "|"; Star space;
      Alt (chr 10%N) (sq [LT; Star space; chr 10%N]);
      Star space; asc "|";
      plus (Cls (fun c => is_space c || (c =? 58)%N || (c =? 45)%N));
      asc "|"; Star space;
      Alt Eps (Cat LT (Star any))].

(** [/Armadilha\s*#\d+|Estratégia\s*#\d+|Critérios para Classificação de Sigilo|mnemonica-box/i] *)
Definition REGEX_CONTENT_SWALLOW : regex :=
  alts [sq [word_i (lit "Armadilha"); Star space; asc "#"; plus digit];
        sq [word_i (lit "Estrat" ++ [233%N] ++ lit "gia"); Star space; asc "#"; plus digit];
        word_i (lit "Crit" ++ [233%N] ++ lit "rios para Classifica" ++ [231%N; 227%N]
                ++ lit "o de Sigilo");
        word_i (lit "mnemonica-box")].

(** [/style\s*=\s*[Q][^Q]*&[lg]t;/i], where [Q] stands for the two quote
    characters. *)
Definition REGEX_BROKEN_STYLE_VALUE : regex :=
  let quote (c : char) := (c =? 34)%N || (c =? 39)%N in
  sq [word_i (lit "style"); Star space; asc "="; Star space; Cls quote;
      Star (Cls (fun c => negb (quote c))); asc "&";
      Alt (chr_i (ch "l")) (chr_i (ch "g")); chr_i (ch "t"); asc ";"].

(** [/\|\s*-{3,}/] *)
Definition REGEX_MD_SEPARATOR : regex :=
  sq [asc "|"; Star space; asc "-"; asc "-"; plus (asc "-")].

(** [/^[\s|—–-]+$/], tested with [test_full]. *)
Definition REGEX_PLACEHOLDER : regex :=
  plus (Cls (fun c => is_space c || (c =? 124)%N || (c =? 8212)%N
                      || (c =? 8211)%N || (c =? 45)%N)).

(** [/\.{3,}$|…$/], tested with [test_suffix]. *)
Definition REGEX_TRUNCATED : regex :=
  Alt (sq [asc "."; asc "."; plus (asc ".")]) (chr 8230%N).

(** [/&nbsp;| /] *)
Definition REGEX_NBSP : regex := Alt (word (lit "&nbsp;")) (chr 160%N).

(** [/:\s*;|:\s*$/]: the first alternative is searched for, the second is
    tested with [test_suffix]. *)
Definition REGEX_STYLE_EMPTY_DECL : regex := sq [asc ":"; Star space; asc ";"].
Definition REGEX_STYLE_BARE_COLON : regex := sq [asc ":"; Star space].

(** [/<table/i] *)
Definition REGEX_TABLE_TAG : regex := word_i (lit "<table").

Definition financial_keywords : list jsstring :=
  [lit "d" ++ [233%N] ++ lit "bito"; lit "cr" ++ [233%N] ++ lit "dito"; lit "saldo";
   lit "valor"; lit "r$"; lit "custo"; lit "receita"; lit "despesa"; lit "total";
   lit "entradas"; lit "sa" ++ [237%N] ++ lit "das"; lit "estoque"; lit "lucro";
   lit "patrim" ++ [244%N] ++ lit "nio"].

(** A string between double quotes. *)
Definition quoted (s : jsstring) : jsstring := [34%N] ++ s ++ [34%N].

(** [R${row + 1}:C${col + 1}] *)
Definition cell_ref (gc : GridCell) : jsstring :=
  lit "R" ++ of_Z (gc_row gc + 1) ++ lit ":C" ++ of_nat (gc_col gc + 1).

Definition cell_loc (gc : GridCell) : location :=
  at_cell (gc_row gc) (Z.of_nat (gc_col gc)).

(** *** The rules of [analyzeTable], in evaluation order *)

Section Rules.
Variable context : Context.
Variable tableHtml : jsstring.

Definition issue (sev : severity) (ty : issue_type) (title : jsstring)
    (loc : location) : Issue :=
  createIssue context sev ty title loc tableHtml.

(** 3) nested tables *)
Definition nested_issues (table : elem) : list Issue :=
  let nested := querySelectorAll [Descendant "td" (ByTag "table");
                                  Descendant "th" (ByTag "table")] table in
  if 0 <? length nested
  then [issue WARN NESTED_TABLE
          (lit "Table contains " ++ of_nat (length nested)
           ++ lit " nested table(s) - verify structure") nowhere]
  else [].

(** 4) the header row and the body rows *)
Definition header_and_body (table : elem) : option elem * list elem :=
  let thead := querySelector (tags ["thead"]) table in
  let tbody := querySelector (tags ["tbody"]) table in
  match thead with
  | Some th =>
      (querySelector (tags ["tr"]) th,
       match tbody with
       | Some tb => querySelectorAll (tags ["tr"]) tb
       | None =>
           List.filter (fun r => negb (contains th r))
                       (querySelectorAll [ScopeChild (ByTag "tr")] table)
       end)
  | None =>
      let candidateRows :=
        match tbody with
        | Some tb => querySelectorAll (tags ["tr"]) tb
        | None => querySelectorAll [ScopeChild (ByTag "tr")] table
        end in
      if 0 <? length candidateRows
      then (head candidateRows, drop 1 candidateRows)
      else
        let anyRows := querySelectorAll (tags ["tr"]) table in
        (head anyRows, drop 1 anyRows)
  end.

Definition header_cells (headerRow : option elem) : list elem :=
  match headerRow with
  | Some h => querySelectorAll cell_selector h
  | None => []
  end.

Definition no_header_issues (headerRow : option elem) : list Issue :=
  if bool_decide (headerRow = None) || (length (header_cells headerRow) =? 0)
  then [issue WARN NO_HEADER (lit "Table has no identifiable header row") nowhere]
  else [].

Definition header_texts (headerCellsEls : list elem) : list jsstring :=
  map (fun c => toLowerCase (getText c)) headerCellsEls.

Definition is_financial (headerTexts : list jsstring) : bool :=
  existsb (fun t => existsb (fun k => includes t k) financial_keywords) headerTexts.

Definition total_rows (headerRow : option elem) (bodyRows : list elem) : nat :=
  (match headerRow with Some _ => 1 | None => 0 end) + length bodyRows.

(** 6) a table of one cell *)
Definition layout_1x1_issues (headerRow : option elem) (bodyRows : list elem)
    (expected : nat) : list Issue :=
  if (total_rows headerRow bodyRows =? 1) && (expected =? 1) then
    let txt := default [] (getText <$> head (header_cells headerRow)) in
    if length txt <? 100
    then [issue WARN TABLE_1x1 (lit "Table is 1x1 - possible misuse for layout") nowhere]
    else []
  else [].

Definition empty_table_issues (headerRow : option elem) (bodyRows : list elem)
    : list Issue :=
  if bool_decide (is_Some headerRow) && (length bodyRows =? 0)
  then [issue WARN EMPTY_TABLE (lit "Table has header but no data rows") nowhere]
  else [].

(** 8) one header cell *)
Definition header_cell_issues (idx : nat) (el : elem) : list Issue :=
  let txt := getText el in
  let headerInnerHtml := innerHTML (e_node el) in
  let col := lit "(col " ++ of_nat (idx + 1) ++ lit ")" in
  (if endsWith txt (lit "($") || str_eqb txt (lit ")") || str_eqb txt (lit "$)")
   then [issue BAD SPLIT_HEADER (lit "Suspicious Header Split: " ++ quoted txt)
           (at_cell 0 (Z.of_nat idx))]
   else [])
  ++ (if str_eqb txt [] && negb (cellHasContent el)
      then [issue WARN HEADER_EMPTY (lit "Empty Header " ++ col) (at_col (Z.of_nat idx))]
      else [])
  ++ (if includes txt (lit "$") || test REGEX_LATEX_COMMAND txt
      then
        let latex := checkLatexBalance txt in
        if broken latex
        then [issue BAD HEADER_LATEX_BROKEN
                (lit "Header LaTeX broken: " ++ reason latex ++ lit " " ++ col)
                (at_cell 0 (Z.of_nat idx))]
        else []
      else [])
  ++ (if test REGEX_BROKEN_STYLE_VALUE headerInnerHtml
      then [issue BAD HEADER_BROKEN_STYLE
              (lit "Header has escaped HTML in style " ++ col)
              (at_cell 0 (Z.of_nat idx))]
      else []).

Definition header_issues (headerCellsEls : list elem) : list Issue :=
  concat (imap header_cell_issues headerCellsEls).

Definition is_placeholder (h : jsstring) : bool :=
  str_eqb h [] || test_full REGEX_PLACEHOLDER (trim h).

Definition missing_header_issues (headerTexts : list jsstring) : list Issue :=
  let emptyOrPlaceholderHeaders := List.filter is_placeholder headerTexts in
  if 2 <=? length emptyOrPlaceholderHeaders
  then [issue BAD MISSING_HEADER_TEXT
          (of_nat (length emptyOrPlaceholderHeaders)
           ++ lit " headers are empty/placeholder - needs header names or colspan")
          nowhere]
  else [].

(** [xs.indexOf(x)] *)
Definition indexOf (x : jsstring) (xs : list jsstring) : option nat :=
  fst <$> list_find (fun y => y = x) xs.

(** The values of [new Set(xs)], in insertion order. *)
Fixpoint set_values (seen xs : list jsstring) : list jsstring :=
  match xs with
  | [] => []
  | x :: rest =>
      if bool_decide (x ∈ seen) then set_values seen rest
      else x :: set_values (x :: seen) rest
  end.

Definition duplicate_header_issues (headerTexts : list jsstring) : list Issue :=
  let nonEmpty := List.filter (fun h => negb (is_placeholder h)) headerTexts in
  let dups :=
    concat (imap (fun i h => if bool_decide (indexOf h nonEmpty = Some i) then [] else [h])
                 nonEmpty) in
  if 0 <? length dups
  then [issue BAD HEADER_DUP
          (lit "Duplicate Headers: " ++ join (lit ", ") (set_values [] dups)) nowhere]
  else [].

(** 9) ghost columns *)
Fixpoint leading_false (l : list bool) : nat :=
  match l with
  | false :: l' => S (leading_false l')
  | _ => 0
  end.

(** The backward loop over [colHasContent]: the run of empty columns at the
    right end. *)
Definition trailing_ghosts (chc : list bool) : nat := leading_false (rev chc).

Definition ghost_column_issue (expected cIdx : nat) (has : bool) : list Issue :=
  if has then []
  else [issue (if cIdx =? expected - 1 then BAD else WARN) GHOST_COLUMN
          (lit "Ghost Column (Col " ++ of_nat (cIdx + 1) ++ lit " empty in all rows)")
          (at_col (Z.of_nat cIdx))].

Definition ghost_issues (grid : TableGrid) (bodyRows : list elem) : list Issue :=
  let expected := expectedCols grid in
  if (1 <? expected) && (0 <? length bodyRows) then
    let chc := take expected (colHasContent grid) in
    let trailing := trailing_ghosts chc in
    if 3 <=? trailing
    then [issue BAD GHOST_COLUMNS
            (of_nat trailing ++ lit " trailing ghost columns detected") nowhere]
    else concat (imap (ghost_column_issue expected) chc)
  else [].

(** 10) row width mismatch *)
Definition width_issues (grid : TableGrid) : list Issue :=
  let expected := expectedCols grid in
  concat (imap (fun rIdx w =>
    if (0 <? expected) && negb (w =? expected)
    then [issue BAD COL_MISMATCH
            (lit "Row " ++ of_nat (rIdx + 1) ++ lit ": " ++ of_nat w
             ++ lit " logical cols (expected " ++ of_nat expected ++ lit ")")
            (at_row (Z.of_nat rIdx))]
    else []) (rowWidths grid)).

(** 11) one body cell *)
Definition cell_issues (isFinancial : bool) (gc : GridCell) : list Issue :=
  let td := gc_el gc in
  let text := getText td in
  let inner := innerHTML (e_node td) in
  let trimmedText := trim text in
  (if test_full REGEX_SPLIT_CELL text
   then [issue BAD SPLIT_CELL
           (lit "Split Cell (" ++ quoted text ++ lit ") at " ++ cell_ref gc) (cell_loc gc)]
   else [])
  ++ (if test_full REGEX_SPLIT_OPERATOR text && (length trimmedText =? 1)
      then [issue BAD SPLIT_CELL
              (lit "Split Operator (" ++ quoted text ++ lit ") at " ++ cell_ref gc)
              (cell_loc gc)]
      else [])
  ++ (if test REGEX_AI_LAZY text
      then [issue BAD AI_LAZY (lit "AI Placeholder: " ++ quoted text) (cell_loc gc)]
      else [])
  ++ (if includes text (lit "$") || test REGEX_LATEX_COMMAND text
      then
        let latex := checkLatexBalance text in
        if broken latex
        then [issue BAD LATEX_BROKEN
                (lit "LaTeX broken (" ++ reason latex ++ lit ") at " ++ cell_ref gc)
                (cell_loc gc)]
        else []
      else [])
  ++ (if test_suffix REGEX_BROKEN_ENTITY inner
      then [issue WARN BROKEN_ENTITY (lit "Broken HTML entity at " ++ cell_ref gc)
              (cell_loc gc)]
      else [])
  ++ (if test REGEX_BROKEN_STYLE_VALUE inner
      then [issue BAD BROKEN_STYLE_VALUE
              (lit "Cell has escaped HTML in style at " ++ cell_ref gc) (cell_loc gc)]
      else [])
  ++ (if test_suffix REGEX_TRUNCATED text && (10 <? length text)
      then [issue WARN TRUNCATED_CONTENT
              (lit "Content may be truncated at " ++ cell_ref gc) (cell_loc gc)]
      else [])
  ++ (if negb isFinancial
         && (str_eqb text [] && test REGEX_NBSP inner
             && (0 <? length inner) && (length inner <? 80))
      then [issue WARN WHITESPACE_ONLY
              (lit "Cell contains only whitespace/nbsp at " ++ cell_ref gc) (cell_loc gc)]
      else []).

(** The order of [arr.sort((a, b) => a.col - b.col)]. *)
Definition by_col (a b : GridCell) : Prop := gc_col a <= gc_col b.

#[global] Instance by_col_dec (a b : GridCell) : Decision (by_col a b).
Proof. unfold by_col. apply _. Defined.

(** The map [cellsByRow], each row sorted by column. *)
Definition cells_by_row (cells : list GridCell) : gmap Z (list GridCell) :=
  merge_sort by_col
  <$> foldl (fun m gc => <[gc_row gc := default [] (m !! gc_row gc) ++ [gc]]> m) ∅ cells.

(** 12) holes: a column no cell of the row covers, between two covered ones *)
Definition covered_columns (expected : nat) (arr : list GridCell) : list bool :=
  foldl (fun cov c =>
           foldl (fun cov i =>
                    let idx := gc_col c + i in
                    if idx <? expected then <[idx := true]> cov else cov)
                 cov (seq 0 (gc_colspan c)))
        (replicate expected false) arr.

Definition hole_issues (isFinancial : bool) (grid : TableGrid) (bodyRows : list elem)
    : list Issue :=
  let expected := expectedCols grid in
  let cellsByRow := cells_by_row (bodyCells grid) in
  if isFinancial then []
  else
    flat_map (fun r =>
      let arr := default [] (cellsByRow !! Z.of_nat r) in
      if length arr <? 2 then []
      else
        let covered := covered_columns expected arr in
        let cov (c : nat) := default false (covered !! c) in
        flat_map (fun c =>
          if negb (cov c) && cov (c - 1) && cov (c + 1)
          then [issue WARN CELL_HOLE
                  (lit "Potential missing cell at R" ++ of_nat (r + 1) ++ lit ":C"
                   ++ of_nat (c + 1))
                  (at_cell (Z.of_nat r) (Z.of_nat c))]
          else []) (seq 1 (expected - 2)))
      (seq 0 (length bodyRows)).

Definition rowspan_issues (table : elem) (headerRow : option elem)
    (bodyRows : list elem) : list Issue :=
  let maxRows := total_rows headerRow bodyRows in
  flat_map (fun el =>
    let rs := safeInt (getAttribute "rowspan" (e_node el)) in
    if maxRows <? rs
    then [issue BAD INVALID_ROWSPAN
            (lit "Rowspan (" ++ of_nat rs ++ lit ") exceeds table rows ("
             ++ of_nat maxRows ++ lit ")") nowhere]
    else []) (querySelectorAll [Simple (ByAttr "rowspan")] table).

Definition style_issues (table : elem) : list Issue :=
  flat_map (fun el =>
    let style := default [] (getAttribute "style" (e_node el)) in
    if test REGEX_STYLE_EMPTY_DECL style || test_suffix REGEX_STYLE_BARE_COLON style
    then [issue WARN BROKEN_STYLE (lit "Broken inline style detected") nowhere]
    else []) (querySelectorAll [Simple (ByAttr "style")] table).

(** Everything [analyzeTable] does once the table element is found and has
    rows. *)
Definition analyzeParsedTable (table : elem) : list Issue :=
  let '(headerRow, bodyRows) := header_and_body table in
  let headerCellsEls := header_cells headerRow in
  let grid := buildGrid headerRow bodyRows in
  let headerTexts := header_texts headerCellsEls in
  let isFinancial := is_financial headerTexts in
  nested_issues table
  ++ no_header_issues headerRow
  ++ layout_1x1_issues headerRow bodyRows (expectedCols grid)
  ++ empty_table_issues headerRow bodyRows
  ++ header_issues headerCellsEls
  ++ missing_header_issues headerTexts
  ++ duplicate_header_issues headerTexts
  ++ ghost_issues grid bodyRows
  ++ width_issues grid
  ++ flat_map (cell_issues isFinancial) (bodyCells grid)
  ++ hole_issues isFinancial grid bodyRows
  ++ rowspan_issues table headerRow bodyRows
  ++ style_issues table.

End Rules.

(** *** Parsing, table analysis and the audit of a document *)

Section WithParser.

(** [new JSDOM(html)]: the root element of the parsed document; [None] is
    the constructor throwing. *)
Variable JSDOM : jsstring -> option node.

Definition extractTopLevelTables (html : jsstring) : option (list elem) :=
  root ← JSDOM html;
  let all := querySelectorAll (tags ["table"]) (document root) in
  Some (List.filter (fun t => negb (bool_decide ("table" ∈ e_anc t))) all).

Definition analyzeTable (tableHtml : jsstring) (context : Context)
    : option (list Issue) :=
  let trimmed := trim tableHtml in
  if test REGEX_CONTENT_SWALLOW tableHtml then
    Some [issue context tableHtml BAD CONTENT_SWALLOW
            (lit "Table swallows layout content (Armadilha/Estrat" ++ [233%N]
             ++ lit "gia) -> AUTO-REMOVE") nowhere]
  else if startsWith trimmed (lit "|") || test REGEX_MD_SEPARATOR trimmed then
    Some [issue context tableHtml BAD MARKDOWN_DETECTED
            (lit "Output is Markdown format (Expected HTML)") nowhere]
  else
    root ← JSDOM tableHtml;
    match querySelector (tags ["table"]) (document root) with
    | None =>
        Some (if 0 <? length trimmed
              then [issue context tableHtml BAD INVALID_HTML
                      (lit "No <table> tag found in output") nowhere]
              else [])
    | Some table =>
        if length (querySelectorAll (tags ["tr"]) table) =? 0
        then Some [issue context tableHtml WARN NO_DATA
                     (lit "Table has no rows (<tr>)") nowhere]
        else Some (analyzeParsedTable context tableHtml table)
    end.

Record AuditStats : Type := { totalTables : nat; bad : nat; warn : nat }.

(** The report; the elapsed time of the source's [stats.time] is left out. *)
Record AuditReport : Type := { stats : AuditStats; issues : list Issue }.

(** The document as uploaded: an array of questions, or an object whose
    [questoes] holds it. *)
Inductive AuditInput : Type :=
| QuestionArray (qs : list Question)
| QuestionObject (questoes : option (list Question)).

Definition questions_of (data : AuditInput) : list Question :=
  match data with
  | QuestionArray qs => qs
  | QuestionObject o => default [] o
  end.

(** One field of one question: the number of top-level tables met and the
    issues found. *)
Definition audit_field (index : nat) (q : Question) (f : field)
    : option (nat * list Issue) :=
  match q_field q f with
  | None => Some (0, [])
  | Some value =>
      if str_eqb value [] then Some (0, [])
      else
        let qid := getQuestionId q in
        let ctx (idx : nat) :=
          {| c_qid := qid; c_questionIndex := index; c_field := f;
             c_tableIndex := idx; c_fullText := value |} in
        let markdown :=
          if test_full REGEX_MD_TABLE value && negb (test REGEX_TABLE_TAG value)
          then [createIssue (ctx 0) BAD MARKDOWN_TABLE_IN_FIELD
                  (lit "Field contains Markdown table instead of HTML") nowhere
                  (substring0 600 value)]
          else [] in
        topTables ← extractTopLevelTables value;
        found ← mapM (fun it => analyzeTable (outerHTML (e_node (snd it))) (ctx (fst it)))
                     (imap pair topTables);
        Some (length topTables, markdown ++ concat found)
  end.

Definition audit_question (index : nat) (q : Question) : option (nat * list Issue) :=
  per_field ← mapM (audit_field index q) FIELDS_TO_AUDIT;
  Some (foldr (fun r n => fst r + n) 0 per_field, flat_map snd per_field).

Definition auditData (data : AuditInput) : option AuditReport :=
  per_question ← mapM (fun it => audit_question (fst it) (snd it))
                      (imap pair (questions_of data));
  let allIssues := flat_map snd per_question in
  Some {| stats :=
            {| totalTables := foldr (fun r n => fst r + n) 0 per_question;
               bad := length (List.filter (fun i => bool_decide (i_severity i = BAD)) allIssues);
               warn := length (List.filter (fun i => bool_decide (i_severity i = WARN)) allIssues) |};
          issues := allIssues |}.

End WithParser.

End AuditService.

(* ====================================================================== *)
(** ** The repair service *)
(* ====================================================================== *)

Module RepairService.
Import JS Dom.

Definition MAX_VERIFICATION_ATTEMPTS : nat := 3.

(** *** Key rotation *)

Section KeyPool.

(** [OPENROUTER_KEYS]: the keys read from the environment. *)
Variable OPENROUTER_KEYS : list jsstring.

(** What a call leaves behind: a value, or an exception with its message. *)
Inductive outcome (A : Type) : Type :=
| Returned (a : A)
| Thrown (message : jsstring).
Arguments Returned {A} a.
Arguments Thrown {A} message.

(** [getNextKey()] over the module variable [keyPointer]: the key at the
    pointer ([None] is [undefined]) and the pointer moved on. *)
Definition getNextKey (keyPointer : nat) : outcome (option jsstring) * nat :=
  if length OPENROUTER_KEYS =? 0
  then (Thrown (lit "No OpenRouter keys configured. Set OPENROUTER_KEYS in .env"),
        keyPointer)
  else (Returned (OPENROUTER_KEYS !! keyPointer),
        (keyPointer + 1) mod length OPENROUTER_KEYS).

(** The indices read by [n] calls in a row, oldest first. *)
Fixpoint selected_indices (n : nat) (keyPointer : nat) : list nat :=
  match n with
  | 0 => []
  | S n' => keyPointer :: selected_indices n' (snd (getNextKey keyPointer))
  end.

(** What [n] calls in a row return, oldest first. *)
Fixpoint keys_returned (n : nat) (keyPointer : nat) : list (outcome (option jsstring)) :=
  match n with
  | 0 => []
  | S n' => fst (getNextKey keyPointer) :: keys_returned n' (snd (getNextKey keyPointer))
  end.

(** The pointer after [n] calls. *)
Fixpoint pointer_after (n : nat) (keyPointer : nat) : nat :=
  match n with
  | 0 => keyPointer
  | S n' => pointer_after n' (snd (getNextKey keyPointer))
  end.

End KeyPool.

Arguments Returned {A} a.
Arguments Thrown {A} message.

(** *** Cost *)

Record TokenUsage : Type := {
  promptTokens : float;
  completionTokens : float;
  totalTokens : float
}.

#[warnings="-inexact-float"]
Definition PRICE_INPUT_USD : float := 0.10%float.
#[warnings="-inexact-float"]
Definition PRICE_OUTPUT_USD : float := 0.40%float.
Definition USD_TO_BRL : float := 6.00%float.

Definition calculateCost (usage : TokenUsage) : float :=
  let inputCost := (promptTokens usage / 1000000 * PRICE_INPUT_USD)%float in
  let outputCost := (completionTokens usage / 1000000 * PRICE_OUTPUT_USD)%float in
  ((inputCost + outputCost) * USD_TO_BRL)%float.

Definition no_usage : TokenUsage :=
  {| promptTokens := 0%float; completionTokens := 0%float; totalTokens := 0%float |}.

(** [historyUsage.x += usage.x] for the three counters. *)
Definition add_usage (history usage : TokenUsage) : TokenUsage :=
  {| promptTokens := (promptTokens history + promptTokens usage)%float;
     completionTokens := (completionTokens history + completionTokens usage)%float;
     totalTokens := (totalTokens history + totalTokens usage)%float |}.

(** *** Validation of a candidate *)

(** The pattern of an opening tag followed, anywhere later, by the closing
    one, under the [i] flag: [<table[\s\S]*<\/table>] and [<tr[\s\S]*<\/tr>]. *)
Definition REGEX_ELEMENT (name : string) : regex :=
  sq [word_i (lit "<" ++ lit name); Star any; word_i (lit "</" ++ lit name ++ lit ">")].

Record Validation : Type := { valid : bool; errors : list jsstring }.

Definition verifyRepairedTable (html : jsstring) : Validation :=
  if negb (test (REGEX_ELEMENT "table") html)
  then {| valid := false; errors := [lit "Output does not contain a valid <table> tag"] |}
  else if negb (test (REGEX_ELEMENT "tr") html)
  then {| valid := false; errors := [lit "Table has no rows"] |}
  else {| valid := true; errors := [] |}.

(** [s.replace(/pat/g, "")] for a literal, non-empty [pat]: [skip] counts the
    characters of a match still to be dropped. *)
Fixpoint remove_all (pat : jsstring) (skip : nat) (s : jsstring) : jsstring :=
  match s with
  | [] => []
  | c :: s' =>
      match skip with
      | S k => remove_all pat k s'
      | 0 =>
          if startsWith s pat then remove_all pat (length pat - 1) s'
          else c :: remove_all pat 0 s'
      end
  end.

(** The response without its code fences, trimmed. *)
Definition cleanup (raw : jsstring) : jsstring :=
  trim (remove_all (lit "```") 0 (remove_all (lit "```html") 0 raw)).

Fixpoint startsWith_i (s p : jsstring) : bool :=
  match p, s with
  | [], _ => true
  | a :: p', b :: s' => (lower_char b =? lower_char a)%N && startsWith_i s' p'
  | _ :: _, [] => false
  end.

(** The first and the last position at which [p] stands in [s], letters
    compared without case. *)
Fixpoint indexOf_i (p s : jsstring) : option nat :=
  if startsWith_i s p then Some 0
  else match s with
       | [] => None
       | _ :: s' => S <$> indexOf_i p s'
       end.
Fixpoint lastIndexOf_i (p s : jsstring) : option nat :=
  match s with
  | [] => if startsWith_i [] p then Some 0 else None
  | _ :: s' =>
      match lastIndexOf_i p s' with
      | Some j => Some (S j)
      | None => if startsWith_i s p then Some 0 else None
      end
  end.

(** [s.match(/<table[\s\S]*<\/table>/i)]: from the first opening tag to the
    last closing tag after it. *)
Definition match_table (s : jsstring) : option jsstring :=
  i ← indexOf_i (lit "<table") s;
  let from := drop i s in
  j ← lastIndexOf_i (lit "</table>") (drop 6 from);
  Some (take (6 + j + 8) from).

(** The candidate: the cleaned response cut down to its table, if it has one. *)
Definition candidate (raw : jsstring) : jsstring :=
  let cleaned := cleanup raw in
  default cleaned (match_table cleaned).

(** *** The repair protocol *)

Inductive provider : Type := google | openrouter.
Inductive strategy : Type := hybrid | openrouter_only.
Inductive final_result : Type := success | failed.

#[global] Instance provider_eq_dec : EqDecision provider.
Proof. solve_decision. Defined.

Record RepairContext : Type := {
  rc_materia : option jsstring;
  rc_enunciado : option jsstring;
  rc_texto_associado : option jsstring;
  rc_qid : AuditService.ident;
  rc_field : jsstring
}.

Record RepairAttempt : Type := {
  attemptNumber : nat;
  a_provider : provider;
  a_prompt : jsstring;
  rawResponse : jsstring;
  cleanedHtml : jsstring;
  validationErrors : list jsstring;
  a_usage : TokenUsage
}.

(** The log of a run; the time stamp of the source is left out. *)
Record RepairLog : Type := {
  l_issueId : jsstring;
  l_qid : AuditService.ident;
  l_field : jsstring;
  attempts : list RepairAttempt;
  finalResult : final_result;
  totalCostBRL : float
}.

(** The result; an optional member that is not set is [None]. *)
Record RepairResult : Type := {
  r_issueId : jsstring;
  originalHtml : jsstring;
  repairedHtml : jsstring;
  r_success : bool;
  r_error : option jsstring;
  r_provider : option provider;
  r_usage : option TokenUsage;
  costBRL : option float;
  log : option RepairLog
}.

(** What a provider answers, with the defaults of the source applied
    ([|| ''] on the text, [|| 0] on the counters). *)
Record Reply : Type := { reply_text : jsstring; reply_usage : TokenUsage }.

Section Protocol.

(** The world outside: whatever the providers' answers depend on. *)
Variable World : Type.

(** [ai.models.generateContent] when a primary key is configured ([ai] is
    not [null]); a call answers or throws ([None]). *)
Variable ai : option (jsstring -> World -> option Reply * World).

(** [callOpenRouter(prompt, key)]: answers, or throws ([None]) on an
    exhausted key, on a transport error or on an unreadable body. *)
Variable callOpenRouter : jsstring -> option jsstring -> World -> option Reply * World.

Variable OPENROUTER_KEYS : list jsstring.

(** The two prompt builders.  The text of a prompt is a function of the
    broken markup, of the column hint and of the context (through the
    structure analysis), and for a retry also of the rejected output and of
    the reasons; no decision of the protocol reads it. *)
Variable buildRepairPrompt : jsstring -> nat -> RepairContext -> jsstring.
Variable buildRetryPrompt : jsstring -> list jsstring -> jsstring -> nat -> jsstring.

(** The state the protocol runs in: the module variable [keyPointer] and the
    world.  [iterations] is not a variable of the source: it counts the
    bodies of the attempt loop that were entered, that is, the attempts
    made. *)
Record ServiceState : Type := {
  keyPointer : nat;
  world : World;
  iterations : nat
}.

Definition with_world (st : ServiceState) (w : World) : ServiceState :=
  {| keyPointer := keyPointer st; world := w; iterations := iterations st |}.
Definition with_pointer (st : ServiceState) (p : nat) : ServiceState :=
  {| keyPointer := p; world := world st; iterations := iterations st |}.
Definition enter_iteration (st : ServiceState) : ServiceState :=
  {| keyPointer := keyPointer st; world := world st; iterations := S (iterations st) |}.

(** The inner loop over the pool: [retriesLeft] is [3 - keyRetries]. *)
Fixpoint call_pool (retriesLeft : nat) (prompt : jsstring) (st : ServiceState)
    : outcome Reply * ServiceState :=
  match retriesLeft with
  | 0 => (Thrown (lit "All OpenRouter keys failed."), st)
  | S retriesLeft' =>
      match getNextKey OPENROUTER_KEYS (keyPointer st) with
      | (Thrown msg, p) => (Thrown msg, with_pointer st p)
      | (Returned key, p) =>
          let st1 := with_pointer st p in
          match callOpenRouter prompt key (world st1) with
          | (Some reply, w) => (Returned reply, with_world st1 w)
          | (None, w) => call_pool retriesLeft' prompt (with_world st1 w)
          end
      end
  end.

(** The calls of one attempt: the primary provider on the first attempt of
    the hybrid strategy, then the pool when the primary failed, is not
    configured, or the attempt is a later one.  Returns the provider used,
    the raw text and the usage. *)
Definition call_providers (strat : strategy) (attemptsSoFar : nat)
    (providerUsed : provider) (prompt : jsstring) (st : ServiceState)
    : outcome (provider * Reply) * ServiceState :=
  let empty := {| reply_text := []; reply_usage := no_usage |} in
  let '(providerUsed1, reply1, st1) :=
    match strat, ai, attemptsSoFar, providerUsed with
    | hybrid, Some generateContent, 0, google =>
        match generateContent prompt (world st) with
        | (Some reply, w) => (google, reply, with_world st w)
        | (None, w) => (openrouter, empty, with_world st w)
        end
    | _, _, _, _ => (providerUsed, empty, st)
    end in
  if bool_decide (providerUsed1 = openrouter) || bool_decide (ai = None :> option _)
     || (0 <? attemptsSoFar)
  then
    match call_pool 3 prompt st1 with
    | (Returned reply, st2) => (Returned (openrouter, reply), st2)
    | (Thrown msg, st2) => (Thrown msg, st2)
    end
  else (Returned (providerUsed1, reply1), st1).

Section Run.
Variable issueId : jsstring.
Variable brokenHtml : jsstring.
Variable expectedCols : nat.
Variable context : RepairContext.
Variable strat : strategy.

Definition cost_of (providerUsed : provider) (historyUsage : TokenUsage) : float :=
  if bool_decide (providerUsed = openrouter) then calculateCost historyUsage
  else 0%float.

Definition make_log (attemptLogs : list RepairAttempt) (res : final_result)
    (providerUsed : provider) (historyUsage : TokenUsage) : RepairLog :=
  {| l_issueId := issueId; l_qid := rc_qid context; l_field := rc_field context;
     attempts := attemptLogs; finalResult := res;
     totalCostBRL := cost_of providerUsed historyUsage |}.

(** The three shapes of a result. *)
Definition result_success (html : jsstring) (providerUsed : provider)
    (historyUsage : TokenUsage) (attemptLogs : list RepairAttempt) : RepairResult :=
  {| r_issueId := issueId; originalHtml := brokenHtml; repairedHtml := html;
     r_success := true; r_error := None; r_provider := Some providerUsed;
     r_usage := Some historyUsage;
     costBRL := Some (cost_of providerUsed historyUsage);
     log := Some (make_log attemptLogs success providerUsed historyUsage) |}.

Definition result_critical (message : jsstring) : RepairResult :=
  {| r_issueId := issueId; originalHtml := brokenHtml; repairedHtml := [];
     r_success := false; r_error := Some message; r_provider := None;
     r_usage := None; costBRL := None; log := None |}.

Definition result_exhausted (providerUsed : provider) (historyUsage : TokenUsage)
    (attemptLogs : list RepairAttempt) : RepairResult :=
  {| r_issueId := issueId; originalHtml := brokenHtml; repairedHtml := [];
     r_success := false; r_error := Some (lit "Validation failed after 3 attempts.");
     r_provider := None; r_usage := None; costBRL := None;
     log := Some (make_log attemptLogs failed providerUsed historyUsage) |}.

(** The local variables of [repairTableWithGemini] that live across the
    iterations of the attempt loop. *)
Record Locals : Type := {
  attemptsSoFar : nat;
  currentPrompt : jsstring;
  historyUsage : TokenUsage;
  providerUsed : provider;
  attemptLogs : list RepairAttempt
}.

(** One body of the attempt loop: a result to return, or the locals for the
    next iteration. *)
Definition attempt_body (l : Locals) (st : ServiceState)
    : (RepairResult + Locals) * ServiceState :=
  let st0 := enter_iteration st in
  match call_providers strat (attemptsSoFar l) (providerUsed l) (currentPrompt l) st0 with
  | (Thrown msg, st1) => (inl (result_critical msg), st1)
  | (Returned (used, reply), st1) =>
      let html := candidate (reply_text reply) in
      let usage := reply_usage reply in
      let history := add_usage (historyUsage l) usage in
      let validation := verifyRepairedTable html in
      let logs :=
        attemptLogs l
        ++ [{| attemptNumber := attemptsSoFar l + 1; a_provider := used;
               a_prompt := currentPrompt l; rawResponse := html; cleanedHtml := html;
               validationErrors := errors validation; a_usage := usage |}] in
      if valid validation
      then (inl (result_success html used history logs), st1)
      else
        let attempts' := attemptsSoFar l + 1 in
        (inr {| attemptsSoFar := attempts';
                currentPrompt :=
                  if attempts' <? MAX_VERIFICATION_ATTEMPTS
                  then buildRetryPrompt html (errors validation) brokenHtml expectedCols
                  else currentPrompt l;
                historyUsage := history;
                providerUsed := used;
                attemptLogs := logs |},
         st1)
  end.

(** [while (attempts < MAX_VERIFICATION_ATTEMPTS) { ... }] and the return
    that follows it.  [fuel] bounds the number of bodies; [None] is the
    loop cut short by the bound, which [MAX_VERIFICATION_ATTEMPTS] bodies
    never meet. *)
Fixpoint attempt_loop (fuel : nat) (l : Locals) (st : ServiceState)
    : option RepairResult * ServiceState :=
  if attemptsSoFar l <? MAX_VERIFICATION_ATTEMPTS then
    match fuel with
    | 0 => (None, st)
    | S fuel' =>
        match attempt_body l st with
        | (inl r, st1) => (Some r, st1)
        | (inr l', st1) => attempt_loop fuel' l' st1
        end
    end
  else (Some (result_exhausted (providerUsed l) (historyUsage l) (attemptLogs l)), st).

Definition initial_locals : Locals :=
  {| attemptsSoFar := 0;
     currentPrompt := buildRepairPrompt brokenHtml expectedCols context;
     historyUsage := no_usage;
     providerUsed := match strat with openrouter_only => openrouter | hybrid => google end;
     attemptLogs := [] |}.

Definition repairTableWithGemini (st : ServiceState)
    : option RepairResult * ServiceState :=
  attempt_loop MAX_VERIFICATION_ATTEMPTS initial_locals st.

End Run.
End Protocol.

(** *** The expected-column hint *)

Section WithParser.
Variable JSDOM : jsstring -> option node.

(** [countExpectedCols]: a parse that throws is caught and counts as 0. *)
Definition countExpectedCols (html : jsstring) : nat :=
  match JSDOM html with
  | None => 0
  | Some root =>
      match querySelector (tags ["table"]) (document root) with
      | None => 0
      | Some table =>
          foldl (fun max tr =>
                   let c := length (querySelectorAll (tags ["td"; "th"]) tr) in
                   if max <? c then c else max)
                0 (querySelectorAll (tags ["tr"]) table)
      end
  end.

End WithParser.

(** *** Header texts and the structure of the broken table *)

(** [text.replace(/[\u200B\u00A0\t\n\r]/g, ' ').trim().toLowerCase()] *)
Definition cleanHeaderText (text : jsstring) : jsstring :=
  toLowerCase
    (trim (map (fun c => if (c =? 8203)%N || (c =? 160)%N || (c =? 9)%N
                            || (c =? 10)%N || (c =? 13)%N
                         then 32%N else c) text)).

(** [/^col(una|umn)?\s*\d+$/i], tested with [test_full]. *)
Definition REGEX_GENERIC_COLUMN : regex :=
  sq [word_i (lit "col"); opt (Alt (word_i (lit "una")) (word_i (lit "umn")));
      Star space; plus digit].

(** [/^header\s*\d+$/i], tested with [test_full]. *)
Definition REGEX_GENERIC_HEADER : regex :=
  sq [word_i (lit "header"); Star space; plus digit].

Definition isGenericHeader (text : jsstring) : bool :=
  let normalized := cleanHeaderText text in
  test_full REGEX_GENERIC_COLUMN normalized
  || test_full REGEX_GENERIC_HEADER normalized
  || str_eqb normalized []
  || str_eqb normalized (lit "-")
  || str_eqb normalized [8212%N]
  || str_eqb normalized (lit "|")
  || str_eqb normalized (lit ".").

(** What [analyzeTableStructure] returns. *)
Record TableStructure : Type := {
  headerCols : nat;
  realCols : nat;
  ghostCols : nat;
  hasGhostColumns : bool;
  genericHeaders : list jsstring
}.

Definition no_structure : TableStructure :=
  {| headerCols := 0; realCols := 0; ghostCols := 0; hasGhostColumns := false;
     genericHeaders := [] |}.

(** [x || fallback] on an optional string: an absent or empty one gives way. *)
Definition or_text (x : option jsstring) (fallback : jsstring) : jsstring :=
  match x with
  | Some (c :: s) => c :: s
  | _ => fallback
  end.

Section Structure.
Variable JSDOM : jsstring -> option node.

(** The body rows of [countRealColumns] mark the columns they give content
    to: a cell counts for the column of its position in the row, whatever
    its spans. *)
Definition mark_real_content (maxCols : nat) (arr : list bool) (row : elem) : list bool :=
  foldl (fun arr it =>
           if maxCols <=? fst it then arr
           else
             let text := trim (textContent (e_node (snd it))) in
             let hasMedia :=
               querySelector (tags ["img"; "svg"; "math"; "canvas"]) (snd it) in
             if negb (str_eqb text []) || bool_decide (is_Some hasMedia)
             then <[fst it := true]> arr
             else arr)
        arr (imap pair (querySelectorAll (tags ["td"; "th"]) row)).

(** The header cells mark the columns that are still empty, when there is
    no body row at all and the header text is not a generic one. *)
Definition mark_named_headers (bodyRowCount : nat) (arr : list bool)
    (headerCells : list elem) : list bool :=
  foldl (fun arr it =>
           if default false (arr !! fst it) then arr
           else
             let headerText := trim (textContent (e_node (snd it))) in
             if negb (isGenericHeader headerText) && (bodyRowCount =? 0)
             then <[fst it := true]> arr
             else arr)
        arr (imap pair headerCells).

(** [countRealColumns]: a parse that throws is caught and counts as 0. *)
Definition countRealColumns (html : jsstring) : nat :=
  match JSDOM html with
  | None => 0
  | Some root =>
      match querySelector (tags ["table"]) (document root) with
      | None => 0
      | Some table =>
          let allRows := querySelectorAll (tags ["tr"]) table in
          if length allRows =? 0 then 0
          else
            let thead := querySelector (tags ["thead"]) table in
            let headerRow :=
              match thead with
              | Some th => querySelector (tags ["tr"]) th
              | None => head allRows
              end in
            let bodyRows :=
              match thead with
              | Some th => List.filter (fun tr => negb (contains th tr)) allRows
              | None => drop 1 allRows
              end in
            let headerCells :=
              match headerRow with
              | Some h => querySelectorAll (tags ["th"; "td"]) h
              | None => []
              end in
            let maxCols := length headerCells in
            if maxCols =? 0 then 0
            else
              let colHasRealContent :=
                mark_named_headers (length bodyRows)
                  (foldl (mark_real_content maxCols) (replicate maxCols false) bodyRows)
                  headerCells in
              length (List.filter (fun b : bool => b) colHasRealContent)
      end
  end.

(** [analyzeTableStructure]: a parse that throws is caught and gives the
    all-zero structure. *)
Definition analyzeTableStructure (html : jsstring) : TableStructure :=
  match JSDOM html with
  | None => no_structure
  | Some root =>
      match querySelector (tags ["table"]) (document root) with
      | None => no_structure
      | Some table =>
          let thead := querySelector (tags ["thead"]) table in
          let firstRow :=
            match thead ≫= querySelector (tags ["tr"]) with
            | Some r => Some r
            | None => querySelector (tags ["tr"]) table
            end in
          let headerCells :=
            match firstRow with
            | Some r => querySelectorAll (tags ["th"; "td"]) r
            | None => []
            end in
          let headerCols := length headerCells in
          let genericHeaders :=
            flat_map (fun cell =>
                        let text := trim (textContent (e_node cell)) in
                        if isGenericHeader text then [or_text (Some text) (lit "(empty)")]
                        else [])
                     headerCells in
          let realCols := countRealColumns html in
          let ghostCols :=
            Z.to_nat (Z.max 0 (Z.of_nat headerCols - Z.of_nat realCols)) in
          {| headerCols := headerCols;
             realCols := realCols;
             ghostCols := ghostCols;
             hasGhostColumns := 0 <? ghostCols;
             genericHeaders := genericHeaders |}
      end
  end.

End Structure.

(** *** The prompts *)

Definition nl : jsstring := [10%N].

(** [/diferenças?|compar|versus|vs\.?|x\s/i] *)
Definition REGEX_COMPARATIVE : regex :=
  alts [sq [word_i (lit "diferen" ++ [231%N] ++ lit "a"); opt (chr_i (ch "s"))];
        word_i (lit "compar");
        word_i (lit "versus");
        sq [word_i (lit "vs"); opt (asc ".")];
        sq [chr_i (ch "x"); space]].

Definition buildRepairPrompt (brokenHtml : jsstring) (structure : TableStructure)
    (targetCols : nat) (context : RepairContext) : jsstring :=
  let isMassiveGhostColumnIssue := 3 <? ghostCols structure in
  let isHeaderMismatch := headerCols structure <? targetCols in
  let isSingleCol := targetCols <=? 1 in
  let isComparativeTable := test REGEX_COMPARATIVE brokenHtml in
  let genericHeadersList :=
    if 0 <? length (genericHeaders structure)
    then
      nl ++
      lit "    PLACEHOLDER HEADERS TO DELETE: " ++ join (lit ", ") (take 10 (genericHeaders structure)) ++ (if 10 <? length (genericHeaders structure) then lit "..." else [])
    else [] in
  let ghostWarning :=
    if hasGhostColumns structure
    then
      nl ++
      lit "--- STRUCTURAL ERROR DETECTED ---" ++ nl ++
      lit "Header columns: " ++ of_nat (headerCols structure) ++ nl ++
      lit "Columns with actual data: " ++ of_nat (realCols structure) ++ nl ++
      lit "GHOST COLUMNS: " ++ of_nat (ghostCols structure) ++ nl ++
      genericHeadersList ++ nl ++
      lit "---------------------------------" ++ nl
    else [] in
  let targetInstruction :=
    if isSingleCol
    then
        lit "TARGET: **Adaptive Columns** (Prefer 2 or 3 columns to organize the data logically)"
    else
      lit "TARGET: Final table must have **" ++ of_nat targetCols ++ lit " columns** (or more if semantics require it)." in
  let structuralInstruction :=
    if isSingleCol then
        nl ++
        lit "1. **KEY-VALUE & LOGICAL SPLITTING (MANDATORY)**" ++ nl ++
        lit "   - Analyze the content and split merged content into separate columns."
    else if isComparativeTable && (targetCols =? 2) then
        nl ++
        lit "1. **COMPARATIVE TABLE STRUCTURE (MANDATORY)**" ++ nl ++
        lit "   - REQUIRED FORMAT: 3+ columns " ++ [8594%N] ++ lit " [Aspecto/Crit" ++ [233%N] ++ lit "rio] | [Op" ++ [231%N; 227%N] ++ lit "o A] | [Op" ++ [231%N; 227%N] ++ lit "o B]"
    else if isHeaderMismatch then
        nl ++
        lit "1. **FIX HEADER COLSPAN (CRITICAL)**" ++ nl ++
        lit "   - Table body has " ++ of_nat targetCols ++ lit " columns, header only has " ++ of_nat (headerCols structure) ++ lit "." ++ nl ++
        lit "   - Add colspan to grouped headers."
    else if isMassiveGhostColumnIssue then
        nl ++
        lit "1. **GHOST COLUMN DELETION (MANDATORY)**" ++ nl ++
        lit "   - DELETE all <th> with " ++ [34%N] ++ lit "Coluna N" ++ [34%N] ++ lit " headers" ++ nl ++
        lit "   - Keep ONLY the first " ++ of_nat targetCols ++ lit " columns with real data"
    else if hasGhostColumns structure then
        nl ++
        lit "1. **GHOST COLUMN REMOVAL**" ++ nl ++
        lit "   - Remove " ++ of_nat (ghostCols structure) ++ lit " empty column(s)."
    else
        nl ++
        lit "1. **STRUCTURAL REPAIR**" ++ nl ++
        lit "   - Fix alignment issues." in
  nl ++
  lit "ROLE: You are an **Educational Content Structuring Expert** specializing in creating high-quality study materials for Brazilian public exam preparation." ++ nl ++
  nl ++
  lit "TASK: Fix the broken HTML table below." ++ nl ++
  targetInstruction ++ nl ++
  ghostWarning ++ nl ++
  lit "--- CONTEXT ---" ++ nl ++
  lit "Mat" ++ [233%N] ++ lit "ria: " ++ or_text (rc_materia context) (lit "Geral") ++ nl ++
  substring0 2000 (or_text (rc_texto_associado context) []) ++ nl ++
  substring0 1000 (or_text (rc_enunciado context) []) ++ nl ++
  lit "---------------------------------------------------------" ++ nl ++
  nl ++
  lit "INSTRUCTIONS:" ++ nl ++
  structuralInstruction ++ nl ++
  nl ++
  lit "2. **LATEX REPAIR**: Merge split cells, add missing delimiters." ++ nl ++
  lit "3. **PRESERVATION**: Keep original data, don't invent." ++ nl ++
  lit "4. **PORTUGUESE ONLY**: All text in Brazilian Portuguese." ++ nl ++
  nl ++
  lit "BROKEN TABLE:" ++ nl ++
  brokenHtml ++ nl ++
  nl ++
  lit "OUTPUT: Return ONLY <table> HTML. No markdown. No explanations." ++ nl.

Definition buildRetryPrompt (previousOutput : jsstring) (errors : list jsstring)
    (structure : TableStructure) (targetCols : nat) (originalHtml : jsstring) : jsstring :=
  nl ++
  [10060%N] ++ lit " YOUR OUTPUT WAS REJECTED " ++ [10060%N] ++ nl ++
  nl ++
  lit "ERRORS FOUND:" ++ nl ++
  join nl (map (fun e => [8226%N] ++ lit " " ++ e) errors) ++ nl ++
  nl ++
  lit "RULES:" ++ nl ++
  lit "1. Output table MUST have " ++ (if targetCols <=? 1 then lit "adaptive" else of_nat targetCols) ++ lit " columns." ++ nl ++
  lit "2. SAME headers as original." ++ nl ++
  lit "3. NO invented data." ++ nl ++
  lit "4. Fix LaTeX syntax only." ++ nl ++
  lit "5. Portuguese ONLY." ++ nl ++
  nl ++
  lit "ORIGINAL TABLE:" ++ nl ++
  originalHtml ++ nl ++
  nl ++
  lit "YOUR REJECTED OUTPUT:" ++ nl ++
  substring0 2000 previousOutput ++ nl ++
  nl ++
  lit "OUTPUT: Return the FIXED <table> HTML. No markdown." ++ nl.

(** The number of columns the prompts ask for: the columns with content,
    or the widest row of the markup when at most one column has content. *)
Definition targetCols (structure : TableStructure) (expectedCols : nat) : nat :=
  if (realCols structure <=? 1) && (1 <? expectedCols)
  then expectedCols
  else realCols structure.

Section Live.
Variable JSDOM : jsstring -> option node.
Variable World : Type.
Variable ai : option (jsstring -> World -> option Reply * World).
Variable callOpenRouter : jsstring -> option jsstring -> World -> option Reply * World.
Variable OPENROUTER_KEYS : list jsstring.

(** The first prompt of a run, from the markup, the hint and the context. *)
Definition first_prompt (brokenHtml : jsstring) (expectedCols : nat)
    (context : RepairContext) : jsstring :=
  let structure := analyzeTableStructure JSDOM brokenHtml in
  buildRepairPrompt brokenHtml structure (targetCols structure expectedCols) context.

(** The prompt after a rejected output. *)
Definition retry_prompt (previousOutput : jsstring) (errors : list jsstring)
    (brokenHtml : jsstring) (expectedCols : nat) : jsstring :=
  let structure := analyzeTableStructure JSDOM brokenHtml in
  buildRetryPrompt previousOutput errors structure (targetCols structure expectedCols)
                   brokenHtml.

(** [repairTableWithGemini] with its own two prompt builders. *)
Definition repairTable (issueId brokenHtml : jsstring) (expectedCols : nat)
    (context : RepairContext) (strat : strategy) (st : ServiceState World)
    : option RepairResult * ServiceState World :=
  repairTableWithGemini World ai callOpenRouter OPENROUTER_KEYS first_prompt retry_prompt
    issueId brokenHtml expectedCols context strat st.

End Live.

End RepairService.

(* ====================================================================== *)
(** ** The repair worker and the queue it reads from *)
(* ====================================================================== *)

Module RepairWorker.
Import JS Dom RepairService.

Inductive TaskStatus : Type :=
| PENDING | PROCESSING | COMPLETED | RETRY | FAILED | CANCELLED.

#[global] Instance TaskStatus_eq_dec : EqDecision TaskStatus.
Proof. solve_decision. Defined.

(** The optional members of [updateTaskStatus]'s [extras] that the handler
    sets after a repair. *)
Record TaskExtras : Type := {
  x_repairedHtml : option jsstring;
  x_provider : option provider;
  x_tokensUsed : option float;
  x_costBRL : option float;
  x_lastError : option jsstring;
  x_nextRetryAt : option Z
}.

Definition no_extras : TaskExtras :=
  {| x_repairedHtml := None; x_provider := None; x_tokensUsed := None;
     x_costBRL := None; x_lastError := None; x_nextRetryAt := None |}.

(** The writes the handler sends to the persistence service. *)
Inductive DbWrite : Type :=
| UpdateTaskStatus (taskId : jsstring) (status : TaskStatus) (extras : TaskExtras)
| IncrementBatchCounters (batchId : jsstring) (successCount failedCount : nat)
    (tokens cost : float)
| CreateLog (batchId : jsstring) (level message : jsstring).

Record JobPayload : Type := {
  taskId : jsstring;
  batchId : jsstring;
  questionIndex : nat;
  field : jsstring;
  tableIndex : nat;
  rawHtml : jsstring;
  attempt : nat
}.

(** How the handler ends: it returns to the queue, or it throws and the
    queue schedules the job again. *)
Inductive JobOutcome : Type :=
| JobReturned (ok : bool) (error : option jsstring)
| JobThrew (message : jsstring).

(** [x || fallback] on an optional string: an absent or empty one gives way. *)
Definition or_else (x : option jsstring) (fallback : jsstring) : jsstring :=
  match x with
  | Some (c :: s) => c :: s
  | _ => fallback
  end.

(** [Math.pow(2, attempt + 1) * 5000] *)
Definition backoff_ms (attempt : nat) : Z := (2 ^ Z.of_nat (attempt + 1) * 5000)%Z.

(** The handler from the point where [repairTableWithGemini] has returned:
    [taskMaxAttempts] is [task?.maxAttempts] as read back from the store and
    [now] is [Date.now()]. *)
Definition handle_result (job : JobPayload) (taskMaxAttempts : option nat) (now : Z)
    (result : RepairResult) : list DbWrite * JobOutcome :=
  if r_success result then
    let tokens := default 0%float (totalTokens <$> r_usage result) in
    let cost := default 0%float (costBRL result) in
    ([UpdateTaskStatus (taskId job) COMPLETED
        {| x_repairedHtml := Some (repairedHtml result);
           x_provider := r_provider result;
           x_tokensUsed := Some tokens; x_costBRL := Some cost;
           x_lastError := None; x_nextRetryAt := None |};
      IncrementBatchCounters (batchId job) 1 0 tokens cost;
      CreateLog (batchId job) (lit "INFO") (lit "Table repaired successfully")],
     JobReturned true None)
  else
    let maxAttempts :=
      match taskMaxAttempts with
      | Some (S n) => S n
      | _ => 3
      end in
    if attempt job + 1 <? maxAttempts then
      let message := or_else (r_error result) (lit "Repair failed") in
      ([UpdateTaskStatus (taskId job) RETRY
          {| x_repairedHtml := None; x_provider := None; x_tokensUsed := None;
             x_costBRL := None; x_lastError := r_error result;
             x_nextRetryAt := Some (now + backoff_ms (attempt job))%Z |};
        UpdateTaskStatus (taskId job) RETRY
          {| x_repairedHtml := None; x_provider := None; x_tokensUsed := None;
             x_costBRL := None; x_lastError := Some message;
             x_nextRetryAt := None |}],
       JobThrew message)
    else
      ([UpdateTaskStatus (taskId job) FAILED
          {| x_repairedHtml := None; x_provider := None; x_tokensUsed := None;
             x_costBRL := None; x_lastError := r_error result;
             x_nextRetryAt := None |};
        IncrementBatchCounters (batchId job) 0 1 0%float 0%float;
        CreateLog (batchId job) (lit "ERROR")
          (lit "Table repair failed after " ++ of_nat maxAttempts ++ lit " attempts")],
       JobReturned false (r_error result)).

(** The time of the next retry that the handler's writes leave on the task:
    an update sets only the members it names. *)
Definition scheduled_retry (writes : list DbWrite) : option Z :=
  foldl (fun acc w =>
           match w with
           | UpdateTaskStatus _ _ x =>
               match x_nextRetryAt x with Some t => Some t | None => acc end
           | _ => acc
           end) None writes.

(** *** The deliveries of a job *)

(** The handler reads [attempt] from [job.data].  The upload route writes
    it once, as 0, and nothing updates the payload afterwards: after a
    throw the queue hands the handler the payload the job was added with.
    [runs] gives, for each delivery in turn, [Date.now()] and what the
    repair returned; a job whose handler returned is not delivered again.
    How many deliveries a failing job gets is the queue's matter
    ([attempts] of its options, [MAX_RETRY_ATTEMPTS], 3 by default): [runs]
    has one entry for each of them. *)
Fixpoint deliveries (job : JobPayload) (taskMaxAttempts : option nat)
    (runs : list (Z * RepairResult)) : list (list DbWrite * JobOutcome) :=
  match runs with
  | [] => []
  | run :: rest =>
      let delivery := handle_result job taskMaxAttempts (fst run) (snd run) in
      delivery :: match snd delivery with
                  | JobThrew _ => deliveries job taskMaxAttempts rest
                  | JobReturned _ _ => []
                  end
  end.

(** *** Positional replacement of a table *)

Section WithParser.

(** The first two statements of [domReplace], [require('jsdom')] and
    [new JSDOM(html)], for the markup [html]: the root element of the parsed
    document, or [None] where either of them throws. *)
Variable JSDOM : jsstring -> option node.

(** The nodes that [div.innerHTML = html] gives a fresh [div]. *)
Variable parseFragment : jsstring -> list node.

(** The ancestors of [t] strictly below [body], nearest first. *)
Definition ancestors_below (body t : elem) : list string :=
  take (length (e_path t) - length (e_path body) - 1) (e_anc t).

(** The tables below [body] with no table between them and [body]. *)
Definition top_level_tables (body : elem) : list elem :=
  List.filter (fun t => negb (bool_decide ("table" ∈ ancestors_below body t)))
              (querySelectorAll (tags ["table"]) body).

(** The path of [t] from [body]. *)
Definition path_below (body t : elem) : list nat :=
  drop (length (e_path body)) (e_path t).

(** [domReplace] for an index that is a natural number, as the audit's table
    indices are.  Every statement of the source lies in one [try] whose
    [catch] returns [fullHtml]. *)
Definition domReplace (fullHtml newTableHtml : jsstring) (tableIndex : nat) : jsstring :=
  match JSDOM (lit "<body>" ++ fullHtml ++ lit "</body>") with
  | None => fullHtml
  | Some root =>
      match querySelector (tags ["body"]) (document root) with
      | None => fullHtml
      | Some body =>
          match top_level_tables body !! tableIndex with
          | None => fullHtml
          | Some targetTable =>
              let body' :=
                if str_eqb (trim newTableHtml) []
                then splice_at (path_below body targetTable) [] (e_node body)
                else
                  let tempDiv := mkElem [] [] (Element "div" [] (parseFragment newTableHtml)) in
                  match querySelector (tags ["table"]) tempDiv with
                  | Some newTable =>
                      splice_at (path_below body targetTable) [e_node newTable] (e_node body)
                  | None => e_node body
                  end in
              innerHTML body'
          end
      end
  end.

End WithParser.

(** [require('jsdom')] in the worker as it is built.  The worker is an ES
    module: it imports and exports with [import] and [export], names the
    modules of the repository with the suffix [.js], and belongs to the
    package of [app.ts], which awaits at its top level.  In the scope of an
    ES module [require] is not defined, so the first statement of
    [domReplace] throws a [ReferenceError] whatever the markup is, and no
    document is parsed. *)
Definition require_throws : jsstring -> option node := fun _ => None.

End RepairWorker.

(* ====================================================================== *)
(** ** Concrete tables, documents and runs used by the examples *)
(* ====================================================================== *)

Module Scenarios.
Import JS Dom AuditService RepairService RepairWorker.

Definition el (t : string) (cs : list node) : node := Element t [] cs.
Definition txt (s : string) : node := Text (lit s).

(** *** A cell spanning two rows *)

(** Header [H1 | H2]; first body row [A (rowspan 2) | B]; second body row
    [C]. *)
Definition rowspan_table : node :=
  el "table"
    [el "tbody"
       [el "tr" [el "th" [txt "H1"]; el "th" [txt "H2"]];
        el "tr" [Element "td" [("rowspan", lit "2")] [txt "A"]; el "td" [txt "B"]];
        el "tr" [el "td" [txt "C"]]]].

Definition rowspan_grid : TableGrid :=
  let table := mkElem [] [] rowspan_table in
  let rows := header_and_body table in
  buildGrid (fst rows) (snd rows).

(** Where the body cells were placed: (row, column). *)
Definition placements (g : TableGrid) : list (Z * nat) :=
  map (fun c => (gc_row c, gc_col c)) (bodyCells g).

(** *** The ghost-column document of the specification *)

Definition ghost_markup : jsstring :=
  lit "<table><tr><th>Coluna 1</th><th>Valor</th></tr><tr><td></td><td>10</td></tr></table>".

(** The table as the HTML parser builds it: the rows end up in a [tbody]. *)
Definition ghost_table : node :=
  el "table"
    [el "tbody"
       [el "tr" [el "th" [txt "Coluna 1"]; el "th" [txt "Valor"]];
        el "tr" [el "td" []; el "td" [txt "10"]]]].

Definition ghost_document : node :=
  el "html" [el "head" []; el "body" [ghost_table]].

Definition ghost_question : Question :=
  {| q_id := None; q_id_pasta := None; q_id_resolucao := None;
     q_enunciado := Some ghost_markup; q_resolucao := None;
     q_resolucao_aprofundada := None; q_texto_associado := None;
     q_materia := None |}.

(** A parser that knows the two strings of the scenario: the field and the
    serialised table. *)
Definition ghost_parser (s : jsstring) : option node :=
  if str_eqb s ghost_markup || str_eqb s (outerHTML ghost_table)
  then Some ghost_document
  else None.

Definition ghost_context : Context :=
  {| c_qid := IdString (lit "UNKNOWN"); c_questionIndex := 0; c_field := F_enunciado;
     c_tableIndex := 0; c_fullText := ghost_markup |}.

(** The one issue the audit of the scenario reports, up to its severity. *)
Definition ghost_issue (sev : severity) : Issue :=
  {| i_qid := IdString (lit "UNKNOWN");
     i_questionIndex := 0;
     i_field := F_enunciado;
     i_tableIndex := 0;
     i_severity := sev;
     i_type := GHOST_COLUMN;
     i_title := lit "Ghost Column (Col 1 empty in all rows)";
     i_location := at_col 0;
     i_rawHtml := outerHTML ghost_table;
     i_fullText := ghost_markup |}.

(** *** Runs of the repair protocol *)

Definition demo_context : RepairContext :=
  {| rc_materia := None; rc_enunciado := None; rc_texto_associado := None;
     rc_qid := IdNumber 7; rc_field := lit "enunciado" |}.

Definition demo_state : ServiceState unit :=
  {| keyPointer := 0; world := tt; iterations := 0 |}.

Definition demo_prompt (brokenHtml : jsstring) (expectedCols : nat)
    (context : RepairContext) : jsstring :=
  lit "Fix the broken HTML table below." ++ brokenHtml.

Definition demo_retry_prompt (previousOutput : jsstring) (errors : list jsstring)
    (originalHtml : jsstring) (expectedCols : nat) : jsstring :=
  lit "YOUR OUTPUT WAS REJECTED" ++ originalHtml.

(** A pool that answers every call with a fenced, well-formed table. *)
Definition answering_pool (prompt : jsstring) (key : option jsstring) (w : unit)
    : option Reply * unit :=
  (Some {| reply_text := lit "```html <table><tr><td>1</td></tr></table> ```";
           reply_usage := {| promptTokens := 1000000%float;
                             completionTokens := 500000%float;
                             totalTokens := 1500000%float |} |}, w).

(** A pool whose every call fails. *)
Definition failing_pool (prompt : jsstring) (key : option jsstring) (w : unit)
    : option Reply * unit :=
  (None, w).

Definition run_with (pool : jsstring -> option jsstring -> unit -> option Reply * unit)
    : option RepairResult * ServiceState unit :=
  repairTableWithGemini unit None pool [lit "sk-or-v1-a"; lit "sk-or-v1-b"]
    demo_prompt demo_retry_prompt (lit "task-1") (lit "<table><td>1</table>") 1
    demo_context openrouter_only demo_state.

(** The run against the answering pool, evaluated. *)
Definition answered_run : RepairResult * ServiceState unit :=
  Eval vm_compute in
    match run_with answering_pool with
    | (Some r, st) => (r, st)
    | (None, st) => (result_critical [] [] [], st)
    end.

(** A pool that answers its first call with a text that holds no table and
    every later call with a well-formed table; the world counts the
    calls. *)
Definition second_try_pool (prompt : jsstring) (key : option jsstring) (w : nat)
    : option Reply * nat :=
  (Some (if w =? 0
         then {| reply_text := lit "I cannot repair this.";
                 reply_usage := {| promptTokens := 100%float;
                                   completionTokens := 10%float;
                                   totalTokens := 110%float |} |}
         else {| reply_text := lit "<table><tr><td>1</td></tr></table>";
                 reply_usage := {| promptTokens := 200%float;
                                   completionTokens := 20%float;
                                   totalTokens := 220%float |} |}),
   S w).

Definition second_try : option RepairResult * ServiceState nat :=
  repairTableWithGemini nat None second_try_pool [lit "sk-or-v1-a"; lit "sk-or-v1-b"]
    demo_prompt demo_retry_prompt (lit "task-1") (lit "<table><td>1</table>") 1
    demo_context openrouter_only {| keyPointer := 0; world := 0; iterations := 0 |}.

(** The run against that pool, evaluated. *)
Definition second_try_run : RepairResult * ServiceState nat :=
  Eval vm_compute in
    match second_try with
    | (Some r, st) => (r, st)
    | (None, st) => (result_critical [] [] [], st)
    end.

(** *** A header cell spanning two columns over a one-cell body row *)

Definition colspan_markup : jsstring :=
  lit "<table><tr><th colspan=2>Total</th></tr><tr><td>10</td></tr></table>".

Definition colspan_table : node :=
  el "table"
    [el "tbody"
       [el "tr" [Element "th" [("colspan", lit "2")] [txt "Total"]];
        el "tr" [el "td" [txt "10"]]]].

Definition colspan_parser (s : jsstring) : option node :=
  if str_eqb s colspan_markup
  then Some (el "html" [el "head" []; el "body" [colspan_table]])
  else None.

Definition colspan_grid : TableGrid :=
  let table := mkElem [0; 1; 0] ["body"; "html"; "#document"] colspan_table in
  let rows := header_and_body table in
  buildGrid (fst rows) (snd rows).

(** *** Three header cells over a body row of two cells *)

Definition narrow_row_table : node :=
  el "table"
    [el "tbody"
       [el "tr" [el "th" [txt "Conta"]; el "th" [txt "Natureza"]; el "th" [txt "Grupo"]];
        el "tr" [el "td" [txt "Caixa"]; el "td" [txt "Devedora"]]]].

Definition is_col_mismatch (i : Issue) : bool := bool_decide (i_type i = COL_MISMATCH).

(** Every cell of the rows spans one column and one row. *)
Definition unit_spans (rows : list elem) : Prop :=
  ∀ tr cell,
    tr ∈ rows → cell ∈ querySelectorAll (tags ["td"; "th"]) tr →
    safeInt (getAttribute "colspan" (e_node cell)) = 1
    ∧ safeInt (getAttribute "rowspan" (e_node cell)) = 1.

(** *** A field with a paragraph and a table, and three replacements *)

Definition field_markup : jsstring :=
  lit "<p>x</p><table><tr><td>1</td></tr></table>".

Definition field_body : node :=
  el "body" [el "p" [txt "x"];
             el "table" [el "tbody" [el "tr" [el "td" [txt "1"]]]]].

Definition new_table : node :=
  el "table" [el "tbody" [el "tr" [el "td" [txt "2"]]]].

Definition field_parser (s : jsstring) : option node :=
  if str_eqb s (lit "<body>" ++ field_markup ++ lit "</body>")
  then Some (el "html" [el "head" []; field_body])
  else None.

(** The fragment parser on the replacements of the examples: a table, and a
    text without any table. *)
Definition fragment_parser (s : jsstring) : list node :=
  if str_eqb s (lit "<table><tr><td>2</td></tr></table>") then [new_table]
  else [Text s].

End Scenarios.

(* ====================================================================== *)
(** ** Notions the statements about the document tree use *)
(* ====================================================================== *)

Module Tree.
Import JS Dom.

(** The tree without any attribute. *)
Fixpoint strip_attributes (n : node) : node :=
  match n with
  | Element t _ cs => Element t [] (map strip_attributes cs)
  | _ => n
  end.

Definition strip_elem (e : elem) : elem :=
  mkElem (e_path e) (e_anc e) (strip_attributes (e_node e)).

(** [spliced new p n old n']: the tree [n'] is the tree [n] with the subtree
    [old], found at the path [p], replaced by the nodes [new]; names,
    attributes and every other child, at every level, are those of [n]. *)
Inductive spliced (new : list node) : list nat → node → node → node → Prop :=
| spliced_here t a pre old post :
    spliced new [length pre] (Element t a (pre ++ old :: post)) old
            (Element t a (pre ++ new ++ post))
| spliced_below t a pre c c' post p old :
    spliced new p c old c' →
    spliced new (length pre :: p) (Element t a (pre ++ c :: post)) old
            (Element t a (pre ++ c' :: post)).

(** Induction over a tree and all its children. *)
Section NodeInduction.
Variable P : node → Prop.
Hypothesis on_text : ∀ d, P (Text d).
Hypothesis on_comment : ∀ d, P (Comment d).
Hypothesis on_element : ∀ t a cs, Forall P cs → P (Element t a cs).

Fixpoint node_induction (n : node) : P n :=
  match n with
  | Text d => on_text d
  | Comment d => on_comment d
  | Element t a cs =>
      on_element t a cs
        ((fix all (l : list node) : Forall P l :=
            match l with
            | [] => @List.Forall_nil node P
            | c :: l' => @List.Forall_cons node P c l' (node_induction c) (all l')
            end) cs)
  end.

End NodeInduction.

(** The children part of [descendants_from], from the child index [i] on. *)
Definition children_from (pth : list nat) (t : string) (anc : list string)
    : nat → list node → list elem :=
  fix go (i : nat) (l : list node) {struct l} : list elem :=
    match l with
    | [] => []
    | c :: l' =>
        (if isElement c then [mkElem (pth ++ [i]) (t :: anc) c] else [])
        ++ descendants_from (pth ++ [i]) (t :: anc) c
        ++ go (S i) l'
    end.

End Tree.

(* ====================================================================== *)
(** ** Notions the statements about the repair protocol use *)
(* ====================================================================== *)

Module Runs.
Import JS Dom RepairService.

(** The attempts of a log whose validation failed. *)
Definition failures (lg : RepairLog) : nat :=
  length (List.filter (fun a => negb (bool_decide (validationErrors a = []))) (attempts lg)).

(** The usage accumulated over the attempts of a log. *)
Definition accumulated (logs : list RepairAttempt) : TokenUsage :=
  foldl add_usage no_usage (map a_usage logs).


(** What holds of the locals between two bodies of the attempt loop: every
    attempt so far was logged and failed validation, and the history is the
    sum over the log. *)
Record consistent (l : Locals) : Prop := {
  logged : length (attemptLogs l) = attemptsSoFar l;
  all_failed : Forall (fun a => validationErrors a ≠ []) (attemptLogs l);
  summed : historyUsage l = accumulated (attemptLogs l)
}.

Section Ends.
Variable issueId brokenHtml : jsstring.
Variable context : RepairContext.

(** The three ways a body of the attempt loop ends. *)
Inductive body_end (l : Locals) : RepairResult + Locals → Prop :=
| end_success html used entry :
    validationErrors entry = [] →
    body_end l (inl (result_success issueId brokenHtml context html used
                       (accumulated (attemptLogs l ++ [entry]))
                       (attemptLogs l ++ [entry])))
| end_critical msg :
    body_end l (inl (result_critical issueId brokenHtml msg))
| end_retry l' :
    consistent l' →
    attemptsSoFar l' = S (attemptsSoFar l) →
    body_end l (inr l').

(** How a run ends, in terms of the number [n] of bodies it entered. *)
Inductive run_end (n : nat) : RepairResult → Prop :=
| run_success html used logs entry :
    Forall (fun a => validationErrors a ≠ []) logs →
    validationErrors entry = [] →
    length (logs ++ [entry]) = n →
    run_end n (result_success issueId brokenHtml context html used
                 (accumulated (logs ++ [entry])) (logs ++ [entry]))
| run_exhausted used history logs :
    Forall (fun a => validationErrors a ≠ []) logs →
    length logs = n →
    n = MAX_VERIFICATION_ATTEMPTS →
    run_end n (result_exhausted issueId brokenHtml context used history logs)
| run_critical msg :
    run_end n (result_critical issueId brokenHtml msg).

End Ends.

End Runs.


(* ====================================================================== *)
(** ** The ghost-column rule as the specification words it *)
(* ====================================================================== *)

Module GhostRule.
Import JS Dom AuditService.

(** The two issue types of the ghost-column rule. *)
Definition is_ghost_issue (i : Issue) : bool :=
  bool_decide (i_type i = GHOST_COLUMN) || bool_decide (i_type i = GHOST_COLUMNS).

(** Column [c] is a ghost: no row contributed content to it. *)
Definition ghost (grid : TableGrid) (c : nat) : bool :=
  negb (default false (colHasContent grid !! c)).

(** The body cell [gc] contributes content to column [c]: it has content
    and covers the column. *)
Definition contributes (c : nat) (gc : GridCell) : bool :=
  cellHasContent (gc_el gc) && (gc_col gc <=? c) && (c <? gc_col gc + gc_colspan gc).

(** The state of the body loop marks a column exactly when a cell placed so
    far contributes content to it. *)
Definition content_tracked (st : GridState) : Prop :=
  ∀ c, default false (st_colHasContent st !! c)
       = existsb (contributes c) (st_bodyCells st).

(** The last [n] expected columns are all ghosts. *)
Definition trailing_ghost_run (grid : TableGrid) (n : nat) : bool :=
  (n <=? expectedCols grid)
  && forallb (ghost grid) (seq (expectedCols grid - n) n).

(** The issue for one ghost column. *)
Definition per_column_issue (context : Context) (tableHtml : jsstring)
    (grid : TableGrid) (c : nat) : Issue :=
  createIssue context
    (if c =? expectedCols grid - 1 then BAD else WARN) GHOST_COLUMN
    (lit "Ghost Column (Col " ++ of_nat (c + 1) ++ lit " empty in all rows)")
    (at_col (Z.of_nat c)) tableHtml.

(** The aggregate issue for [n] trailing ghost columns. *)
Definition aggregate_issue (context : Context) (tableHtml : jsstring) (n : nat) : Issue :=
  createIssue context BAD GHOST_COLUMNS
    (of_nat n ++ lit " trailing ghost columns detected") nowhere tableHtml.

(** The ghost-column issues of a table with the given grid and number of
    body rows. *)
Definition expected_ghost_issues (context : Context) (tableHtml : jsstring)
    (grid : TableGrid) (bodyRowCount : nat) : list Issue :=
  if (1 <? expectedCols grid) && (0 <? bodyRowCount) then
    if trailing_ghost_run grid 3
    then [aggregate_issue context tableHtml
            (trailing_ghosts (take (expectedCols grid) (colHasContent grid)))]
    else map (per_column_issue context tableHtml grid)
             (List.filter (ghost grid) (seq 0 (expectedCols grid)))
  else [].

(** No issue of the list comes from the ghost-column rule. *)
Definition no_ghost (l : list Issue) : Prop :=
  Forall (fun i => is_ghost_issue i = false) l.

End GhostRule.

(* ====================================================================== *)
(** ** Notions the statements about the audit report use *)
(* ====================================================================== *)

Module AuditNotions.
Import JS Dom AuditService.

(** The severity an issue type is always reported with.  [GHOST_COLUMN]
    alone is reported with either. *)
Definition fixed_severity (ty : issue_type) : option severity :=
  match ty with
  | GHOST_COLUMN => None
  | NO_DATA | NESTED_TABLE | NO_HEADER | TABLE_1x1 | EMPTY_TABLE | HEADER_EMPTY
  | BROKEN_ENTITY | TRUNCATED_CONTENT | WHITESPACE_ONLY | CELL_HOLE | BROKEN_STYLE =>
      Some WARN
  | _ => Some BAD
  end.

Definition graded (i : Issue) : Prop :=
  match fixed_severity (i_type i) with
  | Some s => i_severity i = s
  | None => True
  end.

(** Which members a location carries. *)
Inductive location_shape : Type := Nowhere | RowOnly | ColOnly | RowAndCol.

Definition shape (loc : location) : location_shape :=
  match loc_row loc, loc_col loc with
  | None, None => Nowhere
  | Some _, None => RowOnly
  | None, Some _ => ColOnly
  | Some _, Some _ => RowAndCol
  end.

(** The members of the location each issue type comes with. *)
Definition shape_of_type (ty : issue_type) : location_shape :=
  match ty with
  | COL_MISMATCH => RowOnly
  | HEADER_EMPTY | GHOST_COLUMN => ColOnly
  | SPLIT_HEADER | HEADER_LATEX_BROKEN | HEADER_BROKEN_STYLE | SPLIT_CELL | AI_LAZY
  | LATEX_BROKEN | BROKEN_ENTITY | BROKEN_STYLE_VALUE | TRUNCATED_CONTENT
  | WHITESPACE_ONLY | CELL_HOLE => RowAndCol
  | _ => Nowhere
  end.

Definition shaped (i : Issue) : Prop := shape (i_location i) = shape_of_type (i_type i).

(** The issue belongs to the table analysed under [context]. *)
Definition from_table (context : Context) (tableHtml : jsstring) (i : Issue) : Prop :=
  i_qid i = c_qid context
  ∧ i_questionIndex i = c_questionIndex context
  ∧ i_field i = c_field context
  ∧ i_tableIndex i = c_tableIndex context
  ∧ i_fullText i = c_fullText context
  ∧ i_rawHtml i = tableHtml.

(** The issue types [analyzeTable] can report; [MARKDOWN_TABLE_IN_FIELD] is
    reported by the audit of a field. *)
Definition table_level (i : Issue) : Prop := i_type i ≠ MARKDOWN_TABLE_IN_FIELD.

(** What holds of every issue of an analysed table: it carries the context
    it was found under, the severity fixed for its type, and the location
    members fixed for its type. *)
Definition regular (context : Context) (tableHtml : jsstring) (i : Issue) : Prop :=
  from_table context tableHtml i ∧ graded i ∧ shaped i ∧ table_level i.

(** The issue can be traced to its source in the audited document: the
    question at its index holds [fullText] in its field, and the issue is
    either the one for a Markdown table in that field, or it was found in
    the top-level table of the field that its [tableIndex] counts, whose
    serialisation is its [rawHtml]. *)
Definition traceable (JSDOM : jsstring -> option node) (data : AuditInput) (i : Issue)
    : Prop :=
  ∃ q value,
    questions_of data !! i_questionIndex i = Some q
    ∧ q_field q (i_field i) = Some value
    ∧ value ≠ []
    ∧ i_qid i = getQuestionId q
    ∧ i_fullText i = value
    ∧ ((i_type i = MARKDOWN_TABLE_IN_FIELD
        ∧ i_tableIndex i = 0
        ∧ i_rawHtml i = substring0 600 value)
       ∨ (i_type i ≠ MARKDOWN_TABLE_IN_FIELD
          ∧ ∃ tables t,
              extractTopLevelTables JSDOM value = Some tables
              ∧ tables !! i_tableIndex i = Some t
              ∧ i_rawHtml i = outerHTML (e_node t))).

(** The number of top-level tables in the audited fields of a document:
    what the report's [totalTables] stands for. *)
Definition tables_of_field (JSDOM : jsstring -> option node) (q : Question) (f : field)
    : nat :=
  match q_field q f with
  | Some (c :: value) => default 0 (length <$> extractTopLevelTables JSDOM (c :: value))
  | _ => 0
  end.

Definition tables_of_document (JSDOM : jsstring -> option node) (data : AuditInput)
    : nat :=
  sum_list (map (fun q => sum_list (map (tables_of_field JSDOM q) FIELDS_TO_AUDIT))
                (questions_of data)).

(** The report of the ghost-column document. *)
Definition ghost_report : AuditReport :=
  {| stats := {| totalTables := 1; bad := 0; warn := 1 |};
     issues := [Scenarios.ghost_issue WARN] |}.

End AuditNotions.

(* ====================================================================== *)
(** ** Notions the statements about the grid use *)
(* ====================================================================== *)

Module GridNotions.
Import JS Dom AuditService.

(** The column just past a placed cell. *)
Definition right_edge (gc : GridCell) : nat := gc_col gc + gc_colspan gc.

(** What the grid records of a cell besides its column: its row, its
    element and its two spans. *)
Definition placed (gc : GridCell) : Z * elem * nat * nat :=
  (gc_row gc, gc_el gc, gc_colspan gc, gc_rowspan gc).

(** The same for a cell of the markup met in row [r]. *)
Definition to_place (r : Z) (cell : elem) : Z * elem * nat * nat :=
  (r, cell, safeInt (getAttribute "colspan" (e_node cell)),
   safeInt (getAttribute "rowspan" (e_node cell))).

(** The cells of the body rows in document order, each with the index of its
    row. *)
Definition cells_to_place (bodyRows : list elem) : list (Z * elem * nat * nat) :=
  concat (imap (fun r tr => map (to_place (Z.of_nat r))
                                (querySelectorAll (tags ["td"; "th"]) tr))
               bodyRows).

(** Cells are listed row by row, and within a row from left to right
    without overlap. *)
Definition laid_out (cells : list GridCell) : Prop :=
  ∀ i j a b,
    i < j → cells !! i = Some a → cells !! j = Some b →
    (gc_row a ≤ gc_row b)%Z ∧ (gc_row a = gc_row b → right_edge a ≤ gc_col b).

(** Every cell ends within the width recorded for its row. *)
Definition within_widths (cells : list GridCell) (widths : list nat) : Prop :=
  ∀ a r w,
    a ∈ cells → gc_row a = Z.of_nat r → widths !! r = Some w → right_edge a ≤ w.

(** Column [c] lies under the cell. *)
Definition covers (c : nat) (gc : GridCell) : bool :=
  (gc_col gc <=? c) && (c <? right_edge gc).

(** No cell of the rows spans more than one row. *)
Definition no_rowspan (rows : list elem) : Prop :=
  ∀ tr cell,
    tr ∈ rows → cell ∈ querySelectorAll (tags ["td"; "th"]) tr →
    safeInt (getAttribute "rowspan" (e_node cell)) = 1.

(** Every column to the left of a cell lies under a cell of the same row. *)
Definition gapless (cells : list GridCell) : Prop :=
  ∀ a c,
    a ∈ cells → c < right_edge a →
    ∃ b, b ∈ cells ∧ gc_row b = gc_row a ∧ covers c b = true.

Definition is_cell_hole (i : Issue) : bool := bool_decide (i_type i = CELL_HOLE).

End GridNotions.

(* ====================================================================== *)
(** ** Notions the statements about header texts and LaTeX use *)
(* ====================================================================== *)

Module TextNotions.
Import JS Dom AuditService.

(** The header texts that name a column: those that are neither empty nor
    made of separator characters only. *)
Definition named_headers (headerTexts : list jsstring) : list jsstring :=
  List.filter (fun h => negb (is_placeholder h)) headerTexts.

(** The text stands at two positions of the list. *)
Definition repeated (h : jsstring) (l : list jsstring) : Prop :=
  ∃ i j, i < j ∧ l !! i = Some h ∧ l !! j = Some h.

(** A cell text with a dollar sign that is never closed. *)
Definition unclosed_formula : jsstring := lit "$\frac{1}{2".

End TextNotions.

(* ====================================================================== *)
(** ** Notions the statements about the attempt log use *)
(* ====================================================================== *)

Module RunNotions.
Import JS Dom RepairService.

Section Log.

(** The first prompt of the run and the builder of the prompts that follow
    a rejected output. *)
Variable first : jsstring.
Variable retry : jsstring -> list jsstring -> jsstring.

(** The prompt the attempt at position [k] of the log is made with. *)
Definition prompt_at (logs : list RepairAttempt) (k : nat) : jsstring :=
  match k with
  | 0 => first
  | S k' =>
      match logs !! k' with
      | Some before => retry (cleanedHtml before) (validationErrors before)
      | None => first
      end
  end.

(** The entries are numbered from 1; each holds the candidate both as raw
    response and as cleaned markup, with the verdict of the validation on
    it; only the first can come from the primary provider; and each was
    made with the prompt its place in the log calls for. *)
Definition chained (logs : list RepairAttempt) : Prop :=
  ∀ k a,
    logs !! k = Some a →
    attemptNumber a = k + 1
    ∧ rawResponse a = cleanedHtml a
    ∧ validationErrors a = errors (verifyRepairedTable (cleanedHtml a))
    ∧ (0 < k → a_provider a = openrouter)
    ∧ a_prompt a = prompt_at logs k.

End Log.

(** What a result looks like when it reports success, and when it does
    not. *)
Definition well_shaped (issueId brokenHtml : jsstring) (r : RepairResult) : Prop :=
  r_issueId r = issueId
  ∧ originalHtml r = brokenHtml
  ∧ if r_success r
    then
      r_error r = None
      ∧ valid (verifyRepairedTable (repairedHtml r)) = true
      ∧ ∃ lg a usage cost,
          log r = Some lg
          ∧ last (attempts lg) = Some a
          ∧ repairedHtml r = cleanedHtml a
          ∧ validationErrors a = []
          ∧ r_provider r = Some (a_provider a)
          ∧ r_usage r = Some usage
          ∧ costBRL r = Some cost
          ∧ totalCostBRL lg = cost
          ∧ finalResult lg = success
    else
      repairedHtml r = []
      ∧ is_Some (r_error r)
      ∧ r_provider r = None
      ∧ r_usage r = None
      ∧ costBRL r = None
      ∧ ∀ lg, log r = Some lg →
              finalResult lg = failed
              ∧ Forall (fun a => validationErrors a ≠ []) (attempts lg).

(** What links the locals of the attempt loop to the log so far. *)
Definition on_track (first : jsstring) (retry : jsstring -> list jsstring -> jsstring)
    (l : Locals) : Prop :=
  length (attemptLogs l) = attemptsSoFar l
  ∧ chained first retry (attemptLogs l)
  ∧ Forall (fun a => validationErrors a ≠ []) (attemptLogs l)
  ∧ (attemptsSoFar l < MAX_VERIFICATION_ATTEMPTS →
     currentPrompt l = prompt_at first retry (attemptLogs l) (attemptsSoFar l)).

(** A result whose log, if it has one, is chained, and which is well
    shaped. *)
Definition sound_result (first : jsstring) (retry : jsstring -> list jsstring -> jsstring)
    (issueId brokenHtml : jsstring) (r : RepairResult) : Prop :=
  well_shaped issueId brokenHtml r
  ∧ ∀ lg, log r = Some lg → chained first retry (attempts lg).

(** [s] ends with [p], letters compared without case. *)
Definition endsWith_i (s p : jsstring) : bool := startsWith_i (rev s) (rev p).

(** Markup that is one table block: it opens with the table's opening tag
    and closes with a table's closing tag, with nothing before or after. *)
Definition table_block (html : jsstring) : bool :=
  startsWith_i html (lit "<table") && endsWith_i html (lit "</table>").

(** A response in a code fence with a sentence before the table. *)
Definition fenced_response : jsstring :=
  lit "```html" ++ [10%N] ++ lit "Here it is: <TABLE><tr><td>1</td></tr></TABLE> Done."
  ++ [10%N] ++ lit "```".

(** Two sets of locals that differ at most in the provider recorded before
    the first attempt. *)
Definition same_but_provider (l1 l2 : Locals) : Prop :=
  attemptsSoFar l1 = attemptsSoFar l2
  ∧ currentPrompt l1 = currentPrompt l2
  ∧ historyUsage l1 = historyUsage l2
  ∧ attemptLogs l1 = attemptLogs l2
  ∧ (attemptsSoFar l1 = 0 ∨ providerUsed l1 = providerUsed l2).

(** The message of [getNextKey] when the pool is empty. *)
Definition NO_KEYS : jsstring :=
  lit "No OpenRouter keys configured. Set OPENROUTER_KEYS in .env".

(** A run of the pool strategy with no key configured. *)
Definition keyless_run : option RepairResult * ServiceState unit :=
  repairTableWithGemini unit None Scenarios.answering_pool []
    Scenarios.demo_prompt Scenarios.demo_retry_prompt (lit "task-1")
    (lit "<table><td>1</table>") 1 Scenarios.demo_context openrouter_only
    Scenarios.demo_state.

End RunNotions.

(* ====================================================================== *)
(** ** The upload route and the queue's bulk helper *)
(* ====================================================================== *)

Module BatchRoutes.
Import JS Dom AuditService RepairService RepairWorker.

(** [options.severityFilter] *)
Inductive severity_filter : Type := FILTER_BAD | FILTER_WARN | FILTER_ALL.

(** [filteredIssues] *)
Definition filter_issues (severityFilter : severity_filter) (issues : list Issue)
    : list Issue :=
  match severityFilter with
  | FILTER_ALL => issues
  | _ =>
      List.filter (fun i => match severityFilter with
                            | FILTER_BAD => bool_decide (i_severity i = BAD)
                            | _ => true
                            end) issues
  end.

(** The name of an audited field, as an issue carries it. *)
Definition field_name (f : AuditService.field) : jsstring :=
  match f with
  | F_enunciado => lit "enunciado"
  | F_resolucao => lit "resolucao"
  | F_resolucao_aprofundada => lit "resolucao_aprofundada"
  | F_texto_associado => lit "texto_associado"
  end.

(** The key of [taskMap]: the template literal
    [${issue.questionIndex}-${issue.field}-${issue.tableIndex}], the indices
    printed as the decimal numerals they are below [10^21]. *)
Definition task_key (issue : Issue) : jsstring :=
  of_nat (i_questionIndex issue) ++ lit "-" ++ field_name (i_field issue) ++ lit "-"
  ++ of_nat (i_tableIndex issue).

(** *** The uploaded document *)

(** A member of a question as [JSON.parse] leaves it, for the two members on
    which the route calls [substring]: missing or [null]; a string; or a
    value of another type (a number, a boolean, an array, an object). *)
Inductive member : Type :=
| Missing
| Str (s : jsstring)
| NotStr.

(** What [Question] keeps of such a member: its text, if it is a string. *)
Definition text_of (m : member) : option jsstring :=
  match m with
  | Str s => Some s
  | _ => None
  end.

(** A question of the uploaded document.  [enunciado] and
    [texto_associado] are held as the parse leaves them; the other members
    are held as [Question] holds them. *)
Record UploadedQuestion : Type := {
  u_id : option ident;
  u_id_pasta : option ident;
  u_id_resolucao : option ident;
  u_enunciado : member;
  u_resolucao : option jsstring;
  u_resolucao_aprofundada : option jsstring;
  u_texto_associado : member;
  u_materia : option jsstring
}.

(** The question as the audit reads it: a field that is not a string is
    skipped, whatever else it is. *)
Definition audited (u : UploadedQuestion) : Question :=
  {| q_id := u_id u; q_id_pasta := u_id_pasta u; q_id_resolucao := u_id_resolucao u;
     q_enunciado := text_of (u_enunciado u); q_resolucao := u_resolucao u;
     q_resolucao_aprofundada := u_resolucao_aprofundada u;
     q_texto_associado := text_of (u_texto_associado u); q_materia := u_materia u |}.

(** [jsonData]: an array of questions, or an object whose [questoes] holds
    it. *)
Inductive Uploaded : Type :=
| UploadedArray (qs : list UploadedQuestion)
| UploadedObject (questoes : option (list UploadedQuestion)).

(** [questions] *)
Definition uploaded_questions (jsonData : Uploaded) : list UploadedQuestion :=
  match jsonData with
  | UploadedArray qs => qs
  | UploadedObject o => default [] o
  end.

(** [jsonData] as [auditData] reads it. *)
Definition audit_input (jsonData : Uploaded) : AuditInput :=
  match jsonData with
  | UploadedArray qs => QuestionArray (map audited qs)
  | UploadedObject o => QuestionObject (map audited <$> o)
  end.

(** [m?.substring(0, n)] for a member [m]: optional chaining stops at a
    missing or [null] member and gives [undefined]; a string is cut; a
    value of another type has no [substring], and calling it throws a
    [TypeError] ([None]). *)
Definition substring_of (n : nat) (m : member) : option (option jsstring) :=
  match m with
  | Missing => Some None
  | Str s => Some (Some (substring0 n s))
  | NotStr => None
  end.

Section Upload.

(** [batch.id] *)
Variable batch_id : jsstring.

(** [task.id] of the task that [db.createTask] creates when the request has
    created [n] tasks before it. *)
Variable task_id : nat -> jsstring.

(** [questions]: the array of the uploaded document. *)
Variable questions : list UploadedQuestion.

(** [context], or [None] when building it throws; an index past the array
    gives [undefined] for [q], where every chain stops.  The members
    [assunto] and [topico], which the repair service never reads, are left
    out as they are in [RepairContext]. *)
Definition context_of (issue : Issue) : option RepairContext :=
  let q := questions !! i_questionIndex issue in
  enunciado ← substring_of 1000 (default Missing (u_enunciado <$> q));
  texto_associado ← substring_of 2000 (default Missing (u_texto_associado <$> q));
  Some {| rc_materia := q ≫= u_materia;
          rc_enunciado := enunciado;
          rc_texto_associado := texto_associado;
          rc_qid := i_qid issue;
          rc_field := field_name (i_field issue) |}.

(** The payload put into [taskMap] for [issue] when [created] tasks were
    created before. *)
Definition payload_of (created : nat) (issue : Issue) : JobPayload :=
  {| taskId := task_id created; batchId := batch_id;
     questionIndex := i_questionIndex issue; field := field_name (i_field issue);
     tableIndex := i_tableIndex issue; rawHtml := i_rawHtml issue; attempt := 0 |}.

(** [taskMap]: a [Map] hands out its entries in the order in which their
    keys were first set.  An entry holds the payload and the context that
    travels with it. *)
Definition TaskMap : Type := list (jsstring * (JobPayload * RepairContext)).

Definition has (key : jsstring) (taskMap : TaskMap) : bool :=
  existsb (fun entry => str_eqb (fst entry) key) taskMap.

(** One round of the loop over [filteredIssues]: the map after it, or
    [None] when building the context throws. *)
Definition add_task (taskMap : TaskMap) (issue : Issue) : option TaskMap :=
  let key := task_key issue in
  if has key taskMap then Some taskMap
  else
    context ← context_of issue;
    Some (taskMap ++ [(key, (payload_of (length taskMap) issue, context))]).

(** How the loop ends: with the map of the tasks to queue, or at a throw,
    with the tasks created until then (they stay in the store). *)
Inductive Created : Type :=
| Completed (taskMap : TaskMap)
| Threw (created : TaskMap).

Fixpoint create_tasks_from (taskMap : TaskMap) (filteredIssues : list Issue) : Created :=
  match filteredIssues with
  | [] => Completed taskMap
  | issue :: rest =>
      match add_task taskMap issue with
      | Some taskMap' => create_tasks_from taskMap' rest
      | None => Threw taskMap
      end
  end.

Definition create_tasks (filteredIssues : list Issue) : Created :=
  create_tasks_from [] filteredIssues.

(** [Array.from(taskMap.values())] *)
Definition jobs_of (taskMap : TaskMap) : list JobPayload := map (fun e => fst (snd e)) taskMap.

End Upload.

(** An entry of the bulk that [addBulkRepairJobs] hands to the queue. *)
Record BulkJob : Type := {
  j_name : jsstring;
  j_data : JobPayload;
  j_jobId : jsstring;
  j_priority : nat
}.

Definition addBulkRepairJobs (payloads : list JobPayload) : list BulkJob :=
  imap (fun index payload =>
          {| j_name := lit "repair-table"; j_data := payload;
             j_jobId := taskId payload; j_priority := index |}) payloads.

(** What the route hands to the queue: the jobs of the tasks when the loop
    has ended; nothing after a throw, which the handler's [catch] answers
    with the status 500. *)
Definition queued (created : Created) : list BulkJob :=
  match created with
  | Completed taskMap => addBulkRepairJobs (jobs_of taskMap)
  | Threw _ => []
  end.

End BatchRoutes.

(* ====================================================================== *)
(** ** Notions the statements about the upload use *)
(* ====================================================================== *)

Module BatchNotions.
Import JS Dom AuditService RepairService RepairWorker BatchRoutes.

(** The table an issue is about: the question, the field and the position
    of the table in the field. *)
Definition table_of (issue : Issue) : nat * AuditService.field * nat :=
  (i_questionIndex issue, i_field issue, i_tableIndex issue).

(** The issues that are the first of their table, in the order of the
    list; [seen] holds the tables met so far. *)
Fixpoint first_issues (seen : list (nat * AuditService.field * nat)) (issues : list Issue)
    : list Issue :=
  match issues with
  | [] => []
  | issue :: rest =>
      if bool_decide (table_of issue ∈ seen) then first_issues seen rest
      else issue :: first_issues (seen ++ [table_of issue]) rest
  end.

(** [issue], at position [n], is the first issue of its table. *)
Definition first_of_its_table (issues : list Issue) (n : nat) (issue : Issue) : Prop :=
  issues !! n = Some issue
  ∧ ∀ m other, m < n → issues !! m = Some other → table_of other ≠ table_of issue.

(** The entry of [taskMap] for an issue and the context built for it, as
    the task number [k]. *)
Definition entry (batch_id : jsstring) (task_id : nat -> jsstring) (k : nat)
    (built : Issue * RepairContext) : jsstring * (JobPayload * RepairContext) :=
  (task_key (fst built), (payload_of batch_id task_id k (fst built), snd built)).

(** The question of the ghost-column document as uploaded, and the same
    question with a number for its [texto_associado]. *)
Definition ghost_upload : UploadedQuestion :=
  {| u_id := None; u_id_pasta := None; u_id_resolucao := None;
     u_enunciado := Str Scenarios.ghost_markup; u_resolucao := None;
     u_resolucao_aprofundada := None; u_texto_associado := Missing;
     u_materia := None |}.

Definition ghost_upload_with_number : UploadedQuestion :=
  {| u_id := None; u_id_pasta := None; u_id_resolucao := None;
     u_enunciado := Str Scenarios.ghost_markup; u_resolucao := None;
     u_resolucao_aprofundada := None; u_texto_associado := NotStr;
     u_materia := None |}.

End BatchNotions.
(* ====================================================================== *)
(** ** The output file of a batch *)
(* ====================================================================== *)

Module WorkerOutput.
Import JS Dom AuditService RepairService RepairWorker.

(** A row of the task table, with the members the output is made from.
    The field is one of the audited fields, as the upload creates the
    tasks. *)
Record Task : Type := {
  t_questionIndex : nat;
  t_field : AuditService.field;
  t_tableIndex : nat;
  t_repairedHtml : option jsstring;
  t_status : TaskStatus
}.

(** [grouped]: a [Map] from question index to tasks, its entries in the
    order in which their keys were first set. *)
Definition Grouped : Type := list (nat * list Task).

Definition get (key : nat) (grouped : Grouped) : option (list Task) :=
  snd <$> List.find (fun entry => fst entry =? key) grouped.

Definition set (key : nat) (value : list Task) (grouped : Grouped) : Grouped :=
  if existsb (fun entry => fst entry =? key) grouped
  then map (fun entry => if fst entry =? key then (key, value) else entry) grouped
  else grouped ++ [(key, value)].

(** The loop of [getCompletedTasksGroupedByQuestion] over the rows its
    query returns. *)
Definition group_by_question (tasks : list Task) : Grouped :=
  foldl (fun grouped task =>
           let existing := default [] (get (t_questionIndex task) grouped) in
           set (t_questionIndex task) (existing ++ [task]) grouped)
        [] tasks.

(** [q[field] = newValue] *)
Definition set_field (q : Question) (f : AuditService.field) (v : jsstring) : Question :=
  match f with
  | F_enunciado =>
      {| q_id := q_id q; q_id_pasta := q_id_pasta q; q_id_resolucao := q_id_resolucao q;
         q_enunciado := Some v; q_resolucao := q_resolucao q;
         q_resolucao_aprofundada := q_resolucao_aprofundada q;
         q_texto_associado := q_texto_associado q; q_materia := q_materia q |}
  | F_resolucao =>
      {| q_id := q_id q; q_id_pasta := q_id_pasta q; q_id_resolucao := q_id_resolucao q;
         q_enunciado := q_enunciado q; q_resolucao := Some v;
         q_resolucao_aprofundada := q_resolucao_aprofundada q;
         q_texto_associado := q_texto_associado q; q_materia := q_materia q |}
  | F_resolucao_aprofundada =>
      {| q_id := q_id q; q_id_pasta := q_id_pasta q; q_id_resolucao := q_id_resolucao q;
         q_enunciado := q_enunciado q; q_resolucao := q_resolucao q;
         q_resolucao_aprofundada := Some v;
         q_texto_associado := q_texto_associado q; q_materia := q_materia q |}
  | F_texto_associado =>
      {| q_id := q_id q; q_id_pasta := q_id_pasta q; q_id_resolucao := q_id_resolucao q;
         q_enunciado := q_enunciado q; q_resolucao := q_resolucao q;
         q_resolucao_aprofundada := q_resolucao_aprofundada q;
         q_texto_associado := Some v; q_materia := q_materia q |}
  end.

Section WithParser.

Variable JSDOM : jsstring -> option node.
Variable parseFragment : jsstring -> list node.

(** The body of the loop over the tasks of a question: the question after
    the task, and whether [modifiedCount] goes up. *)
Definition apply_task (q : Question) (task : Task) : Question * bool :=
  match t_repairedHtml task with
  | Some (c :: html) =>
      if bool_decide (t_status task = COMPLETED) then
        match q_field q (t_field task) with
        | Some (d :: value) =>
            let newValue :=
              domReplace JSDOM parseFragment (d :: value) (c :: html) (t_tableIndex task) in
            if str_eqb newValue (d :: value) then (q, false)
            else (set_field q (t_field task) newValue, true)
        | _ => (q, false)
        end
      else (q, false)
  | _ => (q, false)
  end.

Definition apply_tasks (q : Question) (modifiedCount : nat) (tasks : list Task)
    : Question * nat :=
  foldl (fun state task =>
           let '(q1, modified) := apply_task (fst state) task in
           (q1, if modified then S (snd state) else snd state))
        (q, modifiedCount) tasks.

(** The body of the loop over the entries of the map; a question changed
    in place is the question at its index from then on. *)
Definition apply_group (state : list Question * nat) (group : nat * list Task)
    : list Question * nat :=
  match fst state !! fst group with
  | None => state
  | Some q =>
      let '(q', modifiedCount) := apply_tasks q (snd state) (snd group) in
      (<[fst group := q']> (fst state), modifiedCount)
  end.

(** [generateOutputFile] from the parsed document and the rows of the
    completed tasks to the document it writes and the count it logs. *)
Definition generateOutputFile (originalData : AuditInput) (rows : list Task)
    : AuditInput * nat :=
  let questions := questions_of originalData in
  let '(questions', modifiedCount) :=
    foldl apply_group (questions, 0) (group_by_question rows) in
  (match originalData with
   | QuestionArray _ => QuestionArray questions'
   | QuestionObject _ => QuestionObject (Some questions')
   end, modifiedCount).

End WithParser.

(** The task is one whose repair the output applies. *)
Definition applicable (task : Task) : Prop :=
  t_status task = COMPLETED ∧ ∃ c html, t_repairedHtml task = Some (c :: html).

(** The value of a field is a string that is not empty. *)
Definition holds_text (value : option jsstring) : Prop := ∃ c s, value = Some (c :: s).

(** The members of a question that no repair writes. *)
Definition same_identity (q q' : Question) : Prop :=
  q_id q' = q_id q ∧ q_id_pasta q' = q_id_pasta q
  ∧ q_id_resolucao q' = q_id_resolucao q ∧ q_materia q' = q_materia q.

(** What the output may differ in from the document: a question at index
    [k] keeps its identity, and a field of it has another value only if a
    task of [rows] for this question and field is applicable and the
    field held text. *)
Definition repaired_from (rows : list Task) (before after : list Question) : Prop :=
  length after = length before
  ∧ ∀ k q, before !! k = Some q →
      ∃ q', after !! k = Some q'
        ∧ same_identity q q'
        ∧ ∀ f, q_field q' f ≠ q_field q f →
               ∃ task, task ∈ rows ∧ t_questionIndex task = k ∧ t_field task = f
                       ∧ applicable task ∧ holds_text (q_field q f).

(** Every task of a group is a row, filed under its question. *)
Definition grouped_from (rows : list Task) (grouped : Grouped) : Prop :=
  ∀ k ts t, (k, ts) ∈ grouped → t ∈ ts → t ∈ rows ∧ t_questionIndex t = k.

(** What the tasks of one question may change in it. *)
Definition touched_by (tasks : list Task) (q q' : Question) : Prop :=
  same_identity q q'
  ∧ ∀ f, q_field q' f ≠ q_field q f →
         ∃ task, task ∈ tasks ∧ t_field task = f ∧ applicable task ∧ holds_text (q_field q f).

End WorkerOutput.
(* ====================================================================== *)
(** ** Notions the statements about a job use *)
(* ====================================================================== *)

Module JobNotions.
Import JS Dom RepairService RepairWorker RunNotions.

(** The handler stored the repair of [result], counted one success for the
    batch and returned. *)
Definition completed_with (job : JobPayload) (result : RepairResult)
    (writes : list DbWrite) (outcome : JobOutcome) : Prop :=
  outcome = JobReturned true None
  ∧ ∃ extras tokens cost,
      writes = [UpdateTaskStatus (taskId job) COMPLETED extras;
                IncrementBatchCounters (batchId job) 1 0 tokens cost;
                CreateLog (batchId job) (lit "INFO") (lit "Table repaired successfully")]
      ∧ x_repairedHtml extras = Some (repairedHtml result)
      ∧ x_provider extras = r_provider result.

(** The handler marked the task for a retry [delay] ms from [now] and threw
    the error of [result]: every write is an update of the task to [RETRY],
    and no counter of the batch moves. *)
Definition sent_back (job : JobPayload) (now delay : Z) (result : RepairResult)
    (writes : list DbWrite) (outcome : JobOutcome) : Prop :=
  outcome = JobThrew (or_else (r_error result) (lit "Repair failed"))
  ∧ Forall (fun w => ∃ extras, w = UpdateTaskStatus (taskId job) RETRY extras) writes
  ∧ scheduled_retry writes = Some (now + delay)%Z.

(** A job as the upload creates it. *)
Definition demo_job : JobPayload :=
  {| taskId := lit "task-1"; batchId := lit "batch-1"; questionIndex := 0;
     field := lit "enunciado"; tableIndex := 0;
     rawHtml := lit "<table><td>1</table>"; attempt := 0 |}.

(** A parser that throws on every input. *)
Definition throwing_parser (html : jsstring) : option node := None.

End JobNotions.
(* ====================================================================== *)
(** ** Notions the statement about plain tables uses *)
(* ====================================================================== *)

Module CleanNotions.
Import JS Dom AuditService.

(** Letters of the Basic Latin and Latin-1 blocks, digits, and the space
    between words. *)
Definition is_letter (c : char) : bool :=
  is_alpha c || is_upper_latin1 c || is_lower_latin1 c.
Definition word_char (c : char) : bool := is_letter c || is_digit c.
Definition plain_char (c : char) : bool := word_char c || (c =? 32)%N.

(** A text of words: it starts and ends with a letter or a digit and holds
    nothing but letters, digits and single spaces or runs of them. *)
Definition plain_text (s : jsstring) : bool :=
  forallb plain_char s
  && default false (word_char <$> head s)
  && default false (word_char <$> last s).

(** A cell that holds one plain text and nothing else, and spans one
    column and one row. *)
Definition plain_cell (cell : elem) : bool :=
  match childNodes (e_node cell) with
  | [Text s] => plain_text s
  | _ => false
  end
  && (safeInt (getAttribute "colspan" (e_node cell)) =? 1)
  && (safeInt (getAttribute "rowspan" (e_node cell)) =? 1).

(** A plain table: it has a header row of plain cells whose texts differ
    from one another when case is ignored, at least one body row, as many
    plain cells in every body row as in the header row, no table inside a
    cell, and no [rowspan] or [style] attribute anywhere. *)
Definition plain_table (table : elem) : bool :=
  let headerRow := fst (header_and_body table) in
  let bodyRows := snd (header_and_body table) in
  let headerCellsEls := header_cells headerRow in
  (length (querySelectorAll [Descendant "td" (ByTag "table");
                             Descendant "th" (ByTag "table")] table) =? 0)
  && (0 <? length headerCellsEls)
  && forallb plain_cell headerCellsEls
  && bool_decide (NoDup (header_texts headerCellsEls))
  && (0 <? length bodyRows)
  && forallb (fun tr =>
                let cells := querySelectorAll (tags ["td"; "th"]) tr in
                (length cells =? length headerCellsEls) && forallb plain_cell cells)
             bodyRows
  && (length (querySelectorAll [Simple (ByAttr "rowspan")] table) =? 0)
  && (length (querySelectorAll [Simple (ByAttr "style")] table) =? 0).

(** Every word of the pattern holds a character of the class [odd]. *)
Fixpoint must_have (odd : char -> bool) (r : regex) : Prop :=
  match r with
  | Void => True
  | Eps => False
  | Cls p => ∀ c, p c = true → odd c = true
  | Cat r s => must_have odd r ∨ must_have odd s
  | Alt r s => must_have odd r ∧ must_have odd s
  | Star _ => False
  end.

Definition odd_char (c : char) : bool := negb (plain_char c).

(** The body cell the grid holds for a cell without spans met in row [r] as
    the [j]-th of its row. *)
Definition unit_cell (r : nat) (j : nat) (cell : elem) : GridCell :=
  {| gc_el := cell; gc_row := Z.of_nat r; gc_col := j; gc_colspan := 1; gc_rowspan := 1 |}.

(** A plain table of two columns and two body rows. *)
Definition years_table : node :=
  Scenarios.el "table"
    [Scenarios.el "thead" [Scenarios.el "tr"
       [Scenarios.el "th" [Scenarios.txt "Ano"]; Scenarios.el "th" [Scenarios.txt "Quantidade vendida"]]];
     Scenarios.el "tbody"
       [Scenarios.el "tr"
          [Scenarios.el "td" [Scenarios.txt "2020"]; Scenarios.el "td" [Scenarios.txt "10"]];
        Scenarios.el "tr"
          [Scenarios.el "td" [Scenarios.txt "2021"]; Scenarios.el "td" [Scenarios.txt "12"]]]].

(** Its markup, the document a parser makes of it, and the reference to the
    table in that document. *)
Definition years_markup : jsstring := outerHTML years_table.

Definition years_root : node :=
  Scenarios.el "html" [Scenarios.el "head" []; Scenarios.el "body" [years_table]].

Definition years_parser (s : jsstring) : option node :=
  if str_eqb s years_markup then Some years_root else None.

Definition years_table_ref : elem :=
  mkElem [0; 1; 0] ["body"; "html"; "#document"] years_table.

End CleanNotions.
(* ====================================================================== *)
(** ** The progress of a batch *)
(* ====================================================================== *)

Module DbService.

(** [TaskStatus] of the persistence service. *)
Inductive TaskStatus : Type :=
| PENDING | QUEUED | PROCESSING | COMPLETED | FAILED | RETRY | SKIPPED | CANCELLED.

#[global] Instance db_status_eq_dec : EqDecision TaskStatus.
Proof. solve_decision. Defined.

(** A row of [taskStats]: a status and the number of tasks the query
    counted under it. *)
Definition StatusRow : Type := TaskStatus * nat.

(** [statusCounts]: the object the [reduce] builds, read at a status;
    [None] is a member that was never set. *)
Definition statusCounts (taskStats : list StatusRow) : TaskStatus -> option nat :=
  foldl (fun acc curr => fun s => if decide (s = fst curr) then Some (snd curr) else acc s)
        (fun _ => None) taskStats.

(** [x || 0] on a count. *)
Definition or_0 (x : option nat) : nat :=
  match x with
  | Some (S n) => S n
  | _ => 0
  end.

(** The counters of [BatchProgress]; [percentage] and the costs are left
    out. *)
Record BatchProgress : Type := {
  totalTasks : nat;
  completedTasks : nat;
  failedTasks : nat
}.

(** [getBatchProgress] from what its two queries return: the number of
    tasks of the batch and the rows of the grouping by status. *)
Definition getBatchProgress (count_tasks : nat) (taskStats : list StatusRow)
    : BatchProgress :=
  let counts := statusCounts taskStats in
  {| totalTasks := count_tasks;
     completedTasks := or_0 (counts COMPLETED) + or_0 (counts SKIPPED);
     failedTasks := or_0 (counts FAILED) |}.

(** [isComplete] of [checkBatchCompletion]. *)
Definition isComplete (progress : BatchProgress) : bool :=
  totalTasks progress <=? completedTasks progress + failedTasks progress.

(** The number of tasks with a status. *)
Definition count (s : TaskStatus) (tasks : list TaskStatus) : nat :=
  length (List.filter (fun t => bool_decide (t = s)) tasks).

(** What the grouping query returns for the statuses of the tasks of a
    batch: one row for each status that some task has, with the number of
    tasks that have it, in any order. *)
Definition grouped_by_status (tasks : list TaskStatus) (taskStats : list StatusRow) : Prop :=
  NoDup (map fst taskStats)
  ∧ ∀ s n, (s, n) ∈ taskStats ↔ n = count s tasks ∧ 0 < n.

(** The task has come to an end that counts for the batch. *)
Definition settled (s : TaskStatus) : Prop := s = COMPLETED ∨ s = SKIPPED ∨ s = FAILED.

End DbService.
(* ====================================================================== *)
(** ** Notions the statements about the exits of the table analysis use *)
(* ====================================================================== *)

Module TableNotions.
Import JS Dom AuditService Scenarios.

(** The conditions of the two returns that [analyzeTable] makes before it
    parses the markup: a layout keyword in the markup, and a markup that
    starts, once trimmed, with a vertical bar or holds a bar followed by
    three hyphens. *)
Definition returns_early (tableHtml : jsstring) : bool :=
  test REGEX_CONTENT_SWALLOW tableHtml
  || startsWith (trim tableHtml) (lit "|")
  || test REGEX_MD_SEPARATOR (trim tableHtml).

(** Where a parser puts the one table of a fragment: the first child of the
    body. *)
Definition in_body (table : node) : elem :=
  mkElem [0; 1; 0] ["body"; "html"; "#document"] table.

Definition around (table : node) : node := el "html" [el "head" []; el "body" [table]].

(** A parser that knows the serialisation of one table. *)
Definition parser_of (table : node) (s : jsstring) : option node :=
  if str_eqb s (outerHTML table) then Some (around table) else None.

(** A table of four columns whose last three have no content in the body,
    with a layout keyword in its first header cell. *)
Definition keyword_table : node :=
  el "table"
    [el "tbody"
       [el "tr" [el "th" [txt "Armadilha #1"]; el "th" [txt "B"]; el "th" [txt "C"];
                 el "th" [txt "D"]];
        el "tr" [el "td" [txt "x"]; el "td" []; el "td" []; el "td" []]]].

End TableNotions.
(* ====================================================================== *)
(** ** Properties *)
(* ====================================================================== *)

Module JSFacts.
Import JS.

(** *** The matcher decides the words of a pattern *)

Lemma nullable_spec (r : regex) : nullable r = true ↔ Matches r [].
Proof.
  induction r as [| |p|r IHr s IHs|r IHr s IHs|r IHr]; cbn [nullable].
  - split; [discriminate | inversion 1].
  - split; [constructor | reflexivity].
  - split; [discriminate | inversion 1].
  - rewrite andb_true_iff, IHr, IHs. split.
    + intros [Hr Hs]. apply (M_cat r s [] []); assumption.
    + intros H. inversion H as [| |? ? u v Hu Hv| | | |]; subst.
      match goal with E : _ ++ _ = [] |- _ => apply app_eq_nil in E as [-> ->] end.
      split; assumption.
  - rewrite orb_true_iff, IHr, IHs. split.
    + intros [H|H]; [apply M_alt_l | apply M_alt_r]; exact H.
    + inversion 1; subst; [left | right]; assumption.
  - split; [constructor | reflexivity].
Qed.

Lemma cat_spec (r s : regex) (w : jsstring) : Matches (cat r s) w ↔ Matches (Cat r s) w.
Proof.
  assert (Hvoid_l : ∀ s w, Matches (Cat Void s) w ↔ Matches Void w).
  { intros s' w'. split; inversion 1 as [| |? ? u v Hu| | | |]; inversion Hu. }
  assert (Hvoid_r : ∀ r w, Matches (Cat r Void) w ↔ Matches Void w).
  { intros r' w'. split; inversion 1 as [| |? ? u v Hu Hv| | | |]; inversion Hv. }
  assert (Heps_l : ∀ s w, Matches (Cat Eps s) w ↔ Matches s w).
  { intros s' w'. split.
    - inversion 1 as [| |? ? u v Hu Hv| | | |]; subst. inversion Hu; subst. exact Hv.
    - intros H. apply (M_cat Eps s' [] w'); [constructor | exact H]. }
  assert (Heps_r : ∀ r w, Matches (Cat r Eps) w ↔ Matches r w).
  { intros r' w'. split.
    - inversion 1 as [| |? ? u v Hu Hv| | | |]; subst. inversion Hv; subst.
      rewrite app_nil_r. exact Hu.
    - intros H. rewrite <- (app_nil_r w'). apply M_cat; [exact H | constructor]. }
  destruct r, s; cbn [cat];
    rewrite ?Hvoid_l, ?Hvoid_r, ?Heps_l, ?Heps_r; reflexivity.
Qed.

Lemma alt_spec (r s : regex) (w : jsstring) : Matches (alt r s) w ↔ Matches (Alt r s) w.
Proof.
  assert (Hvoid_l : ∀ s w, Matches (Alt Void s) w ↔ Matches s w).
  { intros s' w'. split.
    - inversion 1 as [| | |? ? ? Hu|? ? ? Hu| |]; subst; [inversion Hu | exact Hu].
    - apply M_alt_r. }
  assert (Hvoid_r : ∀ r w, Matches (Alt r Void) w ↔ Matches r w).
  { intros r' w'. split.
    - inversion 1 as [| | |? ? ? Hu|? ? ? Hu| |]; subst; [exact Hu | inversion Hu].
    - apply M_alt_l. }
  destruct r, s; cbn [alt]; rewrite ?Hvoid_l, ?Hvoid_r; reflexivity.
Qed.

(** A non-empty word of [Star r] starts with a non-empty word of [r]. *)
Lemma star_cons_inv (r : regex) (c : char) (w : jsstring) :
  Matches (Star r) (c :: w) →
  ∃ u v, w = u ++ v ∧ Matches r (c :: u) ∧ Matches (Star r) v.
Proof.
  intros H. remember (Star r) as sr eqn:Hsr. remember (c :: w) as cw eqn:Hcw.
  revert c w Hcw. induction H as [| | | | | |r' u v Hu _ Hv IHv]; intros a x Hcw;
    try discriminate.
  injection Hsr as ->. destruct u as [|b u].
  - apply (IHv eq_refl a x Hcw).
  - injection Hcw as -> <-. exists u, v. auto.
Qed.

Lemma deriv_spec (r : regex) (c : char) (w : jsstring) :
  Matches (deriv c r) w ↔ Matches r (c :: w).
Proof.
  revert w. induction r as [| |p|r IHr s IHs|r IHr s IHs|r IHr]; intros w; cbn [deriv].
  - split; inversion 1.
  - split; inversion 1.
  - destruct (p c) eqn:Hp; split.
    + inversion 1; subst. constructor. exact Hp.
    + inversion 1; subst. constructor.
    + inversion 1.
    + inversion 1; subst. congruence.
  - assert (Hcat : Matches (cat (deriv c r) s) w
                   ↔ ∃ u v, w = u ++ v ∧ Matches r (c :: u) ∧ Matches s v).
    { rewrite cat_spec. split.
      - inversion 1 as [| |? ? u v Hu Hv| | | |]; subst.
        exists u, v. rewrite <- IHr. auto.
      - intros (u & v & -> & Hu & Hv). apply M_cat; [apply IHr; exact Hu | exact Hv]. }
    assert (Hsplit : Matches (Cat r s) (c :: w)
                     ↔ (∃ u v, w = u ++ v ∧ Matches r (c :: u) ∧ Matches s v)
                       ∨ (Matches r [] ∧ Matches s (c :: w))).
    { split.
      - intros H. inversion H as [| |? ? u v Hu Hv| | | |]; subst.
        match goal with E : u ++ v = c :: w |- _ => rename E into Heq end.
        destruct u as [|c' u]; cbn in Heq.
        + subst v. right. auto.
        + injection Heq as -> <-. left. exists u, v. auto.
      - intros [(u & v & -> & Hu & Hv) | [Hr Hs]].
        + apply (M_cat r s (c :: u) v); assumption.
        + apply (M_cat r s [] (c :: w)); assumption. }
    rewrite Hsplit. destruct (nullable r) eqn:Hn.
    + rewrite alt_spec. apply nullable_spec in Hn. split.
      * inversion 1; subst; [left; apply Hcat; assumption | right; split; [exact Hn|]].
        apply IHs. assumption.
      * intros [H | [_ H]]; [apply M_alt_l, Hcat, H | apply M_alt_r, IHs, H].
    + rewrite Hcat. split; [auto|]. intros [H | [Hr _]]; [exact H|].
      apply nullable_spec in Hr. congruence.
  - rewrite alt_spec. split.
    + inversion 1; subst; [apply M_alt_l, IHr | apply M_alt_r, IHs]; assumption.
    + inversion 1; subst; [apply M_alt_l, IHr | apply M_alt_r, IHs]; assumption.
  - rewrite cat_spec. split.
    + inversion 1 as [| |? ? u v Hu Hv| | | |]; subst.
      apply (M_star_cons r (c :: u) v); [apply IHr; exact Hu | exact Hv].
    + intros H. apply star_cons_inv in H as (u & v & -> & Hu & Hv).
      apply M_cat; [apply IHr; exact Hu | exact Hv].
Qed.

(** The derivative matcher accepts exactly the words of the pattern. *)
Lemma matches_spec (r : regex) (s : jsstring) : matches r s = true ↔ Matches r s.
Proof.
  revert r. induction s as [|c s IH]; intros r; cbn [matches].
  - apply nullable_spec.
  - rewrite IH. apply deriv_spec.
Qed.

Lemma star_any (s : jsstring) : Matches (Star any) s.
Proof.
  induction s as [|c s IH]; [constructor|].
  apply (M_star_cons any [c] s); [constructor; reflexivity | exact IH].
Qed.

(** [test] finds an occurrence anywhere in the subject. *)
Lemma test_spec (r : regex) (s : jsstring) :
  test r s = true ↔ ∃ pre mid post, s = pre ++ mid ++ post ∧ Matches r mid.
Proof.
  unfold test. rewrite matches_spec. split.
  - inversion 1 as [| |? ? pre v _ Hv| | | |]; subst.
    inversion Hv as [| |? ? mid post Hmid _| | | |]; subst.
    exists pre, mid, post. auto.
  - intros (pre & mid & post & -> & Hmid).
    apply M_cat; [apply star_any|]. apply M_cat; [exact Hmid | apply star_any].
Qed.

End JSFacts.

Module AuditFacts.
Import JS Dom AuditService Scenarios GhostRule.

(** *** LaTeX balance *)

Lemma trim_length_short (text : jsstring) :
  length (trim text) < 3 → checkLatexBalance text = {| broken := false; reason := [] |}.
Proof.
  intros H. unfold checkLatexBalance.
  destruct (Nat.ltb_spec (length (trim text)) 3) as [_|Hge]; [reflexivity | lia].
Qed.

(** C6, at the failing inputs: each lone symbol that the claim wants flagged
    as an orphan is shorter than three characters, so [checkLatexBalance]
    returns through its length guard and reports it as not broken. *)
Theorem orphan_symbols_not_flagged :
  Forall (fun t => checkLatexBalance t = {| broken := false; reason := [] |})
         [lit "{"; lit "}"; lit "$"; lit "($"; lit "$)"; lit "  $) "].
Proof.
  repeat constructor; apply trim_length_short; vm_compute; lia.
Qed.

(** *** The ghost-column scenario *)

Section GhostScenario.
Variable JSDOM : jsstring -> option node.
Hypothesis parse_field : JSDOM ghost_markup = Some ghost_document.
Hypothesis parse_table : JSDOM (outerHTML ghost_table) = Some ghost_document.

Lemma ghost_top_level_tables :
  extractTopLevelTables JSDOM ghost_markup
  = Some [mkElem [0; 1; 0] ["body"; "html"; "#document"] ghost_table].
Proof using parse_field.
  unfold extractTopLevelTables. rewrite parse_field. vm_compute. reflexivity.
Qed.

Lemma ghost_table_analysis :
  analyzeTable JSDOM (outerHTML ghost_table) ghost_context = Some [ghost_issue WARN].
Proof using parse_table.
  unfold analyzeTable.
  replace (test REGEX_CONTENT_SWALLOW (outerHTML ghost_table)) with false
    by (vm_compute; reflexivity).
  replace (startsWith (trim (outerHTML ghost_table)) (lit "|")
           || test REGEX_MD_SEPARATOR (trim (outerHTML ghost_table))) with false
    by (vm_compute; reflexivity).
  rewrite parse_table. vm_compute. reflexivity.
Qed.

Lemma ghost_field_audit (f : field) :
  audit_field JSDOM 0 ghost_question f
  = Some (if bool_decide (f = F_enunciado) then (1, [ghost_issue WARN]) else (0, [])).
Proof using parse_field parse_table.
  destruct f; try reflexivity.
  unfold audit_field.
  change (q_field ghost_question F_enunciado) with (Some ghost_markup).
  cbv beta iota.
  replace (str_eqb ghost_markup []) with false by (vm_compute; reflexivity).
  rewrite ghost_top_level_tables.
  change (getQuestionId ghost_question) with (IdString (lit "UNKNOWN")).
  cbn [mbind option_bind imap mapM fst snd e_node]. fold ghost_context.
  rewrite ghost_table_analysis.
  replace (test_full REGEX_MD_TABLE ghost_markup && negb (test REGEX_TABLE_TAG ghost_markup))
    with false by (vm_compute; reflexivity).
  reflexivity.
Qed.

End GhostScenario.

(** C5, the counterexample: with a parser that gives the field and its table
    their document, the audit of the scenario reports one issue, the
    [GHOST_COLUMN] issue at column 0, and its severity is [WARN]: the number
    of [BAD] [GHOST_COLUMN] issues is 0, not 1. *)
Lemma ghost_scenario_reports_no_bad_issue :
  (issues <$> auditData ghost_parser (QuestionArray [ghost_question]))
  = Some [ghost_issue WARN]
  ∧ (length
       <$> (List.filter (fun i => bool_decide (i_severity i = BAD)
                                  && bool_decide (i_type i = GHOST_COLUMN))
            <$> (issues <$> auditData ghost_parser (QuestionArray [ghost_question]))))
    = Some 0.
Proof. vm_compute. auto. Qed.

(** C5, amended: auditing the one-question document yields exactly one
    issue: a [GHOST_COLUMN] issue of severity [WARN] located at column 0 (the
    empty column is not the last one); nothing is reported for column 1. *)
Theorem ghost_scenario_audit (JSDOM : jsstring -> option node) :
  JSDOM ghost_markup = Some ghost_document →
  JSDOM (outerHTML ghost_table) = Some ghost_document →
  auditData JSDOM (QuestionArray [ghost_question])
  = Some {| stats := {| totalTables := 1; bad := 0; warn := 1 |};
            issues := [ghost_issue WARN] |}
  ∧ i_severity (ghost_issue WARN) = WARN
  ∧ i_type (ghost_issue WARN) = GHOST_COLUMN
  ∧ i_location (ghost_issue WARN) = at_col 0.
Proof.
  intros H1 H2. split; [|auto].
  unfold auditData, audit_question, questions_of, FIELDS_TO_AUDIT.
  cbn [imap mapM mbind option_bind fst snd].
  rewrite !(ghost_field_audit JSDOM H1 H2).
  vm_compute. reflexivity.
Qed.

(** The scenario's parser meets the two hypotheses of [ghost_scenario_audit]. *)
Lemma ghost_scenario_audit_witness :
  auditData ghost_parser (QuestionArray [ghost_question])
  = Some {| stats := {| totalTables := 1; bad := 0; warn := 1 |};
            issues := [ghost_issue WARN] |}
  ∧ i_severity (ghost_issue WARN) = WARN
  ∧ i_type (ghost_issue WARN) = GHOST_COLUMN
  ∧ i_location (ghost_issue WARN) = at_col 0.
Proof.
  apply (ghost_scenario_audit ghost_parser); vm_compute; reflexivity.
Defined.

(** *** The grid builder *)

Lemma reserved_pending (p : pending) (c : nat) : reserved p c = (0 <? pending_or_0 p c).
Proof.
  unfold reserved, pending_or_0. destruct (p !! c) as [[[|n]|]|]; reflexivity.
Qed.

(** The loop of [nextFreeCol] stops within its fuel: it returns the first
    column at or after the start that is not reserved. *)
Lemma nextFreeCol_loop_spec (p : pending) (fuel c : nat) :
  length p ≤ c + fuel →
  c ≤ nextFreeCol_loop fuel p c
  ∧ reserved p (nextFreeCol_loop fuel p c) = false
  ∧ ∀ x, c ≤ x < nextFreeCol_loop fuel p c → reserved p x = true.
Proof.
  revert c. induction fuel as [|fuel IH]; intros c Hlen; cbn [nextFreeCol_loop].
  - repeat split; [lia | | intros x Hx; lia].
    unfold reserved. rewrite lookup_ge_None_2 by lia. reflexivity.
  - destruct (reserved p c) eqn:Hc.
    + destruct (IH (S c) ltac:(lia)) as (Hle & Hfree & Hskip).
      repeat split; [lia | exact Hfree |].
      intros x Hx. destruct (decide (x = c)) as [->|Hne]; [exact Hc | apply Hskip; lia].
    + repeat split; [lia | exact Hc | intros x Hx; lia].
Qed.

Lemma nextFreeCol_spec (p : pending) (startCol : nat) :
  startCol ≤ nextFreeCol p startCol
  ∧ reserved p (nextFreeCol p startCol) = false
  ∧ ∀ x, startCol ≤ x < nextFreeCol p startCol → reserved p x = true.
Proof. apply nextFreeCol_loop_spec. lia. Qed.

Lemma array_set_lookup (a : pending) (i v c : nat) :
  pending_or_0 (array_set a i v) c = if decide (c = i) then v else pending_or_0 a c.
Proof.
  unfold pending_or_0, array_set.
  assert (Hlen : i < length (a ++ replicate (S i - length a) (None : option nat)))
    by (rewrite length_app, length_replicate; lia).
  destruct (decide (c = i)) as [->|Hne].
  - rewrite list_lookup_insert_eq by exact Hlen. reflexivity.
  - rewrite list_lookup_insert_ne by congruence.
    destruct (Nat.lt_ge_cases c (length a)) as [Hc|Hc].
    + rewrite lookup_app_l by exact Hc. reflexivity.
    + rewrite lookup_app_r by exact Hc. rewrite (lookup_ge_None_2 a c) by exact Hc.
      destruct (replicate _ _ !! _) as [o|] eqn:Hr; [|reflexivity].
      apply lookup_replicate in Hr as [-> _]. reflexivity.
Qed.

(** The counters after a cell with [rowspan] is placed at [col]. *)
Lemma reserve_lookup (p : pending) (col colspan rowspan c : nat) :
  pending_or_0 (reserve p col colspan rowspan) c
  = if decide (col ≤ c < col + colspan)
    then Nat.max (pending_or_0 p c) (rowspan - 1)
    else pending_or_0 p c.
Proof.
  unfold reserve. induction colspan as [|n IH].
  - cbn. destruct (decide _); [lia | reflexivity].
  - rewrite seq_S, foldl_app. cbn [foldl]. rewrite array_set_lookup, Nat.add_0_l.
    destruct (decide (c = col + n)) as [->|Hne].
    + rewrite IH. destruct (decide (col ≤ col + n < col + n)); [lia|].
      destruct (decide (col ≤ col + n < col + S n)); [reflexivity | lia].
    + rewrite IH.
      destruct (decide (col ≤ c < col + n)), (decide (col ≤ c < col + S n));
        try reflexivity; lia.
Qed.

Lemma decrement_lookup (p : pending) (c : nat) :
  pending_or_0 (decrement p) c = pending_or_0 p c - 1.
Proof.
  unfold pending_or_0, decrement. rewrite list_lookup_fmap.
  destruct (p !! c) as [[[|n]|]|]; cbn; try reflexivity. lia.
Qed.

(** What a cell with [rowspan] leaves for the rows that follow: when its row
    ends, the counters of its columns stand at [rowspan - 2] (or at what an
    earlier cell left, if that is more).  A cell spanning two rows leaves
    nothing for the next row. *)
Lemma reservation_after_row (p : pending) (col colspan rowspan c : nat) :
  col ≤ c < col + colspan →
  pending_or_0 (decrement (reserve p col colspan rowspan)) c
  = Nat.max (pending_or_0 p c) (rowspan - 1) - 1.
Proof.
  intros Hc. rewrite decrement_lookup, reserve_lookup.
  destruct (decide _); [reflexivity | lia].
Qed.

Lemma rowspan_two_reserves_nothing (col colspan c : nat) :
  reserved (decrement (reserve [] col colspan 2)) c = false.
Proof.
  rewrite reserved_pending, decrement_lookup, reserve_lookup.
  replace (pending_or_0 [] c) with 0 by (unfold pending_or_0; rewrite lookup_nil; reflexivity).
  destruct (decide _); reflexivity.
Qed.

(** C1, at the failing input and in general.  In the table whose first body
    row holds the cell [A] with [rowspan = 2] at column 0, the cell [C] of the
    next body row is placed at column 0 and that row is 1 column wide, where
    the claim wants column 0 kept for [A], [C] at column 1 and a width of 2.
    The cause: a cell with [rowspan = r] sets the counters of its columns to
    [r - 1] and the end of its own row already takes one off, so [r - 2] rows
    are reserved, and none at all for [r = 2]. *)
Theorem rowspan_not_reserved_in_next_row :
  placements rowspan_grid = [(0%Z, 0); (0%Z, 1); (1%Z, 0)]
  ∧ rowWidths rowspan_grid = [2; 1]
  ∧ expectedCols rowspan_grid = 2
  ∧ (∀ col colspan c, reserved (decrement (reserve [] col colspan 2)) c = false)
  ∧ (∀ col colspan r c,
       (col <=? c) && (c <? col + colspan) = true →
       pending_or_0 (decrement (reserve [] col colspan r)) c = r - 2).
Proof.
  split; [vm_compute; reflexivity|]. split; [vm_compute; reflexivity|].
  split; [vm_compute; reflexivity|]. split.
  - apply rowspan_two_reserves_nothing.
  - intros col colspan r c Hc. apply andb_true_iff in Hc as [H1 H2].
    apply Nat.leb_le in H1. apply Nat.ltb_lt in H2.
    rewrite reservation_after_row by lia.
    replace (pending_or_0 [] c) with 0
      by (unfold pending_or_0; rewrite lookup_nil; reflexivity).
    lia.
Qed.

(** *** Which columns have content *)

Lemma mark_content_lookup (chc : list bool) (col colspan c : nat) :
  default false (mark_content chc col colspan !! c)
  = default false (chc !! c) || ((col <=? c) && (c <? col + colspan)).
Proof.
  unfold mark_content.
  set (grown := chc ++ replicate (col + colspan - length chc) false).
  assert (Hgrown : ∀ x, default false (grown !! x) = default false (chc !! x)).
  { intros x. subst grown. destruct (Nat.lt_ge_cases x (length chc)) as [Hx|Hx].
    - rewrite lookup_app_l by exact Hx. reflexivity.
    - rewrite lookup_app_r by exact Hx. rewrite (lookup_ge_None_2 chc x) by exact Hx.
      destruct (replicate _ _ !! _) as [b|] eqn:Hr; [|reflexivity].
      apply lookup_replicate in Hr as [-> _]. reflexivity. }
  assert (Hlen : col + colspan ≤ length grown)
    by (subst grown; rewrite length_app, length_replicate; lia).
  rewrite <- Hgrown. clearbody grown. clear Hgrown.
  assert (Hfold : ∀ n, n ≤ colspan →
    length (foldl (fun a i => <[col + i := true]> a) grown (seq 0 n)) = length grown
    ∧ default false (foldl (fun a i => <[col + i := true]> a) grown (seq 0 n) !! c)
      = default false (grown !! c) || ((col <=? c) && (c <? col + n))).
  { induction n as [|n IH]; intros Hn.
    - cbn [seq foldl]. split; [reflexivity|].
      replace ((col <=? c) && (c <? col + 0)) with false; [rewrite orb_false_r; reflexivity|].
      destruct (Nat.leb_spec col c), (Nat.ltb_spec c (col + 0)); try reflexivity; lia.
    - destruct (IH ltac:(lia)) as [IHlen IHlook].
      rewrite seq_S, foldl_app. cbn [foldl]. rewrite Nat.add_0_l, length_insert.
      split; [exact IHlen|].
      destruct (decide (c = col + n)) as [->|Hne].
      + rewrite list_lookup_insert_eq by lia. cbn [default].
        rewrite (proj2 (Nat.leb_le _ _)), (proj2 (Nat.ltb_lt _ _)) by lia.
        rewrite orb_true_r. reflexivity.
      + rewrite list_lookup_insert_ne by congruence. rewrite IHlook. f_equal.
        destruct (Nat.leb_spec col c), (Nat.ltb_spec c (col + n)),
                 (Nat.ltb_spec c (col + S n)); try reflexivity; lia. }
  apply (Hfold colspan). lia.
Qed.

Lemma place_cell_tracked (rIdx : nat) (acc : nat * nat * GridState) (cell : elem) :
  content_tracked (snd acc) → content_tracked (snd (place_cell rIdx acc cell)).
Proof.
  destruct acc as [[col edge] st]. cbn [snd]. intros Hst c.
  unfold place_cell. cbn [snd st_colHasContent st_bodyCells].
  rewrite existsb_app, <- Hst. cbn [existsb].
  unfold contributes at 1. cbn [gc_el gc_col gc_colspan].
  destruct (cellHasContent cell).
  - rewrite mark_content_lookup, orb_false_r. reflexivity.
  - cbn [andb]. rewrite orb_false_r. reflexivity.
Qed.

Lemma place_cells_tracked (rIdx : nat) (cells : list elem) (acc : nat * nat * GridState) :
  content_tracked (snd acc) → content_tracked (snd (foldl (place_cell rIdx) acc cells)).
Proof.
  revert acc. induction cells as [|cell cells IH]; intros acc Hacc; [exact Hacc|].
  cbn [foldl]. apply IH, place_cell_tracked, Hacc.
Qed.

Lemma place_row_tracked (acc : GridState * list nat) (row : nat * elem) :
  content_tracked (fst acc) → content_tracked (fst (place_row acc row)).
Proof.
  destruct acc as [st widths], row as [rIdx tr]. cbn [fst]. intros Hst.
  unfold place_row.
  pose proof (place_cells_tracked rIdx (querySelectorAll (tags ["td"; "th"]) tr)
                (0, 0, st) Hst) as H.
  destruct (foldl (place_cell rIdx) (0, 0, st) _) as [[col edge] st1].
  cbn [fst snd] in *. exact H.
Qed.

Lemma place_rows_tracked (rows : list (nat * elem)) (acc : GridState * list nat) :
  content_tracked (fst acc) → content_tracked (fst (foldl place_row acc rows)).
Proof.
  revert acc. induction rows as [|row rows IH]; intros acc Hacc; [exact Hacc|].
  cbn [foldl]. apply IH, place_row_tracked, Hacc.
Qed.

(** A column of the grid is a ghost exactly when no body cell contributes
    content to it. *)
Lemma ghost_spec (headerRow : option elem) (bodyRows : list elem) (c : nat) :
  ghost (buildGrid headerRow bodyRows) c
  = negb (existsb (contributes c) (bodyCells (buildGrid headerRow bodyRows))).
Proof.
  unfold ghost, buildGrid.
  set (st0 := {| st_pending := [] |}).
  assert (H0 : content_tracked st0).
  { intros x. cbn [st0 st_colHasContent st_bodyCells existsb].
    destruct (replicate _ _ !! _) as [b|] eqn:Hr; [|reflexivity].
    apply lookup_replicate in Hr as [-> _]. reflexivity. }
  pose proof (place_rows_tracked (imap pair bodyRows) (st0, []) H0) as H.
  destruct (foldl place_row (st0, []) (imap pair bodyRows)) as [st widths].
  cbn [fst colHasContent bodyCells] in *. f_equal. rewrite <- H.
  destruct (Nat.lt_ge_cases c (length (st_colHasContent st))) as [Hc|Hc].
  - rewrite lookup_app_l by exact Hc. reflexivity.
  - rewrite lookup_app_r by exact Hc. rewrite (lookup_ge_None_2 _ c) by exact Hc.
    destruct (replicate _ _ !! _) as [b|] eqn:Hr; [|reflexivity].
    apply lookup_replicate in Hr as [-> _]. reflexivity.
Qed.

(** *** Ghost columns *)

Lemma no_ghost_nil : no_ghost [].
Proof. constructor. Qed.

Lemma no_ghost_app (l1 l2 : list Issue) : no_ghost l1 → no_ghost l2 → no_ghost (l1 ++ l2).
Proof. apply Forall_app_2. Qed.

Lemma no_ghost_one (i : Issue) : is_ghost_issue i = false → no_ghost [i].
Proof. intros H. repeat constructor. exact H. Qed.

Lemma no_ghost_if (b : bool) (l1 l2 : list Issue) :
  no_ghost l1 → no_ghost l2 → no_ghost (if b then l1 else l2).
Proof. destruct b; auto. Qed.

Lemma no_ghost_flat_map {A} (f : A → list Issue) (l : list A) :
  (∀ x, no_ghost (f x)) → no_ghost (flat_map f l).
Proof.
  intros H. induction l as [|x l IH]; simpl; [constructor|].
  apply no_ghost_app; auto.
Qed.

Lemma no_ghost_concat_imap {A} (f : nat → A → list Issue) (l : list A) :
  (∀ i x, no_ghost (f i x)) → no_ghost (concat (imap f l)).
Proof.
  revert f. induction l as [|x l IH]; intros f H; simpl; [constructor|].
  apply no_ghost_app; [apply H | apply IH; intros i y; apply H].
Qed.

Lemma no_ghost_filter (l : list Issue) : no_ghost l → List.filter is_ghost_issue l = [].
Proof.
  induction 1 as [|i l Hi _ IH]; simpl; [reflexivity|]. rewrite Hi. exact IH.
Qed.

Ltac no_ghost :=
  repeat (cbv beta zeta;
    lazymatch goal with
    | |- no_ghost [] => apply no_ghost_nil
    | |- no_ghost [_] => apply no_ghost_one; reflexivity
    | |- no_ghost (_ ++ _) => apply no_ghost_app
    | |- no_ghost (if _ then _ else _) => apply no_ghost_if
    | |- no_ghost (concat (imap _ _)) => apply no_ghost_concat_imap; intros
    | |- no_ghost (flat_map _ _) => apply no_ghost_flat_map; intros
    end).

Section NoGhost.
Variable context : Context.
Variable tableHtml : jsstring.

Lemma nested_no_ghost t : no_ghost (nested_issues context tableHtml t).
Proof. unfold nested_issues. no_ghost. Qed.

Lemma no_header_no_ghost h : no_ghost (no_header_issues context tableHtml h).
Proof. unfold no_header_issues. no_ghost. Qed.

Lemma layout_no_ghost h b e : no_ghost (layout_1x1_issues context tableHtml h b e).
Proof. unfold layout_1x1_issues. no_ghost. Qed.

Lemma empty_table_no_ghost h b : no_ghost (empty_table_issues context tableHtml h b).
Proof. unfold empty_table_issues. no_ghost. Qed.

Lemma header_no_ghost hs : no_ghost (header_issues context tableHtml hs).
Proof.
  unfold header_issues. apply no_ghost_concat_imap. intros i x.
  unfold header_cell_issues. no_ghost.
Qed.

Lemma missing_header_no_ghost hs : no_ghost (missing_header_issues context tableHtml hs).
Proof. unfold missing_header_issues. no_ghost. Qed.

Lemma duplicate_header_no_ghost hs :
  no_ghost (duplicate_header_issues context tableHtml hs).
Proof. unfold duplicate_header_issues. no_ghost. Qed.

Lemma width_no_ghost g : no_ghost (width_issues context tableHtml g).
Proof. unfold width_issues. no_ghost. Qed.

Lemma cell_no_ghost f gc : no_ghost (cell_issues context tableHtml f gc).
Proof. unfold cell_issues. no_ghost. Qed.

Lemma hole_no_ghost f g b : no_ghost (hole_issues context tableHtml f g b).
Proof. unfold hole_issues. no_ghost. Qed.

Lemma rowspan_no_ghost t h b : no_ghost (rowspan_issues context tableHtml t h b).
Proof. unfold rowspan_issues. no_ghost. Qed.

Lemma style_no_ghost t : no_ghost (style_issues context tableHtml t).
Proof. unfold style_issues. no_ghost. Qed.

End NoGhost.

Lemma leading_false_spec (l : list bool) (n : nat) :
  n ≤ leading_false l ↔ ∀ i, i < n → l !! i = Some false.
Proof.
  revert n. induction l as [|b l IH]; intros n; simpl.
  - split.
    + intros Hn i Hi. lia.
    + intros H. destruct n as [|n]; [lia|]. specialize (H 0 ltac:(lia)). discriminate.
  - destruct b.
    + split.
      * intros Hn i Hi. lia.
      * intros H. destruct n as [|n]; [lia|]. specialize (H 0 ltac:(lia)). discriminate.
    + destruct n as [|n].
      * split; [intros _ i Hi; lia | lia].
      * rewrite <- Nat.succ_le_mono, IH. split.
        -- intros H [|i] Hi; [reflexivity|]. apply H. lia.
        -- intros H i Hi. apply (H (S i)). lia.
Qed.

(** The backward loop counts at least [n] exactly when the last [n] entries
    exist and are all [false]. *)
Lemma trailing_ghosts_spec (l : list bool) (n : nat) :
  n ≤ trailing_ghosts l
  ↔ n ≤ length l ∧ ∀ c, length l - n ≤ c < length l → l !! c = Some false.
Proof.
  unfold trailing_ghosts. rewrite leading_false_spec, rev_alt.
  change (rev_append l []) with (reverse l).
  split.
  - intros H.
    assert (Hn : n ≤ length l).
    { destruct (Nat.le_gt_cases n (length l)) as [|Hgt]; [assumption|].
      specialize (H (length l) Hgt).
      apply lookup_lt_Some in H. rewrite length_reverse in H. lia. }
    split; [assumption|]. intros c Hc.
    specialize (H (length l - S c) ltac:(lia)).
    rewrite reverse_lookup in H by lia.
    replace (length l - S (length l - S c)) with c in H by lia. exact H.
  - intros [Hn H] i Hi. rewrite reverse_lookup by lia. apply H. lia.
Qed.

Lemma trailing_ghost_run_spec (grid : TableGrid) (n : nat) :
  expectedCols grid ≤ length (colHasContent grid) →
  (n <=? trailing_ghosts (take (expectedCols grid) (colHasContent grid)))
  = trailing_ghost_run grid n.
Proof.
  intros Hlen. unfold trailing_ghost_run.
  set (e := expectedCols grid) in *. set (chc := colHasContent grid) in *.
  assert (Hl : length (take e chc) = e) by (rewrite length_take; lia).
  apply eq_true_iff_eq.
  rewrite Nat.leb_le, andb_true_iff, Nat.leb_le, forallb_forall, trailing_ghosts_spec, Hl.
  split; intros [Hn H]; (split; [assumption|]).
  - intros c Hc. apply in_seq in Hc. unfold ghost. fold chc.
    specialize (H c ltac:(lia)). rewrite lookup_take_lt in H by lia.
    rewrite H. reflexivity.
  - intros c Hc. rewrite lookup_take_lt by lia.
    specialize (H c ltac:(apply in_seq; lia)). unfold ghost in H. fold chc in H.
    assert (Hsome : is_Some (chc !! c)) by (apply lookup_lt_is_Some; lia).
    destruct Hsome as [b Hb]. rewrite Hb in *. destruct b; [discriminate | reflexivity].
Qed.

(** One issue per [false] entry, in column order. *)
Lemma per_column_spec (G : nat → Issue) (l : list bool) (k : nat) :
  concat (imap (fun c (has : bool) => if has then [] else [G (k + c)]) l)
  = map G (List.filter (fun c => negb (default false (l !! (c - k)))) (seq k (length l))).
Proof.
  revert k. induction l as [|has l IH]; intros k; [reflexivity|].
  rewrite imap_cons. cbn [concat length seq List.filter].
  rewrite Nat.sub_diag, Nat.add_0_r. cbn [lookup list_lookup default].
  assert (Htail :
    concat (imap ((fun c (has : bool) => if has then [] else [G (k + c)]) ∘ S) l)
    = map G (List.filter (fun c => negb (default false ((has :: l) !! (c - k))))
                         (seq (S k) (length l)))).
  { rewrite (imap_ext _ (fun c (has : bool) => if has then [] else [G (S k + c)])).
    2:{ intros i x _. unfold compose. replace (k + S i) with (S k + i) by lia. reflexivity. }
    rewrite IH. f_equal. apply filter_ext_in. intros c Hc. apply in_seq in Hc.
    replace (c - k) with (S (c - S k)) by lia. reflexivity. }
  rewrite Htail. destruct has; reflexivity.
Qed.

Lemma buildGrid_colHasContent_length (h : option elem) (b : list elem) :
  expectedCols (buildGrid h b) ≤ length (colHasContent (buildGrid h b)).
Proof.
  unfold buildGrid.
  destruct (foldl place_row _ _) as [st widths]. cbn [expectedCols colHasContent].
  rewrite length_app, length_replicate. lia.
Qed.

Lemma ghost_issues_spec (context : Context) (tableHtml : jsstring)
    (grid : TableGrid) (bodyRows : list elem) :
  expectedCols grid ≤ length (colHasContent grid) →
  ghost_issues context tableHtml grid bodyRows
  = expected_ghost_issues context tableHtml grid (length bodyRows).
Proof.
  intros Hlen. unfold ghost_issues, expected_ghost_issues.
  destruct ((1 <? expectedCols grid) && (0 <? length bodyRows)); [|reflexivity].
  rewrite (trailing_ghost_run_spec grid 3 Hlen).
  destruct (trailing_ghost_run grid 3); [reflexivity|].
  pose proof (per_column_spec (per_column_issue context tableHtml grid)
                (take (expectedCols grid) (colHasContent grid)) 0) as H.
  rewrite length_take, Nat.min_l in H by assumption.
  etransitivity; [exact H|].
  f_equal. apply filter_ext_in. intros c Hc. apply in_seq in Hc.
  rewrite Nat.sub_0_r, lookup_take_lt by lia. reflexivity.
Qed.

Lemma expected_ghost_issues_all_ghost (context : Context) (tableHtml : jsstring)
    (grid : TableGrid) (n : nat) :
  List.filter is_ghost_issue (expected_ghost_issues context tableHtml grid n)
  = expected_ghost_issues context tableHtml grid n.
Proof.
  unfold expected_ghost_issues.
  destruct ((1 <? expectedCols grid) && (0 <? n)); [|reflexivity].
  destruct (trailing_ghost_run grid 3); [reflexivity|].
  induction (List.filter (ghost grid) (seq 0 (expectedCols grid))) as [|c l IH];
    [reflexivity|].
  cbn [map List.filter].
  change (is_ghost_issue (per_column_issue context tableHtml grid c)) with true.
  cbv iota. f_equal. exact IH.
Qed.

Lemma analyzeParsedTable_ghost_issues (context : Context) (tableHtml : jsstring)
    (table : elem) :
  List.filter is_ghost_issue (analyzeParsedTable context tableHtml table)
  = expected_ghost_issues context tableHtml
      (buildGrid (fst (header_and_body table)) (snd (header_and_body table)))
      (length (snd (header_and_body table))).
Proof.
  unfold analyzeParsedTable. destruct (header_and_body table) as [h b]. cbn [fst snd].
  rewrite !List.filter_app.
  rewrite (no_ghost_filter _ (nested_no_ghost _ _ _)),
          (no_ghost_filter _ (no_header_no_ghost _ _ _)),
          (no_ghost_filter _ (layout_no_ghost _ _ _ _ _)),
          (no_ghost_filter _ (empty_table_no_ghost _ _ _ _)),
          (no_ghost_filter _ (header_no_ghost _ _ _)),
          (no_ghost_filter _ (missing_header_no_ghost _ _ _)),
          (no_ghost_filter _ (duplicate_header_no_ghost _ _ _)),
          (no_ghost_filter _ (width_no_ghost _ _ _)),
          (no_ghost_filter _ (hole_no_ghost _ _ _ _ _)),
          (no_ghost_filter _ (rowspan_no_ghost _ _ _ _ _)),
          (no_ghost_filter _ (style_no_ghost _ _ _)).
  rewrite (no_ghost_filter (flat_map _ _)).
  2:{ apply no_ghost_flat_map. intros gc. apply cell_no_ghost. }
  cbn [app]. rewrite app_nil_r.
  rewrite ghost_issues_spec by apply buildGrid_colHasContent_length.
  apply expected_ghost_issues_all_ghost.
Qed.

(** The ghost-column rule on a parsed table that has rows: a column is a
    ghost when no body cell contributes content to it, and among the issues
    of the rules those of the ghost-column rule are: none when there is at most one expected column or no body row; one
    aggregate [BAD] [GHOST_COLUMNS] issue when the last three expected
    columns are ghosts; otherwise one [GHOST_COLUMN] issue per ghost column,
    in column order, [BAD] for the last expected column and [WARN] for any
    other. *)
Lemma ghost_rule_of_parsed_table (context : Context) (tableHtml : jsstring) (table : elem) :
  let headerRow := fst (header_and_body table) in
  let bodyRows := snd (header_and_body table) in
  let grid := buildGrid headerRow bodyRows in
  let found := List.filter is_ghost_issue (analyzeParsedTable context tableHtml table) in
  (∀ c, ghost grid c = negb (existsb (contributes c) (bodyCells grid)))
  ∧ (expectedCols grid ≤ 1 ∨ length bodyRows = 0 → found = [])
  ∧ (1 < expectedCols grid → 0 < length bodyRows → trailing_ghost_run grid 3 = true →
     ∃ n, 3 ≤ n ∧ trailing_ghost_run grid n = true ∧ trailing_ghost_run grid (S n) = false
          ∧ found = [createIssue context BAD GHOST_COLUMNS
                       (of_nat n ++ lit " trailing ghost columns detected")
                       nowhere tableHtml])
  ∧ (1 < expectedCols grid → 0 < length bodyRows → trailing_ghost_run grid 3 = false →
     found = map (fun c =>
                    createIssue context
                      (if c =? expectedCols grid - 1 then BAD else WARN) GHOST_COLUMN
                      (lit "Ghost Column (Col " ++ of_nat (c + 1) ++ lit " empty in all rows)")
                      (at_col (Z.of_nat c)) tableHtml)
                 (List.filter (ghost grid) (seq 0 (expectedCols grid)))).
Proof.
  cbv zeta. split; [intros c; apply ghost_spec|].
  rewrite analyzeParsedTable_ghost_issues.
  set (grid := buildGrid _ _). set (n := length _).
  pose proof (buildGrid_colHasContent_length (fst (header_and_body table))
                (snd (header_and_body table))) as Hlen. fold grid in Hlen.
  unfold expected_ghost_issues. repeat split.
  - intros [He|Hn].
    + replace (1 <? expectedCols grid) with false by (symmetry; apply Nat.ltb_ge; lia).
      reflexivity.
    + rewrite Hn, andb_false_r. reflexivity.
  - intros He Hn H3.
    rewrite (proj2 (Nat.ltb_lt _ _) He), (proj2 (Nat.ltb_lt _ _) Hn), H3. cbn [andb].
    exists (trailing_ghosts (take (expectedCols grid) (colHasContent grid))).
    rewrite <- !(trailing_ghost_run_spec grid) by assumption.
    rewrite <- (trailing_ghost_run_spec grid 3 Hlen) in H3. apply Nat.leb_le in H3.
    repeat split; [assumption | apply Nat.leb_le; lia | apply Nat.leb_gt; lia].
  - intros He Hn H3.
    rewrite (proj2 (Nat.ltb_lt _ _) He), (proj2 (Nat.ltb_lt _ _) Hn), H3. reflexivity.
Qed.

(** *** Further properties of the audit engine *)

(** A text whose trimmed form has fewer than three characters is never
    flagged by the LaTeX balance check. *)
Theorem short_text_never_flagged (text : jsstring) :
  length (trim text) < 3 → broken (checkLatexBalance text) = false.
Proof. intros H. rewrite (trim_length_short text H). reflexivity. Qed.

Lemma short_text_never_flagged_witness : broken (checkLatexBalance (lit " $ ")) = false.
Proof. apply short_text_never_flagged. vm_compute. lia. Defined.

(** A text with a currency-like prefix, or with [R$] anywhere, is exempt
    from the LaTeX balance check. *)
Theorem currency_text_exempt (text : jsstring) :
  test_prefix REGEX_CURRENCY_PREFIX (trim text) || test REGEX_REAIS (trim text) = true →
  broken (checkLatexBalance text) = false.
Proof.
  intros H. unfold checkLatexBalance. rewrite H.
  destruct (length (trim text) <? 3); reflexivity.
Qed.

Lemma currency_text_exempt_witness :
  broken (checkLatexBalance (lit "Saldo de R$ 1.500,00 em \frac{1}{2} do ano")) = false.
Proof. apply currency_text_exempt. vm_compute. reflexivity. Defined.

Lemma place_cells_unit_spans (rIdx : nat) (cells : list elem) (col : nat) (st : GridState) :
  st_pending st = [] →
  Forall (fun cell => safeInt (getAttribute "colspan" (e_node cell)) = 1
                      ∧ safeInt (getAttribute "rowspan" (e_node cell)) = 1) cells →
  ∃ st', foldl (place_cell rIdx) (col, col, st) cells
         = (col + length cells, col + length cells, st')
         ∧ st_pending st' = [].
Proof.
  intros Hp Hcells. revert col st Hp.
  induction Hcells as [|cell cells [Hc Hr] _ IH]; intros col st Hp.
  - exists st. cbn [foldl length]. rewrite Nat.add_0_r. auto.
  - cbn [foldl length]. unfold place_cell at 2. rewrite Hc, Hr, Hp.
    cbn [nextFreeCol length nextFreeCol_loop Nat.ltb Nat.leb].
    replace (Nat.max col (col + 1)) with (col + 1) by lia.
    match goal with
    | |- context [foldl _ (_, _, ?s) _] => destruct (IH (col + 1) s eq_refl) as (st' & Hf & Hp')
    end.
    exists st'. rewrite Hf.
    replace (col + S (length cells)) with (col + 1 + length cells) by lia. auto.
Qed.

Lemma place_rows_unit_spans (rows : list (nat * elem)) (st : GridState) (widths : list nat) :
  st_pending st = [] →
  unit_spans (map snd rows) →
  ∃ st', foldl place_row (st, widths) rows
         = (st', widths ++ map (fun row => length (querySelectorAll (tags ["td"; "th"]) (snd row)))
                              rows)
         ∧ st_pending st' = [].
Proof.
  revert st widths. induction rows as [|[rIdx tr] rows IH]; intros st widths Hp Hu.
  - exists st. cbn. rewrite app_nil_r. auto.
  - cbn [foldl map snd]. unfold place_row at 2.
    destruct (place_cells_unit_spans rIdx (querySelectorAll (tags ["td"; "th"]) tr) 0 st Hp)
      as (st1 & Hf & Hp1).
    { apply Forall_forall. intros cell Hcell. apply (Hu tr cell); [left | exact Hcell]. }
    rewrite Hf, Hp1. cbn [computeRowWidth length seq foldl decrement map Nat.add].
    match goal with
    | |- context [foldl place_row (?s, ?w) _] =>
        destruct (IH s w eq_refl) as (st' & Hf' & Hp')
    end.
    { intros tr' cell Htr. apply (Hu tr' cell). right. exact Htr. }
    exists st'. rewrite Hf', <- app_assoc. auto.
Qed.

Lemma imap_pair_snd {A} (f : nat → nat) (l : list A) :
  map snd (imap (fun i x => (f i, x)) l) = l.
Proof.
  revert f. induction l as [|x l IH]; intros f; [reflexivity|].
  cbn [imap map snd]. f_equal. apply (IH (fun j => f (S j))).
Qed.

Lemma map_snd_imap_pair {A} (l : list A) : map snd (imap pair l) = l.
Proof. exact (imap_pair_snd (fun i => i) l). Qed.

(** X1: when every body cell spans one column and one row, the width of each
    body row of the grid is the number of its cells. *)
Theorem rowWidths_without_spans (headerRow : option elem) (bodyRows : list elem) :
  unit_spans bodyRows →
  rowWidths (buildGrid headerRow bodyRows)
  = map (fun tr => length (querySelectorAll (tags ["td"; "th"]) tr)) bodyRows.
Proof.
  intros Hu. unfold buildGrid.
  set (st0 := {| st_pending := [] |}).
  pose proof (map_snd_imap_pair bodyRows) as Hsnd.
  destruct (place_rows_unit_spans (imap pair bodyRows) st0 [] eq_refl) as (st' & Hf & _).
  { rewrite Hsnd. exact Hu. }
  rewrite Hf. cbn [rowWidths app].
  rewrite <- (map_map snd (fun tr => length (querySelectorAll (tags ["td"; "th"]) tr))).
  rewrite Hsnd. reflexivity.
Qed.

(** The rows of the ghost-column table have no spans. *)
Lemma rowWidths_without_spans_witness :
  rowWidths (buildGrid None
               (querySelectorAll (tags ["tr"]) (mkElem [] [] ghost_table)))
  = map (fun tr => length (querySelectorAll (tags ["td"; "th"]) tr))
        (querySelectorAll (tags ["tr"]) (mkElem [] [] ghost_table)).
Proof.
  apply rowWidths_without_spans.
  intros tr cell Htr Hcell.
  apply list_elem_of_In in Htr. vm_compute in Htr.
  destruct Htr as [<-|[<-|[]]];
    apply list_elem_of_In in Hcell; vm_compute in Hcell;
    destruct Hcell as [<-|[<-|[]]]; vm_compute; auto.
Defined.

(** An instance: a header row of three cells over a body row of two cells
    gives one [BAD] [COL_MISMATCH] issue, for that row. *)
Theorem narrow_row_is_a_mismatch (context : Context) (tableHtml : jsstring) :
  List.filter is_col_mismatch
    (analyzeParsedTable context tableHtml (mkElem [] [] narrow_row_table))
  = [createIssue context BAD COL_MISMATCH (lit "Row 1: 2 logical cols (expected 3)")
       (at_row 0) tableHtml].
Proof. vm_compute. reflexivity. Qed.

End AuditFacts.

Module TreeFacts.
Import JS Dom Tree.

(** *** The descendants of an element *)

Lemma descendants_from_element pth anc t a cs :
  descendants_from pth anc (Element t a cs) = children_from pth t anc 0 cs.
Proof. reflexivity. Qed.

Lemma children_from_cons pth t anc i c l :
  children_from pth t anc i (c :: l)
  = (if isElement c then [mkElem (pth ++ [i]) (t :: anc) c] else [])
    ++ descendants_from (pth ++ [i]) (t :: anc) c
    ++ children_from pth t anc (S i) l.
Proof. reflexivity. Qed.

(** *** Attributes do not matter to tag selectors *)

Lemma strip_isElement n : isElement (strip_attributes n) = isElement n.
Proof. destruct n; reflexivity. Qed.

Lemma strip_tagName n : tagName (strip_attributes n) = tagName n.
Proof. destruct n; reflexivity. Qed.

Lemma descendants_strip (n : node) :
  ∀ pth anc,
    descendants_from pth anc (strip_attributes n)
    = map strip_elem (descendants_from pth anc n).
Proof.
  induction n as [d|d|t a cs IH] using node_induction; intros pth anc;
    [reflexivity | reflexivity |].
  cbn [strip_attributes]. rewrite !descendants_from_element.
  generalize 0 as i. induction IH as [|c l Hc _ IHl]; intros i; [reflexivity|].
  cbn [map]. rewrite !children_from_cons, !map_app, Hc, IHl, strip_isElement.
  destruct (isElement c); reflexivity.
Qed.

Lemma matches_tags_strip (ts : list string) (scope e : elem) :
  existsb (matches_complex (strip_elem scope) (strip_elem e)) (tags ts)
  = existsb (matches_complex scope e) (tags ts).
Proof.
  unfold tags. induction ts as [|t ts IH]; [reflexivity|].
  cbn [map existsb matches_complex matches_simple strip_elem e_node].
  rewrite strip_isElement, strip_tagName, IH. reflexivity.
Qed.

Lemma filter_map_commute {A B} (f : B → bool) (g : A → B) (l : list A) :
  List.filter f (map g l) = map g (List.filter (fun x => f (g x)) l).
Proof.
  induction l as [|x l IH]; [reflexivity|]. cbn [map List.filter].
  destruct (f (g x)); cbn [map]; rewrite IH; reflexivity.
Qed.

Lemma querySelectorAll_strip (ts : list string) (scope : elem) :
  querySelectorAll (tags ts) (strip_elem scope)
  = map strip_elem (querySelectorAll (tags ts) scope).
Proof.
  unfold querySelectorAll, descendants. cbn [strip_elem e_path e_anc e_node].
  rewrite descendants_strip, filter_map_commute. f_equal.
  apply filter_ext. intros e. apply matches_tags_strip.
Qed.

Lemma querySelector_strip (ts : list string) (scope : elem) :
  querySelector (tags ts) (strip_elem scope)
  = strip_elem <$> querySelector (tags ts) scope.
Proof.
  unfold querySelector. rewrite querySelectorAll_strip.
  destruct (querySelectorAll (tags ts) scope); reflexivity.
Qed.

End TreeFacts.

Module RepairFacts.
Import JS Dom RepairService Scenarios Tree TreeFacts Runs.

(** *** Key rotation *)

Section Rotation.
Variable keys : list jsstring.
Hypothesis some_key : 0 < length keys.

Lemma getNextKey_pointer (p : nat) :
  snd (getNextKey keys p) = (p + 1) mod length keys.
Proof using some_key.
  unfold getNextKey. destruct (Nat.eqb_spec (length keys) 0); [lia | reflexivity].
Qed.

Lemma selected_indices_length (n p : nat) : length (selected_indices keys n p) = n.
Proof. revert p. induction n as [|n IH]; intros p; simpl; [reflexivity | f_equal; apply IH]. Qed.

(** From a pointer inside the pool, the call number [i] reads the index
    [(p + i) mod k]. *)
Lemma selected_indices_lookup (n p i : nat) :
  p < length keys → i < n →
  selected_indices keys n p !! i = Some ((p + i) mod length keys).
Proof using some_key.
  revert p i. induction n as [|n IH]; intros p i Hp Hi; [lia|].
  destruct i as [|i]; simpl.
  - rewrite Nat.add_0_r, Nat.mod_small by assumption. reflexivity.
  - rewrite getNextKey_pointer, IH; [|apply Nat.mod_upper_bound; lia | lia].
    f_equal. rewrite Nat.Div0.add_mod_idemp_l. f_equal. lia.
Qed.

(** Each call returns the key at the index it reads. *)
Lemma keys_returned_selected (n p : nat) :
  keys_returned keys n p = map (fun i => Returned (keys !! i)) (selected_indices keys n p).
Proof using some_key.
  revert p. induction n as [|n IH]; intros p; [reflexivity|].
  cbn [keys_returned selected_indices map]. rewrite IH. f_equal.
  unfold getNextKey. destruct (Nat.eqb_spec (length keys) 0); [lia | reflexivity].
Qed.

Lemma pool_by_index :
  map (fun i => Returned (keys !! i)) (seq 0 (length keys))
  = map (fun key => Returned (Some key)) keys.
Proof using Type.
  clear some_key. apply list_eq. intros i. rewrite !list_lookup_fmap.
  destruct (keys !! i) as [key|] eqn:Hkey; cbn.
  - rewrite lookup_seq_lt by (apply lookup_lt_Some in Hkey; exact Hkey).
    cbn. rewrite Hkey. reflexivity.
  - rewrite lookup_seq_ge by (apply lookup_ge_None in Hkey; lia). reflexivity.
Qed.

Lemma mod_shift_inj (p i j : nat) :
  i < length keys → j < length keys →
  (p + i) mod length keys = (p + j) mod length keys → i = j.
Proof using some_key.
  intros Hi Hj H. set (k := length keys) in *.
  pose proof (Nat.div_mod_eq (p + i) k) as Ei.
  pose proof (Nat.div_mod_eq (p + j) k) as Ej.
  rewrite H in Ei.
  assert (Hq : (p + i) / k = (p + j) / k) by nia.
  rewrite Hq in Ei. lia.
Qed.

End Rotation.

(** C8: from the initial pointer 0 and with [k >= 2] keys, the call number
    [i] reads the index [i mod k] and returns the key stored at that index;
    hence any [k] calls in a row select [k] distinct indices, all the
    indices of the pool, and return every key of the pool once; and no two
    calls in a row select the same index. *)
Theorem key_rotation_round_robin (keys : list jsstring) (calls : nat) :
  2 ≤ length keys →
  let k := length keys in
  let selected := selected_indices keys calls 0 in
  let returned := keys_returned keys calls 0 in
  (∀ i, i < calls →
        selected !! i = Some (i mod k)
        ∧ ∃ key, keys !! (i mod k) = Some key ∧ returned !! i = Some (Returned (Some key)))
  ∧ (∀ start, start + k ≤ calls →
       NoDup (take k (drop start selected))
       ∧ take k (drop start selected) ≡ₚ seq 0 k
       ∧ take k (drop start returned) ≡ₚ map (fun key => Returned (Some key)) keys)
  ∧ (∀ i a b, selected !! i = Some a → selected !! (S i) = Some b → a ≠ b).
Proof.
  intros Hk k selected returned.
  assert (Hpos : 0 < length keys) by lia.
  assert (Hlook : ∀ i, i < calls → selected !! i = Some (i mod k)).
  { intros i Hi. unfold selected.
    rewrite (selected_indices_lookup keys Hpos calls 0 i) by lia. reflexivity. }
  assert (Hret : returned = map (fun i => Returned (keys !! i)) selected)
    by apply (keys_returned_selected keys Hpos).
  split.
  { intros i Hi. split; [apply Hlook, Hi|].
    assert (i mod k < length keys) as Hin by (apply Nat.mod_upper_bound; lia).
    apply lookup_lt_is_Some in Hin as [key Hkey]. exists key. split; [exact Hkey|].
    rewrite Hret, list_lookup_fmap, (Hlook i Hi). cbn [fmap option_fmap option_map].
    rewrite Hkey. reflexivity. }
  split.
  - intros start Hstart.
    assert (Hwin : ∀ j, j < k → take k (drop start selected) !! j = Some ((start + j) mod k)).
    { intros j Hj. rewrite lookup_take_lt, lookup_drop by lia. apply Hlook. lia. }
    assert (Hlen : length (take k (drop start selected)) = k).
    { rewrite length_take, length_drop. unfold selected.
      rewrite selected_indices_length. lia. }
    assert (Hnd : NoDup (take k (drop start selected))).
    { apply NoDup_alt. intros i j x Hi Hj.
      assert (i < k) by (apply lookup_lt_Some in Hi; lia).
      assert (j < k) by (apply lookup_lt_Some in Hj; lia).
      rewrite Hwin in Hi by assumption. rewrite Hwin in Hj by assumption.
      apply (mod_shift_inj keys Hpos start); [assumption..|]. fold k. congruence. }
    assert (Hperm : take k (drop start selected) ≡ₚ seq 0 k).
    { apply submseteq_length_Permutation; [|rewrite length_seq; lia].
      apply NoDup_submseteq; [exact Hnd|].
      intros x Hx. apply list_elem_of_lookup in Hx. destruct Hx as [j Hj].
      assert (j < k) by (apply lookup_lt_Some in Hj; lia).
      rewrite Hwin in Hj by assumption. injection Hj as <-.
      apply elem_of_seq. pose proof (Nat.mod_upper_bound (start + j) k). lia. }
    split; [exact Hnd|]. split; [exact Hperm|].
    rewrite Hret, <- fmap_drop, <- fmap_take, Hperm.
    unfold k. rewrite <- (pool_by_index keys). reflexivity.
  - intros i a b Ha Hb.
    assert (Hi : S i < calls).
    { apply lookup_lt_Some in Hb. unfold selected in Hb.
      rewrite selected_indices_length in Hb. exact Hb. }
    rewrite Hlook in Ha by lia. rewrite Hlook in Hb by lia.
    injection Ha as <-. injection Hb as <-.
    intros Heq.
    assert (0 = 1); [|discriminate].
    apply (mod_shift_inj keys Hpos i); [fold k; lia.. |].
    fold k. rewrite Nat.add_0_r. replace (i + 1) with (S i) by lia. exact Heq.
Qed.

(** Three keys and seven calls: the pool is long enough for the theorem. *)
Lemma key_rotation_round_robin_witness :
  let keys := [lit "k0"; lit "k1"; lit "k2"] in
  let k := length keys in
  let selected := selected_indices keys 7 0 in
  let returned := keys_returned keys 7 0 in
  (∀ i, i < 7 →
        selected !! i = Some (i mod k)
        ∧ ∃ key, keys !! (i mod k) = Some key ∧ returned !! i = Some (Returned (Some key)))
  ∧ (∀ start, start + k ≤ 7 →
       NoDup (take k (drop start selected))
       ∧ take k (drop start selected) ≡ₚ seq 0 k
       ∧ take k (drop start returned) ≡ₚ map (fun key => Returned (Some key)) keys)
  ∧ (∀ i a b, selected !! i = Some a → selected !! (S i) = Some b → a ≠ b).
Proof.
  apply (key_rotation_round_robin [lit "k0"; lit "k1"; lit "k2"] 7). simpl. lia.
Defined.

(** *** The repair protocol *)

Lemma verify_valid_errors (html : jsstring) :
  valid (verifyRepairedTable html) = bool_decide (errors (verifyRepairedTable html) = []).
Proof.
  unfold verifyRepairedTable.
  destruct (negb (test (REGEX_ELEMENT "table") html)); [reflexivity|].
  destruct (negb (test (REGEX_ELEMENT "tr") html)); reflexivity.
Qed.

Section ProtocolFacts.
Variable World : Type.
Variable ai : option (jsstring -> World -> option Reply * World).
Variable callOpenRouter : jsstring -> option jsstring -> World -> option Reply * World.
Variable OPENROUTER_KEYS : list jsstring.
Variable buildRepairPrompt : jsstring -> nat -> RepairContext -> jsstring.
Variable buildRetryPrompt : jsstring -> list jsstring -> jsstring -> nat -> jsstring.
Variable issueId brokenHtml : jsstring.
Variable expectedCols : nat.
Variable context : RepairContext.
Variable strat : strategy.

Abbreviation State := (ServiceState World).
Abbreviation body := (attempt_body World ai callOpenRouter OPENROUTER_KEYS buildRetryPrompt
                    issueId brokenHtml expectedCols context strat).
Abbreviation loop := (attempt_loop World ai callOpenRouter OPENROUTER_KEYS buildRetryPrompt
                    issueId brokenHtml expectedCols context strat).
Abbreviation body_end := (Runs.body_end issueId brokenHtml context).
Abbreviation run_end := (Runs.run_end issueId brokenHtml context).
Abbreviation run := (repairTableWithGemini World ai callOpenRouter OPENROUTER_KEYS
                   buildRepairPrompt buildRetryPrompt issueId brokenHtml expectedCols
                   context strat).

Lemma call_pool_iterations (n : nat) (prompt : jsstring) (st : State) :
  iterations World (snd (call_pool World callOpenRouter OPENROUTER_KEYS n prompt st))
  = iterations World st.
Proof.
  revert st. induction n as [|n IH]; intros st; [reflexivity|]. simpl.
  destruct (getNextKey OPENROUTER_KEYS (keyPointer World st)) as [[key|msg] p];
    [|reflexivity].
  destruct (callOpenRouter prompt key _) as [[reply|] w]; [reflexivity|].
  rewrite IH. reflexivity.
Qed.

Lemma call_providers_iterations (n : nat) (used : provider) (prompt : jsstring) (st : State) :
  iterations World
    (snd (call_providers World ai callOpenRouter OPENROUTER_KEYS strat n used prompt st))
  = iterations World st.
Proof.
  unfold call_providers.
  set (first := match strat, ai, n, used with
                | hybrid, Some generateContent, 0, google => _
                | _, _, _, _ => _
                end).
  assert (Hfirst : iterations World (snd first) = iterations World st).
  { subst first. destruct strat, ai as [g|], n, used; try reflexivity.
    destruct (g prompt (world World st)) as [[reply|] w]; reflexivity. }
  destruct first as [[used1 reply1] st1]. cbn [snd] in Hfirst.
  destruct (_ || _ || _); [|exact Hfirst].
  pose proof (call_pool_iterations 3 prompt st1) as Hpool.
  destruct (call_pool _ _ _ 3 prompt st1) as [[reply|msg] st2];
    cbn [snd] in *; congruence.
Qed.


Lemma accumulated_snoc (logs : list RepairAttempt) (a : RepairAttempt) :
  accumulated (logs ++ [a]) = add_usage (accumulated logs) (a_usage a).
Proof. unfold accumulated. rewrite map_app, foldl_app. reflexivity. Qed.

Lemma attempt_body_spec (l : Locals) (st : State) :
  consistent l →
  body_end l (fst (body l st))
  ∧ iterations World (snd (body l st)) = S (iterations World st).
Proof.
  intros [Hlen Hfail Hsum]. unfold attempt_body.
  pose proof (call_providers_iterations (attemptsSoFar l) (providerUsed l)
                (currentPrompt l) (enter_iteration World st)) as Hit.
  destruct (call_providers _ _ _ _ _ _ _ _ _) as [[[used reply]|msg] st1];
    cbn [snd] in Hit.
  2:{ split; [constructor | exact Hit]. }
  set (html := candidate (reply_text reply)).
  rewrite (verify_valid_errors html).
  set (entry := {| attemptNumber := _ |}).
  assert (Hacc : add_usage (historyUsage l) (reply_usage reply)
                 = accumulated (attemptLogs l ++ [entry]))
    by (rewrite accumulated_snoc, Hsum; reflexivity).
  rewrite Hacc.
  destruct (bool_decide_reflect (errors (verifyRepairedTable html) = [])) as [He|He];
    cbn [fst snd]; (split; [|exact Hit]).
  - apply end_success. exact He.
  - apply end_retry; [|cbn; lia].
    constructor; cbn [attemptLogs attemptsSoFar historyUsage].
    + rewrite length_app, Hlen. cbn. reflexivity.
    + apply Forall_app_2; [exact Hfail | repeat constructor; exact He].
    + reflexivity.
Qed.

Lemma attempt_loop_spec (fuel : nat) (l : Locals) (st : State) :
  consistent l →
  attemptsSoFar l ≤ MAX_VERIFICATION_ATTEMPTS →
  MAX_VERIFICATION_ATTEMPTS - attemptsSoFar l ≤ fuel →
  ∃ r st' m,
    loop fuel l st = (Some r, st')
    ∧ iterations World st' = m + iterations World st
    ∧ attemptsSoFar l + m ≤ MAX_VERIFICATION_ATTEMPTS
    ∧ (attemptsSoFar l < MAX_VERIFICATION_ATTEMPTS → 1 ≤ m)
    ∧ run_end (attemptsSoFar l + m) r.
Proof.
  revert l st. induction fuel as [|fuel IH]; intros l st Hc Hmax Hfuel.
  - assert (Heq : attemptsSoFar l = MAX_VERIFICATION_ATTEMPTS) by lia.
    exists (result_exhausted issueId brokenHtml context (providerUsed l) (historyUsage l)
              (attemptLogs l)), st, 0.
    cbn [attempt_loop]. rewrite Heq, Nat.ltb_irrefl.
    repeat split; [lia | lia |].
    rewrite Nat.add_0_r.
    apply run_exhausted; [apply Hc | rewrite (logged l Hc) | ]; lia.
  - cbn [attempt_loop].
    destruct (Nat.ltb_spec (attemptsSoFar l) MAX_VERIFICATION_ATTEMPTS) as [Hlt|Hge].
    + destruct (attempt_body_spec l st Hc) as [Hend Hit].
      destruct (body l st) as [[r|l'] st1]; cbn [fst snd] in Hend, Hit.
      * exists r, st1, 1. repeat split; [lia | lia | lia |].
        inversion Hend; subst.
        -- apply run_success; [apply Hc | assumption |].
           rewrite length_app, (logged l Hc). cbn. lia.
        -- apply run_critical.
      * inversion Hend as [| |l'' Hc' Hs]; subst.
        destruct (IH l' st1 Hc' ltac:(lia) ltac:(lia)) as (r & st' & m & Hrun & Hm & Hle & Hpos & Hr).
        exists r, st', (S m). rewrite Hrun, Hm, Hit.
        repeat split; [lia | lia | lia |].
        replace (attemptsSoFar l + S m) with (attemptsSoFar l' + m) by lia. exact Hr.
    + assert (Heq : attemptsSoFar l = MAX_VERIFICATION_ATTEMPTS) by lia.
      exists (result_exhausted issueId brokenHtml context (providerUsed l) (historyUsage l)
                (attemptLogs l)), st, 0.
      repeat split; [lia | lia |].
      rewrite Nat.add_0_r.
      apply run_exhausted; [apply Hc | rewrite (logged l Hc) | ]; lia.
Qed.

Lemma initial_consistent :
  consistent (initial_locals buildRepairPrompt brokenHtml expectedCols context strat).
Proof. constructor; [reflexivity | constructor | reflexivity]. Qed.

(** Every run returns, after one to three attempts, in one of the three
    ways of [run_end]. *)
Lemma run_spec (st : State) :
  ∃ r st' n,
    run st = (Some r, st')
    ∧ iterations World st' = n + iterations World st
    ∧ 1 ≤ n ≤ MAX_VERIFICATION_ATTEMPTS
    ∧ run_end n r.
Proof.
  destruct (attempt_loop_spec MAX_VERIFICATION_ATTEMPTS _ st initial_consistent)
    as (r & st' & m & Hrun & Hm & Hle & Hpos & Hr);
    [cbn; unfold MAX_VERIFICATION_ATTEMPTS; lia.. |].
  exists r, st', m. cbn [initial_locals attemptsSoFar] in *.
  unfold MAX_VERIFICATION_ATTEMPTS in *.
  repeat split; [exact Hrun | exact Hm | lia | lia | exact Hr].
Qed.

Lemma failures_all_failed (logs : list RepairAttempt) :
  Forall (fun a => validationErrors a ≠ []) logs →
  List.filter (fun a => negb (bool_decide (validationErrors a = []))) logs = logs.
Proof.
  induction 1 as [|a logs Ha _ IH]; [reflexivity|]. cbn [List.filter].
  rewrite bool_decide_eq_false_2 by exact Ha. cbn [negb]. f_equal. exact IH.
Qed.

(** C2, amended: every invocation returns after [n] attempts with
    [1 <= n <= 3].  When the result carries a log (validation succeeded, or
    failed three times) the log has one entry per attempt made and
    [n = min (failures + 1) 3], the failures being the attempts whose
    validation failed: all but the last on success, all three on
    exhaustion.  When a call error aborts the run the result carries no
    log at all. *)
Theorem attempts_bounded_and_logged (st : State) :
  ∃ r st',
    run st = (Some r, st')
    ∧ let n := iterations World st' - iterations World st in
      1 ≤ n ≤ 3
      ∧ match log r with
        | Some lg =>
            length (attempts lg) = n
            ∧ n = Nat.min (failures lg + 1) 3
            ∧ failures lg = (if r_success r then n - 1 else 3)
            ∧ finalResult lg = (if r_success r then success else failed)
        | None => r_success r = false ∧ is_Some (r_error r)
        end.
Proof.
  destruct (run_spec st) as (r & st' & n & Hrun & Hn & Hle & Hr).
  exists r, st'. split; [exact Hrun|]. cbv zeta.
  replace (iterations World st' - iterations World st) with n by lia.
  unfold MAX_VERIFICATION_ATTEMPTS in *. split; [exact Hle|].
  destruct Hr as [html used logs entry Hfail Hok Hlen | used history logs Hfail Hlen Hmax | msg];
    cbn [log result_success result_exhausted result_critical make_log attempts
         r_success r_error finalResult].
  - unfold failures. cbn [attempts make_log]. rewrite List.filter_app, (failures_all_failed logs Hfail).
    cbn [List.filter]. rewrite bool_decide_eq_true_2 by exact Hok. cbn [negb].
    rewrite app_nil_r. pose proof Hlen as Hlen'.
    rewrite length_app in Hlen'. cbn [length] in Hlen'.
    repeat split; [exact Hlen | lia | lia].
  - unfold failures. cbn [attempts make_log]. rewrite (failures_all_failed logs Hfail).
    unfold MAX_VERIFICATION_ATTEMPTS in Hmax. repeat split; [exact Hlen | lia | lia].
  - split; [reflexivity | eexists; reflexivity].
Qed.


End ProtocolFacts.

(** C2, the counterexample: with a pool whose calls all fail the run makes
    one attempt (three calls to the pool) and returns a failure that
    carries no attempt log. *)
Lemma critical_failure_has_no_log :
  ∃ r st',
    run_with failing_pool = (Some r, st')
    ∧ iterations unit st' - iterations unit demo_state = 1
    ∧ keyPointer unit st' = 1
    ∧ r_success r = false
    ∧ r_error r = Some (lit "All OpenRouter keys failed.")
    ∧ log r = None.
Proof. eexists _, _. split; [vm_compute; reflexivity|]. repeat split. Qed.


(** The numbers of that run: two attempts, the usage of both added up, and
    the cost of the sum. *)
#[warnings="-inexact-float"]
Example second_try_cost :
  (length ∘ attempts <$> log (fst second_try_run)) = Some 2
  ∧ r_provider (fst second_try_run) = Some openrouter
  ∧ r_usage (fst second_try_run)
    = Some {| promptTokens := 300%float; completionTokens := 30%float;
              totalTokens := 330%float |}
  ∧ costBRL (fst second_try_run)
    = Some ((300 / 1000000 * 0.10 + 30 / 1000000 * 0.40) * 6.00)%float.
Proof. vm_compute. repeat split. Qed.

(** *** The expected-column hint *)

Lemma foldl_max_spec (ns : list nat) (a : nat) :
  foldl (fun max c => if max <? c then c else max) a ns = Nat.max a (max_list ns).
Proof.
  revert a. induction ns as [|n ns IH]; intros a; simpl; [lia|].
  rewrite IH. destruct (Nat.ltb_spec a n); lia.
Qed.

Lemma foldl_map_cells {A} (f : A → nat) (l : list A) (a : nat) :
  foldl (fun max x => let c := f x in if max <? c then c else max) a l
  = foldl (fun max c => if max <? c then c else max) a (map f l).
Proof. revert a. induction l as [|x l IH]; intros a; [reflexivity|]. apply IH. Qed.

(** C10: [countExpectedCols] returns a number for every input: 0 when the
    parse throws or the document has no table, and otherwise the largest
    number of [td]/[th] cells below a [tr] of the first table.  Attributes
    take no part: the count is the same on the document with every attribute
    removed, and it differs from the grid builder's [expectedCols] on a
    header cell with a [colspan]. *)
Theorem countExpectedCols_counts_raw_cells (JSDOM : jsstring → option node)
    (html : jsstring) :
  countExpectedCols JSDOM html
  = match JSDOM html ≫= (fun root => querySelector (tags ["table"]) (document root)) with
    | None => 0
    | Some table =>
        max_list (map (fun tr => length (querySelectorAll (tags ["td"; "th"]) tr))
                      (querySelectorAll (tags ["tr"]) table))
    end
  ∧ countExpectedCols (fun s => strip_attributes <$> JSDOM s) html
    = countExpectedCols JSDOM html
  ∧ countExpectedCols colspan_parser colspan_markup = 1
  ∧ AuditService.expectedCols colspan_grid = 2.
Proof.
  assert (Hmax : ∀ rows : list elem,
    foldl (fun max tr =>
             let c := length (querySelectorAll (tags ["td"; "th"]) tr) in
             if max <? c then c else max) 0 rows
    = max_list (map (fun tr => length (querySelectorAll (tags ["td"; "th"]) tr)) rows)).
  { intros rows.
    rewrite (foldl_map_cells (fun tr => length (querySelectorAll (tags ["td"; "th"]) tr))).
    apply foldl_max_spec. }
  split; [|split; [|split; vm_compute; reflexivity]].
  - unfold countExpectedCols. destruct (JSDOM html) as [root|]; [|reflexivity].
    cbn [mbind option_bind].
    destruct (querySelector (tags ["table"]) (document root)) as [table|]; [|reflexivity].
    apply Hmax.
  - unfold countExpectedCols. destruct (JSDOM html) as [root|]; [|reflexivity].
    cbn [fmap option_fmap option_map].
    change (document (strip_attributes root)) with (strip_elem (document root)).
    rewrite querySelector_strip.
    destruct (querySelector (tags ["table"]) (document root)) as [table|]; [|reflexivity].
    cbn [fmap option_fmap option_map].
    rewrite !Hmax, querySelectorAll_strip, map_map. f_equal.
    apply map_ext. intros tr. rewrite querySelectorAll_strip, length_map. reflexivity.
Qed.

End RepairFacts.

Module WorkerFacts.
Import JS Dom RepairService RepairWorker Scenarios Tree TreeFacts.

(** *** Back-off *)

(** A failed repair of a job that has attempts left is answered with a retry
    scheduled from the payload's [attempt], and a throw. *)
Lemma failed_delivery (job : JobPayload) (taskMaxAttempts : option nat) (now : Z)
    (result : RepairResult) :
  r_success result = false →
  attempt job + 1 < match taskMaxAttempts with Some (S n) => S n | _ => 3 end →
  scheduled_retry (fst (handle_result job taskMaxAttempts now result))
  = Some (now + 5000 * 2 ^ Z.of_nat (attempt job + 1))%Z
  ∧ snd (handle_result job taskMaxAttempts now result)
    = JobThrew (or_else (r_error result) (lit "Repair failed")).
Proof.
  intros Hfail Hlt. unfold handle_result. rewrite Hfail.
  apply Nat.ltb_lt in Hlt. rewrite Hlt. cbn [fst snd scheduled_retry foldl x_nextRetryAt].
  split; [|reflexivity]. unfold backoff_ms. f_equal. lia.
Qed.

Lemma failed_deliveries (job : JobPayload) (taskMaxAttempts : option nat)
    (runs : list (Z * RepairResult)) :
  Forall (fun run => r_success (snd run) = false) runs →
  attempt job + 1 < match taskMaxAttempts with Some (S n) => S n | _ => 3 end →
  deliveries job taskMaxAttempts runs
  = map (fun run => handle_result job taskMaxAttempts (fst run) (snd run)) runs.
Proof.
  intros Hruns Hlt. induction Hruns as [|run rest Hrun _ IH]; [reflexivity|].
  cbn [deliveries map]. cbv zeta.
  rewrite (proj2 (failed_delivery job taskMaxAttempts (fst run) (snd run) Hrun Hlt)), IH.
  reflexivity.
Qed.

(** C3, the failing input: a job as the upload queues it ([attempt] 0,
    three attempts allowed) whose repair fails at its first two deliveries.
    The retry written at the second failure is [5000 * 2^1] ms ahead, as at
    the first, and not [5000 * 2^2] ms.  In general, while the repairs of a
    job fail and [attempt + 1] is below the maximum, the retry written at
    the delivery number [k] (from 1) lies [5000 * 2^(attempt + 1)] ms
    ahead, whatever [k] is: the delay follows the payload's [attempt],
    which stays as it was queued. *)
Theorem retry_delay_ignores_the_delivery :
  (∀ now1 now2 : Z,
     let job := {| taskId := lit "task-1"; batchId := lit "batch-1"; questionIndex := 0;
                   field := lit "enunciado"; tableIndex := 0;
                   rawHtml := lit "<table><td>1</table>"; attempt := 0 |} in
     let failure := result_critical (lit "task-1") (lit "<table><td>1</table>")
                      (lit "All OpenRouter keys failed.") in
     map (fun delivery => (scheduled_retry (fst delivery), snd delivery))
         (deliveries job None [(now1, failure); (now2, failure)])
     = [(Some (now1 + 5000 * 2 ^ 1)%Z, JobThrew (lit "All OpenRouter keys failed."));
        (Some (now2 + 5000 * 2 ^ 1)%Z, JobThrew (lit "All OpenRouter keys failed."))]
     ∧ (now2 + 5000 * 2 ^ 1 ≠ now2 + 5000 * 2 ^ 2)%Z)
  ∧ (∀ (job : JobPayload) (taskMaxAttempts : option nat) (runs : list (Z * RepairResult))
       (k : nat) (now : Z) (result : RepairResult),
       Forall (fun run => r_success (snd run) = false) runs →
       attempt job + 1 < match taskMaxAttempts with Some (S n) => S n | _ => 3 end →
       runs !! k = Some (now, result) →
       ∃ delivery,
         deliveries job taskMaxAttempts runs !! k = Some delivery
         ∧ scheduled_retry (fst delivery)
           = Some (now + 5000 * 2 ^ Z.of_nat (attempt job + 1))%Z
         ∧ snd delivery = JobThrew (or_else (r_error result) (lit "Repair failed"))).
Proof.
  split.
  - intros now1 now2. cbv zeta. split; [|lia].
    cbn [deliveries handle_result result_critical r_success r_error fst snd map
         attempt Nat.add Nat.ltb Nat.leb or_else lit scheduled_retry foldl x_nextRetryAt].
    unfold backoff_ms. cbn [attempt Nat.add Z.of_nat Pos.of_succ_nat Pos.succ].
    repeat f_equal; lia.
  - intros job taskMaxAttempts runs k now result Hruns Hlt Hk.
    rewrite (failed_deliveries job taskMaxAttempts runs Hruns Hlt).
    eexists. rewrite list_lookup_fmap, Hk. split; [reflexivity|]. cbn [fst snd].
    apply failed_delivery; [|exact Hlt].
    rewrite Forall_forall in Hruns. apply (Hruns (now, result)).
    apply list_elem_of_lookup_2 with k, Hk.
Qed.

(** *** Positional replacement *)

Lemma splice_at_below (new : list node) (i : nat) (p : list nat) t a cs :
  p ≠ [] →
  splice_at (i :: p) new (Element t a cs) = Element t a (alter (splice_at p new) i cs).
Proof. destruct p; [congruence | reflexivity]. Qed.

(** Every descendant is found at a path below the node, and splicing at that
    path replaces exactly the descendant. *)
Lemma descendant_spliced (new : list node) (n : node) :
  ∀ pth anc e,
    e ∈ descendants_from pth anc n →
    ∃ p, p ≠ [] ∧ e_path e = pth ++ p
         ∧ spliced new p n (e_node e) (splice_at p new n).
Proof.
  induction n as [d|d|t a cs IH] using node_induction; intros pth anc e He;
    [inversion He | inversion He |].
  rewrite descendants_from_element in He.
  assert (Hgen : ∀ pre l,
    Forall (fun c => ∀ pth anc e, e ∈ descendants_from pth anc c →
              ∃ p, p ≠ [] ∧ e_path e = pth ++ p
                   ∧ spliced new p c (e_node e) (splice_at p new c)) l →
    e ∈ children_from pth t anc (length pre) l →
    ∃ p, p ≠ [] ∧ e_path e = pth ++ p
         ∧ spliced new p (Element t a (pre ++ l)) (e_node e)
                   (splice_at p new (Element t a (pre ++ l)))).
  { clear. intros pre l Hl. revert pre.
    induction Hl as [|c l Hc _ IHl]; intros pre He; [inversion He|].
    rewrite children_from_cons in He.
    apply elem_of_app in He as [He|He]; [|apply elem_of_app in He as [He|He]].
    - destruct (isElement c); [|inversion He].
      apply list_elem_of_singleton in He. subst e.
      exists [length pre]. cbn [e_path e_node splice_at].
      split; [discriminate|]. split; [reflexivity|].
      rewrite take_app_length.
      replace (drop (S (length pre)) (pre ++ c :: l)) with l.
      2:{ change (pre ++ c :: l) with (pre ++ [c] ++ l). rewrite app_assoc.
          replace (S (length pre)) with (length (pre ++ [c]))
            by (rewrite length_app; cbn; lia).
          rewrite drop_app_length. reflexivity. }
      apply spliced_here.
    - destruct (Hc _ _ _ He) as (p & Hp & Hpath & Hs).
      exists (length pre :: p). split; [discriminate|]. split.
      + rewrite Hpath, <- app_assoc. reflexivity.
      + rewrite splice_at_below by assumption.
        rewrite alter_app_r_alt by lia. rewrite Nat.sub_diag. cbn [alter list_alter].
        apply spliced_below. exact Hs.
    - specialize (IHl (pre ++ [c])).
      rewrite length_app, Nat.add_1_r, <- app_assoc in IHl. apply IHl. exact He. }
  apply (Hgen [] cs IH He).
Qed.

Section Replacement.
Variable JSDOM : jsstring → option node.
Variable parseFragment : jsstring → list node.

Lemma top_level_table_spliced (new : list node) (body target : elem) (i : nat) :
  top_level_tables body !! i = Some target →
  spliced new (path_below body target) (e_node body) (e_node target)
          (splice_at (path_below body target) new (e_node body)).
Proof.
  intros Hi. apply list_elem_of_lookup_2 in Hi.
  unfold top_level_tables, querySelectorAll in Hi.
  apply list_elem_of_In, filter_In in Hi as [Hi _].
  apply filter_In in Hi as [Hi _]. apply list_elem_of_In in Hi.
  destruct (descendant_spliced new _ _ _ _ Hi) as (p & _ & Hpath & Hs).
  unfold path_below. rewrite Hpath, drop_app_length. exact Hs.
Qed.

(** What the statements of [domReplace] compute from a parser, for any
    parser: the table number [i] is picked among the tables of the parsed
    field that have no table above them, in document order.  When there is
    no parse, the body is missing or [i] is not below the number of such
    tables, the result is the field as it was given.  Otherwise it is the
    serialisation of a body that is the parsed body with exactly the
    targeted table taken out (when the replacement trims to the empty
    string) or exchanged for the first table element of the parsed
    replacement; when the replacement is not empty but holds no table
    element, the body is left as parsed. *)
Lemma domReplace_with_a_parser (fullHtml newTableHtml : jsstring) (tableIndex : nat) :
  let result := domReplace JSDOM parseFragment fullHtml newTableHtml tableIndex in
  match JSDOM (lit "<body>" ++ fullHtml ++ lit "</body>")
        ≫= (fun root => querySelector (tags ["body"]) (document root)) with
  | None => result = fullHtml
  | Some body =>
      match top_level_tables body !! tableIndex with
      | None => length (top_level_tables body) ≤ tableIndex ∧ result = fullHtml
      | Some target =>
          tableIndex < length (top_level_tables body)
          ∧ tagName (e_node target) = "table"
          ∧ ("table" ∉ ancestors_below body target)
          ∧ ∃ body',
              result = innerHTML body'
              ∧ if str_eqb (trim newTableHtml) []
                then spliced [] (path_below body target) (e_node body) (e_node target) body'
                else
                  match querySelector (tags ["table"])
                          (mkElem [] [] (Element "div" [] (parseFragment newTableHtml))) with
                  | Some newTable =>
                      spliced [e_node newTable] (path_below body target)
                              (e_node body) (e_node target) body'
                  | None => body' = e_node body
                  end
      end
  end.
Proof.
  cbv zeta. unfold domReplace.
  destruct (JSDOM _) as [root|]; [|reflexivity]. cbn [mbind option_bind].
  destruct (querySelector (tags ["body"]) (document root)) as [body|]; [|reflexivity].
  destruct (top_level_tables body !! tableIndex) as [target|] eqn:Hi.
  2:{ split; [apply lookup_ge_None; exact Hi | reflexivity]. }
  split; [apply lookup_lt_Some in Hi; exact Hi|].
  pose proof Hi as Hin. apply list_elem_of_lookup_2 in Hin.
  unfold top_level_tables in Hin. apply list_elem_of_In, filter_In in Hin as [Hq Htop].
  unfold querySelectorAll in Hq. apply filter_In in Hq as [_ Htag].
  split.
  { cbn in Htag. rewrite orb_false_r in Htag.
    apply andb_true_iff in Htag as [_ Htag]. apply String.eqb_eq in Htag. exact Htag. }
  split.
  { apply negb_true_iff, bool_decide_eq_false in Htop. exact Htop. }
  destruct (str_eqb (trim newTableHtml) []).
  - eexists. split; [reflexivity|]. apply (top_level_table_spliced _ _ _ _ Hi).
  - destruct (querySelector (tags ["table"]) _) as [newTable|].
    + eexists. split; [reflexivity|]. apply (top_level_table_spliced _ _ _ _ Hi).
    + eexists. split; reflexivity.
Qed.

End Replacement.

(** C9, the failing input: the field [<p>x</p><table>...1...</table>], the
    replacement table [<table>...2...</table>] and the index 0.  In the worker
    as it is built [require('jsdom')] throws, and [domReplace] returns the
    field it was given: the table is neither replaced, nor removed by an
    empty replacement, and this for every field, replacement and index.
    With a parser at hand the same statements return the field with the
    table exchanged. *)
Theorem domReplace_returns_the_field :
  domReplace require_throws fragment_parser field_markup
    (lit "<table><tr><td>2</td></tr></table>") 0
  = field_markup
  ∧ domReplace require_throws fragment_parser field_markup (lit "  ") 0 = field_markup
  ∧ (∀ (parseFragment : jsstring → list node) (fullHtml newTableHtml : jsstring)
       (tableIndex : nat),
       domReplace require_throws parseFragment fullHtml newTableHtml tableIndex = fullHtml)
  ∧ domReplace field_parser fragment_parser field_markup
      (lit "<table><tr><td>2</td></tr></table>") 0
    = lit "<p>x</p><table><tbody><tr><td>2</td></tr></tbody></table>".
Proof.
  split; [reflexivity|]. split; [reflexivity|]. split; [reflexivity|].
  vm_compute. reflexivity.
Qed.

(** With a parser at hand: an empty replacement removes the table, an index
    out of range and a replacement that holds no table element change
    nothing. *)
Example domReplace_examples :
  domReplace field_parser fragment_parser field_markup (lit "  ") 0 = lit "<p>x</p>"
  ∧ domReplace field_parser fragment_parser field_markup (lit "  ") 1 = field_markup
  ∧ domReplace field_parser fragment_parser field_markup (lit "n/a") 0
    = lit "<p>x</p><table><tbody><tr><td>1</td></tr></tbody></table>".
Proof. repeat split; vm_compute; reflexivity. Qed.

End WorkerFacts.

(* ====================================================================== *)
(** ** Lists *)
(* ====================================================================== *)

Module ListFacts.

Lemma snoc_app {A} (l : list A) (x : A) (r : list A) : l ++ x :: r = (l ++ [x]) ++ r.
Proof. rewrite <- app_assoc. reflexivity. Qed.

End ListFacts.

(* ====================================================================== *)
(** ** Further properties of the audit engine *)
(* ====================================================================== *)

Module IssueFacts.
Import JS Dom AuditService Scenarios AuditNotions.

(** *** Properties that hold of every issue a rule reports *)

Section Every.
Variable P : Issue → Prop.

Lemma every_if (b : bool) (l1 l2 : list Issue) :
  Forall P l1 → Forall P l2 → Forall P (if b then l1 else l2).
Proof. destruct b; auto. Qed.

Lemma every_flat_map {A} (f : A → list Issue) (l : list A) :
  (∀ x, Forall P (f x)) → Forall P (flat_map f l).
Proof.
  intros H. induction l as [|x l IH]; cbn [flat_map]; [constructor|].
  apply Forall_app_2; auto.
Qed.

Lemma every_concat_imap {A} (f : nat → A → list Issue) (l : list A) :
  (∀ i x, Forall P (f i x)) → Forall P (concat (imap f l)).
Proof.
  revert f. induction l as [|x l IH]; intros f H; cbn [imap concat]; [constructor|].
  apply Forall_app_2; [apply H | apply IH; intros i y; apply H].
Qed.

End Every.

(** Splits a goal about the issues of a rule into one goal per issue the
    rule can create. *)
Ltac every_issue :=
  repeat (cbv beta zeta;
    lazymatch goal with
    | |- Forall _ [] => constructor
    | |- Forall _ [_] => constructor; [|constructor]
    | |- Forall _ (_ ++ _) => apply Forall_app_2
    | |- Forall _ (if _ then _ else _) => apply every_if
    | |- Forall _ (concat (imap _ _)) => apply every_concat_imap; intros
    | |- Forall _ (flat_map _ _) => apply every_flat_map; intros
    | |- Forall _ (let '(_, _) := ?p in _) => destruct p
    end).

Lemma issue_regular (context : Context) (tableHtml : jsstring) (sev : severity)
    (ty : issue_type) (title : jsstring) (loc : location) :
  fixed_severity ty = Some sev ∨ fixed_severity ty = None →
  shape loc = shape_of_type ty →
  ty ≠ MARKDOWN_TABLE_IN_FIELD →
  regular context tableHtml (issue context tableHtml sev ty title loc).
Proof.
  intros Hsev Hshape Hty. unfold regular, from_table, graded, shaped, table_level, issue.
  cbn [createIssue i_qid i_questionIndex i_field i_tableIndex i_fullText i_rawHtml
       i_severity i_type i_location].
  repeat split; try assumption.
  destruct Hsev as [->| ->]; reflexivity.
Qed.

Ltac regular_issue :=
  apply issue_regular; [first [left; reflexivity | right; reflexivity]
                       | reflexivity | discriminate].

Lemma analyzeParsedTable_regular (context : Context) (tableHtml : jsstring) (table : elem) :
  Forall (regular context tableHtml) (analyzeParsedTable context tableHtml table).
Proof.
  unfold analyzeParsedTable, nested_issues, no_header_issues, layout_1x1_issues,
    empty_table_issues, header_issues, header_cell_issues, missing_header_issues,
    duplicate_header_issues, ghost_issues, ghost_column_issue, width_issues, cell_issues,
    hole_issues, rowspan_issues, style_issues.
  every_issue; try regular_issue.
  all: destruct (_ =? _); regular_issue.
Qed.

Lemma analyzeTable_regular (JSDOM : jsstring → option node) (tableHtml : jsstring)
    (context : Context) (found : list Issue) :
  analyzeTable JSDOM tableHtml context = Some found →
  Forall (regular context tableHtml) found.
Proof.
  unfold analyzeTable.
  destruct (test REGEX_CONTENT_SWALLOW tableHtml).
  { intros [= <-]. every_issue. regular_issue. }
  destruct (_ || _).
  { intros [= <-]. every_issue. regular_issue. }
  destruct (JSDOM tableHtml) as [root|]; [|discriminate]. cbn [mbind option_bind].
  destruct (querySelector _ _) as [table|].
  - destruct (_ =? 0); intros [= <-].
    + every_issue. regular_issue.
    + apply analyzeParsedTable_regular.
  - intros [= <-]. every_issue. regular_issue.
Qed.

(** X3: every issue [analyzeTable] reports carries the identifiers of the
    context it was called with and the analysed markup as [rawHtml]; its
    severity is the one fixed for its type ([GHOST_COLUMN] alone comes with
    either), and so are the members of its location. *)
Theorem issues_follow_their_type (JSDOM : jsstring → option node) (tableHtml : jsstring)
    (context : Context) (found : list Issue) :
  analyzeTable JSDOM tableHtml context = Some found →
  Forall (fun i => from_table context tableHtml i ∧ graded i ∧ shaped i) found.
Proof.
  intros H. apply analyzeTable_regular in H.
  eapply Forall_impl; [exact H|]. intros i (Hfrom & Hg & Hs & _). auto.
Qed.

Lemma issues_follow_their_type_witness :
  Forall (fun i => from_table ghost_context (outerHTML ghost_table) i ∧ graded i ∧ shaped i)
         [ghost_issue WARN].
Proof.
  apply (issues_follow_their_type ghost_parser). vm_compute. reflexivity.
Defined.

(** *** The report of a document *)

Lemma mapM_flat_map_elem {A B C} (f : A → option B) (g : B → list C)
    (l : list A) (k : list B) (c : C) :
  mapM f l = Some k → c ∈ flat_map g k →
  ∃ x y, x ∈ l ∧ f x = Some y ∧ c ∈ g y.
Proof.
  intros Hm Hc. apply mapM_Some_1 in Hm.
  induction Hm as [|x y l k Hxy _ IH]; cbn [flat_map] in Hc; [inversion Hc|].
  apply elem_of_app in Hc as [Hc|Hc].
  - exists x, y. split; [left | auto].
  - destruct (IH Hc) as (x' & y' & Hx' & Hf & Hg).
    exists x', y'. split; [right; exact Hx' | auto].
Qed.

Lemma elem_of_imap_pair {A} (l : list A) (i : nat) (x : A) :
  (i, x) ∈ imap pair l ↔ l !! i = Some x.
Proof.
  rewrite elem_of_lookup_imap. split.
  - intros (j & y & [= -> ->] & H). exact H.
  - intros H. exists i, x. auto.
Qed.

Section Report.
Variable JSDOM : jsstring → option node.

Lemma audit_field_traceable (data : AuditInput) (index : nat) (q : Question) (f : field)
    (r : nat * list Issue) :
  questions_of data !! index = Some q →
  audit_field JSDOM index q f = Some r →
  Forall (fun i => graded i ∧ shaped i ∧ traceable JSDOM data i) (snd r).
Proof.
  intros Hq. unfold audit_field.
  destruct (q_field q f) as [value|] eqn:Hvalue; [|intros [= Hr]; subst r; constructor].
  unfold str_eqb. case_bool_decide as Hne; [intros [= Hr]; subst r; constructor|].
  destruct (extractTopLevelTables JSDOM value) as [topTables|] eqn:Htop; [|discriminate].
  cbn [mbind option_bind].
  destruct (mapM _ _) as [found|] eqn:Hfound; [|discriminate].
  intros [= Hr]; subst r. cbn [snd]. apply Forall_app_2.
  - destruct (_ && _); [|constructor]. constructor; [|constructor].
    split; [reflexivity|]. split; [reflexivity|].
    exists q, value. cbn. repeat split; try assumption. left. auto.
  - apply Forall_forall. intros i Hi.
    replace (concat found) with (flat_map (fun x : list Issue => x) found) in Hi
      by (clear; induction found as [|x l IH]; cbn; congruence).
    destruct (mapM_flat_map_elem _ (fun x => x) _ _ _ Hfound Hi) as ([k t] & ft & Hkt & Hana & Hin).
    apply elem_of_imap_pair in Hkt. cbn [fst snd] in Hana.
    apply analyzeTable_regular in Hana.
    rewrite Forall_forall in Hana. destruct (Hana i Hin) as (Hfrom & Hg & Hs & Hlevel).
    destruct Hfrom as (H1 & H2 & H3 & H4 & H5 & H6). cbn in H1, H2, H3, H4, H5.
    split; [exact Hg|]. split; [exact Hs|].
    exists q, value. rewrite H2, H3. repeat split; try assumption.
    right. split; [exact Hlevel|]. exists topTables, t. rewrite H4. auto.
Qed.

Lemma audit_question_traceable (data : AuditInput) (index : nat) (q : Question)
    (r : nat * list Issue) :
  questions_of data !! index = Some q →
  audit_question JSDOM index q = Some r →
  Forall (fun i => graded i ∧ shaped i ∧ traceable JSDOM data i) (snd r).
Proof.
  intros Hq. unfold audit_question.
  destruct (mapM _ _) as [per_field|] eqn:Hm; [|discriminate].
  intros [= Hr]; subst r. cbn [snd]. apply Forall_forall. intros i Hi.
  destruct (mapM_flat_map_elem _ _ _ _ _ Hm Hi) as (f & rf & _ & Hf & Hin).
  pose proof (audit_field_traceable data index q f rf Hq Hf) as H.
  rewrite Forall_forall in H. apply H, Hin.
Qed.

(** X4: every issue of an audit report can be traced to its source: its
    [questionIndex] names a question of the document, whose audited [field]
    holds the issue's [fullText]; its [qid] is that question's identifier;
    and either it is the Markdown-table issue of the field, with
    [tableIndex] 0 and the first 600 characters of the field as [rawHtml],
    or its [tableIndex] counts a top-level table of the field, whose
    serialisation is its [rawHtml].  Severity and location follow the
    issue's type. *)
Theorem audit_issues_are_traceable (data : AuditInput) (report : AuditReport) :
  auditData JSDOM data = Some report →
  Forall (fun i => graded i ∧ shaped i ∧ traceable JSDOM data i) (issues report).
Proof.
  unfold auditData.
  destruct (mapM _ _) as [per_question|] eqn:Hm; [|discriminate].
  intros [= Hr]; subst report. cbn [issues]. apply Forall_forall. intros i Hi.
  destruct (mapM_flat_map_elem _ _ _ _ _ Hm Hi) as ([index q] & r & Hq & Hr & Hin).
  apply elem_of_imap_pair in Hq. cbn [fst snd] in Hr.
  pose proof (audit_question_traceable data index q r Hq Hr) as H.
  rewrite Forall_forall in H. apply H, Hin.
Qed.

End Report.

Lemma audit_issues_are_traceable_witness :
  Forall (fun i => graded i ∧ shaped i
                   ∧ traceable ghost_parser (QuestionArray [ghost_question]) i)
         (issues ghost_report).
Proof.
  apply (audit_issues_are_traceable ghost_parser (QuestionArray [ghost_question]) ghost_report).
  vm_compute. reflexivity.
Defined.

End IssueFacts.

(* ====================================================================== *)
(** ** Further properties of the grid builder *)
(* ====================================================================== *)

Module GridFacts.
Import JS Dom AuditService Scenarios GridNotions AuditFacts IssueFacts.

Lemma safeInt_positive (v : option jsstring) : 1 ≤ safeInt v.
Proof.
  unfold safeInt. destruct (parseInt10 _) as [n|]; [|lia].
  destruct (Z.ltb_spec n 1); lia.
Qed.

(** *** Every cell is placed once *)

Lemma place_cells_placed (r : nat) (cells : list elem) (acc : nat * nat * GridState) :
  map placed (st_bodyCells (snd (foldl (place_cell r) acc cells)))
  = map placed (st_bodyCells (snd acc)) ++ map (to_place (Z.of_nat r)) cells.
Proof.
  revert acc. induction cells as [|cell cells IH]; intros acc; cbn [foldl map].
  - rewrite app_nil_r. reflexivity.
  - rewrite IH. destruct acc as [[col edge] st]. unfold place_cell at 1.
    cbn [snd st_bodyCells]. rewrite map_app, <- app_assoc. reflexivity.
Qed.

Lemma place_rows_placed (rows : list (nat * elem)) (acc : GridState * list nat) :
  map placed (st_bodyCells (fst (foldl place_row acc rows)))
  = map placed (st_bodyCells (fst acc))
    ++ flat_map (fun row => map (to_place (Z.of_nat (fst row)))
                                (querySelectorAll (tags ["td"; "th"]) (snd row))) rows
  ∧ length (snd (foldl place_row acc rows)) = length (snd acc) + length rows.
Proof.
  revert acc. induction rows as [|[r tr] rows IH]; intros acc; cbn [foldl flat_map length].
  - rewrite app_nil_r. split; [reflexivity | lia].
  - destruct (IH (place_row acc (r, tr))) as [IH1 IH2]. rewrite IH1, IH2.
    destruct acc as [st widths]. unfold place_row.
    pose proof (place_cells_placed r (querySelectorAll (tags ["td"; "th"]) tr) (0, 0, st)) as H.
    destruct (foldl (place_cell r) _ _) as [[col edge] st1].
    cbn [fst snd st_bodyCells] in *. rewrite H, <- app_assoc, length_app.
    split; [reflexivity | cbn; lia].
Qed.

Lemma flat_map_imap_shifted {A B} (g : nat → A → list B) (f : nat → nat) (l : list A) :
  flat_map (fun row => g (fst row) (snd row)) (imap (fun i x => (f i, x)) l)
  = concat (imap (fun i => g (f i)) l).
Proof.
  revert f. induction l as [|x l IH]; intros f; [reflexivity|].
  rewrite !imap_cons. cbn [flat_map concat fst snd]. f_equal.
  apply (IH (f ∘ S)).
Qed.

Lemma flat_map_imap_pair {A B} (g : nat → A → list B) (l : list A) :
  flat_map (fun row => g (fst row) (snd row)) (imap pair l) = concat (imap g l).
Proof. exact (flat_map_imap_shifted g (fun i => i) l). Qed.

Lemma place_header_placed (col : nat) (cells : list elem) :
  map placed (place_header col cells) = map (to_place (-1)) cells.
Proof.
  revert col. induction cells as [|cell cells IH]; intros col; [reflexivity|].
  cbn [place_header map]. rewrite IH. reflexivity.
Qed.

(** X5: the grid holds every [td]/[th] of the header row and of the body
    rows exactly once and in document order, each with the index of its row
    ([-1] for the header) and with the spans its attributes give, and its
    [rowWidths] has one entry per body row. *)
Theorem buildGrid_places_every_cell (headerRow : option elem) (bodyRows : list elem) :
  let grid := buildGrid headerRow bodyRows in
  map placed (headerCells grid) = map (to_place (-1)) (header_cells headerRow)
  ∧ map placed (bodyCells grid) = cells_to_place bodyRows
  ∧ length (rowWidths grid) = length bodyRows
  ∧ Forall (fun gc => 1 ≤ gc_colspan gc ∧ 1 ≤ gc_rowspan gc)
           (headerCells grid ++ bodyCells grid).
Proof.
  cbv zeta.
  assert (H123 :
    map placed (headerCells (buildGrid headerRow bodyRows))
    = map (to_place (-1)) (header_cells headerRow)
    ∧ map placed (bodyCells (buildGrid headerRow bodyRows)) = cells_to_place bodyRows
    ∧ length (rowWidths (buildGrid headerRow bodyRows)) = length bodyRows).
  { unfold buildGrid.
    set (st0 := {| st_pending := [] |}).
    destruct (place_rows_placed (imap pair bodyRows) (st0, [])) as [H1 H2].
    destruct (foldl place_row _ _) as [st widths].
    cbn [headerCells bodyCells rowWidths fst snd] in *.
    split; [|split].
    - destruct headerRow; apply place_header_placed.
    - rewrite H1. cbn [st0 st_bodyCells map app].
      apply (flat_map_imap_pair
               (fun r tr => map (to_place (Z.of_nat r))
                                (querySelectorAll (tags ["td"; "th"]) tr))).
    - rewrite H2, length_imap. reflexivity. }
  destruct H123 as (Hh & Hb & Hw). repeat split; try assumption.
  assert (Hspans : ∀ (l : list GridCell) r cells,
            map placed l = map (to_place r) cells →
            Forall (fun gc => 1 ≤ gc_colspan gc ∧ 1 ≤ gc_rowspan gc) l).
  { clear. intros l r cells H. apply Forall_forall. intros gc Hgc.
    apply list_elem_of_In, (in_map placed) in Hgc. rewrite H in Hgc.
    apply in_map_iff in Hgc as (cell & Heq & _).
    unfold placed, to_place in Heq. injection Heq as _ _ <- <-.
    split; apply safeInt_positive. }
  apply Forall_app_2; [exact (Hspans _ _ _ Hh)|].
  apply Forall_forall. intros gc Hgc.
  apply list_elem_of_In, (in_map placed) in Hgc. rewrite Hb in Hgc.
  unfold cells_to_place in Hgc. apply in_concat in Hgc as (l & Hl & Hgc).
  apply list_elem_of_In, elem_of_lookup_imap in Hl as (r & tr & -> & _).
  apply in_map_iff in Hgc as (cell & Heq & _).
  unfold placed, to_place in Heq. injection Heq as _ _ <- <-.
  split; apply safeInt_positive.
Qed.

(** *** The header cells tile the expected columns *)

Lemma place_header_col (cells : list elem) :
  ∀ col i gc,
    place_header col cells !! i = Some gc →
    gc_col gc = col + sum_list (map gc_colspan (take i (place_header col cells))).
Proof.
  induction cells as [|cell cells IH]; intros col i gc Hi; [inversion Hi|].
  cbn [place_header] in *. destruct i as [|i].
  - injection Hi as <-. cbn. lia.
  - cbn [lookup list_lookup] in Hi. rewrite (IH _ _ _ Hi). cbn. lia.
Qed.

Lemma expected_is_sum_of_colspans (cells : list elem) (col : nat) :
  computeExpectedColsFromHeader cells = sum_list (map gc_colspan (place_header col cells)).
Proof.
  unfold computeExpectedColsFromHeader.
  assert (H : ∀ a, foldl (fun acc c => acc + safeInt (getAttribute "colspan" (e_node c)))
                         a cells
                   = a + sum_list (map gc_colspan (place_header col cells))).
  { revert col. induction cells as [|cell cells IH]; intros col a; cbn [foldl]; [cbn; lia|].
    rewrite (IH (col + safeInt (getAttribute "colspan" (e_node cell)))).
    cbn. lia. }
  apply (H 0).
Qed.

Lemma sum_of_positive (l : list GridCell) :
  Forall (fun gc => 1 ≤ gc_colspan gc) l → length l ≤ sum_list (map gc_colspan l).
Proof. induction 1 as [|gc l Hgc _ IH]; cbn; lia. Qed.

Lemma place_header_positive (col : nat) (cells : list elem) :
  Forall (fun gc => 1 ≤ gc_colspan gc) (place_header col cells).
Proof.
  revert col. induction cells as [|cell cells IH]; intros col; cbn [place_header];
    constructor; [apply safeInt_positive | apply IH].
Qed.

Lemma foldr_max_list (ns : list nat) : foldr Nat.max 0 ns = max_list ns.
Proof. induction ns as [|n ns IH]; cbn; congruence. Qed.

(** X6: the header cells tile the expected columns.  The first header cell
    stands at column 0 and each next one where the one before it ends, so
    with a header cell present the number of expected columns is the sum of
    the header's column spans, at least the number of header cells; without
    any, it is the greatest width among the body rows. *)
Theorem header_cells_tile_the_columns (headerRow : option elem) (bodyRows : list elem) :
  let grid := buildGrid headerRow bodyRows in
  let hs := headerCells grid in
  (∀ i gc, hs !! i = Some gc → gc_col gc = sum_list (map gc_colspan (take i hs)))
  ∧ (hs ≠ [] →
     expectedCols grid = sum_list (map gc_colspan hs) ∧ length hs ≤ expectedCols grid)
  ∧ (hs = [] → expectedCols grid = max_list (rowWidths grid)).
Proof.
  cbv zeta. unfold buildGrid.
  set (cells := match headerRow with Some h => querySelectorAll cell_selector h | None => [] end).
  destruct (foldl place_row _ _) as [st widths].
  cbn [headerCells expectedCols rowWidths].
  pose proof (expected_is_sum_of_colspans cells 0) as Hsum.
  pose proof (sum_of_positive _ (place_header_positive 0 cells)) as Hpos.
  split; [|split].
  - intros i gc Hi. rewrite (place_header_col _ _ _ _ Hi). lia.
  - intros Hne.
    assert (0 < length (place_header 0 cells))
      by (destruct (place_header 0 cells); [congruence | cbn; lia]).
    rewrite (proj2 (Nat.ltb_lt _ _)) by lia. split; lia.
  - intros Hnil. rewrite Hnil in Hsum. cbn in Hsum. rewrite Hsum. cbn.
    apply foldr_max_list.
Qed.

(** *** Cells of a row never overlap *)

Lemma computeRowWidth_ge (p : pending) (edge : nat) : edge ≤ computeRowWidth p edge.
Proof.
  unfold computeRowWidth. generalize (seq 0 (length p)) as cols. intros cols.
  revert edge. induction cols as [|c cols IH]; intros edge; cbn [foldl]; [lia|].
  etransitivity; [|apply IH].
  destruct (reserved p c && (edge <? c + 1)) eqn:H; [|lia].
  apply andb_true_iff in H as [_ H]. apply Nat.ltb_lt in H. lia.
Qed.

Lemma laid_out_snoc (cells : list GridCell) (gc : GridCell) :
  laid_out cells →
  (∀ a, a ∈ cells →
        (gc_row a ≤ gc_row gc)%Z ∧ (gc_row a = gc_row gc → right_edge a ≤ gc_col gc)) →
  laid_out (cells ++ [gc]).
Proof.
  intros Hl Hgc i j a b Hij Hi Hj.
  assert (Hjlen : j < length (cells ++ [gc])) by (apply lookup_lt_Some in Hj; exact Hj).
  rewrite length_app in Hjlen. cbn in Hjlen.
  rewrite lookup_app_l in Hi by lia.
  destruct (decide (j < length cells)) as [Hlt|Hge].
  - rewrite lookup_app_l in Hj by exact Hlt. apply (Hl i j a b Hij Hi Hj).
  - rewrite lookup_app_r in Hj by lia.
    replace (j - length cells) with 0 in Hj by lia. injection Hj as <-.
    apply Hgc. apply list_elem_of_lookup_2 in Hi. exact Hi.
Qed.

Lemma place_cells_laid (r : nat) (Q : GridCell → Prop) (cells : list elem) :
  ∀ col0 edge st,
    laid_out (st_bodyCells st) →
    (∀ a, a ∈ st_bodyCells st → (gc_row a ≤ Z.of_nat r)%Z) →
    (∀ a, a ∈ st_bodyCells st → gc_row a = Z.of_nat r →
          right_edge a ≤ col0 ∧ right_edge a ≤ edge) →
    (∀ a, a ∈ st_bodyCells st → gc_row a ≠ Z.of_nat r → Q a) →
    ∃ col1 edge1 st1,
      foldl (place_cell r) (col0, edge, st) cells = (col1, edge1, st1)
      ∧ laid_out (st_bodyCells st1)
      ∧ (∀ a, a ∈ st_bodyCells st1 → (gc_row a ≤ Z.of_nat r)%Z)
      ∧ (∀ a, a ∈ st_bodyCells st1 → gc_row a = Z.of_nat r → right_edge a ≤ edge1)
      ∧ (∀ a, a ∈ st_bodyCells st1 → gc_row a ≠ Z.of_nat r → Q a).
Proof.
  induction cells as [|cell cells IH]; intros col0 edge st Hl Hrow Hedge HQ.
  - exists col0, edge, st. cbn [foldl].
    split; [reflexivity|]. split; [exact Hl|]. split; [exact Hrow|]. split; [|exact HQ].
    intros a Ha Hr. apply (Hedge a Ha Hr).
  - cbn [foldl]. unfold place_cell at 2.
    pose proof (nextFreeCol_spec (st_pending st) col0) as (Hfree & _ & _).
    set (col := nextFreeCol (st_pending st) col0) in *.
    set (colspan := safeInt (getAttribute "colspan" (e_node cell))).
    set (gc := {| gc_el := cell |}).
    apply IH; cbn [st_bodyCells].
    + apply laid_out_snoc; [exact Hl|]. intros a Ha. cbn [gc gc_row gc_col].
      split; [apply Hrow, Ha|]. intros Hr. destruct (Hedge a Ha Hr). lia.
    + intros a Ha. apply elem_of_app in Ha as [Ha|Ha]; [apply Hrow, Ha|].
      apply list_elem_of_singleton in Ha. subst a. cbn. lia.
    + intros a Ha Hr. apply elem_of_app in Ha as [Ha|Ha].
      * destruct (Hedge a Ha Hr). lia.
      * apply list_elem_of_singleton in Ha. subst a. unfold right_edge. cbn. lia.
    + intros a Ha Hr. apply elem_of_app in Ha as [Ha|Ha]; [apply (HQ a Ha Hr)|].
      apply list_elem_of_singleton in Ha. subst a. cbn in Hr. congruence.
Qed.

Lemma place_rows_laid (rows : list (nat * elem)) :
  ∀ k st widths,
    map fst rows = seq k (length rows) →
    length widths = k →
    laid_out (st_bodyCells st) →
    (∀ a, a ∈ st_bodyCells st → (gc_row a < Z.of_nat k)%Z) →
    within_widths (st_bodyCells st) widths →
    laid_out (st_bodyCells (fst (foldl place_row (st, widths) rows)))
    ∧ within_widths (st_bodyCells (fst (foldl place_row (st, widths) rows)))
                    (snd (foldl place_row (st, widths) rows)).
Proof.
  induction rows as [|[r tr] rows IH]; intros k st widths Hidx Hlen Hl Hrow Hw;
    [split; assumption|].
  cbn [map fst length seq] in Hidx. injection Hidx as -> Hidx.
  cbn [foldl]. unfold place_row at 2. unfold place_row at 3. unfold place_row at 4.
  destruct (place_cells_laid k
              (fun a => ∀ r w, gc_row a = Z.of_nat r → widths !! r = Some w → right_edge a ≤ w)
              (querySelectorAll (tags ["td"; "th"]) tr) 0 0 st Hl)
    as (col1 & edge1 & st1 & Hf & Hl1 & Hrow1 & Hedge1 & HQ1).
  { intros a Ha. specialize (Hrow a Ha). lia. }
  { intros a Ha Hr. specialize (Hrow a Ha). lia. }
  { intros a Ha _ r w Hr Hlook. apply (Hw a r w Ha Hr Hlook). }
  rewrite Hf. cbn [fst snd]. apply (IH (S k)); cbn [st_bodyCells]; try assumption.
  - rewrite length_app. cbn. lia.
  - intros a Ha. specialize (Hrow1 a Ha). lia.
  - intros a r w Ha Hr Hlook.
    pose proof (computeRowWidth_ge (st_pending st1) edge1) as Hge.
    destruct (decide (r = k)) as [->|Hne].
    + rewrite lookup_app_r in Hlook by lia.
      replace (k - length widths) with 0 in Hlook by lia. injection Hlook as <-.
      specialize (Hedge1 a Ha Hr). lia.
    + specialize (Hrow1 a Ha).
      rewrite lookup_app_l in Hlook by lia.
      apply (HQ1 a Ha ltac:(lia) r w Hr Hlook).
Qed.

Lemma imap_shifted_fst {A} (f : nat → nat) (l : list A) :
  map fst (imap (fun i x => (f i, x)) l) = map f (seq 0 (length l)).
Proof.
  revert f. induction l as [|x l IH]; intros f; [reflexivity|].
  rewrite imap_cons. cbn [map fst length seq]. f_equal.
  etransitivity; [apply (IH (f ∘ S))|].
  rewrite <- seq_shift, map_map. reflexivity.
Qed.

(** X7: within a body row the grid lays the cells out from left to right
    without overlap (a cell starts at or after the column where the cell
    before it ends), rows follow one another in the list of body cells, and
    the width recorded for a row reaches the right edge of each of its
    cells. *)
Theorem body_cells_never_overlap (headerRow : option elem) (bodyRows : list elem) :
  let grid := buildGrid headerRow bodyRows in
  laid_out (bodyCells grid) ∧ within_widths (bodyCells grid) (rowWidths grid).
Proof.
  cbv zeta. unfold buildGrid.
  set (st0 := {| st_pending := [] |}).
  destruct (place_rows_laid (imap pair bodyRows) 0 st0 []) as [H1 H2].
  - rewrite (imap_shifted_fst (fun i => i)), map_id, length_imap. reflexivity.
  - reflexivity.
  - intros i j a b _ Hi. inversion Hi.
  - intros a Ha. inversion Ha.
  - intros a r w Ha. inversion Ha.
  - destruct (foldl place_row _ _) as [st widths]. cbn [bodyCells rowWidths fst snd] in *.
    split; assumption.
Qed.

(** *** Rows that are too short or too long *)

Lemma filter_none {A} (p : A → bool) (l : list A) :
  Forall (fun x => p x = false) l → List.filter p l = [].
Proof. induction 1 as [|x l Hx _ IH]; cbn [List.filter]; [reflexivity|]. rewrite Hx. exact IH. Qed.

Lemma filter_all {A} (p : A → bool) (l : list A) :
  Forall (fun x => p x = true) l → List.filter p l = l.
Proof.
  induction 1 as [|x l Hx _ IH]; cbn [List.filter]; [reflexivity|]. rewrite Hx, IH. reflexivity.
Qed.

Lemma only_widths_mismatch (context : Context) (tableHtml : jsstring) (table : elem) :
  List.filter is_col_mismatch (analyzeParsedTable context tableHtml table)
  = width_issues context tableHtml
      (buildGrid (fst (header_and_body table)) (snd (header_and_body table))).
Proof.
  unfold analyzeParsedTable. destruct (header_and_body table) as [h b]. cbn [fst snd].
  rewrite !List.filter_app.
  rewrite (filter_all _ (width_issues _ _ _))
    by (unfold width_issues; every_issue; reflexivity).
  repeat match goal with
         | |- context [List.filter is_col_mismatch ?l] =>
             rewrite (filter_none is_col_mismatch l)
               by (unfold nested_issues, no_header_issues, layout_1x1_issues,
                     empty_table_issues, header_issues, header_cell_issues,
                     missing_header_issues, duplicate_header_issues, ghost_issues,
                     ghost_column_issue, cell_issues, hole_issues, rowspan_issues,
                     style_issues;
                   every_issue; reflexivity)
         end.
  cbn [app]. rewrite app_nil_r. reflexivity.
Qed.

Lemma expected_without_colspan (cells : list elem) :
  Forall (fun cell => safeInt (getAttribute "colspan" (e_node cell)) = 1) cells →
  computeExpectedColsFromHeader cells = length cells.
Proof.
  intros H. unfold computeExpectedColsFromHeader.
  assert (Hgen : ∀ a, foldl (fun acc c => acc + safeInt (getAttribute "colspan" (e_node c)))
                            a cells = a + length cells).
  { induction H as [|cell cells Hc _ IH]; intros a; cbn [foldl length]; [lia|].
    rewrite IH, Hc. lia. }
  apply (Hgen 0).
Qed.

Lemma concat_imap_map {A B C} (f : nat → B → list C) (g : A → B) (l : list A) :
  concat (imap f (map g l)) = concat (imap (fun i x => f i (g x)) l).
Proof.
  revert f. induction l as [|x l IH]; intros f; [reflexivity|].
  cbn [map]. rewrite !imap_cons. cbn [concat]. f_equal. apply (IH (f ∘ S)).
Qed.

(** The width rule on a parsed table without column or row spans whose
    header row has [h >= 1] cells: the [COL_MISMATCH] issues are exactly one
    [BAD] issue for each body row whose number of cells differs from [h],
    in row order, located at that row and naming both numbers. *)
Lemma col_mismatch_of_parsed_table (context : Context) (tableHtml : jsstring) (table : elem) :
  let headerRow := fst (header_and_body table) in
  let bodyRows := snd (header_and_body table) in
  let h := length (header_cells headerRow) in
  0 < h →
  Forall (fun cell => safeInt (getAttribute "colspan" (e_node cell)) = 1)
         (header_cells headerRow) →
  unit_spans bodyRows →
  List.filter is_col_mismatch (analyzeParsedTable context tableHtml table)
  = concat (imap (fun r tr =>
                    let n := length (querySelectorAll (tags ["td"; "th"]) tr) in
                    if n =? h then []
                    else [createIssue context BAD COL_MISMATCH
                            (lit "Row " ++ of_nat (r + 1) ++ lit ": " ++ of_nat n
                             ++ lit " logical cols (expected " ++ of_nat h ++ lit ")")
                            (at_row (Z.of_nat r)) tableHtml])
                 bodyRows).
Proof.
  cbv zeta. intros Hh Hcols Hspans. rewrite only_widths_mismatch.
  set (headerRow := fst (header_and_body table)) in *.
  set (bodyRows := snd (header_and_body table)) in *.
  unfold width_issues, buildGrid.
  fold (header_cells headerRow).
  rewrite (expected_without_colspan _ Hcols).
  set (st0 := {| st_pending := [] |}).
  pose proof (map_snd_imap_pair bodyRows) as Hsnd.
  destruct (place_rows_unit_spans (imap pair bodyRows) st0 [] eq_refl) as (st' & Hf & _).
  { rewrite Hsnd. exact Hspans. }
  rewrite Hf. cbn [expectedCols rowWidths app].
  rewrite !(proj2 (Nat.ltb_lt _ _) Hh).
  rewrite <- (map_map snd (fun tr => length (querySelectorAll (tags ["td"; "th"]) tr))).
  rewrite Hsnd, concat_imap_map.
  f_equal. apply imap_ext. intros r tr _. cbn [andb].
  destruct (_ =? _); reflexivity.
Qed.

(** *** Holes *)

Lemma place_cells_gapless (r : nat) (cells : list elem) :
  ∀ col0 edge st,
    st_pending st = [] →
    Forall (fun cell => safeInt (getAttribute "rowspan" (e_node cell)) = 1) cells →
    ∃ col1 edge1 st1 new,
      foldl (place_cell r) (col0, edge, st) cells = (col1, edge1, st1)
      ∧ st_pending st1 = []
      ∧ st_bodyCells st1 = st_bodyCells st ++ new
      ∧ col0 ≤ col1
      ∧ (∀ a, a ∈ new → gc_row a = Z.of_nat r ∧ col0 ≤ gc_col a ∧ right_edge a ≤ col1)
      ∧ (∀ c, col0 ≤ c < col1 → ∃ b, b ∈ new ∧ covers c b = true).
Proof.
  induction cells as [|cell cells IH]; intros col0 edge st Hp Hcells.
  - exists col0, edge, st, []. cbn [foldl].
    split; [reflexivity|]. split; [exact Hp|]. split; [rewrite app_nil_r; reflexivity|].
    split; [lia|]. split; [intros a Ha; inversion Ha | intros c Hc; lia].
  - inversion Hcells as [|? ? Hr Hrest]; subst. cbn [foldl]. unfold place_cell at 2.
    rewrite Hr, Hp. cbn [nextFreeCol length nextFreeCol_loop Nat.ltb Nat.leb].
    set (colspan := safeInt (getAttribute "colspan" (e_node cell))).
    set (gc := {| gc_el := cell |}).
    match goal with
    | |- context [foldl _ (?c, ?e, ?s) _] =>
        destruct (IH c e s eq_refl Hrest) as (col1 & edge1 & st1 & new & Hf & Hp1 & Hcells1 & Hle & Hnew & Hcov)
    end.
    exists col1, edge1, st1, (gc :: new). cbn [st_bodyCells] in Hcells1.
    split; [exact Hf|]. split; [exact Hp1|].
    split; [rewrite Hcells1, <- app_assoc; reflexivity|].
    split; [lia|]. split.
    + intros a Ha. apply elem_of_cons in Ha as [->|Ha].
      * unfold right_edge. cbn. fold colspan. lia.
      * destruct (Hnew a Ha) as (H1 & H2 & H3). lia.
    + intros c Hc. destruct (decide (c < col0 + colspan)) as [Hlt|Hge].
      * exists gc. split; [left|]. unfold covers, right_edge. cbn. fold colspan.
        apply andb_true_iff. split; [apply Nat.leb_le | apply Nat.ltb_lt]; lia.
      * destruct (Hcov c ltac:(lia)) as (b & Hb & Hcb). exists b. split; [right|]; assumption.
Qed.

Lemma place_rows_gapless (rows : list (nat * elem)) :
  ∀ st widths,
    st_pending st = [] →
    no_rowspan (map snd rows) →
    gapless (st_bodyCells st) →
    gapless (st_bodyCells (fst (foldl place_row (st, widths) rows))).
Proof.
  induction rows as [|[r tr] rows IH]; intros st widths Hp Hrows Hg; [exact Hg|].
  cbn [foldl]. unfold place_row at 2.
  destruct (place_cells_gapless r (querySelectorAll (tags ["td"; "th"]) tr) 0 0 st Hp)
    as (col1 & edge1 & st1 & new & Hf & Hp1 & Hcells & _ & Hnew & Hcov).
  { apply Forall_forall. intros cell Hcell. apply (Hrows tr cell); [left | exact Hcell]. }
  rewrite Hf, Hp1. cbn [decrement map]. apply IH; cbn [st_pending st_bodyCells].
  - reflexivity.
  - intros tr' cell Htr. apply (Hrows tr' cell). right. exact Htr.
  - rewrite Hcells. intros a c Ha Hc. apply elem_of_app in Ha as [Ha|Ha].
    + destruct (Hg a c Ha Hc) as (b & Hb & Hrow & Hcb).
      exists b. split; [apply elem_of_app; left; exact Hb | auto].
    + destruct (Hnew a Ha) as (Hrow & _ & Hedge).
      destruct (Hcov c ltac:(lia)) as (b & Hb & Hcb).
      exists b. split; [apply elem_of_app; right; exact Hb|].
      destruct (Hnew b Hb) as (Hrowb & _ & _). split; [congruence | exact Hcb].
Qed.

Lemma buildGrid_gapless (headerRow : option elem) (bodyRows : list elem) :
  no_rowspan bodyRows → gapless (bodyCells (buildGrid headerRow bodyRows)).
Proof.
  intros Hrows. unfold buildGrid.
  set (st0 := {| st_pending := [] |}).
  pose proof (place_rows_gapless (imap pair bodyRows) st0 [] eq_refl) as H.
  rewrite map_snd_imap_pair in H. specialize (H Hrows).
  destruct (foldl place_row _ _) as [st widths]. cbn [bodyCells fst] in *.
  apply H. intros a c Ha. inversion Ha.
Qed.

(** The columns a row's cells cover, as the hole detection marks them. *)
Lemma covered_columns_lookup (expected : nat) (arr : list GridCell) (c : nat) :
  default false (covered_columns expected arr !! c)
  = (c <? expected) && existsb (covers c) arr.
Proof.
  unfold covered_columns. cbv zeta.
  assert (Hinner : ∀ (a : GridCell) n cov,
    length cov = expected →
    length (foldl (fun cov i => if gc_col a + i <? expected
                                then <[gc_col a + i := true]> cov else cov)
                  cov (seq 0 n)) = expected
    ∧ default false
        (foldl (fun cov i => if gc_col a + i <? expected
                             then <[gc_col a + i := true]> cov else cov)
               cov (seq 0 n) !! c)
      = default false (cov !! c)
        || ((c <? expected) && ((gc_col a <=? c) && (c <? gc_col a + n)))).
  { intros a n cov Hlen. induction n as [|n [IHlen IHlook]].
    - cbn [seq foldl]. split; [exact Hlen|].
      replace ((gc_col a <=? c) && (c <? gc_col a + 0)) with false.
      2:{ destruct (Nat.leb_spec (gc_col a) c), (Nat.ltb_spec c (gc_col a + 0));
            try reflexivity; lia. }
      rewrite andb_false_r, orb_false_r. reflexivity.
    - rewrite seq_S, foldl_app. cbn [foldl]. rewrite Nat.add_0_l.
      destruct (Nat.ltb_spec (gc_col a + n) expected) as [Hin|Hout].
      + rewrite length_insert. split; [exact IHlen|].
        destruct (decide (c = gc_col a + n)) as [->|Hne].
        * rewrite list_lookup_insert_eq by lia. cbn [default].
          rewrite (proj2 (Nat.ltb_lt _ _) Hin), (proj2 (Nat.leb_le _ _)),
                  (proj2 (Nat.ltb_lt _ _)) by lia.
          rewrite orb_true_r. reflexivity.
        * rewrite list_lookup_insert_ne by congruence. rewrite IHlook. f_equal. f_equal.
          f_equal. destruct (Nat.ltb_spec c (gc_col a + n)),
                            (Nat.ltb_spec c (gc_col a + S n)); try reflexivity; lia.
      + split; [exact IHlen|]. rewrite IHlook. f_equal.
        destruct (Nat.ltb_spec c expected); [|reflexivity]. cbn [andb]. f_equal.
        destruct (Nat.ltb_spec c (gc_col a + n)),
                 (Nat.ltb_spec c (gc_col a + S n)); try reflexivity; lia. }
  assert (Houter : ∀ cov,
    length cov = expected →
    default false
      (foldl (fun cov a =>
                foldl (fun cov i => if gc_col a + i <? expected
                                    then <[gc_col a + i := true]> cov else cov)
                      cov (seq 0 (gc_colspan a))) cov arr !! c)
    = default false (cov !! c) || ((c <? expected) && existsb (covers c) arr)).
  { induction arr as [|a arr IH]; intros cov Hlen; cbn [foldl existsb].
    - rewrite andb_false_r, orb_false_r. reflexivity.
    - destruct (Hinner a (gc_colspan a) cov Hlen) as [Hl Hlook].
      rewrite (IH _ Hl), Hlook. unfold covers at 2, right_edge.
      destruct (c <? expected); cbn [andb]; rewrite ?orb_false_r, ?orb_assoc; reflexivity. }
  rewrite Houter by apply length_replicate.
  destruct (replicate expected false !! c) as [b|] eqn:Hr; [|reflexivity].
  apply lookup_replicate in Hr as [-> _]. reflexivity.
Qed.

(** The cells the hole detection groups under a row are the cells of that
    row. *)
Lemma cells_by_row_elem (cells : list GridCell) (r : Z) (a : GridCell) :
  a ∈ default [] (cells_by_row cells !! r) ↔ a ∈ cells ∧ gc_row a = r.
Proof.
  unfold cells_by_row. rewrite lookup_fmap.
  set (group := foldl (fun m gc => <[gc_row gc := default [] (m !! gc_row gc) ++ [gc]]> m) ∅).
  assert (Hgroup : ∀ l, default [] (group l !! r)
                        = List.filter (fun x => bool_decide (gc_row x = r)) l).
  { induction l as [|gc l IH] using rev_ind; [reflexivity|].
    unfold group. rewrite foldl_app. cbn [foldl]. fold (group l).
    rewrite List.filter_app. cbn [List.filter].
    case_bool_decide as Hrow.
    - rewrite Hrow, lookup_insert_eq. cbn [default]. rewrite IH. reflexivity.
    - rewrite lookup_insert_ne by exact Hrow. rewrite IH, app_nil_r. reflexivity. }
  specialize (Hgroup cells).
  assert (Hperm : default [] (merge_sort by_col <$> group cells !! r)
                  ≡ₚ default [] (group cells !! r)).
  { destruct (group cells !! r) as [l|]; cbn; [apply merge_sort_Permutation | reflexivity]. }
  rewrite Hperm, Hgroup, list_elem_of_In, filter_In, <- list_elem_of_In, bool_decide_eq_true.
  reflexivity.
Qed.

Lemma flat_map_nil {A B} (f : A → list B) (l : list A) :
  (∀ x, f x = []) → flat_map f l = [].
Proof. intros H. induction l as [|x l IH]; cbn [flat_map]; [reflexivity|]. rewrite H, IH. reflexivity. Qed.

Lemma hole_issues_gapless (context : Context) (tableHtml : jsstring) (isFinancial : bool)
    (grid : TableGrid) (bodyRows : list elem) :
  gapless (bodyCells grid) →
  hole_issues context tableHtml isFinancial grid bodyRows = [].
Proof.
  intros Hg. unfold hole_issues. destruct isFinancial; [reflexivity|].
  apply flat_map_nil. intros r. cbv zeta.
  destruct (_ <? 2); [reflexivity|].
  apply flat_map_nil. intros c.
  rewrite !covered_columns_lookup.
  destruct ((c + 1 <? expectedCols grid)
            && existsb (covers (c + 1)) (default [] (cells_by_row (bodyCells grid) !! Z.of_nat r)))
    eqn:Hnext; [|rewrite andb_false_r; reflexivity].
  apply andb_true_iff in Hnext as [Hin Hex]. apply Nat.ltb_lt in Hin.
  apply existsb_exists in Hex as (a & Ha & Hca).
  apply list_elem_of_In, cells_by_row_elem in Ha as [Ha Hrow].
  unfold covers in Hca. apply andb_true_iff in Hca as [_ Hright]. apply Nat.ltb_lt in Hright.
  destruct (Hg a c Ha ltac:(lia)) as (b & Hb & Hrowb & Hcb).
  assert (Hcov : existsb (covers c) (default [] (cells_by_row (bodyCells grid) !! Z.of_nat r))
                 = true).
  { apply existsb_exists. exists b. split; [|exact Hcb].
    apply list_elem_of_In, cells_by_row_elem. split; [exact Hb | congruence]. }
  rewrite Hcov, (proj2 (Nat.ltb_lt c (expectedCols grid))) by lia. reflexivity.
Qed.

(** X11: for a table in which no body cell spans more than one row no
    [CELL_HOLE] issue is ever reported: without a rowspan the cells of a row
    follow one another without a gap, and a hole is a column left free
    between two covered ones. *)
Theorem no_hole_without_rowspan (context : Context) (tableHtml : jsstring) (table : elem) :
  no_rowspan (snd (header_and_body table)) →
  List.filter is_cell_hole (analyzeParsedTable context tableHtml table) = [].
Proof.
  intros Hrows. unfold analyzeParsedTable.
  destruct (header_and_body table) as [h b]. cbn [snd] in Hrows.
  rewrite (hole_issues_gapless _ _ _ _ _ (buildGrid_gapless h b Hrows)).
  apply filter_none.
  unfold nested_issues, no_header_issues, layout_1x1_issues,
    empty_table_issues, header_issues, header_cell_issues,
    missing_header_issues, duplicate_header_issues, ghost_issues,
    ghost_column_issue, width_issues, cell_issues, rowspan_issues, style_issues.
  every_issue; reflexivity.
Qed.

Lemma no_hole_without_rowspan_witness :
  List.filter is_cell_hole
    (analyzeParsedTable ghost_context [] (mkElem [] [] narrow_row_table)) = [].
Proof.
  apply no_hole_without_rowspan.
  intros tr cell Htr Hcell.
  apply list_elem_of_In in Htr. vm_compute in Htr.
  destruct Htr as [<-|[]].
  apply list_elem_of_In in Hcell; vm_compute in Hcell.
  destruct Hcell as [<-|[<-|[]]]; vm_compute; auto.
Defined.

End GridFacts.

(* ====================================================================== *)
(** ** Numerals: printing and reading back *)
(* ====================================================================== *)

Module NumeralFacts.
Import JS Dom AuditService.

Lemma lit_cons (a : ascii) (s : string) : lit (String a s) = ch a :: lit s.
Proof. reflexivity. Qed.

Lemma digit_range (c : char) : is_digit c = true ↔ (48 ≤ c ≤ 57)%N.
Proof.
  unfold is_digit, in_range. rewrite andb_true_iff, !N.leb_le. reflexivity.
Qed.

Lemma digit_not_space (c : char) : is_digit c = true → is_space c = false.
Proof.
  intros H. apply digit_range in H. unfold is_space, in_range.
  repeat match goal with
         | |- context [(?a <=? ?b)%N] => destruct (N.leb_spec a b); try lia
         | |- context [(?a =? ?b)%N] => destruct (N.eqb_spec a b); try lia
         end;
  try reflexivity.
Qed.

(** The characters of a numeral are digits, and there is at least one. *)
Lemma uint_digits (d : Decimal.uint) :
  Forall (fun c => is_digit c = true) (lit (NilEmpty.string_of_uint d)).
Proof.
  induction d; cbn [NilEmpty.string_of_uint]; rewrite ?lit_cons;
    constructor; try assumption; reflexivity.
Qed.

Lemma to_uint_nonnil (n : nat) : Nat.to_uint n ≠ Decimal.Nil.
Proof.
  rewrite <- (DecimalNat.Unsigned.of_to n) at 1.
  rewrite DecimalNat.Unsigned.to_of. apply DecimalFacts.unorm_nonnil.
Qed.

Lemma of_nat_digits (n : nat) : Forall (fun c => is_digit c = true) (of_nat n).
Proof. apply uint_digits. Qed.

Lemma of_nat_head (n : nat) : ∃ c s, of_nat n = c :: s ∧ is_digit c = true.
Proof.
  pose proof (of_nat_digits n) as H. pose proof (to_uint_nonnil n) as Hn.
  unfold of_nat in *. destruct (Nat.to_uint n); try congruence;
    cbn [NilEmpty.string_of_uint] in *; rewrite lit_cons in *;
    eexists _, _; (split; [reflexivity | reflexivity]).
Qed.

(** Reading the digits of a numeral back gives the number. *)
Lemma digits_value_uint (d : Decimal.uint) :
  ∀ acc rest,
    digits_value (Z.of_nat acc) (lit (NilEmpty.string_of_uint d) ++ rest)
    = digits_value (Z.of_nat (Nat.of_uint_acc d acc)) rest.
Proof.
  induction d; intros acc rest; cbn [NilEmpty.string_of_uint Nat.of_uint_acc];
    [reflexivity|..];
    rewrite lit_cons; cbn [app digits_value];
    match goal with |- context [is_digit ?c] => change (is_digit c) with true end;
    cbv iota; rewrite <- IHd, !Nat.tail_mul_spec; f_equal;
    match goal with |- context [Z.of_N ?x] => let v := eval vm_compute in (Z.of_N x) in
                                               change (Z.of_N x) with v end;
    lia.
Qed.

Lemma digits_value_stops (z : Z) (rest : jsstring) :
  default true (negb ∘ is_digit <$> head rest) = true → digits_value z rest = z.
Proof.
  destruct rest as [|c rest]; [reflexivity|]. cbn. intros H.
  apply negb_true_iff in H. rewrite H. reflexivity.
Qed.

Lemma digits_value_of_nat (n : nat) (rest : jsstring) :
  default true (negb ∘ is_digit <$> head rest) = true →
  digits_value 0 (of_nat n ++ rest) = Z.of_nat n.
Proof.
  intros H. unfold of_nat. rewrite (digits_value_uint _ 0 rest), (digits_value_stops _ _ H).
  change (Nat.of_uint_acc (Nat.to_uint n) 0) with (Nat.of_uint (Nat.to_uint n)).
  rewrite DecimalNat.Unsigned.of_to. reflexivity.
Qed.

Lemma of_nat_inj (a b : nat) : of_nat a = of_nat b → a = b.
Proof.
  intros H. apply Nat2Z.inj.
  rewrite <- (digits_value_of_nat a []), <- (digits_value_of_nat b []) by reflexivity.
  rewrite H. reflexivity.
Qed.

Lemma trimStart_spaces (ws s : jsstring) :
  Forall (fun c => is_space c = true) ws → trimStart (ws ++ s) = trimStart s.
Proof. induction 1 as [|c ws Hc _ IH]; [reflexivity|]. cbn. rewrite Hc. exact IH. Qed.

(** [parseInt] on white space, a numeral, and anything that does not go on
    with a digit. *)
Lemma parseInt10_numeral (ws rest : jsstring) (n : nat) :
  Forall (fun c => is_space c = true) ws →
  default true (negb ∘ is_digit <$> head rest) = true →
  parseInt10 (ws ++ of_nat n ++ rest) = Some (Z.of_nat n).
Proof.
  intros Hws Hrest. unfold parseInt10. rewrite (trimStart_spaces _ _ Hws).
  pose proof (digits_value_of_nat n rest Hrest) as Hv.
  destruct (of_nat_head n) as (c & s & Hn & Hc). rewrite Hn in *. cbn [app] in *.
  cbn [trimStart]. rewrite (digit_not_space c Hc).
  apply digit_range in Hc as Hrange.
  destruct (N.eqb_spec c 45); [lia|]. destruct (N.eqb_spec c 43); [lia|].
  rewrite Hc, Hv. reflexivity.
Qed.

Lemma safeInt_some (s : jsstring) :
  safeInt (Some s)
  = match parseInt10 s with
    | Some n => if (n <? 1)%Z then 1 else Z.to_nat n
    | None => 1
    end.
Proof. reflexivity. Qed.

(** X8: [safeInt] never yields less than 1.  It reads a decimal numeral
    (of a number that a JavaScript number holds exactly) back to its number,
    past leading white space and up to the first character that is not a
    digit, so that [" 3"] and ["2px"] count as 3 and 2; a missing
    attribute, a text that does not start with a numeral, zero and negative
    numbers all count as 1. *)
Theorem safeInt_reads_numerals :
  (∀ v, 1 ≤ safeInt v)
  ∧ safeInt None = 1
  ∧ (∀ ws n rest,
       (Z.of_nat n < 2 ^ 53)%Z →
       Forall (fun c => is_space c = true) ws →
       default true (negb ∘ is_digit <$> head rest) = true →
       safeInt (Some (ws ++ of_nat n ++ rest)) = Nat.max 1 n)
  ∧ (∀ n rest,
       (Z.of_nat n < 2 ^ 53)%Z →
       default true (negb ∘ is_digit <$> head rest) = true →
       safeInt (Some (lit "-" ++ of_nat n ++ rest)) = 1)
  ∧ (∀ c rest,
       is_digit c = false → is_space c = false → c ≠ 43%N → c ≠ 45%N →
       safeInt (Some (c :: rest)) = 1).
Proof.
  split; [|split; [reflexivity|split; [|split]]].
  - intros v. unfold safeInt. destruct (parseInt10 _) as [n|]; [|lia].
    destruct (Z.ltb_spec n 1); lia.
  - intros ws n rest _ Hws Hrest.
    rewrite safeInt_some, (parseInt10_numeral ws rest n Hws Hrest).
    destruct (Z.ltb_spec (Z.of_nat n) 1); lia.
  - intros n rest _ Hrest. rewrite safeInt_some.
    pose proof (digits_value_of_nat n rest Hrest) as Hv.
    destruct (of_nat_head n) as (c & s & Hn & Hc). rewrite Hn in *.
    change (lit "-" ++ (c :: s) ++ rest) with (45%N :: c :: s ++ rest).
    cbn [app] in Hv. unfold parseInt10. cbn [trimStart].
    change (is_space 45%N) with false. cbv iota.
    change ((45 =? 45)%N) with true. cbv iota.
    rewrite Hc, Hv. cbn [fmap option_fmap option_map].
    destruct (Z.ltb_spec (- Z.of_nat n) 1); lia.
  - intros c rest Hd Hs H43 H45. rewrite safeInt_some. unfold parseInt10. cbn [trimStart].
    rewrite Hs. destruct (N.eqb_spec c 45); [congruence|].
    destruct (N.eqb_spec c 43); [congruence|]. rewrite Hd. reflexivity.
Qed.

End NumeralFacts.

(* ====================================================================== *)
(** ** Further properties of the header and LaTeX checks *)
(* ====================================================================== *)

Module TextFacts.
Import JS Dom AuditService TextNotions JSFacts.

Lemma elem_of_concat {A} (x : A) (ls : list (list A)) :
  x ∈ concat ls ↔ ∃ l, x ∈ l ∧ l ∈ ls.
Proof.
  rewrite list_elem_of_In, in_concat.
  split; intros (l & H1 & H2); exists l; rewrite ?list_elem_of_In in *; auto.
Qed.

(** *** Duplicate headers *)

Lemma set_values_spec (xs : list jsstring) :
  ∀ seen,
    NoDup (set_values seen xs)
    ∧ ∀ h, h ∈ set_values seen xs ↔ h ∈ xs ∧ h ∉ seen.
Proof.
  induction xs as [|x xs IH]; intros seen; cbn [set_values].
  - split; [constructor|]. intros h. split; [inversion 1 | intros [H _]; inversion H].
  - case_bool_decide as Hx.
    + destruct (IH seen) as [Hnd Hin]. split; [exact Hnd|]. intros h. rewrite Hin.
      split; [intros [H1 H2]; split; [right|]; assumption|].
      intros [H1 H2]. split; [|exact H2].
      apply elem_of_cons in H1 as [->|H1]; [contradiction | exact H1].
    + destruct (IH (x :: seen)) as [Hnd Hin]. split.
      * constructor; [|exact Hnd]. rewrite Hin. intros [_ H]. apply H. left.
      * intros h. rewrite elem_of_cons, Hin, not_elem_of_cons, elem_of_cons. split.
        -- intros [->|(H1 & H2 & H3)]; [split; [left; reflexivity | exact Hx]|].
           split; [right; exact H1 | exact H3].
        -- intros [[->|H1] H2]; [left; reflexivity|].
           destruct (decide (h = x)) as [->|Hne]; [left; reflexivity|].
           right. auto.
Qed.

Lemma indexOf_first (l : list jsstring) (h : jsstring) (i : nat) :
  l !! i = Some h →
  indexOf h l = Some i ↔ ∀ j, j < i → l !! j ≠ Some h.
Proof.
  intros Hi. unfold indexOf. split.
  - intros H j Hj Hl.
    destruct (list_find (fun y => y = h) l) as [[k y]|] eqn:Hf; [|discriminate].
    injection H as ->. apply list_find_Some in Hf as (_ & _ & Hmin).
    apply (Hmin j h Hl Hj). reflexivity.
  - intros Hmin.
    assert (Hf : list_find (fun y => y = h) l = Some (i, h)).
    { apply list_find_Some. split; [exact Hi|]. split; [reflexivity|].
      intros j y Hj Hlt ->. apply (Hmin j Hlt Hj). }
    rewrite Hf. reflexivity.
Qed.

(** The texts the duplicate check collects are those standing at a position
    that is not their first. *)
Lemma dups_spec (l : list jsstring) (h : jsstring) :
  h ∈ concat (imap (fun i x => if bool_decide (indexOf x l = Some i) then [] else [x]) l)
  ↔ repeated h l.
Proof.
  rewrite elem_of_concat. split.
  - intros (xs & Hh & Hxs). apply elem_of_lookup_imap in Hxs as (j & x & -> & Hj).
    case_bool_decide as Hidx; [inversion Hh|].
    apply list_elem_of_singleton in Hh. subst x.
    unfold indexOf in Hidx.
    destruct (list_find (fun y => y = h) l) as [[k y]|] eqn:Hf.
    + apply list_find_Some in Hf as (Hk & -> & Hmin).
      destruct (Nat.lt_trichotomy k j) as [Hlt|[->|Hgt]].
      * exists k, j. auto.
      * exfalso. apply Hidx. reflexivity.
      * exfalso. apply (Hmin j h Hj Hgt). reflexivity.
    + exfalso. apply list_find_None in Hf. rewrite Forall_forall in Hf.
      apply (Hf h); [|reflexivity]. apply list_elem_of_lookup_2 in Hj. exact Hj.
  - intros (i & j & Hlt & Hi & Hj). exists [h]. split; [left|].
    apply elem_of_lookup_imap. exists j, h. split; [|exact Hj].
    rewrite bool_decide_eq_false_2; [reflexivity|].
    rewrite (indexOf_first l h j Hj). intros Hmin. apply (Hmin i Hlt Hi).
Qed.

Lemma NoDup_not_repeated (l : list jsstring) : NoDup l ↔ ∀ h, ¬ repeated h l.
Proof.
  rewrite NoDup_alt. split.
  - intros H h (i & j & Hlt & Hi & Hj). specialize (H i j h Hi Hj). lia.
  - intros H i j x Hi Hj.
    destruct (Nat.lt_trichotomy i j) as [Hlt|[Heq|Hgt]]; [|exact Heq|].
    + exfalso. apply (H x). exists i, j. auto.
    + exfalso. apply (H x). exists j, i. auto.
Qed.

(** X9: the duplicate-header check looks at the header texts that name a
    column (lower-cased, trimmed, neither empty nor separators only).  When
    no such text stands twice it reports nothing; otherwise it reports one
    [BAD] [HEADER_DUP] issue whose title lists each text that stands twice,
    once. *)
Theorem header_dup_lists_repeated_texts (context : Context) (tableHtml : jsstring)
    (headerTexts : list jsstring) :
  let named := named_headers headerTexts in
  let found := duplicate_header_issues context tableHtml headerTexts in
  (NoDup named ↔ found = [])
  ∧ (¬ NoDup named →
     ∃ listed,
       NoDup listed
       ∧ (∀ h, h ∈ listed ↔ repeated h named)
       ∧ found = [createIssue context BAD HEADER_DUP
                    (lit "Duplicate Headers: " ++ join (lit ", ") listed)
                    nowhere tableHtml]).
Proof.
  cbv zeta. unfold duplicate_header_issues. fold (named_headers headerTexts).
  set (named := named_headers headerTexts).
  set (dups := concat (imap _ named)).
  assert (Hdups : ∀ h, h ∈ dups ↔ repeated h named) by (intros h; apply dups_spec).
  assert (Hnil : NoDup named ↔ dups = []).
  { rewrite NoDup_not_repeated. split.
    - intros H. destruct dups as [|h d] eqn:Hd; [reflexivity|].
      exfalso. apply (H h), Hdups. left.
    - intros Hd h Hh. apply Hdups in Hh. rewrite Hd in Hh. inversion Hh. }
  split.
  - rewrite Hnil. split.
    + intros ->. reflexivity.
    + destruct dups; [reflexivity | discriminate].
  - intros Hnd. rewrite Hnil in Hnd.
    destruct (set_values_spec dups []) as [Hnodup Hin].
    exists (set_values [] dups). split; [exact Hnodup|]. split.
    + intros h. rewrite Hin, <- Hdups. split; [intros [H _]; exact H|].
      intros H. split; [exact H | inversion 1].
    + destruct dups; [congruence | reflexivity].
Qed.

(** *** What the LaTeX balance check flags *)

Lemma includes_char (c : char) (s : jsstring) :
  includes s [c] = false → count_char c s = 0.
Proof.
  unfold count_char. induction s as [|a s IH]; [reflexivity|].
  cbn [includes startsWith List.filter]. intros H.
  apply orb_false_iff in H as [H1 H2].
  replace (startsWith s []) with true in H1 by (destruct s; reflexivity).
  rewrite andb_true_r in H1. rewrite H1. apply IH, H2.
Qed.

(** A word of [Cat r s] splits into a word of [r] and a word of [s]. *)
Lemma cat_inv (r s : regex) (w : jsstring) :
  Matches (Cat r s) w → ∃ u v, w = u ++ v ∧ Matches r u ∧ Matches s v.
Proof. inversion 1; subst. eauto. Qed.

Lemma cls_inv (p : char → bool) (w : jsstring) :
  Matches (Cls p) w → ∃ c, w = [c] ∧ p c = true.
Proof. inversion 1; subst. eauto. Qed.

Lemma command_found (pre post : jsstring) (b c : char) :
  (92 =? b)%N = true → is_alpha c = true →
  test REGEX_LATEX_COMMAND (pre ++ b :: c :: post) = true.
Proof.
  intros Hb Hc. apply test_spec. exists pre, [b; c], post. split; [reflexivity|].
  apply (M_cat (chr 92%N) alpha [b] [c]); constructor; assumption.
Qed.

(** A word of one of the macro names starts with a letter. *)
Lemma macro_name_head (w : jsstring) :
  Matches (alts (map (fun w => word (lit w))
                     ["frac"; "sqrt"; "vec"; "sum"; "int"; "prod"; "alpha"; "beta";
                      "gamma"; "delta"; "sigma"; "omega"; "theta"; "phi"; "text"])) w →
  ∃ c w', w = c :: w' ∧ is_alpha c = true.
Proof.
  cbn [map alts]. intros H.
  repeat match goal with
         | H : Matches (Alt _ _) _ |- _ => inversion H; subst; clear H
         end;
    match goal with
    | H : Matches (word _) _ |- _ =>
        apply cat_inv in H as (u & v & -> & Hu & _);
        apply cls_inv in Hu as (c & -> & Hc);
        apply N.eqb_eq in Hc; subst c; eexists _, _; split; reflexivity
    end.
Qed.

(** X10: the LaTeX balance check flags a cell text only for one of two
    reasons, and only when the trimmed text has at least three characters,
    holds a backslash followed by a letter, and holds at most one dollar
    sign; a text without a backslash command, or with two dollar signs or
    more, is never flagged. *)
Theorem latex_flag_needs_a_command (text : jsstring) :
  broken (checkLatexBalance text) = true →
  3 ≤ length (trim text)
  ∧ test REGEX_LATEX_COMMAND (trim text) = true
  ∧ count_char 36%N (trim text) ≤ 1
  ∧ (reason (checkLatexBalance text) = lit "Starts with $ but unclosed"
     ∨ reason (checkLatexBalance text) = lit "LaTeX command without $").
Proof.
  unfold checkLatexBalance. set (t := trim text).
  destruct (Nat.ltb_spec (length t) 3) as [|Hlen]; [discriminate|].
  destruct (_ || _); [discriminate|].
  destruct (str_eqb t (lit "{") || str_eqb t (lit "}") || str_eqb t (lit "$")
            || str_eqb t (lit "($") || str_eqb t (lit "$)")) eqn:Horphan.
  { exfalso. unfold str_eqb in Horphan.
    repeat (apply orb_true_iff in Horphan as [Horphan|Horphan]);
      apply bool_decide_eq_true in Horphan; rewrite Horphan in Hlen; cbn in Hlen; lia. }
  destruct (test_prefix REGEX_DOLLAR_COMMAND t && (count_char 36%N t =? 1)) eqn:Hdollar.
  { intros _. apply andb_true_iff in Hdollar as [Hpre Hcount].
    apply Nat.eqb_eq in Hcount. split; [exact Hlen|]. split; [|split; [lia | left; reflexivity]].
    unfold test_prefix in Hpre. apply matches_spec in Hpre.
    apply cat_inv in Hpre as (u & post & -> & Hu & _).
    unfold REGEX_DOLLAR_COMMAND in Hu. cbn [sq] in Hu.
    apply cat_inv in Hu as (u1 & ua & -> & _ & Hu).
    apply cat_inv in Hu as (u2 & ub & -> & _ & Hu).
    apply cat_inv in Hu as (u3 & u4 & -> & H3 & H4).
    apply cls_inv in H3 as (b & -> & Hb). apply cls_inv in H4 as (c & -> & Hc).
    rewrite <- !app_assoc. rewrite (app_assoc u1 u2). apply command_found; assumption. }
  destruct (test REGEX_LATEX_MACRO t && negb (includes t (lit "$"))) eqn:Hmacro;
    [|discriminate].
  intros _. apply andb_true_iff in Hmacro as [Hm Hnone]. apply negb_true_iff in Hnone.
  split; [exact Hlen|]. split; [|split; [|right; reflexivity]].
  - apply test_spec in Hm as (pre & mid & post & -> & Hmid).
    unfold REGEX_LATEX_MACRO in Hmid. cbn [sq] in Hmid.
    apply cat_inv in Hmid as (u1 & ua & -> & H1 & Hmid).
    apply cat_inv in Hmid as (u2 & u3 & -> & H2 & _).
    apply cls_inv in H1 as (b & -> & Hb).
    apply macro_name_head in H2 as (c & w' & -> & Hc).
    cbn [app]. rewrite <- app_assoc. cbn [app]. apply command_found; assumption.
  - rewrite (includes_char 36%N t Hnone). lia.
Qed.

Lemma latex_flag_needs_a_command_witness :
  3 ≤ length (trim unclosed_formula)
  ∧ test REGEX_LATEX_COMMAND (trim unclosed_formula) = true
  ∧ count_char 36%N (trim unclosed_formula) ≤ 1
  ∧ (reason (checkLatexBalance unclosed_formula) = lit "Starts with $ but unclosed"
     ∨ reason (checkLatexBalance unclosed_formula) = lit "LaTeX command without $").
Proof. apply latex_flag_needs_a_command. vm_compute. reflexivity. Defined.

End TextFacts.

(* ====================================================================== *)
(** ** Further properties of the repair service *)
(* ====================================================================== *)

Module StructureFacts.
Import JS Dom RepairService Scenarios Tree TreeFacts RepairFacts.

(** *** Selections in the document tree *)

Lemma tags_swap (a b : string) (scope : elem) :
  querySelectorAll (tags [a; b]) scope = querySelectorAll (tags [b; a]) scope.
Proof.
  unfold querySelectorAll. apply filter_ext. intros e. cbn [tags map existsb].
  rewrite !orb_false_r. apply orb_comm.
Qed.

Lemma querySelector_elem (sel : selector) (scope r : elem) :
  querySelector sel scope = Some r → r ∈ querySelectorAll sel scope.
Proof.
  unfold querySelector. destruct (querySelectorAll sel scope) as [|x l]; [discriminate|].
  intros [= ->]. left.
Qed.

(** The descendants of a descendant are descendants. *)
Lemma descendants_below (n : node) :
  ∀ pth anc e x,
    e ∈ descendants_from pth anc n → x ∈ descendants e → x ∈ descendants_from pth anc n.
Proof.
  induction n as [d|d|t a cs IH] using node_induction; intros pth anc e x He Hx;
    [inversion He | inversion He |].
  rewrite descendants_from_element in *.
  revert He. generalize 0 as i.
  induction IH as [|c l Hc _ IHl]; intros i He; [inversion He|].
  rewrite children_from_cons in *.
  apply elem_of_app in He as [He|He]; [|apply elem_of_app in He as [He|He]].
  - destruct (isElement c); [|inversion He].
    apply list_elem_of_singleton in He. subst e.
    apply elem_of_app. right. apply elem_of_app. left. exact Hx.
  - apply elem_of_app. right. apply elem_of_app. left. apply (Hc _ _ e x He Hx).
  - apply elem_of_app. right. apply elem_of_app. right. apply (IHl _ He).
Qed.

Lemma tagged_below (ts : list string) (scope e x : elem) :
  e ∈ descendants scope → x ∈ querySelectorAll (tags ts) e →
  x ∈ querySelectorAll (tags ts) scope.
Proof.
  unfold querySelectorAll. intros He Hx.
  apply list_elem_of_In, filter_In in Hx as [Hx Hm]. apply list_elem_of_In in Hx.
  apply list_elem_of_In, filter_In. split.
  - apply list_elem_of_In. apply (descendants_below _ _ _ e x He Hx).
  - clear -Hm. unfold tags in *. induction ts as [|t ts IH]; [discriminate|].
    cbn [map existsb] in *. apply orb_true_iff in Hm as [Hm|Hm].
    + apply orb_true_iff. left. exact Hm.
    + apply orb_true_iff. right. apply IH, Hm.
Qed.

Lemma selected_is_descendant (sel : selector) (scope e : elem) :
  e ∈ querySelectorAll sel scope → e ∈ descendants scope.
Proof.
  unfold querySelectorAll. intros H.
  apply list_elem_of_In, filter_In in H as [H _]. apply list_elem_of_In. exact H.
Qed.

(** *** The columns with content *)

Lemma mark_real_content_length (maxCols : nat) (row : elem) (arr : list bool) :
  length (mark_real_content maxCols arr row) = length arr.
Proof.
  unfold mark_real_content.
  generalize (imap pair (querySelectorAll (tags ["td"; "th"]) row)) as cells.
  intros cells. revert arr. induction cells as [|it cells IH]; intros arr; [reflexivity|].
  cbn [foldl]. rewrite IH.
  destruct (maxCols <=? fst it); [reflexivity|]. cbv zeta.
  destruct (_ || _); [apply length_insert | reflexivity].
Qed.

Lemma mark_named_headers_length (n : nat) (cells : list elem) (arr : list bool) :
  length (mark_named_headers n arr cells) = length arr.
Proof.
  unfold mark_named_headers. generalize (imap pair cells) as its. intros its.
  revert arr. induction its as [|it its IH]; intros arr; [reflexivity|].
  cbn [foldl]. rewrite IH.
  destruct (default false (arr !! fst it)); [reflexivity|]. cbv zeta.
  destruct (_ && _); [apply length_insert | reflexivity].
Qed.

Lemma count_true_le (l : list bool) : length (List.filter (fun b : bool => b) l) ≤ length l.
Proof. induction l as [|[] l IH]; cbn; lia. Qed.

Lemma real_count_bound (maxCols n : nat) (cells rows : list elem) :
  length (List.filter (fun b : bool => b)
            (mark_named_headers n
               (foldl (mark_real_content maxCols) (replicate maxCols false) rows) cells))
  ≤ maxCols.
Proof.
  etransitivity; [apply count_true_le|]. rewrite mark_named_headers_length.
  assert (Hlen : ∀ rs a, length (foldl (mark_real_content maxCols) a rs) = length a).
  { intros rs. induction rs as [|x rs IH]; intros a; cbn [foldl]; [reflexivity|].
    rewrite IH. apply mark_real_content_length. }
  rewrite Hlen, length_replicate. lia.
Qed.

Section Structure.
Variable JSDOM : jsstring → option node.

(** The columns with content are counted among the cells of the header row. *)
Lemma countRealColumns_le_header (html : jsstring) :
  countRealColumns JSDOM html ≤ headerCols (analyzeTableStructure JSDOM html).
Proof.
  unfold countRealColumns, analyzeTableStructure.
  destruct (JSDOM html) as [root|]; [|cbn; lia].
  destruct (querySelector (tags ["table"]) (document root)) as [table|]; [|cbn; lia].
  cbn [headerCols].
  destruct (length (querySelectorAll (tags ["tr"]) table) =? 0) eqn:Hrows; [lia|].
  destruct (querySelector (tags ["thead"]) table) as [th|]; cbn [mbind option_bind].
  - destruct (querySelector (tags ["tr"]) th) as [r|]; [|cbn; lia].
    destruct (length (querySelectorAll (tags ["th"; "td"]) r) =? 0);
      [lia | apply real_count_bound].
  - unfold querySelector.
    destruct (head (querySelectorAll (tags ["tr"]) table)) as [r|]; [|cbn; lia].
    destruct (length (querySelectorAll (tags ["th"; "td"]) r) =? 0);
      [lia | apply real_count_bound].
Qed.

(** X12: the structure handed to the prompts adds up.  The columns with
    content are counted among the cells of the header row, so they are never
    more than the header columns; the ghost columns are the header columns
    without content, and the flag says whether there is one; the generic
    headers listed are no more than the header cells. *)
Theorem structure_counts_add_up (html : jsstring) :
  let s := analyzeTableStructure JSDOM html in
  realCols s = countRealColumns JSDOM html
  ∧ realCols s ≤ headerCols s
  ∧ headerCols s = realCols s + ghostCols s
  ∧ hasGhostColumns s = (realCols s <? headerCols s)
  ∧ length (genericHeaders s) ≤ headerCols s.
Proof.
  cbv zeta. pose proof (countRealColumns_le_header html) as Hle.
  unfold analyzeTableStructure in *.
  destruct (JSDOM html) as [root|] eqn:Hroot.
  2:{ unfold countRealColumns. rewrite Hroot. cbn. repeat split; reflexivity || lia. }
  destruct (querySelector (tags ["table"]) (document root)) as [table|] eqn:Htable.
  2:{ unfold countRealColumns. rewrite Hroot, Htable. cbn. repeat split; reflexivity || lia. }
  cbn [headerCols realCols ghostCols hasGhostColumns genericHeaders] in *.
  set (cells := match _ with Some r => querySelectorAll (tags ["th"; "td"]) r | None => [] end) in *.
  set (real := countRealColumns JSDOM html) in *. clearbody real.
  split; [reflexivity|]. split; [exact Hle|].
  split; [lia|]. split.
  - apply eq_true_iff_eq. rewrite !Nat.ltb_lt. lia.
  - clear. induction cells as [|c cells IH]; [cbn; lia|]. cbn [flat_map length].
    rewrite length_app. destruct (isGenericHeader _); cbn [length]; lia.
Qed.

Lemma headerCols_le_widest_row (html : jsstring) :
  headerCols (analyzeTableStructure JSDOM html) ≤ countExpectedCols JSDOM html.
Proof.
  unfold analyzeTableStructure, countExpectedCols.
  destruct (JSDOM html) as [root|]; [|cbn; lia].
  destruct (querySelector (tags ["table"]) (document root)) as [table|]; [|cbn; lia].
  cbn [headerCols].
  rewrite (foldl_map_cells (fun tr => length (querySelectorAll (tags ["td"; "th"]) tr))),
          foldl_max_spec.
  assert (Hrow : ∀ r, r ∈ querySelectorAll (tags ["tr"]) table →
            length (querySelectorAll (tags ["th"; "td"]) r)
            ≤ max_list (map (fun tr => length (querySelectorAll (tags ["td"; "th"]) tr))
                            (querySelectorAll (tags ["tr"]) table))).
  { intros r Hr. rewrite tags_swap. apply max_list_elem_of_le.
    apply list_elem_of_In, in_map_iff. exists r. split; [reflexivity|].
    apply list_elem_of_In. exact Hr. }
  destruct (querySelector (tags ["thead"]) table) as [th|] eqn:Hth; cbn [mbind option_bind].
  - destruct (querySelector (tags ["tr"]) th) as [r|] eqn:Hr.
    + etransitivity; [apply (Hrow r)|lia].
      apply (tagged_below ["tr"] table th r).
      * apply (selected_is_descendant (tags ["thead"])), querySelector_elem, Hth.
      * apply querySelector_elem, Hr.
    + destruct (querySelector (tags ["tr"]) table) as [r|] eqn:Hr'; [|cbn; lia].
      etransitivity; [apply (Hrow r), querySelector_elem, Hr' | lia].
  - destruct (querySelector (tags ["tr"]) table) as [r|] eqn:Hr'; [|cbn; lia].
    etransitivity; [apply (Hrow r), querySelector_elem, Hr' | lia].
Qed.

(** X13: the worker passes the widest row of the raw markup as the column
    hint, and the number of columns the prompts ask for follows it: the
    header columns of the structure are never more than the hint, the
    target is never more than the hint, and the target is at most 1 (the
    prompts then ask for an adaptive number of columns) exactly when no row
    of the markup has two cells; when more than one column has content,
    the target is the number of the columns with content. *)
Theorem target_follows_the_widest_row (html : jsstring) :
  let s := analyzeTableStructure JSDOM html in
  let e := countExpectedCols JSDOM html in
  let t := targetCols s e in
  headerCols s ≤ e
  ∧ t ≤ e
  ∧ (t ≤ 1 ↔ e ≤ 1)
  ∧ (1 < realCols s → t = realCols s).
Proof.
  cbv zeta. pose proof (headerCols_le_widest_row html) as Hh.
  pose proof (countRealColumns_le_header html) as Hr.
  assert (Hreal : realCols (analyzeTableStructure JSDOM html) ≤ countRealColumns JSDOM html).
  { unfold analyzeTableStructure.
    destruct (JSDOM html) as [root|]; [|cbn; lia].
    destruct (querySelector (tags ["table"]) (document root)) as [table|]; cbn; lia. }
  set (s := analyzeTableStructure JSDOM html) in *.
  set (e := countExpectedCols JSDOM html) in *.
  unfold targetCols.
  destruct (Nat.leb_spec (realCols s) 1), (Nat.ltb_spec 1 e); cbn [andb];
    repeat split; lia.
Qed.

End Structure.

End StructureFacts.

(* ====================================================================== *)
(** ** Further properties of the repair protocol *)
(* ====================================================================== *)

Module RunFacts.
Import JS Dom RepairService Scenarios Runs RunNotions RepairFacts.

Section Runs.
Variable World : Type.
Variable ai : option (jsstring -> World -> option Reply * World).
Variable callOpenRouter : jsstring -> option jsstring -> World -> option Reply * World.
Variable OPENROUTER_KEYS : list jsstring.
Variable buildRepairPrompt : jsstring -> nat -> RepairContext -> jsstring.
Variable buildRetryPrompt : jsstring -> list jsstring -> jsstring -> nat -> jsstring.
Variable issueId brokenHtml : jsstring.
Variable expectedCols : nat.
Variable context : RepairContext.
Variable strat : strategy.

Abbreviation State := (ServiceState World).
Abbreviation first := (buildRepairPrompt brokenHtml expectedCols context).
Abbreviation retry := (fun html errs => buildRetryPrompt html errs brokenHtml expectedCols).
Abbreviation body := (attempt_body World ai callOpenRouter OPENROUTER_KEYS buildRetryPrompt
                    issueId brokenHtml expectedCols context strat).
Abbreviation loop := (attempt_loop World ai callOpenRouter OPENROUTER_KEYS buildRetryPrompt
                    issueId brokenHtml expectedCols context strat).
Abbreviation run := (repairTableWithGemini World ai callOpenRouter OPENROUTER_KEYS
                   buildRepairPrompt buildRetryPrompt issueId brokenHtml expectedCols
                   context strat).

(** The primary provider can serve the first attempt only. *)
Lemma call_providers_provider (n : nat) (used0 used : provider) (prompt : jsstring)
    (st st' : State) (reply : Reply) :
  call_providers World ai callOpenRouter OPENROUTER_KEYS strat n used0 prompt st
  = (Returned (used, reply), st') →
  used = openrouter ∨ n = 0.
Proof.
  unfold call_providers.
  set (firstCall := match strat, ai, n, used0 with
                    | hybrid, Some generateContent, 0, google => _
                    | _, _, _, _ => _
                    end).
  destruct firstCall as [[used1 reply1] st1].
  destruct (Nat.ltb_spec 0 n) as [Hn|Hn].
  - rewrite orb_true_r.
    destruct (call_pool _ _ _ 3 prompt st1) as [[r|msg] st2]; [|discriminate].
    intros [= <- _ _]. left. reflexivity.
  - destruct (_ || _ || false).
    + destruct (call_pool _ _ _ 3 prompt st1) as [[r|msg] st2]; [|discriminate].
      intros [= <- _ _]. left. reflexivity.
    + intros _. right. lia.
Qed.

Lemma prompt_at_snoc (logs : list RepairAttempt) (a : RepairAttempt) (k : nat) :
  k ≤ length logs → prompt_at first retry (logs ++ [a]) k = prompt_at first retry logs k.
Proof.
  intros Hk. destruct k as [|k]; [reflexivity|]. cbn [prompt_at].
  rewrite lookup_app_l by lia. reflexivity.
Qed.

Lemma chained_snoc (logs : list RepairAttempt) (a : RepairAttempt) :
  chained first retry logs →
  attemptNumber a = length logs + 1 →
  rawResponse a = cleanedHtml a →
  validationErrors a = errors (verifyRepairedTable (cleanedHtml a)) →
  (0 < length logs → a_provider a = openrouter) →
  a_prompt a = prompt_at first retry logs (length logs) →
  chained first retry (logs ++ [a]).
Proof.
  intros Hc Hnum Hraw Herr Hprov Hprompt k b Hk.
  destruct (decide (k < length logs)) as [Hlt|Hge].
  - rewrite lookup_app_l in Hk by exact Hlt.
    destruct (Hc k b Hk) as (H1 & H2 & H3 & H4 & H5).
    rewrite prompt_at_snoc by lia. auto.
  - assert (Hlen : k < length (logs ++ [a])) by (apply lookup_lt_Some in Hk; exact Hk).
    rewrite length_app in Hlen. cbn in Hlen.
    assert (k = length logs) by lia. subst k.
    rewrite lookup_app_r, Nat.sub_diag in Hk by lia. injection Hk as <-.
    rewrite prompt_at_snoc by lia. auto.
Qed.

Lemma critical_sound (msg : jsstring) :
  sound_result first retry issueId brokenHtml (result_critical issueId brokenHtml msg).
Proof.
  split; [|intros lg [=]]. unfold well_shaped. cbn.
  split; [reflexivity|]. split; [reflexivity|]. split; [reflexivity|].
  split; [eexists; reflexivity|]. split; [reflexivity|]. split; [reflexivity|].
  split; [reflexivity|]. intros lg [=].
Qed.

Lemma exhausted_sound (used : provider) (history : TokenUsage) (logs : list RepairAttempt) :
  chained first retry logs →
  Forall (fun a => validationErrors a ≠ []) logs →
  sound_result first retry issueId brokenHtml
    (result_exhausted issueId brokenHtml context used history logs).
Proof.
  intros Hchain Hfail. split; [|intros lg [= <-]; exact Hchain].
  unfold well_shaped. cbn.
  split; [reflexivity|]. split; [reflexivity|]. split; [reflexivity|].
  split; [eexists; reflexivity|]. split; [reflexivity|]. split; [reflexivity|].
  split; [reflexivity|]. intros lg [= <-]. split; [reflexivity | exact Hfail].
Qed.

Lemma success_sound (html : jsstring) (used : provider) (history : TokenUsage)
    (logs : list RepairAttempt) (entry : RepairAttempt) :
  chained first retry (logs ++ [entry]) →
  valid (verifyRepairedTable html) = true →
  cleanedHtml entry = html →
  a_provider entry = used →
  validationErrors entry = [] →
  sound_result first retry issueId brokenHtml
    (result_success issueId brokenHtml context html used history (logs ++ [entry])).
Proof.
  intros Hchain Hvalid Hhtml Hused Herr. split; [|intros lg [= <-]; exact Hchain].
  unfold well_shaped.
  cbn [result_success r_issueId originalHtml r_success r_error repairedHtml log
       r_provider r_usage costBRL].
  split; [reflexivity|]. split; [reflexivity|]. split; [reflexivity|].
  split; [exact Hvalid|].
  eexists _, entry, _, _. split; [reflexivity|].
  cbn [make_log attempts totalCostBRL finalResult].
  rewrite last_snoc, Hhtml, Hused. repeat split. exact Herr.
Qed.

(** One body of the attempt loop keeps the locals on track, or ends the run
    with a sound result. *)
Lemma attempt_body_on_track (l : Locals) (st : State) :
  on_track first retry l →
  attemptsSoFar l < MAX_VERIFICATION_ATTEMPTS →
  match fst (body l st) with
  | inl r => sound_result first retry issueId brokenHtml r
  | inr l' => on_track first retry l' ∧ attemptsSoFar l' = S (attemptsSoFar l)
              ∧ (providerUsed l' = openrouter ∨ attemptsSoFar l = 0)
  end.
Proof.
  intros (Hlen & Hchain & Hfail & Hprompt) Hlt. specialize (Hprompt Hlt).
  unfold attempt_body.
  destruct (call_providers _ _ _ _ _ _ _ _ _) as [[[used reply]|msg] st1] eqn:Hcall.
  2:{ cbn [fst]. apply critical_sound. }
  apply call_providers_provider in Hcall.
  set (html := candidate (reply_text reply)).
  set (entry := {| attemptNumber := _ |}).
  assert (Hentry : chained first retry (attemptLogs l ++ [entry])).
  { apply chained_snoc; cbn [entry attemptNumber rawResponse cleanedHtml validationErrors
                              a_provider a_prompt]; try reflexivity.
    - exact Hchain.
    - rewrite Hlen. reflexivity.
    - intros Hpos. destruct Hcall as [->|Hn]; [reflexivity | lia].
    - rewrite Hlen. exact Hprompt. }
  pose proof (verify_valid_errors html) as Hverdict.
  destruct (valid (verifyRepairedTable html)) eqn:Hvalid; cbn [fst].
  - symmetry in Hverdict. apply bool_decide_eq_true in Hverdict.
    apply success_sound; try reflexivity; assumption.
  - symmetry in Hverdict. apply bool_decide_eq_false in Hverdict.
    split; [|split; [cbn [attemptsSoFar]; lia|]].
    + unfold on_track. cbn [attemptLogs attemptsSoFar currentPrompt].
      split; [rewrite length_app, Hlen; cbn; lia|].
      split; [exact Hentry|].
      split; [apply Forall_app_2; [exact Hfail | repeat constructor; exact Hverdict]|].
      intros Hnext. rewrite (proj2 (Nat.ltb_lt _ _) Hnext).
      replace (attemptsSoFar l + 1) with (S (attemptsSoFar l)) by lia.
      cbn [prompt_at]. rewrite lookup_app_r, Hlen, Nat.sub_diag by lia. reflexivity.
    + cbn [providerUsed]. destruct Hcall; auto.
Qed.

Lemma attempt_loop_on_track (fuel : nat) (l : Locals) (st : State) (r : RepairResult)
    (st' : State) :
  on_track first retry l →
  loop fuel l st = (Some r, st') →
  sound_result first retry issueId brokenHtml r.
Proof.
  revert l st. induction fuel as [|fuel IH]; intros l st Hl Hrun; cbn [attempt_loop] in Hrun.
  - destruct (Nat.ltb_spec (attemptsSoFar l) MAX_VERIFICATION_ATTEMPTS); [discriminate|].
    injection Hrun as <- _. destruct Hl as (Hlen & Hchain & Hfail & _).
    apply exhausted_sound; assumption.
  - destruct (Nat.ltb_spec (attemptsSoFar l) MAX_VERIFICATION_ATTEMPTS) as [Hlt|Hge].
    + pose proof (attempt_body_on_track l st Hl Hlt) as Hbody.
      destruct (body l st) as [[r0|l'] st1]; cbn [fst] in Hbody.
      * injection Hrun as <- _. exact Hbody.
      * destruct Hbody as (Hl' & _). apply (IH l' st1 Hl' Hrun).
    + injection Hrun as <- _. destruct Hl as (Hlen & Hchain & Hfail & _).
      apply exhausted_sound; assumption.
Qed.

Lemma initial_on_track :
  on_track first retry (initial_locals buildRepairPrompt brokenHtml expectedCols context strat).
Proof.
  unfold on_track. cbn. split; [reflexivity|]. split; [|split; [constructor | reflexivity]].
  intros k a Hk. inversion Hk.
Qed.

(** Every run returns a sound result. *)
Lemma run_sound (st : State) :
  ∃ r st', run st = (Some r, st') ∧ sound_result first retry issueId brokenHtml r.
Proof.
  destruct (run_spec World ai callOpenRouter OPENROUTER_KEYS buildRepairPrompt
              buildRetryPrompt issueId brokenHtml expectedCols context strat st)
    as (r & st' & n & Hrun & _).
  exists r, st'. split; [exact Hrun|].
  apply (attempt_loop_on_track _ _ _ _ _ initial_on_track Hrun).
Qed.

(** The markup of a success is the candidate taken from a response. *)
Lemma attempt_loop_candidate (fuel : nat) (l : Locals) (st : State) (r : RepairResult)
    (st' : State) :
  loop fuel l st = (Some r, st') → r_success r = true →
  ∃ raw, repairedHtml r = candidate raw.
Proof.
  assert (∀ l st r st1, body l st = (inl r, st1) → r_success r = true →
                        ∃ raw, repairedHtml r = candidate raw) as Hbody.
  { clear. intros l st r st1. unfold attempt_body.
    destruct (call_providers _ _ _ _ _ _ _ _ _) as [[[used reply]|msg] st2].
    - destruct (valid _); [|discriminate]. intros [= <- _] _.
      exists (reply_text reply). reflexivity.
    - intros [= <- _]. discriminate. }
  revert l st. induction fuel as [|fuel IH]; intros l st Hrun Hok; cbn [attempt_loop] in Hrun.
  - destruct (attemptsSoFar l <? MAX_VERIFICATION_ATTEMPTS); [discriminate|].
    injection Hrun as <- _. discriminate.
  - destruct (attemptsSoFar l <? MAX_VERIFICATION_ATTEMPTS).
    + destruct (body l st) as [[r0|l'] st1] eqn:Hb.
      * injection Hrun as <- _. apply (Hbody _ _ _ _ Hb Hok).
      * apply (IH l' st1 Hrun Hok).
    + injection Hrun as <- _. discriminate.
Qed.

(** X15: every call of [repairTableWithGemini] returns a result of one of
    two shapes.  A success carries the identifiers it was called with, no
    error, the provider of the last attempt, a usage, a cost equal to the
    log's total, and as repaired markup the candidate of the last attempt,
    which passed the validation.  A failure carries an empty repaired
    markup and an error, and neither provider, usage nor cost; if it has a
    log, every attempt in it was rejected. *)
Theorem result_is_well_shaped (st : State) :
  ∃ r st', run st = (Some r, st') ∧ well_shaped issueId brokenHtml r.
Proof.
  destruct (run_sound st) as (r & st' & Hrun & Hshape & _). exists r, st'. auto.
Qed.

End Runs.

Section Live.
Variable JSDOM : jsstring → option node.
Variable World : Type.
Variable ai : option (jsstring -> World -> option Reply * World).
Variable callOpenRouter : jsstring -> option jsstring -> World -> option Reply * World.
Variable OPENROUTER_KEYS : list jsstring.

(** X14: the attempt log of a run is chained.  Its entries are numbered
    from 1; the first was made with the repair prompt built from the broken
    markup, its structure and the context, and each later one with the
    retry prompt built from the candidate and the validation errors of the
    entry before it; each entry holds its candidate with the verdict of the
    validation on it; and only the first entry can come from the primary
    provider. *)
Theorem attempt_log_is_chained (issueId brokenHtml : jsstring) (expectedCols : nat)
    (context : RepairContext) (strat : strategy) (st : ServiceState World) :
  ∃ r st',
    repairTable JSDOM World ai callOpenRouter OPENROUTER_KEYS issueId brokenHtml
                expectedCols context strat st = (Some r, st')
    ∧ ∀ lg, log r = Some lg →
            chained (first_prompt JSDOM brokenHtml expectedCols context)
                    (fun html errs => retry_prompt JSDOM html errs brokenHtml expectedCols)
                    (attempts lg).
Proof.
  destruct (run_sound World ai callOpenRouter OPENROUTER_KEYS (first_prompt JSDOM)
              (retry_prompt JSDOM) issueId brokenHtml expectedCols context strat st)
    as (r & st' & Hrun & _ & Hchain).
  exists r, st'. auto.
Qed.

End Live.

(** *** Which provider is called *)

Section Providers.
Variable World : Type.
Variable callOpenRouter : jsstring -> option jsstring -> World -> option Reply * World.
Variable OPENROUTER_KEYS : list jsstring.
Variable buildRepairPrompt : jsstring -> nat -> RepairContext -> jsstring.
Variable buildRetryPrompt : jsstring -> list jsstring -> jsstring -> nat -> jsstring.
Variable issueId brokenHtml : jsstring.
Variable expectedCols : nat.
Variable context : RepairContext.

Abbreviation loop_with := (fun ai strat =>
  attempt_loop World ai callOpenRouter OPENROUTER_KEYS buildRetryPrompt
    issueId brokenHtml expectedCols context strat).
Abbreviation body_with := (fun ai strat =>
  attempt_body World ai callOpenRouter OPENROUTER_KEYS buildRetryPrompt
    issueId brokenHtml expectedCols context strat).

(** Under the pool strategy the primary provider takes no part. *)
Lemma pool_body_ignores_primary ai (l : Locals) (st : ServiceState World) :
  providerUsed l = openrouter →
  body_with ai openrouter_only l st = body_with None openrouter_only l st
  ∧ match fst (body_with None openrouter_only l st) with
    | inr l' => providerUsed l' = openrouter
    | inl _ => True
    end.
Proof.
  intros Hused. unfold attempt_body, call_providers. rewrite Hused.
  cbn [bool_decide decide_rel provider_eq_dec orb].
  replace (bool_decide (openrouter = openrouter)) with true
    by (symmetry; apply bool_decide_eq_true; reflexivity).
  cbn [orb].
  destruct (call_pool _ _ _ 3 _ _) as [[reply|msg] st2]; [|split; [reflexivity | exact I]].
  split; [reflexivity|]. cbn [fst].
  destruct (valid _); [exact I | reflexivity].
Qed.

Lemma pool_loop_ignores_primary ai (fuel : nat) (l : Locals) (st : ServiceState World) :
  providerUsed l = openrouter →
  loop_with ai openrouter_only fuel l st = loop_with None openrouter_only fuel l st.
Proof.
  revert l st. induction fuel as [|fuel IH]; intros l st Hused; cbn [attempt_loop];
    [reflexivity|].
  destruct (attemptsSoFar l <? MAX_VERIFICATION_ATTEMPTS); [|reflexivity].
  destruct (pool_body_ignores_primary ai l st Hused) as [Heq Hnext].
  rewrite Heq. destruct (body_with None openrouter_only l st) as [[r|l'] st1];
    [reflexivity|]. apply IH. exact Hnext.
Qed.

(** The hybrid strategy without a primary provider is the pool strategy. *)
Lemma hybrid_body_without_primary (l1 l2 : Locals) (st : ServiceState World) :
  same_but_provider l1 l2 →
  match body_with None hybrid l1 st, body_with None openrouter_only l2 st with
  | (inl r1, st1), (inl r2, st2) => r1 = r2 ∧ st1 = st2
  | (inr l1', st1), (inr l2', st2) => l1' = l2' ∧ st1 = st2
  | _, _ => False
  end.
Proof.
  intros (Hn & Hp & Hh & Hlogs & _). unfold attempt_body, call_providers.
  rewrite <- Hn, <- Hp, <- Hh, <- Hlogs.
  replace (bool_decide (None = None :> option (jsstring → World → option Reply * World)))
    with true by (symmetry; apply bool_decide_eq_true; reflexivity).
  rewrite !orb_true_r. cbn [orb].
  destruct (call_pool _ _ _ 3 _ _) as [[reply|msg] st2]; [|split; reflexivity].
  destruct (valid _); split; reflexivity.
Qed.

Lemma hybrid_loop_without_primary (fuel : nat) (l1 l2 : Locals) (st : ServiceState World) :
  same_but_provider l1 l2 →
  loop_with None hybrid fuel l1 st = loop_with None openrouter_only fuel l2 st.
Proof.
  revert l1 l2 st. induction fuel as [|fuel IH]; intros l1 l2 st Hsame; cbn [attempt_loop].
  - destruct Hsame as (Hn & Hp & Hh & Hlogs & Hused). rewrite <- Hn.
    destruct (Nat.ltb_spec (attemptsSoFar l1) MAX_VERIFICATION_ATTEMPTS) as [|Hge];
      [reflexivity|].
    unfold MAX_VERIFICATION_ATTEMPTS in Hge.
    destruct Hused as [H0|Hused]; [lia|]. rewrite Hused, Hh, Hlogs. reflexivity.
  - pose proof (hybrid_body_without_primary l1 l2 st Hsame) as Hbody.
    destruct Hsame as (Hn & Hp & Hh & Hlogs & Hused). rewrite <- Hn.
    destruct (Nat.ltb_spec (attemptsSoFar l1) MAX_VERIFICATION_ATTEMPTS) as [|Hge].
    + destruct (body_with None hybrid l1 st) as [[r1|l1'] st1],
               (body_with None openrouter_only l2 st) as [[r2|l2'] st2];
        try contradiction; destruct Hbody as [-> ->]; [reflexivity|].
      apply IH. repeat split; auto.
    + unfold MAX_VERIFICATION_ATTEMPTS in Hge.
      destruct Hused as [H0|Hused]; [lia|]. rewrite Hused, Hh, Hlogs. reflexivity.
Qed.

(** X16: the primary provider is optional.  Under the strategy
    ['openrouter'] a run is the same whatever the primary provider is, so it
    is never called; and when no primary provider is configured the hybrid
    strategy runs exactly as the strategy ['openrouter'] does, to the same
    result and the same state. *)
Theorem primary_provider_is_optional ai (st : ServiceState World) :
  repairTableWithGemini World ai callOpenRouter OPENROUTER_KEYS buildRepairPrompt
    buildRetryPrompt issueId brokenHtml expectedCols context openrouter_only st
  = repairTableWithGemini World None callOpenRouter OPENROUTER_KEYS buildRepairPrompt
      buildRetryPrompt issueId brokenHtml expectedCols context openrouter_only st
  ∧ repairTableWithGemini World None callOpenRouter OPENROUTER_KEYS buildRepairPrompt
      buildRetryPrompt issueId brokenHtml expectedCols context hybrid st
    = repairTableWithGemini World None callOpenRouter OPENROUTER_KEYS buildRepairPrompt
        buildRetryPrompt issueId brokenHtml expectedCols context openrouter_only st.
Proof.
  unfold repairTableWithGemini. split.
  - apply pool_loop_ignores_primary. reflexivity.
  - apply hybrid_loop_without_primary. unfold same_but_provider, initial_locals.
    cbn [attemptsSoFar currentPrompt historyUsage attemptLogs providerUsed].
    split; [reflexivity|]. split; [reflexivity|]. split; [reflexivity|].
    split; [reflexivity|]. left. reflexivity.
Qed.

End Providers.

(** *** No key configured *)

(** X17: with no pool key configured, a run that turns to the pool (the
    strategy is ['openrouter'], or no primary provider is configured) ends
    in its first attempt with the failure that [getNextKey] throws; no
    provider is called, the key pointer stays where it was, and the result
    carries no log. *)
Theorem no_keys_no_repair (World : Type)
    (ai : option (jsstring -> World -> option Reply * World))
    (callOpenRouter : jsstring -> option jsstring -> World -> option Reply * World)
    (buildRepairPrompt : jsstring -> nat -> RepairContext -> jsstring)
    (buildRetryPrompt : jsstring -> list jsstring -> jsstring -> nat -> jsstring)
    (issueId brokenHtml : jsstring) (expectedCols : nat) (context : RepairContext)
    (strat : strategy) (st : ServiceState World) :
  strat = openrouter_only ∨ ai = None →
  repairTableWithGemini World ai callOpenRouter [] buildRepairPrompt buildRetryPrompt
    issueId brokenHtml expectedCols context strat st
  = (Some (result_critical issueId brokenHtml NO_KEYS),
     {| keyPointer := keyPointer World st; world := world World st;
        iterations := S (iterations World st) |}).
Proof.
  intros [-> | ->].
  - unfold repairTableWithGemini. cbn [MAX_VERIFICATION_ATTEMPTS attempt_loop initial_locals
      attemptsSoFar Nat.ltb Nat.leb].
    unfold attempt_body, call_providers. cbn [providerUsed attemptsSoFar currentPrompt].
    replace (bool_decide (openrouter = openrouter)) with true
      by (symmetry; apply bool_decide_eq_true; reflexivity).
    reflexivity.
  - unfold repairTableWithGemini. cbn [MAX_VERIFICATION_ATTEMPTS attempt_loop initial_locals
      attemptsSoFar Nat.ltb Nat.leb].
    unfold attempt_body, call_providers. cbn [providerUsed attemptsSoFar currentPrompt].
    replace (bool_decide (None = None :> option (jsstring → World → option Reply * World)))
      with true by (symmetry; apply bool_decide_eq_true; reflexivity).
    destruct strat; rewrite ?orb_true_r; reflexivity.
Qed.

Lemma no_keys_no_repair_witness :
  keyless_run
  = (Some (result_critical (lit "task-1") (lit "<table><td>1</table>") NO_KEYS),
     {| keyPointer := 0; world := tt; iterations := 1 |}).
Proof.
  apply (no_keys_no_repair unit None answering_pool demo_prompt demo_retry_prompt
           (lit "task-1") (lit "<table><td>1</table>") 1 demo_context openrouter_only
           demo_state).
  left. reflexivity.
Defined.

End RunFacts.

(* ====================================================================== *)
(** ** The candidate taken from a response *)
(* ====================================================================== *)

Module CandidateFacts.
Import JS JSFacts Dom RepairService Scenarios RunNotions.

(** *** Comparison without case *)

Ltac by_code_unit_ranges :=
  unfold lower_char, upper_char, is_upper, is_upper_latin1, is_lower, is_lower_latin1,
    in_range;
  repeat (match goal with
          | |- context [(?a <=? ?b)%N] => destruct (N.leb_spec a b)
          | |- context [(?a =? ?b)%N] => destruct (N.eqb_spec a b)
          end; cbn [andb orb negb]; try lia);
  intros; first [reflexivity | discriminate | lia].

Lemma lower_char_idem (c : char) : lower_char (lower_char c) = lower_char c.
Proof.
  unfold lower_char at 2. destruct (is_upper c || is_upper_latin1 c) eqn:H.
  - revert H. by_code_unit_ranges.
  - unfold lower_char. rewrite H. reflexivity.
Qed.

Lemma lower_upper_char (c : char) : lower_char (upper_char c) = lower_char c.
Proof.
  unfold upper_char. destruct (is_lower c || is_lower_latin1 c) eqn:H; [|reflexivity].
  revert H. by_code_unit_ranges.
Qed.

(** What a letter under the [i] flag matches has the letter's lower case. *)
Lemma chr_i_lower (c d : char) :
  ((d =? c)%N || (d =? lower_char c)%N || (d =? upper_char c)%N) = true →
  lower_char d = lower_char c.
Proof.
  rewrite !orb_true_iff, !N.eqb_eq. intros [[-> | ->] | ->];
    [reflexivity | apply lower_char_idem | apply lower_upper_char].
Qed.

Lemma startsWith_i_spec (s p : jsstring) :
  startsWith_i s p = true
  ↔ ∃ w rest, s = w ++ rest ∧ map lower_char w = map lower_char p.
Proof.
  revert s. induction p as [|a p IH]; intros s.
  - split; [intros _; exists [], s; split; reflexivity|]. destruct s; reflexivity.
  - destruct s as [|b s]; cbn [startsWith_i].
    + split; [discriminate|]. intros (w & rest & Hs & Hw).
      destruct w; [discriminate | discriminate].
    + rewrite andb_true_iff, N.eqb_eq, IH. split.
      * intros (Hb & w & rest & -> & Hw). exists (b :: w), rest.
        split; [reflexivity|]. cbn [map]. rewrite Hb, Hw. reflexivity.
      * intros (w & rest & Hs & Hw). destruct w as [|b' w]; [discriminate|].
        cbn [map] in Hw. injection Hw as Hb Hw. injection Hs as -> ->.
        split; [exact Hb|]. exists w, rest. split; [reflexivity | exact Hw].
Qed.

(** The words of a literal under the [i] flag. *)
Lemma word_i_spec (p w : jsstring) :
  Matches (word_i p) w → map lower_char w = map lower_char p.
Proof.
  unfold word_i. revert w. induction p as [|a p IH]; intros w Hw.
  - cbn in Hw. inversion Hw. reflexivity.
  - destruct p as [|b p].
    + cbn in Hw. inversion Hw as [|q c Hc| | | | |]; subst. cbn [map]. f_equal.
      apply chr_i_lower. exact Hc.
    + change (sq (map chr_i (a :: b :: p))) with (Cat (chr_i a) (sq (map chr_i (b :: p)))) in Hw.
      inversion Hw as [| |r s u v Hu Hv| | | |]; subst.
      inversion Hu as [|q c Hc| | | | |]; subst.
      cbn [app map]. f_equal; [apply chr_i_lower; exact Hc|].
      apply (IH v Hv).
Qed.

(** *** Searching without case *)

Lemma indexOf_i_found (p s : jsstring) (i : nat) :
  indexOf_i p s = Some i → startsWith_i (drop i s) p = true.
Proof.
  revert i. induction s as [|c s IH]; intros i; cbn [indexOf_i].
  - destruct (startsWith_i [] p) eqn:Hp; [|discriminate].
    intros [= <-]. exact Hp.
  - destruct (startsWith_i (c :: s) p) eqn:Hp.
    + intros [= <-]. exact Hp.
    + destruct (indexOf_i p s) as [k|]; [|discriminate].
      cbn. intros [= <-]. cbn [drop]. apply IH. reflexivity.
Qed.

(** The index found is the first one. *)
Lemma indexOf_i_first (p pre rest : jsstring) :
  startsWith_i rest p = true →
  ∃ i, indexOf_i p (pre ++ rest) = Some i ∧ i ≤ length pre.
Proof.
  intros Hrest. induction pre as [|c pre IH].
  - cbn [app length]. exists 0. split; [|lia].
    destruct rest; cbn [indexOf_i]; rewrite Hrest; reflexivity.
  - destruct IH as (i & Hi & Hle). cbn [app indexOf_i].
    destruct (startsWith_i (c :: pre ++ rest) p).
    + exists 0. split; [reflexivity | lia].
    + rewrite Hi. exists (S i). split; [reflexivity | cbn; lia].
Qed.

Lemma lastIndexOf_i_found (p s : jsstring) (j : nat) :
  lastIndexOf_i p s = Some j → startsWith_i (drop j s) p = true.
Proof.
  revert j. induction s as [|c s IH]; intros j; cbn [lastIndexOf_i].
  - destruct (startsWith_i [] p) eqn:Hp; [|discriminate]. intros [= <-]. exact Hp.
  - destruct (lastIndexOf_i p s) as [k|].
    + intros [= <-]. cbn [drop]. apply IH. reflexivity.
    + destruct (startsWith_i (c :: s) p) eqn:Hp; [|discriminate]. intros [= <-]. exact Hp.
Qed.

Lemma lastIndexOf_i_some (p pre rest : jsstring) :
  startsWith_i rest p = true → is_Some (lastIndexOf_i p (pre ++ rest)).
Proof.
  intros Hrest. induction pre as [|c pre IH].
  - cbn [app]. destruct rest as [|c rest]; cbn [lastIndexOf_i].
    + rewrite Hrest. eauto.
    + destruct (lastIndexOf_i p rest); [eauto|]. rewrite Hrest. eauto.
  - cbn [app lastIndexOf_i]. destruct IH as [j ->]. eauto.
Qed.

(** *** The table block *)

Lemma startsWith_i_take (n : nat) (s p : jsstring) :
  startsWith_i s p = true → length p ≤ n → startsWith_i (take n s) p = true.
Proof.
  rewrite !startsWith_i_spec. intros (w & rest & -> & Hw) Hn.
  exists w, (take (n - length w) rest). split; [|exact Hw].
  assert (length w = length p) as Hlen.
  { rewrite <- (length_map lower_char w), Hw, length_map. reflexivity. }
  rewrite take_app. rewrite (take_ge w) by lia. reflexivity.
Qed.

Lemma endsWith_i_take (k : nat) (s p : jsstring) :
  startsWith_i (drop k s) p = true → k ≤ length s →
  endsWith_i (take (k + length p) s) p = true.
Proof.
  intros Hp Hk. apply startsWith_i_spec in Hp as (w & rest & Hs & Hw).
  assert (length w = length p) as Hlen.
  { rewrite <- (length_map lower_char w), Hw, length_map. reflexivity. }
  unfold endsWith_i. apply startsWith_i_spec.
  exists (rev w), (rev (take k s)). split.
  - rewrite <- rev_app_distr. f_equal.
    assert (length (take k s) = k) as Hk' by (rewrite length_take; lia).
    assert (s = (take k s ++ w) ++ rest) as Hsplit
      by (rewrite <- app_assoc, <- Hs, take_drop; reflexivity).
    revert Hk' Hsplit. generalize (take k s). intros a Ha ->.
    apply take_app_length'. rewrite length_app. lia.
  - rewrite !map_rev, Hw. reflexivity.
Qed.

(** What [match] returns is a table block. *)
Lemma match_table_block (s m : jsstring) : match_table s = Some m → table_block m = true.
Proof.
  unfold match_table. destruct (indexOf_i (lit "<table") s) as [i|] eqn:Hi; [|discriminate].
  cbn [mbind option_bind].
  destruct (lastIndexOf_i (lit "</table>") (drop 6 (drop i s))) as [j|] eqn:Hj; [|discriminate].
  cbn [mbind option_bind]. intros [= <-].
  apply indexOf_i_found in Hi. pose proof (lastIndexOf_i_found _ _ _ Hj) as Hclose.
  unfold table_block. apply andb_true_iff. split.
  - apply startsWith_i_take; [exact Hi | cbn; lia].
  - rewrite drop_drop in Hclose.
    apply (endsWith_i_take (6 + j) (drop i s) (lit "</table>")); [exact Hclose|].
    destruct (Nat.le_gt_cases (6 + j) (length (drop i s))) as [|Hgt]; [assumption|].
    rewrite drop_ge in Hclose by lia. discriminate.
Qed.

(** Markup in which the pattern of the validation finds a table is markup
    in which [match] finds one. *)
Lemma tested_table_matched (s : jsstring) :
  test (REGEX_ELEMENT "table") s = true → is_Some (match_table s).
Proof.
  intros Ht. apply test_spec in Ht as (pre & mid & post & -> & Hmid).
  unfold REGEX_ELEMENT in Hmid. cbn [sq] in Hmid.
  inversion Hmid as [| |r1 r2 u vw Hu Hvw| | | |]; subst.
  inversion Hvw as [| |r1 r2 v w _ Hw| | | |]; subst.
  apply word_i_spec in Hu. apply word_i_spec in Hw.
  change (lit "<" ++ lit "table") with (lit "<table") in Hu.
  change (lit "</" ++ lit "table" ++ lit ">") with (lit "</table>") in Hw.
  assert (length u = 6) as Hlen.
  { rewrite <- (length_map lower_char u), Hu. reflexivity. }
  assert (startsWith_i ((u ++ v ++ w) ++ post) (lit "<table") = true) as Hopen.
  { apply startsWith_i_spec. exists u, ((v ++ w) ++ post).
    split; [rewrite <- !app_assoc; reflexivity | exact Hu]. }
  destruct (indexOf_i_first _ pre _ Hopen) as (i & Hi & Hle).
  unfold match_table. rewrite Hi. cbn [mbind option_bind].
  assert (drop 6 (drop i (pre ++ (u ++ v ++ w) ++ post))
          = (drop (i + 6) (pre ++ u) ++ v) ++ (w ++ post)) as Hdrop.
  { rewrite drop_drop, <- !app_assoc.
    rewrite (app_assoc pre u). rewrite drop_app_le by (rewrite length_app; lia).
    reflexivity. }
  rewrite Hdrop.
  destruct (lastIndexOf_i_some (lit "</table>") (drop (i + 6) (pre ++ u) ++ v) (w ++ post))
    as [j ->]; [|eauto].
  apply startsWith_i_spec. exists w, post. split; [reflexivity | exact Hw].
Qed.

Lemma valid_tested (html : jsstring) :
  valid (verifyRepairedTable html) = true → test (REGEX_ELEMENT "table") html = true.
Proof.
  unfold verifyRepairedTable. destruct (test (REGEX_ELEMENT "table") html); [reflexivity|].
  cbn. discriminate.
Qed.

(** X18: a candidate that passes the validation is one table block.  Code
    fences and whatever the response says before the first opening tag of a
    table or after the last closing tag are cut away: the accepted markup
    opens with [<table] and closes with [</table>], in either case of the
    letters. *)
Theorem accepted_candidate_is_a_table_block (raw : jsstring) :
  valid (verifyRepairedTable (candidate raw)) = true →
  table_block (candidate raw) = true.
Proof.
  intros Hvalid. unfold candidate in *. cbv zeta in *.
  destruct (match_table (cleanup raw)) as [m|] eqn:Hm; cbn [default] in *.
  - apply (match_table_block _ _ Hm).
  - apply valid_tested, tested_table_matched in Hvalid. rewrite Hm in Hvalid.
    destruct Hvalid as [? [=]].
Qed.

Lemma accepted_candidate_is_a_table_block_witness :
  candidate fenced_response = lit "<TABLE><tr><td>1</td></tr></TABLE>"
  ∧ table_block (candidate fenced_response) = true.
Proof.
  split; [vm_compute; reflexivity|].
  apply (accepted_candidate_is_a_table_block fenced_response). vm_compute. reflexivity.
Defined.

End CandidateFacts.

(* ====================================================================== *)
(** ** The upload: counters and tasks *)
(* ====================================================================== *)

Module BatchFacts.
Import JS Dom AuditService RepairService RepairWorker BatchRoutes Scenarios.
Import AuditNotions BatchNotions ListFacts NumeralFacts IssueFacts.

(** *** The counters of a report *)

Lemma filter_split {A} (p q : A → bool) (l : list A) :
  (∀ x, p x = negb (q x)) →
  length (List.filter p l) + length (List.filter q l) = length l.
Proof.
  intros Hpq. induction l as [|x l IH]; [reflexivity|].
  cbn [List.filter]. rewrite (Hpq x). destruct (q x); cbn [negb length]; lia.
Qed.

Section Report.
Variable JSDOM : jsstring → option node.

Lemma audit_field_count (index : nat) (q : Question) (f : AuditService.field) (r : nat * list Issue) :
  audit_field JSDOM index q f = Some r → fst r = tables_of_field JSDOM q f.
Proof.
  unfold audit_field, tables_of_field.
  destruct (q_field q f) as [value|]; [|intros [= Hr]; subst r; reflexivity].
  unfold str_eqb. case_bool_decide as Hne; [subst value; intros [= Hr]; subst r; reflexivity|].
  destruct value as [|c value]; [congruence|].
  destruct (extractTopLevelTables JSDOM (c :: value)) as [topTables|]; [|discriminate].
  cbn [mbind option_bind]. destruct (mapM _ _) as [found|]; [|discriminate].
  intros [= Hr]; subst r. reflexivity.
Qed.

Lemma mapM_counts {A B} (f : A → option (nat * B)) (g : A → nat) (l : list A)
    (k : list (nat * B)) :
  (∀ x r, f x = Some r → fst r = g x) →
  mapM f l = Some k →
  foldr (fun r n => fst r + n) 0 k = sum_list (map g l).
Proof.
  intros Hfg Hm. apply mapM_Some_1 in Hm.
  induction Hm as [|x y l k Hxy _ IH]; [reflexivity|].
  cbn [foldr map sum_list]. rewrite IH, (Hfg x y Hxy). reflexivity.
Qed.

Lemma audit_question_count (index : nat) (q : Question) (r : nat * list Issue) :
  audit_question JSDOM index q = Some r →
  fst r = sum_list (map (tables_of_field JSDOM q) FIELDS_TO_AUDIT).
Proof.
  unfold audit_question. destruct (mapM _ _) as [per_field|] eqn:Hm; [|discriminate].
  intros [= Hr]; subst r. cbn [fst].
  apply (mapM_counts _ _ _ _ (audit_field_count index q) Hm).
Qed.

Lemma imap_pair_counts {B} (f : nat → Question → option (nat * B)) (g : Question → nat)
    (l : list Question) (k : list (nat * B)) :
  (∀ i x r, f i x = Some r → fst r = g x) →
  mapM (fun it => f (fst it) (snd it)) (imap pair l) = Some k →
  foldr (fun r n => fst r + n) 0 k = sum_list (map g l).
Proof.
  intros Hfg Hm.
  rewrite (mapM_counts _ (fun it => g (snd it)) _ _ (fun it r => Hfg (fst it) (snd it) r) Hm).
  f_equal. clear.
  assert (∀ h : nat → Question → nat * Question,
            (∀ i x, snd (h i x) = x) →
            map (fun it => g (snd it)) (imap h l) = map g l) as Hgen.
  { induction l as [|x l IH]; intros h Hh; [reflexivity|].
    cbn [imap map]. rewrite Hh. f_equal. apply IH. intros i y. apply Hh. }
  apply Hgen. reflexivity.
Qed.

(** X19: the counters of an audit report, and what the upload route makes
    of them.  [totalTables] is the number of top-level tables in the
    audited fields of all questions; [bad] and [warn] count the issues of
    either severity and add up to the number of issues.  The number of
    issues the route keeps under the filter ['BAD'] is [bad]; under
    ['WARN'], as under ['ALL'], it keeps every issue, those of severity
    [BAD] too. *)
Theorem report_counters (data : AuditInput) (report : AuditReport) :
  auditData JSDOM data = Some report →
  totalTables (stats report) = tables_of_document JSDOM data
  ∧ bad (stats report) + warn (stats report) = length (issues report)
  ∧ length (filter_issues FILTER_BAD (issues report)) = bad (stats report)
  ∧ filter_issues FILTER_WARN (issues report) = issues report
  ∧ filter_issues FILTER_ALL (issues report) = issues report.
Proof.
  unfold auditData. destruct (mapM _ _) as [per_question|] eqn:Hm; [|discriminate].
  cbn [mbind option_bind]. intros [= Hr]; subst report. cbn [stats issues totalTables bad warn].
  split; [|split; [|split; [|split]]].
  - unfold tables_of_document.
    apply (imap_pair_counts (audit_question JSDOM) _ _ _ audit_question_count Hm).
  - apply filter_split. intros i. destruct (i_severity i); reflexivity.
  - reflexivity.
  - cbn [filter_issues]. generalize (flat_map snd per_question).
    induction l as [|i l IH]; [reflexivity|]. cbn [List.filter]. f_equal. exact IH.
  - reflexivity.
Qed.

End Report.

Lemma report_counters_witness :
  totalTables (stats ghost_report) = tables_of_document ghost_parser (QuestionArray [ghost_question])
  ∧ bad (stats ghost_report) + warn (stats ghost_report) = length (issues ghost_report)
  ∧ length (filter_issues FILTER_BAD (issues ghost_report)) = bad (stats ghost_report)
  ∧ filter_issues FILTER_WARN (issues ghost_report) = issues ghost_report
  ∧ filter_issues FILTER_ALL (issues ghost_report) = issues ghost_report.
Proof.
  apply (report_counters ghost_parser (QuestionArray [ghost_question]) ghost_report).
  vm_compute. reflexivity.
Defined.

(** *** The key of a task *)

Lemma split_at_first {A} (c : A) (l1 l2 r1 r2 : list A) :
  c ∉ l1 → c ∉ l2 → l1 ++ c :: r1 = l2 ++ c :: r2 → l1 = l2 ∧ r1 = r2.
Proof.
  revert l2. induction l1 as [|a l1 IH]; intros l2 H1 H2 Heq.
  - destruct l2 as [|b l2]; [injection Heq as ->; auto|].
    injection Heq as -> _. exfalso. apply H2. left.
  - destruct l2 as [|b l2].
    + injection Heq as -> _. exfalso. apply H1. left.
    + injection Heq as -> Heq.
      destruct (IH l2) as [-> ->]; auto.
      * intros H. apply H1. right. exact H.
      * intros H. apply H2. right. exact H.
Qed.

Lemma numeral_without_hyphen (n : nat) : 45%N ∉ of_nat n.
Proof.
  intros H. pose proof (of_nat_digits n) as Hd. rewrite Forall_forall in Hd.
  specialize (Hd _ H). discriminate.
Qed.

Lemma field_name_without_hyphen (f : AuditService.field) : 45%N ∉ field_name f.
Proof.
  destruct f; intros H; apply list_elem_of_In in H; cbn in H;
    repeat (destruct H as [H|H]; [discriminate|]); exact H.
Qed.

Lemma field_name_inj (f g : AuditService.field) : field_name f = field_name g → f = g.
Proof. destruct f, g; intros H; try reflexivity; discriminate. Qed.

(** Two issues have the same key exactly when they are about the same
    table. *)
Lemma task_key_inj (i j : Issue) : task_key i = task_key j ↔ table_of i = table_of j.
Proof.
  unfold task_key, table_of. split.
  - intros H. change (lit "-" ++ ?x) with (45%N :: x) in H.
    apply split_at_first in H as [Hq H]; try apply numeral_without_hyphen.
    apply split_at_first in H as [Hf Ht]; try apply field_name_without_hyphen.
    apply of_nat_inj in Hq, Ht. apply field_name_inj in Hf. congruence.
  - intros [= -> -> ->]. reflexivity.
Qed.

(** *** One task per table *)

Lemma mapM_cons_Some {A B} (f : A → option B) (x : A) (l : list A) (ys : list B) :
  mapM f (x :: l) = Some ys ↔ ∃ y k, f x = Some y ∧ mapM f l = Some k ∧ ys = y :: k.
Proof.
  cbn [mapM]. destruct (f x) as [y|]; cbn.
  - destruct (mapM f l) as [k|]; cbn.
    + split; [intros [= <-]; eauto | intros (y' & k' & [= <-] & [= <-] & ->); reflexivity].
    + split; [discriminate | intros (_ & _ & _ & [=] & _)].
  - split; [discriminate | intros (_ & _ & [=] & _)].
Qed.

(** Where a [mapM] fails: at the first element without a result. *)
Lemma mapM_None_first {A B} (f : A → option B) (l : list A) :
  mapM f l = None →
  ∃ n x ys, l !! n = Some x ∧ f x = None ∧ mapM f (take n l) = Some ys.
Proof.
  induction l as [|x l IH]; [discriminate|]. intros Hnone.
  destruct (f x) as [y|] eqn:Hx.
  - destruct (mapM f l) as [k|] eqn:Hl.
    { cbn [mapM] in Hnone. rewrite Hx, Hl in Hnone. discriminate. }
    destruct (IH eq_refl) as (n & x' & ys & Hn & Hx' & Htake).
    exists (S n), x', (y :: ys). split; [exact Hn|]. split; [exact Hx'|].
    cbn [take]. apply mapM_cons_Some. eauto.
  - exists 0, x, []. split; [reflexivity|]. split; [exact Hx | reflexivity].
Qed.

Section Upload.
Variable batch_id : jsstring.
Variable task_id : nat → jsstring.
Variable questions : list UploadedQuestion.

Abbreviation entry := (BatchNotions.entry batch_id task_id).
Abbreviation context_of := (BatchRoutes.context_of questions).
Abbreviation create_tasks_from := (BatchRoutes.create_tasks_from batch_id task_id questions).

Lemma has_entries (key : Issue) (done : list (Issue * RepairContext)) :
  has (task_key key) (imap entry done)
  = bool_decide (table_of key ∈ map (fun built => table_of (fst built)) done).
Proof.
  unfold has.
  assert (∀ (e : nat → Issue * RepairContext → jsstring * (JobPayload * RepairContext)),
            (∀ k b, fst (e k b) = task_key (fst b)) →
            existsb (fun en => str_eqb (fst en) (task_key key)) (imap e done)
            = bool_decide (table_of key ∈ map (fun built => table_of (fst built)) done))
    as Hgen.
  { clear. induction done as [|b done IH]; intros e He.
    - cbn. symmetry. apply bool_decide_eq_false. apply not_elem_of_nil.
    - cbn [imap existsb map]. rewrite He, (IH (e ∘ S)) by (intros; apply He).
      unfold str_eqb. apply eq_true_iff_eq.
      rewrite orb_true_iff, !bool_decide_eq_true, task_key_inj, elem_of_cons.
      split; (intros [H|H]; [left; congruence | right; exact H]). }
  apply (Hgen entry). reflexivity.
Qed.

Lemma entry_snoc (done : list (Issue * RepairContext)) (i : Issue) (c : RepairContext) :
  imap entry done ++ [(task_key i, (payload_of batch_id task_id (length (imap entry done)) i, c))]
  = imap entry (done ++ [(i, c)]).
Proof. rewrite imap_app, length_imap. cbn [imap]. rewrite Nat.add_0_r. reflexivity. Qed.

(** The loop from a map of [done] entries: it ends with the entries of the
    first issues when every context can be built, and at the first issue
    whose context cannot, with the entries built before it. *)
Lemma tasks_from (issues : list Issue) :
  ∀ done : list (Issue * RepairContext),
    let firsts := first_issues (map (fun built => table_of (fst built)) done) issues in
    (∀ cs, mapM context_of firsts = Some cs →
           create_tasks_from (imap entry done) issues
           = Completed (imap entry (done ++ zip firsts cs)))
    ∧ (∀ n i cs, firsts !! n = Some i → context_of i = None →
                 mapM context_of (take n firsts) = Some cs →
                 create_tasks_from (imap entry done) issues
                 = Threw (imap entry (done ++ zip (take n firsts) cs))).
Proof.
  induction issues as [|i issues IH]; intros done; cbv zeta.
  - cbn [first_issues BatchRoutes.create_tasks_from]. split.
    + intros cs [= <-]. rewrite app_nil_r. reflexivity.
    + intros n j cs Hn. destruct n; discriminate Hn.
  - cbn [first_issues BatchRoutes.create_tasks_from]. unfold add_task. cbv zeta.
    rewrite has_entries. case_bool_decide as Hseen; [apply IH|].
    assert (∀ c, map (fun built : Issue * RepairContext => table_of (fst built))
                     (done ++ [(i, c)])
                 = map (fun built => table_of (fst built)) done ++ [table_of i]) as Hmap
      by (intros c; rewrite map_app; reflexivity).
    split.
    + intros cs Hcs. apply mapM_cons_Some in Hcs as (c & k & Hc & Hk & ->).
      rewrite Hc. cbn [mbind option_bind].
      destruct (IH (done ++ [(i, c)])) as [IHok _]. rewrite Hmap in IHok.
      rewrite entry_snoc, (IHok k Hk), <- app_assoc. reflexivity.
    + intros [|n] j cs Hn Hj Hcs.
      * injection Hn as <-. rewrite Hj. cbn [mbind option_bind].
        injection Hcs as <-. rewrite app_nil_r. reflexivity.
      * cbn [take] in Hcs. apply mapM_cons_Some in Hcs as (c & k & Hc & Hk & ->).
        rewrite Hc. cbn [mbind option_bind].
        destruct (IH (done ++ [(i, c)])) as [_ IHfail]. rewrite Hmap in IHfail.
        rewrite entry_snoc, (IHfail n j k Hn Hj Hk), <- app_assoc. reflexivity.
Qed.

Lemma first_issues_fresh (seen : list (nat * AuditService.field * nat)) (issues : list Issue) :
  NoDup seen → NoDup (seen ++ map table_of (first_issues seen issues)).
Proof.
  revert seen. induction issues as [|i issues IH]; intros seen Hseen; cbn [first_issues].
  - rewrite app_nil_r. exact Hseen.
  - case_bool_decide as Hin; [apply IH; exact Hseen|].
    cbn [map]. rewrite snoc_app. apply IH.
    apply NoDup_app. split; [exact Hseen|]. split; [|apply NoDup_singleton].
    intros t Ht Ht'. apply list_elem_of_singleton in Ht'. subst t. contradiction.
Qed.

Lemma first_issues_cover (seen : list (nat * AuditService.field * nat)) (issues : list Issue) (i : Issue) :
  i ∈ issues → table_of i ∈ seen ++ map table_of (first_issues seen issues).
Proof.
  revert seen. induction issues as [|j issues IH]; intros seen Hi; [inversion Hi|].
  cbn [first_issues]. apply elem_of_cons in Hi as [->|Hi].
  - case_bool_decide as Hin; [apply elem_of_app; left; exact Hin|].
    cbn [map]. apply elem_of_app. right. left.
  - case_bool_decide as Hin; [apply IH; exact Hi|].
    cbn [map]. rewrite snoc_app. apply IH. exact Hi.
Qed.

Lemma first_issues_first (seen : list (nat * AuditService.field * nat)) (issues : list Issue) (i : Issue) :
  i ∈ first_issues seen issues →
  (table_of i ∉ seen) ∧ ∃ n, first_of_its_table issues n i.
Proof.
  revert seen. induction issues as [|j issues IH]; intros seen Hi; [inversion Hi|].
  cbn [first_issues] in Hi.
  assert (∀ seen', i ∈ first_issues seen' issues → table_of j ∈ seen' →
                   (∀ t, t ∈ seen → t ∈ seen') →
                   (table_of i ∉ seen) ∧ ∃ n, first_of_its_table (j :: issues) n i)
    as Hlater.
  { intros seen' Hi' Hj Hsub. destruct (IH seen' Hi') as (Hnot & n & Hn & Hfirst).
    split; [intros H; apply Hnot, Hsub, H|].
    exists (S n). split; [exact Hn|]. intros [|m] other Hm Hother.
    - injection Hother as <-. intros Heq. apply Hnot. rewrite <- Heq. exact Hj.
    - apply (Hfirst m other); [lia | exact Hother]. }
  case_bool_decide as Hin.
  - apply (Hlater seen Hi Hin). auto.
  - apply elem_of_cons in Hi as [->|Hi].
    + split; [exact Hin|]. exists 0. split; [reflexivity|]. intros m other Hm. lia.
    + apply (Hlater _ Hi).
      * apply elem_of_app. right. left.
      * intros t Ht. apply elem_of_app. left. exact Ht.
Qed.

Lemma first_issues_sublist (seen : list (nat * AuditService.field * nat)) (issues : list Issue) :
  sublist (first_issues seen issues) issues.
Proof.
  revert seen. induction issues as [|j issues IH]; intros seen; cbn [first_issues].
  - constructor.
  - case_bool_decide; [apply sublist_cons | apply sublist_skip]; apply IH.
Qed.

Lemma imap_map_imap {A B C D} (f : nat → A → B) (p : B → C) (g : nat → C → D)
    (h : nat → A → D) (l : list A) :
  (∀ k x, g k (p (f k x)) = h k x) → imap g (map p (imap f l)) = imap h l.
Proof.
  revert f g h. induction l as [|x l IH]; intros f g h Hgh; [reflexivity|].
  cbn [imap map]. rewrite Hgh. f_equal. apply IH. intros k y. apply Hgh.
Qed.

(** X20: the upload creates one task per table, in the order of the
    report, or queues nothing.  The issues that are the first of their
    table among the filtered issues are met in the order of the report; no
    two of them are about the same table, and every filtered issue is about
    the table of one of them.  When the context of each of them can be
    built, the loop ends with one task for each: the task number [k] has the
    identifier of the [k]-th task created, the raw markup and the question
    of the [k]-th first issue, its context and [attempt] 0, and the queue
    gets it under its task identifier with priority [k].  When the context
    of one of them cannot be built (the [enunciado] or the
    [texto_associado] of its question is neither missing nor a string), the
    loop throws at that issue: the tasks of the first issues before it have
    been created and nothing is handed to the queue. *)
Theorem one_task_per_table (filteredIssues : list Issue) :
  let firsts := first_issues [] filteredIssues in
  let created := create_tasks batch_id task_id questions filteredIssues in
  sublist firsts filteredIssues
  ∧ (∀ i, i ∈ firsts → ∃ n, first_of_its_table filteredIssues n i)
  ∧ NoDup (map table_of firsts)
  ∧ (∀ i, i ∈ filteredIssues → table_of i ∈ map table_of firsts)
  ∧ match mapM context_of firsts with
    | Some contexts =>
        created = Completed (imap entry (zip firsts contexts))
        ∧ queued created
          = imap (fun k i => {| j_name := lit "repair-table";
                                j_data := payload_of batch_id task_id k i;
                                j_jobId := task_id k; j_priority := k |}) firsts
    | None =>
        ∃ n i contexts,
          firsts !! n = Some i
          ∧ context_of i = None
          ∧ mapM context_of (take n firsts) = Some contexts
          ∧ created = Threw (imap entry (zip (take n firsts) contexts))
          ∧ queued created = []
    end.
Proof.
  cbv zeta.
  split; [apply first_issues_sublist|].
  split; [intros i Hi; apply (first_issues_first [] _ _ Hi)|].
  split; [apply (first_issues_fresh [] filteredIssues); constructor|].
  split; [intros i Hi; apply (first_issues_cover [] filteredIssues i Hi)|].
  destruct (tasks_from filteredIssues []) as [Hok Hfail]. cbn [map app imap] in Hok, Hfail.
  unfold create_tasks.
  destruct (mapM context_of (first_issues [] filteredIssues)) as [contexts|] eqn:Hm.
  - rewrite (Hok contexts eq_refl). split; [reflexivity|].
    cbn [queued]. unfold addBulkRepairJobs, jobs_of.
    apply mapM_Some, Forall2_length in Hm.
    apply list_eq. intros k.
    rewrite !list_lookup_imap, list_lookup_fmap, list_lookup_imap, lookup_zip_with.
    destruct (first_issues [] filteredIssues !! k) as [i|] eqn:Hi; [|reflexivity].
    destruct (contexts !! k) as [c|] eqn:Hc; [reflexivity|].
    apply lookup_lt_Some in Hi. apply lookup_ge_None in Hc. lia.
  - destruct (mapM_None_first _ _ Hm) as (n & i & contexts & Hn & Hi & Htake).
    exists n, i, contexts. rewrite (Hfail n i contexts Hn Hi Htake).
    repeat split; assumption.
Qed.

End Upload.

(** *** From the audit to the queue *)

Lemma filter_issues_elem (f : severity_filter) (l : list Issue) (i : Issue) :
  i ∈ filter_issues f l → i ∈ l ∧ (f = FILTER_BAD → i_severity i = BAD).
Proof.
  destruct f; cbn [filter_issues]; intros H.
  - apply list_elem_of_In, filter_In in H as [H Hs]. apply bool_decide_eq_true in Hs.
    split; [apply list_elem_of_In, H | auto].
  - apply list_elem_of_In, filter_In in H as [H _].
    split; [apply list_elem_of_In, H | discriminate].
  - split; [exact H | discriminate].
Qed.

Lemma sublist_elem {A} (l1 l2 : list A) (x : A) : sublist l1 l2 → x ∈ l1 → x ∈ l2.
Proof.
  induction 1 as [|y l1 l2 _ IH|y l1 l2 _ IH]; intros Hx; [exact Hx| |].
  - apply elem_of_cons in Hx as [->|Hx]; [left | right; apply IH, Hx].
  - right. apply IH, Hx.
Qed.

Section Pipeline.
Variable JSDOM : jsstring → option node.
Variable batch_id : jsstring.
Variable task_id : nat → jsstring.

Lemma report_issue_traceable (data : AuditInput) (report : AuditReport) (i : Issue) :
  auditData JSDOM data = Some report → i ∈ issues report → traceable JSDOM data i.
Proof.
  unfold auditData.
  destruct (mapM _ _) as [per_question|] eqn:Hm; [|discriminate].
  intros [= Hr]; subst report. cbn [issues]. intros Hi.
  destruct (mapM_flat_map_elem _ _ _ _ _ Hm Hi) as ([index q] & r & Hq & Hr & Hin).
  apply elem_of_imap_pair in Hq. cbn [fst snd] in Hr.
  pose proof (audit_question_traceable JSDOM data index q r Hq Hr) as H.
  rewrite Forall_forall in H. apply H, Hin.
Qed.

(** X26: every task the upload queues carries the table it names.  For
    the report of the audit of the uploaded document and any severity
    filter, when the loop over the filtered issues ends, the task number
    [k] of its map is built from an issue of the report that passed the
    filter: its question index names a question of the document whose field
    of the task's name is not empty, and its raw markup is the
    serialisation of the top-level table of that field that its table
    index counts (or, for a Markdown table in the field, the first 600
    characters of the field); its context is the one built from that
    question, and the queue gets the task as its job number [k]. *)
Theorem queued_tasks_carry_their_table (jsonData : Uploaded) (report : AuditReport)
    (severityFilter : severity_filter) (taskMap : TaskMap) (k : nat) (key : jsstring)
    (payload : JobPayload) (context : RepairContext) :
  auditData JSDOM (audit_input jsonData) = Some report →
  create_tasks batch_id task_id (uploaded_questions jsonData)
               (filter_issues severityFilter (issues report))
  = Completed taskMap →
  taskMap !! k = Some (key, (payload, context)) →
  ∃ issue,
    issue ∈ issues report
    ∧ (severityFilter = FILTER_BAD → i_severity issue = BAD)
    ∧ traceable JSDOM (audit_input jsonData) issue
    ∧ payload = payload_of batch_id task_id k issue
    ∧ context_of (uploaded_questions jsonData) issue = Some context
    ∧ queued (Completed taskMap) !! k
      = Some {| j_name := lit "repair-table"; j_data := payload;
                j_jobId := task_id k; j_priority := k |}.
Proof.
  intros Hreport Hcreated Hk.
  set (filtered := filter_issues severityFilter (issues report)) in *.
  destruct (tasks_from batch_id task_id (uploaded_questions jsonData) filtered [])
    as [Hok Hfail].
  cbn [map app imap] in Hok, Hfail. unfold create_tasks in Hcreated.
  destruct (mapM (context_of (uploaded_questions jsonData)) (first_issues [] filtered))
    as [contexts|] eqn:Hm.
  2:{ destruct (mapM_None_first _ _ Hm) as (n & i & cs & Hn & Hi & Htake).
      rewrite (Hfail n i cs Hn Hi Htake) in Hcreated. discriminate. }
  rewrite (Hok contexts eq_refl) in Hcreated. injection Hcreated as <-.
  pose proof Hk as Hentry.
  apply list_lookup_imap_Some in Hk as ([issue c] & Hzip & Heq).
  unfold entry in Heq. cbn [fst snd] in Heq. injection Heq as _ -> ->.
  apply lookup_zip_with_Some in Hzip as (issue' & c' & [= <- <-] & Hissue & Hc).
  apply mapM_Some in Hm.
  pose proof (Forall2_lookup_lr _ _ _ _ _ _ Hm Hissue Hc) as Hbuilt.
  exists issue.
  apply list_elem_of_lookup_2 in Hissue.
  pose proof (first_issues_sublist [] filtered) as Hsub.
  apply (sublist_elem _ _ issue Hsub), filter_issues_elem in Hissue as [Hin Hsev].
  split; [exact Hin|]. split; [exact Hsev|].
  split; [apply (report_issue_traceable _ report issue Hreport Hin)|].
  split; [reflexivity|]. split; [exact Hbuilt|].
  cbn [queued]. unfold addBulkRepairJobs, jobs_of.
  rewrite list_lookup_imap, list_lookup_fmap.
  match goal with
  | |- _ <$> (_ <$> ?x) = _ =>
      replace x with (Some (key, (payload_of batch_id task_id k issue, c)))
        by (symmetry; exact Hentry)
  end.
  reflexivity.
Qed.

End Pipeline.

(** The ghost-column document: its one issue becomes the one task. *)
Lemma queued_tasks_carry_their_table_witness :
  ∃ issue,
    issue ∈ issues ghost_report
    ∧ (FILTER_ALL = FILTER_BAD → i_severity issue = BAD)
    ∧ traceable ghost_parser (audit_input (UploadedArray [ghost_upload])) issue
    ∧ payload_of (lit "batch-1") (fun _ => lit "task-1") 0 (ghost_issue WARN)
      = payload_of (lit "batch-1") (fun _ => lit "task-1") 0 issue
    ∧ context_of [ghost_upload] issue
      = Some {| rc_materia := None;
                rc_enunciado := Some (substring0 1000 ghost_markup);
                rc_texto_associado := None;
                rc_qid := IdString (lit "UNKNOWN");
                rc_field := lit "enunciado" |}
    ∧ queued (Completed
                [entry (lit "batch-1") (fun _ => lit "task-1") 0
                   (ghost_issue WARN,
                    {| rc_materia := None;
                       rc_enunciado := Some (substring0 1000 ghost_markup);
                       rc_texto_associado := None;
                       rc_qid := IdString (lit "UNKNOWN");
                       rc_field := lit "enunciado" |})]) !! 0
      = Some {| j_name := lit "repair-table";
                j_data := payload_of (lit "batch-1") (fun _ => lit "task-1") 0
                            (ghost_issue WARN);
                j_jobId := lit "task-1"; j_priority := 0 |}.
Proof.
  apply (queued_tasks_carry_their_table ghost_parser (lit "batch-1") (fun _ => lit "task-1")
           (UploadedArray [ghost_upload]) ghost_report FILTER_ALL _ 0
           (task_key (ghost_issue WARN))
           (payload_of (lit "batch-1") (fun _ => lit "task-1") 0 (ghost_issue WARN))
           {| rc_materia := None;
              rc_enunciado := Some (substring0 1000 ghost_markup);
              rc_texto_associado := None;
              rc_qid := IdString (lit "UNKNOWN");
              rc_field := lit "enunciado" |});
    vm_compute; reflexivity.
Defined.

(** The same document with a number for the [texto_associado] of its
    question: the context of the one issue cannot be built, no task is
    created and nothing is queued. *)
Example upload_with_a_number_queues_nothing :
  context_of [ghost_upload_with_number] (ghost_issue WARN) = None
  ∧ create_tasks (lit "batch-1") (fun _ => lit "task-1") [ghost_upload_with_number]
      [ghost_issue WARN]
    = Threw []
  ∧ queued (Threw []) = [].
Proof. repeat split. Qed.

End BatchFacts.

(* ====================================================================== *)
(** ** The output file *)
(* ====================================================================== *)

Module OutputFacts.
Import JS Dom AuditService RepairService RepairWorker WorkerOutput Scenarios ListFacts.

Lemma set_field_other (q : Question) (f g : AuditService.field) (v : jsstring) :
  f ≠ g → q_field (set_field q f v) g = q_field q g.
Proof. destruct f, g; intros H; try reflexivity; congruence. Qed.

Lemma set_field_identity (q : Question) (f : AuditService.field) (v : jsstring) :
  same_identity q (set_field q f v).
Proof. destruct f; repeat split. Qed.

(** *** Grouping *)

Lemma get_elem (key : nat) (grouped : Grouped) (ts : list Task) :
  get key grouped = Some ts → (key, ts) ∈ grouped.
Proof.
  unfold get. destruct (List.find _ grouped) as [[k v]|] eqn:Hfind; [|discriminate].
  cbn. intros [= <-]. apply find_some in Hfind as [Hin Hk].
  apply Nat.eqb_eq in Hk. cbn in Hk. subst k. apply list_elem_of_In. exact Hin.
Qed.

Lemma set_elem (key : nat) (value : list Task) (grouped : Grouped) k ts :
  (k, ts) ∈ set key value grouped → (k, ts) = (key, value) ∨ (k, ts) ∈ grouped.
Proof.
  unfold set. destruct (existsb _ grouped).
  - intros H. apply list_elem_of_In, in_map_iff in H as ([k' v'] & Heq & Hin).
    cbn [fst] in Heq. destruct (k' =? key); [left; congruence|].
    right. rewrite <- Heq. apply list_elem_of_In. exact Hin.
  - intros H. apply elem_of_app in H as [H|H]; [right; exact H|].
    apply list_elem_of_singleton in H. left. exact H.
Qed.

Lemma group_by_question_from (rows : list Task) : grouped_from rows (group_by_question rows).
Proof.
  unfold group_by_question.
  assert (∀ done grouped,
            grouped_from done grouped →
            grouped_from (done ++ rows)
              (foldl (fun grouped task =>
                        let existing := default [] (get (t_questionIndex task) grouped) in
                        set (t_questionIndex task) (existing ++ [task]) grouped)
                     grouped rows)) as Hgen.
  { induction rows as [|task rows IH]; intros done grouped Hg.
    - rewrite app_nil_r. exact Hg.
    - cbn [foldl]. cbv zeta. rewrite (snoc_app done task rows). apply IH.
      intros k ts t Hk Ht. apply set_elem in Hk as [[= -> ->]|Hk].
      + apply elem_of_app in Ht as [Ht|Ht].
        * destruct (get (t_questionIndex task) grouped) as [existing|] eqn:Hget;
            cbn [default] in Ht; [|inversion Ht].
          apply get_elem in Hget. destruct (Hg _ _ _ Hget Ht) as [Hin Hq].
          split; [apply elem_of_app; left; exact Hin | exact Hq].
        * apply list_elem_of_singleton in Ht. subst t.
          split; [apply elem_of_app; right; left | reflexivity].
      + destruct (Hg _ _ _ Hk Ht) as [Hin Hq].
        split; [apply elem_of_app; left; exact Hin | exact Hq]. }
  apply (Hgen [] []). intros k ts t Hk. inversion Hk.
Qed.

Section Output.
Variable JSDOM : jsstring → option node.
Variable parseFragment : jsstring → list node.

(** *** One task *)

Lemma apply_task_frame (q : Question) (task : Task) :
  same_identity q (fst (apply_task JSDOM parseFragment q task))
  ∧ ∀ f, q_field (fst (apply_task JSDOM parseFragment q task)) f ≠ q_field q f →
         f = t_field task ∧ applicable task ∧ holds_text (q_field q f).
Proof.
  unfold apply_task.
  assert (same_identity q q ∧ ∀ f, q_field q f ≠ q_field q f →
            f = t_field task ∧ applicable task ∧ holds_text (q_field q f)) as Hsame.
  { split; [repeat split | congruence]. }
  destruct (t_repairedHtml task) as [[|c html]|] eqn:Hhtml; try exact Hsame.
  case_bool_decide as Hstatus; [|exact Hsame].
  destruct (q_field q (t_field task)) as [[|d value]|] eqn:Hvalue; try exact Hsame.
  cbv zeta. destruct (str_eqb _ _); [exact Hsame|]. cbn [fst].
  split; [apply set_field_identity|]. intros f Hf.
  destruct (decide (t_field task = f)) as [<-|Hne].
  - split; [reflexivity|]. split; [split; eauto|]. rewrite Hvalue.
    exists d, value. reflexivity.
  - rewrite set_field_other in Hf by exact Hne. congruence.
Qed.

Lemma same_identity_trans (a b c : Question) :
  same_identity a b → same_identity b c → same_identity a c.
Proof.
  unfold same_identity. intros (H1 & H2 & H3 & H4) (H5 & H6 & H7 & H8).
  repeat split; congruence.
Qed.

Lemma apply_tasks_frame (tasks : list Task) (q : Question) (n : nat) :
  touched_by tasks q (fst (apply_tasks JSDOM parseFragment q n tasks))
  ∧ n ≤ snd (apply_tasks JSDOM parseFragment q n tasks) ≤ n + length tasks.
Proof.
  unfold apply_tasks.
  assert (∀ done q1 n1,
            touched_by done q q1 → n ≤ n1 ≤ n + length done →
            let r := foldl (fun state task =>
                              let '(q2, modified) :=
                                apply_task JSDOM parseFragment (fst state) task in
                              (q2, if modified then S (snd state) else snd state))
                           (q1, n1) tasks in
            touched_by (done ++ tasks) q (fst r)
            ∧ n ≤ snd r ≤ n + length (done ++ tasks)) as Hgen.
  { induction tasks as [|task tasks IH]; intros done q1 n1 Hq Hn.
    - cbn. rewrite app_nil_r. auto.
    - cbv zeta. cbn [foldl fst snd]. rewrite (snoc_app done task tasks).
      pose proof (apply_task_frame q1 task) as [Hid Hframe].
      destruct (apply_task JSDOM parseFragment q1 task) as [q2 modified] eqn:Happ.
      cbn [fst snd] in *. apply IH.
      + destruct Hq as [Hid1 Hq]. split; [apply (same_identity_trans _ _ _ Hid1 Hid)|].
        intros f Hf. destruct (decide (q_field q2 f = q_field q1 f)) as [Heq|Hne].
        * rewrite Heq in Hf. destruct (Hq f Hf) as (t & Ht & Hrest).
          exists t. split; [apply elem_of_app; left; exact Ht | exact Hrest].
        * destruct (Hframe f Hne) as (-> & Happl & Hsome).
          destruct (decide (q_field q1 (t_field task) = q_field q (t_field task)))
            as [Heq1|Hne1].
          -- exists task. split; [apply elem_of_app; right; left|].
             rewrite <- Heq1. auto.
          -- destruct (Hq _ Hne1) as (t & Ht & Hrest).
             exists t. split; [apply elem_of_app; left; exact Ht | exact Hrest].
      + rewrite length_app. cbn [length]. destruct modified; lia. }
  apply (Hgen [] q n).
  - split; [repeat split | congruence].
  - cbn. lia.
Qed.

(** *** All groups *)

Lemma apply_groups_frame (rows : list Task) (grouped : Grouped) (before : list Question) :
  grouped_from rows grouped →
  ∀ cur n,
    repaired_from rows before cur →
    repaired_from rows before (fst (foldl (apply_group JSDOM parseFragment) (cur, n) grouped)).
Proof.
  induction grouped as [|[k ts] grouped IH]; intros Hg cur n Hcur; [exact Hcur|].
  cbn [foldl]. unfold apply_group at 2. cbn [fst snd].
  assert (grouped_from rows grouped) as Hg'.
  { intros k' ts' t Hk Ht. apply (Hg k' ts' t); [right; exact Hk | exact Ht]. }
  destruct (cur !! k) as [q1|] eqn:Hk; [|apply IH; assumption].
  pose proof (apply_tasks_frame ts q1 n) as [[Hid Hframe] _].
  destruct (apply_tasks JSDOM parseFragment q1 n ts) as [q2 n2]. cbn [fst] in *.
  apply IH; [exact Hg'|]. destruct Hcur as [Hlen Hcur]. split.
  - rewrite length_insert. exact Hlen.
  - intros j q Hj. destruct (Hcur j q Hj) as (q' & Hq' & Hid' & Hframe').
    destruct (decide (j = k)) as [->|Hne].
    + rewrite Hk in Hq'. injection Hq' as <-.
      exists q2. split; [apply list_lookup_insert_eq; apply lookup_lt_Some in Hk; exact Hk|].
      split; [apply (same_identity_trans _ _ _ Hid' Hid)|].
      intros f Hf. destruct (decide (q_field q2 f = q_field q1 f)) as [Heq|Hne].
      * rewrite Heq in Hf. apply (Hframe' f Hf).
      * destruct (Hframe f Hne) as (t & Ht & Hfield & Happl & Hsome).
        destruct (decide (q_field q1 f = q_field q f)) as [Heq1|Hne1];
          [|apply (Hframe' f Hne1)].
        destruct (Hg k ts t) as [Hin Hidx]; [left | exact Ht |].
        exists t. rewrite <- Heq1. auto.
    + exists q'. split; [rewrite list_lookup_insert_ne by congruence; exact Hq'|]. auto.
Qed.

(** X21: the output file differs from the uploaded document only where a
    repair was applied.  It holds as many questions as the document, an
    array if the document was one and else an object with [questoes]; every
    question keeps its identifiers and its subject; and a field of the
    question at index [k] has another value than before only if it held
    text and a task for this question and this field is [COMPLETED] with a
    repaired markup that is not empty. *)
Theorem output_changes_only_repaired_fields (originalData : AuditInput) (rows : list Task) :
  let out := fst (generateOutputFile JSDOM parseFragment originalData rows) in
  repaired_from rows (questions_of originalData) (questions_of out)
  ∧ match originalData, out with
    | QuestionArray _, QuestionArray _ => True
    | QuestionObject _, QuestionObject (Some _) => True
    | _, _ => False
    end.
Proof.
  cbv zeta. unfold generateOutputFile. cbv zeta.
  pose proof (apply_groups_frame rows (group_by_question rows) (questions_of originalData)
                (group_by_question_from rows) (questions_of originalData) 0) as Hframe.
  destruct (foldl _ _ _) as [questions' modifiedCount]. cbn [fst] in *.
  assert (repaired_from rows (questions_of originalData) questions') as Hrep.
  { apply Hframe. split; [reflexivity|]. intros k q Hk. exists q.
    split; [exact Hk|]. split; [repeat split | congruence]. }
  destruct originalData; cbn [questions_of default]; auto.
Qed.

End Output.

(** *** The output of the worker as it is built *)

Section AsBuilt.
Variable parseFragment : jsstring → list node.

Lemma apply_task_as_built (q : Question) (task : Task) :
  apply_task require_throws parseFragment q task = (q, false).
Proof.
  unfold apply_task. destruct (t_repairedHtml task) as [[|c html]|]; try reflexivity.
  case_bool_decide; [|reflexivity].
  destruct (q_field q (t_field task)) as [[|d value]|]; try reflexivity.
  change (domReplace require_throws parseFragment (d :: value) (c :: html) (t_tableIndex task))
    with (d :: value).
  unfold str_eqb. rewrite bool_decide_eq_true_2 by reflexivity. reflexivity.
Qed.

Lemma apply_tasks_as_built (tasks : list Task) (q : Question) (n : nat) :
  apply_tasks require_throws parseFragment q n tasks = (q, n).
Proof.
  unfold apply_tasks. induction tasks as [|task tasks IH]; [reflexivity|].
  cbn [foldl fst snd]. rewrite apply_task_as_built. exact IH.
Qed.

Lemma apply_group_as_built (state : list Question * nat) (group : nat * list Task) :
  apply_group require_throws parseFragment state group = state.
Proof.
  unfold apply_group. destruct (fst state !! fst group) as [q|] eqn:Hq; [|reflexivity].
  rewrite apply_tasks_as_built, list_insert_id by exact Hq. destruct state; reflexivity.
Qed.

(** X27: in the worker as it is built no repair reaches the output file.
    [require('jsdom')] throws in [domReplace], which returns every field as
    it was given, so that whatever tasks are [COMPLETED] the output holds
    the questions of the uploaded document as they were, and the count of
    modified questions that is logged is 0. *)
Theorem output_is_the_document_as_built (originalData : AuditInput) (rows : list Task) :
  let out := generateOutputFile require_throws parseFragment originalData rows in
  questions_of (fst out) = questions_of originalData ∧ snd out = 0.
Proof.
  cbv zeta. unfold generateOutputFile.
  assert (∀ groups state,
            foldl (apply_group require_throws parseFragment) state groups = state) as Hfold.
  { induction groups as [|g groups IH]; intros state; [reflexivity|].
    cbn [foldl]. rewrite apply_group_as_built. apply IH. }
  rewrite Hfold. destruct originalData as [qs|[qs|]]; split; reflexivity.
Qed.

End AsBuilt.

End OutputFacts.

(* ====================================================================== *)
(** ** A job from the upload to the task table *)
(* ====================================================================== *)

Module JobFacts.
Import JS JSFacts Dom RepairService RepairWorker Scenarios RunNotions JobNotions.
Import RunFacts CandidateFacts.

(** X23: how the handler ends on a job as the upload creates it, with
    [attempt] 0, when the task allows more than one attempt (three unless
    the task says otherwise).  The repair always returns.  If it succeeded,
    the handler stores as [repairedHtml] one table block that passed the
    validation, marks the task [COMPLETED], counts one success for the
    batch and returns.  If it failed, the handler marks the task [RETRY],
    with the next retry 10 s ahead, and throws the error: it writes
    neither [FAILED] nor any counter of the batch. *)
Theorem upload_job_is_completed_or_sent_back (JSDOM : jsstring → option node)
    (World : Type) (ai : option (jsstring → World → option Reply * World))
    (callOpenRouter : jsstring → option jsstring → World → option Reply * World)
    (OPENROUTER_KEYS : list jsstring) (job : JobPayload) (context : RepairContext)
    (strat : strategy) (taskMaxAttempts : option nat) (now : Z) (st : ServiceState World) :
  attempt job = 0 →
  taskMaxAttempts ≠ Some 1 →
  ∃ result st',
    repairTable JSDOM World ai callOpenRouter OPENROUTER_KEYS (taskId job) (rawHtml job)
                (countExpectedCols JSDOM (rawHtml job)) context strat st
    = (Some result, st')
    ∧ if r_success result
      then table_block (repairedHtml result) = true
           ∧ valid (verifyRepairedTable (repairedHtml result)) = true
           ∧ completed_with job result
               (fst (handle_result job taskMaxAttempts now result))
               (snd (handle_result job taskMaxAttempts now result))
      else sent_back job now 10000 result
             (fst (handle_result job taskMaxAttempts now result))
             (snd (handle_result job taskMaxAttempts now result)).
Proof.
  intros Hattempt Hmax. unfold repairTable.
  destruct (run_sound World ai callOpenRouter OPENROUTER_KEYS (first_prompt JSDOM)
              (retry_prompt JSDOM) (taskId job) (rawHtml job)
              (countExpectedCols JSDOM (rawHtml job)) context strat st)
    as (result & st' & Hrun & (_ & _ & Hshape) & _).
  exists result, st'. split; [exact Hrun|].
  unfold handle_result. destruct (r_success result) eqn:Hok.
  - destruct Hshape as (_ & Hvalid & _).
    pose proof Hrun as Hloop. unfold repairTableWithGemini in Hloop.
    eapply attempt_loop_candidate in Hloop as [raw Hraw]; [|exact Hok].
    split; [|split; [exact Hvalid|]].
    + rewrite Hraw in *. unfold candidate in *. cbv zeta in *.
      destruct (match_table (cleanup raw)) as [m|] eqn:Hm; cbn [default] in *.
      * apply (match_table_block _ _ Hm).
      * apply valid_tested, tested_table_matched in Hvalid. rewrite Hm in Hvalid.
        destruct Hvalid as [? [=]].
    + cbn [fst snd]. split; [reflexivity|]. eexists _, _, _. split; [reflexivity|].
      split; reflexivity.
  - rewrite Hattempt.
    replace (0 + 1 <? match taskMaxAttempts with Some (S n) => S n | _ => 3 end) with true.
    2:{ symmetry. apply Nat.ltb_lt. destruct taskMaxAttempts as [[|[|m]]|]; try lia.
        congruence. }
    cbn [fst snd]. split; [reflexivity|]. split.
    + repeat constructor; eexists; reflexivity.
    + cbn [scheduled_retry foldl x_nextRetryAt]. reflexivity.
Qed.

Lemma upload_job_is_completed_or_sent_back_witness :
  ∃ result st',
    repairTable throwing_parser unit None answering_pool [lit "sk-or-v1-a"; lit "sk-or-v1-b"]
                (taskId demo_job) (rawHtml demo_job)
                (countExpectedCols throwing_parser (rawHtml demo_job)) demo_context
                openrouter_only demo_state
    = (Some result, st')
    ∧ if r_success result
      then table_block (repairedHtml result) = true
           ∧ valid (verifyRepairedTable (repairedHtml result)) = true
           ∧ completed_with demo_job result
               (fst (handle_result demo_job None 1000 result))
               (snd (handle_result demo_job None 1000 result))
      else sent_back demo_job 1000 10000 result
             (fst (handle_result demo_job None 1000 result))
             (snd (handle_result demo_job None 1000 result)).
Proof.
  apply (upload_job_is_completed_or_sent_back throwing_parser unit None answering_pool
           [lit "sk-or-v1-a"; lit "sk-or-v1-b"] demo_job demo_context openrouter_only
           None 1000 demo_state); [reflexivity | discriminate].
Defined.

End JobFacts.

(* ====================================================================== *)
(** ** A plain table raises no issue *)
(* ====================================================================== *)

Module CleanFacts.
Import JS JSFacts Dom AuditService Scenarios GhostRule GridNotions TextNotions CleanNotions.
Import AuditFacts GridFacts TextFacts ListFacts StructureFacts.

(** *** Plain characters *)

Ltac by_ranges :=
  unfold odd_char, plain_char, word_char, is_letter, is_alpha, is_upper, is_lower, is_digit,
    is_upper_latin1, is_lower_latin1, is_space, is_line_terminator, in_range in *;
  repeat (match goal with
          | |- context [(?a <=? ?b)%N] => destruct (N.leb_spec a b)
          | |- context [(?a =? ?b)%N] => destruct (N.eqb_spec a b)
          | H : context [(?a <=? ?b)%N] |- _ => destruct (N.leb_spec a b)
          | H : context [(?a =? ?b)%N] |- _ => destruct (N.eqb_spec a b)
          end; cbn [andb orb negb] in *; try lia; try discriminate);
  first [reflexivity | discriminate | lia].

Lemma word_char_not_space (c : char) : word_char c = true → is_space c = false.
Proof. intros H. by_ranges. Qed.

Lemma word_char_plain (c : char) : word_char c = true → plain_char c = true.
Proof. unfold plain_char. intros ->. reflexivity. Qed.

Lemma lower_word_char (c : char) : word_char c = true → word_char (lower_char c) = true.
Proof. unfold lower_char. intros H. by_ranges. Qed.

Lemma lower_plain_char (c : char) : plain_char c = true → plain_char (lower_char c) = true.
Proof. unfold lower_char. intros H. by_ranges. Qed.

Lemma plain_not_escaped (c : char) :
  plain_char c = true →
  (c =? 38)%N = false ∧ (c =? 160)%N = false ∧ (c =? 60)%N = false ∧ (c =? 62)%N = false.
Proof. intros H. repeat split; by_ranges. Qed.

(** *** Plain texts *)

Lemma plain_text_inv (s : jsstring) :
  plain_text s = true →
  Forall (fun c => plain_char c = true) s
  ∧ (∃ c s', s = c :: s' ∧ word_char c = true)
  ∧ (∃ s' d, s = s' ++ [d] ∧ word_char d = true).
Proof.
  unfold plain_text. rewrite !andb_true_iff. intros [[Hall Hhead] Hlast].
  split; [apply Forall_forall; intros c Hc; apply list_elem_of_In in Hc;
          apply (proj1 (forallb_forall _ _) Hall c Hc)|].
  split.
  - destruct s as [|c s']; [discriminate|]. exists c, s'. auto.
  - destruct (last s) as [d|] eqn:Hd; [|discriminate].
    apply last_Some in Hd as [s' ->]. exists s', d. auto.
Qed.

Lemma trim_plain (s : jsstring) : plain_text s = true → trim s = s.
Proof.
  intros H. apply plain_text_inv in H as (_ & (c & s' & -> & Hc) & (l & d & Hl & Hd)).
  unfold trim. cbn [trimStart]. rewrite (word_char_not_space c Hc).
  unfold trimEnd. rewrite Hl, rev_app_distr. cbn [rev app trimStart].
  rewrite (word_char_not_space d Hd).
  change (d :: rev l) with (rev [d] ++ rev l). rewrite <- rev_app_distr, rev_involutive.
  reflexivity.
Qed.

Lemma lower_plain_text (s : jsstring) : plain_text s = true → plain_text (toLowerCase s) = true.
Proof.
  intros H. pose proof (plain_text_inv s H) as (Hall & (c & s' & Hs & Hc) & (l & d & Hl & Hd)).
  unfold plain_text, toLowerCase. rewrite !andb_true_iff. split; [split|].
  - apply forallb_forall. intros x Hx. apply in_map_iff in Hx as (y & <- & Hy).
    rewrite Forall_forall in Hall. apply lower_plain_char, Hall, list_elem_of_In, Hy.
  - rewrite Hs. cbn. apply lower_word_char, Hc.
  - rewrite Hl, map_app. cbn [map]. rewrite last_snoc. cbn. apply lower_word_char, Hd.
Qed.

Lemma escape_plain (s : jsstring) :
  Forall (fun c => plain_char c = true) s → escape_text s = s.
Proof.
  induction 1 as [|c s Hc _ IH]; [reflexivity|].
  unfold escape_text in *. cbn [flat_map]. rewrite IH.
  destruct (plain_not_escaped c Hc) as (-> & -> & -> & ->). reflexivity.
Qed.

(** *** Patterns that need a character no plain text has *)

Lemma must_have_spec (odd : char → bool) (r : regex) (w : jsstring) :
  Matches r w → must_have odd r → ∃ c, c ∈ w ∧ odd c = true.
Proof.
  induction 1 as [|p c Hp|r s u v _ IHu _ IHv|r s u _ IH|r s u _ IH| |r u v _ _ _ _];
    cbn [must_have]; intros Hm; try contradiction.
  - exists c. split; [left | auto].
  - destruct Hm as [Hm|Hm].
    + destruct (IHu Hm) as (c & Hc & Hodd). exists c. split; [|exact Hodd].
      apply elem_of_app. left. exact Hc.
    + destruct (IHv Hm) as (c & Hc & Hodd). exists c. split; [|exact Hodd].
      apply elem_of_app. right. exact Hc.
  - apply IH, Hm.
  - apply IH, Hm.
Qed.

Lemma plain_has_no_odd (s : jsstring) (c : char) :
  Forall (fun c => plain_char c = true) s → c ∈ s → odd_char c = true → False.
Proof.
  intros Hall Hc Hodd. rewrite Forall_forall in Hall. specialize (Hall c Hc).
  unfold odd_char in Hodd. rewrite Hall in Hodd. discriminate.
Qed.

Lemma no_full_match (r : regex) (s : jsstring) :
  must_have odd_char r → Forall (fun c => plain_char c = true) s → test_full r s = false.
Proof.
  intros Hr Hs. destruct (test_full r s) eqn:Ht; [|reflexivity]. exfalso.
  apply matches_spec in Ht. destruct (must_have_spec _ _ _ Ht Hr) as (c & Hc & Hodd).
  apply (plain_has_no_odd s c Hs Hc Hodd).
Qed.

Lemma no_match (r : regex) (s : jsstring) :
  must_have odd_char r → Forall (fun c => plain_char c = true) s → test r s = false.
Proof.
  intros Hr Hs. destruct (test r s) eqn:Ht; [|reflexivity]. exfalso.
  apply test_spec in Ht as (pre & mid & post & -> & Hmid).
  destruct (must_have_spec _ _ _ Hmid Hr) as (c & Hc & Hodd).
  apply (plain_has_no_odd _ c Hs); [|exact Hodd].
  apply elem_of_app. right. apply elem_of_app. left. exact Hc.
Qed.

Lemma no_suffix_match (r : regex) (s : jsstring) :
  must_have odd_char r → Forall (fun c => plain_char c = true) s → test_suffix r s = false.
Proof.
  intros Hr Hs. destruct (test_suffix r s) eqn:Ht; [|reflexivity]. exfalso.
  unfold test_suffix in Ht. apply matches_spec in Ht.
  inversion Ht as [| |? ? u v _ Hv| | | |]; subst.
  destruct (must_have_spec _ _ _ Hv Hr) as (c & Hc & Hodd).
  apply (plain_has_no_odd _ c Hs); [|exact Hodd]. apply elem_of_app. right. exact Hc.
Qed.

(** A class of characters none of which is plain. *)
Ltac odd_class :=
  let c := fresh "c" in
  let H := fresh "H" in
  intros c H;
  cbn [existsb lit map String.list_ascii_of_string] in H;
  repeat match type of H with
         | (_ || _) = true => apply orb_true_iff in H; destruct H as [H|H]
         end;
  first [discriminate H | apply N.eqb_eq in H; subst c; reflexivity].

Ltac open_pattern :=
  cbv zeta; cbn [must_have sq alts map plus opt asc chr one_of none_of].

Ltac needs_odd :=
  lazymatch goal with
  | |- _ ∧ _ => split; needs_odd
  | |- _ ∨ _ => first [left; needs_odd | right; needs_odd]
  | |- ∀ c, _ → _ => solve [odd_class]
  | |- True => exact I
  end.

Lemma split_cell_needs : must_have odd_char REGEX_SPLIT_CELL.
Proof. unfold REGEX_SPLIT_CELL. open_pattern. needs_odd. Qed.

Lemma split_operator_needs : must_have odd_char REGEX_SPLIT_OPERATOR.
Proof. unfold REGEX_SPLIT_OPERATOR. open_pattern. needs_odd. Qed.

Lemma ai_lazy_needs : must_have odd_char REGEX_AI_LAZY.
Proof. unfold REGEX_AI_LAZY. cbn [sq must_have asc chr]. left. odd_class. Qed.

Lemma latex_command_needs : must_have odd_char REGEX_LATEX_COMMAND.
Proof. unfold REGEX_LATEX_COMMAND. open_pattern. needs_odd. Qed.

Lemma broken_entity_needs : must_have odd_char REGEX_BROKEN_ENTITY.
Proof. unfold REGEX_BROKEN_ENTITY. cbn [sq must_have asc chr]. split; left; odd_class. Qed.

Lemma broken_style_needs : must_have odd_char REGEX_BROKEN_STYLE_VALUE.
Proof.
  unfold REGEX_BROKEN_STYLE_VALUE. cbv zeta. cbn [sq must_have asc chr].
  right. right. left. odd_class.
Qed.

Lemma truncated_needs : must_have odd_char REGEX_TRUNCATED.
Proof. unfold REGEX_TRUNCATED. cbn [sq must_have asc chr]. split; [left|]; odd_class. Qed.

(** *** Plain cells *)

Lemma plain_cell_inv (cell : elem) :
  plain_cell cell = true →
  ∃ t a s, e_node cell = Element t a [Text s] ∧ plain_text s = true
           ∧ safeInt (getAttribute "colspan" (e_node cell)) = 1
           ∧ safeInt (getAttribute "rowspan" (e_node cell)) = 1.
Proof.
  unfold plain_cell. rewrite !andb_true_iff, !Nat.eqb_eq. intros [[Hs Hc] Hr].
  destruct (e_node cell) as [d|d|t a cs]; try discriminate.
  cbn [childNodes] in Hs. destruct cs as [|[s|d|t' a' cs'] [|c cs]]; try discriminate.
  exists t, a, s. auto.
Qed.

Lemma includes_plain (s : jsstring) (c : char) :
  Forall (fun c => plain_char c = true) s → odd_char c = true → includes s [c] = false.
Proof.
  intros Hs Hc. induction Hs as [|a s Ha _ IH]; [reflexivity|].
  cbn [includes startsWith]. rewrite IH, orb_false_r.
  destruct (N.eqb_spec c a) as [->|]; [|reflexivity].
  unfold odd_char in Hc. rewrite Ha in Hc. discriminate.
Qed.

Lemma not_the_text (s : jsstring) (c : char) (rest : jsstring) :
  plain_text s = true → word_char c = false → str_eqb s (c :: rest) = false.
Proof.
  intros Hs Hc. apply bool_decide_eq_false. intros ->.
  apply plain_text_inv in Hs as (_ & (c' & s' & [= <- _] & Hc') & _). congruence.
Qed.

Lemma not_empty_text (s : jsstring) : plain_text s = true → str_eqb s [] = false.
Proof.
  intros Hs. apply bool_decide_eq_false. intros ->. discriminate.
Qed.

Lemma not_the_end (s : jsstring) (p : jsstring) (c : char) :
  plain_text s = true → word_char c = false → endsWith s (p ++ [c]) = false.
Proof.
  intros Hs Hc. apply plain_text_inv in Hs as (_ & _ & (l & d & -> & Hd)).
  unfold endsWith. rewrite !rev_app_distr. cbn [rev app startsWith].
  destruct (N.eqb_spec c d) as [->|]; [congruence | reflexivity].
Qed.

Section Cells.
Variable context : Context.
Variable tableHtml : jsstring.

Lemma plain_cell_reads (cell : elem) :
  plain_cell cell = true →
  ∃ s, plain_text s = true ∧ getText cell = s ∧ innerHTML (e_node cell) = s
       ∧ cellHasContent cell = true.
Proof.
  intros H. destruct (plain_cell_inv cell H) as (t & a & s & Hn & Hs & _).
  pose proof (plain_text_inv s Hs) as (Hall & _ & _).
  assert (getText cell = s) as Htext.
  { unfold getText. rewrite Hn. cbn [textContent flat_map]. rewrite app_nil_r.
    apply trim_plain, Hs. }
  exists s. split; [exact Hs|]. split; [exact Htext|]. split.
  - unfold innerHTML. rewrite Hn. cbn [childNodes tagName flat_map serialize].
    rewrite app_nil_r, (escape_plain s Hall). destruct (is_raw_text t); reflexivity.
  - unfold cellHasContent. cbv zeta. fold (getText cell). rewrite Htext.
    rewrite (not_empty_text s Hs). reflexivity.
Qed.

Lemma plain_header_cell (idx : nat) (el : elem) :
  plain_cell el = true → header_cell_issues context tableHtml idx el = [].
Proof.
  intros H. destruct (plain_cell_reads el H) as (s & Hs & Htext & Hinner & _).
  pose proof (plain_text_inv s Hs) as (Hall & _ & _).
  unfold header_cell_issues. cbv zeta. rewrite Htext, Hinner.
  replace (endsWith s (lit "($")) with false
    by (symmetry; apply (not_the_end s (lit "(") 36%N Hs eq_refl)).
  replace (str_eqb s (lit ")")) with false
    by (symmetry; apply (not_the_text s 41%N [] Hs eq_refl)).
  replace (str_eqb s (lit "$)")) with false
    by (symmetry; apply (not_the_text s 36%N (lit ")") Hs eq_refl)).
  rewrite (not_empty_text s Hs).
  replace (includes s (lit "$")) with false
    by (symmetry; apply (includes_plain s 36%N Hall eq_refl)).
  rewrite (no_match _ s latex_command_needs Hall), (no_match _ s broken_style_needs Hall).
  reflexivity.
Qed.

Lemma plain_body_cell (isFinancial : bool) (gc : GridCell) :
  plain_cell (gc_el gc) = true → cell_issues context tableHtml isFinancial gc = [].
Proof.
  intros H. destruct (plain_cell_reads _ H) as (s & Hs & Htext & Hinner & _).
  pose proof (plain_text_inv s Hs) as (Hall & _ & _).
  unfold cell_issues. cbv zeta. rewrite Htext, Hinner.
  rewrite (no_full_match _ s split_cell_needs Hall).
  rewrite (no_full_match _ s split_operator_needs Hall).
  rewrite (no_match _ s ai_lazy_needs Hall).
  replace (includes s (lit "$")) with false
    by (symmetry; apply (includes_plain s 36%N Hall eq_refl)).
  rewrite (no_match _ s latex_command_needs Hall).
  rewrite (no_suffix_match _ s broken_entity_needs Hall).
  rewrite (no_match _ s broken_style_needs Hall).
  rewrite (no_suffix_match _ s truncated_needs Hall).
  rewrite (not_empty_text s Hs).
  cbn [andb orb]. rewrite andb_false_r. reflexivity.
Qed.

(** *** The header texts *)

Lemma word_char_no_separator (c : char) :
  word_char c = true →
  (is_space c || (c =? 124)%N || (c =? 8212)%N || (c =? 8211)%N || (c =? 45)%N) = false.
Proof. intros H. by_ranges. Qed.

Lemma plain_not_placeholder (s : jsstring) : plain_text s = true → is_placeholder s = false.
Proof.
  intros Hs. unfold is_placeholder. rewrite (not_empty_text s Hs), (trim_plain s Hs).
  cbn [orb]. destruct (test_full REGEX_PLACEHOLDER s) eqn:Ht; [|reflexivity]. exfalso.
  apply matches_spec in Ht. unfold REGEX_PLACEHOLDER, plus in Ht.
  inversion Ht as [| |? ? u v Hu _| | | |]; subst.
  inversion Hu as [|p c Hc| | | | |]; subst.
  apply plain_text_inv in Hs as (_ & (c' & s' & [= <- _] & Hc') & _).
  rewrite (word_char_no_separator c Hc') in Hc. discriminate.
Qed.

Lemma plain_header_texts (cells : list elem) :
  Forall (fun cell => plain_cell cell = true) cells →
  Forall (fun h => is_placeholder h = false) (header_texts cells).
Proof.
  intros H. unfold header_texts. apply Forall_map.
  eapply Forall_impl; [exact H|]. intros cell Hcell. cbn beta.
  destruct (plain_cell_reads cell Hcell) as (s & Hs & -> & _).
  apply plain_not_placeholder, lower_plain_text, Hs.
Qed.

Lemma plain_headers_named (headerTexts : list jsstring) :
  Forall (fun h => is_placeholder h = false) headerTexts →
  missing_header_issues context tableHtml headerTexts = [].
Proof.
  intros H. unfold missing_header_issues. cbv zeta.
  rewrite (filter_none is_placeholder headerTexts H). reflexivity.
Qed.

Lemma plain_headers_differ (headerTexts : list jsstring) :
  Forall (fun h => is_placeholder h = false) headerTexts →
  NoDup headerTexts →
  duplicate_header_issues context tableHtml headerTexts = [].
Proof.
  intros H Hnd. unfold duplicate_header_issues. cbv zeta.
  rewrite (filter_all (fun h => negb (is_placeholder h)) headerTexts).
  2:{ eapply Forall_impl; [exact H|]. intros h ->. reflexivity. }
  replace (concat _) with (@nil jsstring); [reflexivity|].
  symmetry. apply elem_of_nil_inv. intros h Hh.
  apply dups_spec in Hh. apply (proj1 (NoDup_not_repeated headerTexts) Hnd h Hh).
Qed.

End Cells.

(** *** The grid of a table without spans *)

Lemma place_cells_unit_exact (rIdx : nat) (cells : list elem) :
  Forall (fun cell => safeInt (getAttribute "colspan" (e_node cell)) = 1
                      ∧ safeInt (getAttribute "rowspan" (e_node cell)) = 1) cells →
  ∀ col st,
    st_pending st = [] →
    ∃ st', foldl (place_cell rIdx) (col, col, st) cells
           = (col + length cells, col + length cells, st')
           ∧ st_pending st' = []
           ∧ st_bodyCells st'
             = st_bodyCells st ++ imap (fun j => unit_cell rIdx (col + j)) cells.
Proof.
  induction 1 as [|cell cells [Hc Hr] _ IH]; intros col st Hp.
  - exists st. cbn [foldl length imap]. rewrite Nat.add_0_r, app_nil_r. auto.
  - cbn [foldl length]. unfold place_cell at 2. rewrite Hc, Hr, Hp.
    cbn [nextFreeCol length nextFreeCol_loop Nat.ltb Nat.leb].
    replace (Nat.max col (col + 1)) with (col + 1) by lia.
    match goal with
    | |- context [foldl _ (_, _, ?s) _] =>
        destruct (IH (col + 1) s eq_refl) as (st' & Hf & Hp' & Hcells)
    end.
    exists st'. rewrite Hf.
    replace (col + S (length cells)) with (col + 1 + length cells) by lia.
    split; [reflexivity|]. split; [exact Hp'|].
    rewrite Hcells. cbn [st_bodyCells imap]. rewrite <- app_assoc. cbn [app].
    rewrite Nat.add_0_r. f_equal. f_equal. apply imap_ext. intros j x _. cbn.
    f_equal. lia.
Qed.

Lemma place_rows_unit_exact (rows : list (nat * elem)) :
  ∀ st widths,
    st_pending st = [] →
    unit_spans (map snd rows) →
    ∃ st', foldl place_row (st, widths) rows
           = (st', widths
                   ++ map (fun row => length (querySelectorAll (tags ["td"; "th"]) (snd row)))
                          rows)
           ∧ st_pending st' = []
           ∧ st_bodyCells st'
             = st_bodyCells st
               ++ flat_map (fun row => imap (unit_cell (fst row))
                                            (querySelectorAll (tags ["td"; "th"]) (snd row)))
                           rows.
Proof.
  induction rows as [|[rIdx tr] rows IH]; intros st widths Hp Hu.
  - exists st. cbn. rewrite !app_nil_r. auto.
  - cbn [foldl map snd fst flat_map]. unfold place_row at 2.
    destruct (place_cells_unit_exact rIdx (querySelectorAll (tags ["td"; "th"]) tr))
      with (col := 0) (st := st) as (st1 & Hf & Hp1 & Hc1); [|exact Hp|].
    { apply Forall_forall. intros cell Hcell. apply (Hu tr cell); [left | exact Hcell]. }
    rewrite Hf, Hp1. cbn [computeRowWidth length seq foldl decrement map Nat.add].
    match goal with
    | |- context [foldl place_row (?s, ?w) _] =>
        destruct (IH s w eq_refl) as (st' & Hf' & Hp' & Hc')
    end.
    { intros tr' cell Htr. apply (Hu tr' cell). right. exact Htr. }
    exists st'. rewrite Hf', <- app_assoc. split; [reflexivity|]. split; [exact Hp'|].
    rewrite Hc'. cbn [st_bodyCells]. rewrite Hc1, <- app_assoc. reflexivity.
Qed.

Lemma plain_grid (headerRow : option elem) (bodyRows : list elem) :
  0 < length (header_cells headerRow) →
  Forall (fun cell => safeInt (getAttribute "colspan" (e_node cell)) = 1)
         (header_cells headerRow) →
  unit_spans bodyRows →
  expectedCols (buildGrid headerRow bodyRows) = length (header_cells headerRow)
  ∧ rowWidths (buildGrid headerRow bodyRows)
    = map (fun tr => length (querySelectorAll (tags ["td"; "th"]) tr)) bodyRows
  ∧ bodyCells (buildGrid headerRow bodyRows)
    = concat (imap (fun r tr => imap (unit_cell r) (querySelectorAll (tags ["td"; "th"]) tr))
                   bodyRows).
Proof.
  intros Hh Hcols Hspans. unfold buildGrid. fold (header_cells headerRow).
  rewrite (expected_without_colspan _ Hcols).
  set (st0 := {| st_pending := [] |}).
  pose proof (map_snd_imap_pair bodyRows) as Hsnd.
  destruct (place_rows_unit_exact (imap pair bodyRows) st0 [] eq_refl) as (st' & Hf & _ & Hc).
  { rewrite Hsnd. exact Hspans. }
  rewrite Hf. cbn [expectedCols rowWidths bodyCells app].
  rewrite (proj2 (Nat.ltb_lt _ _) Hh). split; [reflexivity|]. split.
  - rewrite <- (map_map snd (fun tr => length (querySelectorAll (tags ["td"; "th"]) tr))).
    rewrite Hsnd. reflexivity.
  - rewrite Hc. cbn [st0 st_bodyCells app].
    apply (flat_map_imap_pair
             (fun r tr => imap (unit_cell r) (querySelectorAll (tags ["td"; "th"]) tr))).
Qed.

Lemma concat_imap_nil {A B} (f : nat → A → list B) (l : list A) :
  (∀ i x, x ∈ l → f i x = []) → concat (imap f l) = [].
Proof.
  revert f. induction l as [|x l IH]; intros f H; [reflexivity|].
  cbn [imap concat]. rewrite (H 0 x) by left. apply IH. intros i y Hy. apply H. right. exact Hy.
Qed.

Section Table.
Variable context : Context.
Variable tableHtml : jsstring.

(** Every column of a table of plain cells has content. *)
Lemma plain_no_ghost (headerRow : option elem) (bodyRows : list elem) :
  0 < length (header_cells headerRow) →
  Forall (fun cell => plain_cell cell = true) (header_cells headerRow) →
  Forall (fun tr =>
            length (querySelectorAll (tags ["td"; "th"]) tr)
            = length (header_cells headerRow)
            ∧ Forall (fun cell => plain_cell cell = true)
                     (querySelectorAll (tags ["td"; "th"]) tr)) bodyRows →
  unit_spans bodyRows →
  ghost_issues context tableHtml (buildGrid headerRow bodyRows) bodyRows = [].
Proof.
  intros Hh Hhead Hrows Hspans.
  assert (Forall (fun cell => safeInt (getAttribute "colspan" (e_node cell)) = 1)
                 (header_cells headerRow)) as Hcols.
  { eapply Forall_impl; [exact Hhead|]. intros cell Hcell.
    destruct (plain_cell_inv cell Hcell) as (_ & _ & _ & _ & _ & Hc & _). exact Hc. }
  destruct (plain_grid headerRow bodyRows Hh Hcols Hspans) as (He & _ & Hcells).
  rewrite (ghost_issues_spec _ _ _ _ (buildGrid_colHasContent_length headerRow bodyRows)).
  unfold expected_ghost_issues.
  destruct ((1 <? _) && (0 <? length bodyRows)) eqn:Hon; [|reflexivity].
  apply andb_true_iff in Hon as [_ Hbody]. apply Nat.ltb_lt in Hbody.
  assert (∀ c, c < expectedCols (buildGrid headerRow bodyRows) →
               ghost (buildGrid headerRow bodyRows) c = false) as Hfull.
  { intros c Hc. rewrite ghost_spec. apply negb_false_iff, existsb_exists.
    destruct bodyRows as [|tr rows]; [cbn in Hbody; lia|].
    apply Forall_cons in Hrows as [[Hlen Hplain] _].
    rewrite He, <- Hlen in Hc. apply lookup_lt_is_Some in Hc as [cell Hcell].
    exists (unit_cell 0 c cell). split.
    - rewrite Hcells. cbn [imap concat]. apply in_or_app. left.
      apply list_elem_of_In, elem_of_lookup_imap. exists c, cell. auto.
    - unfold contributes, unit_cell. cbn [gc_el gc_col gc_colspan].
      rewrite Forall_forall in Hplain.
      destruct (plain_cell_reads cell (Hplain cell (list_elem_of_lookup_2 _ _ _ Hcell)))
        as (_ & _ & _ & _ & ->).
      rewrite (proj2 (Nat.leb_le c c)) by lia.
      rewrite (proj2 (Nat.ltb_lt c (c + 1))) by lia. reflexivity. }
  replace (trailing_ghost_run (buildGrid headerRow bodyRows) 3) with false.
  - rewrite filter_none; [reflexivity|]. apply Forall_forall. intros c Hc.
    apply list_elem_of_In, in_seq in Hc. apply Hfull. lia.
  - symmetry. unfold trailing_ghost_run.
    destruct (Nat.leb_spec 3 (expectedCols (buildGrid headerRow bodyRows))); [|reflexivity].
    cbn [seq forallb andb]. rewrite Hfull by lia. reflexivity.
Qed.

(** The rules are silent on a plain table. *)
Lemma plain_rules_silent (table : elem) :
  plain_table table = true → analyzeParsedTable context tableHtml table = [].
Proof.
  unfold plain_table, analyzeParsedTable. cbv zeta.
  destruct (header_and_body table) as [headerRow bodyRows]. cbn [fst snd].
  rewrite !andb_true_iff.
  intros [[[[[[[Hnested Hh] Hhead] Hdiff] Hbody] Hrows] Hrowspan] Hstyle].
  apply Nat.eqb_eq in Hnested, Hrowspan, Hstyle. apply Nat.ltb_lt in Hh, Hbody.
  apply bool_decide_eq_true in Hdiff.
  assert (Forall (fun cell => plain_cell cell = true) (header_cells headerRow)) as Hhead'.
  { apply Forall_forall. intros cell Hcell.
    apply (proj1 (forallb_forall _ _) Hhead), list_elem_of_In, Hcell. }
  assert (Forall (fun tr =>
            length (querySelectorAll (tags ["td"; "th"]) tr)
            = length (header_cells headerRow)
            ∧ Forall (fun cell => plain_cell cell = true)
                     (querySelectorAll (tags ["td"; "th"]) tr)) bodyRows) as Hrows'.
  { apply Forall_forall. intros tr Htr.
    pose proof (proj1 (forallb_forall _ _) Hrows tr (proj1 (list_elem_of_In _ _) Htr)) as H.
    cbv zeta in H. apply andb_true_iff in H as [Hlen Hcells]. apply Nat.eqb_eq in Hlen.
    split; [exact Hlen|]. apply Forall_forall. intros cell Hcell.
    apply (proj1 (forallb_forall _ _) Hcells), list_elem_of_In, Hcell. }
  assert (unit_spans bodyRows) as Hspans.
  { intros tr cell Htr Hcell. rewrite Forall_forall in Hrows'.
    destruct (Hrows' tr Htr) as [_ Hcells]. rewrite Forall_forall in Hcells.
    destruct (plain_cell_inv cell (Hcells cell Hcell)) as (_ & _ & _ & _ & _ & Hc & Hr).
    auto. }
  assert (Forall (fun cell => safeInt (getAttribute "colspan" (e_node cell)) = 1)
                 (header_cells headerRow)) as Hcols.
  { eapply Forall_impl; [exact Hhead'|]. intros cell Hcell.
    destruct (plain_cell_inv cell Hcell) as (_ & _ & _ & _ & _ & Hc & _). exact Hc. }
  destruct (plain_grid headerRow bodyRows Hh Hcols Hspans) as (He & Hw & Hcells).
  (* the rules, one by one *)
  assert (nested_issues context tableHtml table = []) as ->.
  { unfold nested_issues. cbv zeta. rewrite Hnested. reflexivity. }
  assert (no_header_issues context tableHtml headerRow = []) as ->.
  { unfold no_header_issues. destruct headerRow as [h|]; [|cbn in Hh; lia].
    replace (bool_decide (Some h = None)) with false
      by (symmetry; apply bool_decide_eq_false; discriminate).
    rewrite (proj2 (Nat.eqb_neq _ 0)) by lia. reflexivity. }
  assert (layout_1x1_issues context tableHtml headerRow bodyRows
            (expectedCols (buildGrid headerRow bodyRows)) = []) as ->.
  { unfold layout_1x1_issues, total_rows. destruct headerRow as [h|]; [|cbn in Hh; lia].
    rewrite (proj2 (Nat.eqb_neq _ 1)) by lia. reflexivity. }
  assert (empty_table_issues context tableHtml headerRow bodyRows = []) as ->.
  { unfold empty_table_issues. rewrite (proj2 (Nat.eqb_neq _ 0)) by lia.
    rewrite andb_false_r. reflexivity. }
  assert (header_issues context tableHtml (header_cells headerRow) = []) as ->.
  { unfold header_issues. apply concat_imap_nil. intros i cell Hcell.
    rewrite Forall_forall in Hhead'. apply plain_header_cell, Hhead', Hcell. }
  rewrite (plain_headers_named _ _ _ (plain_header_texts _ Hhead')).
  rewrite (plain_headers_differ _ _ _ (plain_header_texts _ Hhead') Hdiff).
  rewrite (plain_no_ghost headerRow bodyRows Hh Hhead' Hrows' Hspans).
  assert (width_issues context tableHtml (buildGrid headerRow bodyRows) = []) as ->.
  { unfold width_issues. cbv zeta. rewrite He, Hw, concat_imap_map.
    apply concat_imap_nil. intros r tr Htr. rewrite Forall_forall in Hrows'.
    destruct (Hrows' tr Htr) as [-> _]. rewrite Nat.eqb_refl, andb_false_r. reflexivity. }
  assert (flat_map (cell_issues context tableHtml
                      (is_financial (header_texts (header_cells headerRow))))
                   (bodyCells (buildGrid headerRow bodyRows)) = []) as ->.
  { rewrite Hcells. generalize (is_financial (header_texts (header_cells headerRow))).
    intros fin. apply elem_of_nil_inv. intros i Hi.
    apply list_elem_of_In, in_flat_map in Hi as (gc & Hgc & Hi).
    apply list_elem_of_In, elem_of_concat in Hgc as (l & Hgc & Hl).
    apply elem_of_lookup_imap in Hl as (r & tr & -> & Htr).
    apply elem_of_lookup_imap in Hgc as (j & cell & -> & Hcell).
    rewrite plain_body_cell in Hi; [inversion Hi|].
    cbn [unit_cell gc_el]. rewrite Forall_forall in Hrows'.
    destruct (Hrows' tr (list_elem_of_lookup_2 _ _ _ Htr)) as [_ Hplain].
    rewrite Forall_forall in Hplain. apply Hplain, (list_elem_of_lookup_2 _ _ _ Hcell). }
  rewrite hole_issues_gapless.
  2:{ apply buildGrid_gapless. intros tr cell Htr Hcell.
      apply (Hspans tr cell Htr Hcell). }
  assert (rowspan_issues context tableHtml table headerRow bodyRows = []) as ->.
  { unfold rowspan_issues. cbv zeta. apply length_zero_iff_nil in Hrowspan.
    rewrite Hrowspan. reflexivity. }
  unfold style_issues. apply length_zero_iff_nil in Hstyle. rewrite Hstyle. reflexivity.
Qed.

(** The body rows are rows of the table. *)
Lemma body_rows_are_rows (table tr : elem) :
  tr ∈ snd (header_and_body table) → tr ∈ querySelectorAll (tags ["tr"]) table.
Proof.
  assert (∀ tb, querySelector (tags ["tbody"]) table = Some tb →
                tr ∈ querySelectorAll (tags ["tr"]) tb →
                tr ∈ querySelectorAll (tags ["tr"]) table) as Hbody.
  { intros tb Htb Htr. apply (tagged_below _ table tb tr); [|exact Htr].
    apply (selected_is_descendant (tags ["tbody"])), querySelector_elem, Htb. }
  assert (tr ∈ querySelectorAll [ScopeChild (ByTag "tr")] table →
          tr ∈ querySelectorAll (tags ["tr"]) table) as Hchild.
  { unfold querySelectorAll. intros H.
    apply list_elem_of_In, filter_In in H as [H Hm].
    apply list_elem_of_In, filter_In. split; [exact H|].
    cbn [existsb matches_complex tags map] in *. rewrite orb_false_r in *.
    apply andb_true_iff in Hm as [Hm _]. exact Hm. }
  assert (∀ l : list elem, tr ∈ drop 1 l → tr ∈ l) as Hrest.
  { intros [|x l] H; [exact H | right; exact H]. }
  unfold header_and_body. cbv zeta.
  destruct (querySelector (tags ["thead"]) table) as [th|].
  - cbn [snd]. destruct (querySelector (tags ["tbody"]) table) as [tb|] eqn:Htb.
    + apply (Hbody tb eq_refl).
    + intros H. apply list_elem_of_In, filter_In in H as [H _].
      apply Hchild, list_elem_of_In, H.
  - destruct (querySelector (tags ["tbody"]) table) as [tb|] eqn:Htb.
    + destruct (0 <? length (querySelectorAll (tags ["tr"]) tb)); cbn [snd]; intros H.
      * apply (Hbody tb eq_refl), Hrest, H.
      * apply Hrest, H.
    + destruct (0 <? length (querySelectorAll [ScopeChild (ByTag "tr")] table));
        cbn [snd]; intros H.
      * apply Hchild, Hrest, H.
      * apply Hrest, H.
Qed.

End Table.

(** X24: a plain table raises no issue.  Let the markup of a table hold
    none of the layout keywords and be no Markdown, and let its parse give a
    table whose header row and body rows hold the same number of cells,
    each cell holding one text of letters, digits and spaces and spanning
    one column and one row, with header texts that differ from one another,
    at least one body row, no table inside a cell and no [rowspan] or
    [style] attribute on any element.  Then [analyzeTable] returns no
    issue. *)
Theorem plain_table_has_no_issue (JSDOM : jsstring → option node) (tableHtml : jsstring)
    (context : Context) (root : node) (table : elem) :
  test REGEX_CONTENT_SWALLOW tableHtml = false →
  startsWith (trim tableHtml) (lit "|") = false →
  test REGEX_MD_SEPARATOR (trim tableHtml) = false →
  JSDOM tableHtml = Some root →
  querySelector (tags ["table"]) (document root) = Some table →
  plain_table table = true →
  analyzeTable JSDOM tableHtml context = Some [].
Proof.
  intros Hswallow Hpipe Hsep Hroot Htable Hplain. unfold analyzeTable. cbv zeta.
  rewrite Hswallow, Hpipe, Hsep, Hroot. cbn [orb mbind option_bind]. rewrite Htable.
  rewrite (plain_rules_silent context tableHtml table Hplain).
  replace (length (querySelectorAll (tags ["tr"]) table) =? 0) with false; [reflexivity|].
  symmetry. apply Nat.eqb_neq. intros Hnone. apply length_zero_iff_nil in Hnone.
  unfold plain_table in Hplain. cbv zeta in Hplain. rewrite !andb_true_iff in Hplain.
  destruct Hplain as [[[[_ Hbody] _] _] _]. apply Nat.ltb_lt in Hbody.
  destruct (snd (header_and_body table)) as [|tr rows] eqn:Hrows; [cbn in Hbody; lia|].
  assert (tr ∈ querySelectorAll (tags ["tr"]) table) as Hin
    by (apply body_rows_are_rows; rewrite Hrows; left).
  rewrite Hnone in Hin. inversion Hin.
Qed.

Lemma plain_table_has_no_issue_witness :
  analyzeTable years_parser years_markup ghost_context = Some [].
Proof.
  apply (plain_table_has_no_issue years_parser years_markup ghost_context years_root
           years_table_ref); vm_compute; reflexivity.
Defined.

End CleanFacts.

(* ====================================================================== *)
(** ** When a batch is complete *)
(* ====================================================================== *)

Module ProgressFacts.
Import DbService.

Lemma last_cons_or {A} (x : A) (l : list A) :
  last (x :: l) = match last l with Some y => Some y | None => Some x end.
Proof.
  destruct l as [|y l]; [reflexivity|]. cbn [last].
  destruct (last (y :: l)) eqn:H; [reflexivity|]. apply last_None in H. discriminate.
Qed.

Lemma statusCounts_last (taskStats : list StatusRow) (s : TaskStatus) :
  statusCounts taskStats s
  = snd <$> last (List.filter (fun row => bool_decide (fst row = s)) taskStats).
Proof.
  unfold statusCounts.
  assert (∀ acc, foldl (fun acc curr => fun s => if decide (s = fst curr)
                                                 then Some (snd curr) else acc s)
                       acc taskStats s
                 = match last (List.filter (fun row => bool_decide (fst row = s)) taskStats)
                   with
                   | Some row => Some (snd row)
                   | None => acc s
                   end) as Hgen.
  { induction taskStats as [|row rows IH]; intros acc; [reflexivity|].
    cbn [foldl List.filter]. rewrite IH.
    case_bool_decide as Hrow.
    - rewrite last_cons_or. destruct (last _); [reflexivity|].
      destruct (decide (s = fst row)); congruence.
    - destruct (last _); [reflexivity|]. destruct (decide (s = fst row)); congruence. }
  rewrite Hgen. destruct (last _); reflexivity.
Qed.

Lemma counted (tasks : list TaskStatus) (taskStats : list StatusRow) (s : TaskStatus) :
  grouped_by_status tasks taskStats → or_0 (statusCounts taskStats s) = count s tasks.
Proof.
  intros [Hnd Hrows]. rewrite statusCounts_last.
  destruct (last _) as [[s' n]|] eqn:Hlast; cbn [fmap option_fmap option_map snd or_0].
  - apply last_Some_elem_of, list_elem_of_In, filter_In in Hlast as [Hin Hs].
    apply bool_decide_eq_true in Hs. cbn in Hs. subst s'.
    apply list_elem_of_In, Hrows in Hin as [-> Hpos]. destruct (count s tasks); [lia|reflexivity].
  - apply last_None in Hlast.
    destruct (count s tasks) as [|n] eqn:Hcount; [reflexivity|]. exfalso.
    assert ((s, S n) ∈ taskStats) as Hin by (apply Hrows; split; [congruence | lia]).
    apply list_elem_of_In in Hin.
    assert (In (s, S n) (List.filter (fun row => bool_decide (fst row = s)) taskStats)) as H.
    { apply filter_In. split; [exact Hin|]. apply bool_decide_eq_true. reflexivity. }
    rewrite Hlast in H. exact H.
Qed.

Lemma count_all (tasks : list TaskStatus) :
  length tasks
  = count PENDING tasks + count QUEUED tasks + count PROCESSING tasks
    + count COMPLETED tasks + count FAILED tasks + count RETRY tasks
    + count SKIPPED tasks + count CANCELLED tasks.
Proof.
  unfold count. induction tasks as [|t tasks IH]; [reflexivity|].
  cbn [length List.filter]. rewrite IH.
  destruct t; repeat case_bool_decide; try congruence; cbn [length]; lia.
Qed.

Lemma count_zero (tasks : list TaskStatus) (s : TaskStatus) :
  count s tasks = 0 ↔ Forall (fun t => t ≠ s) tasks.
Proof.
  unfold count. induction tasks as [|t tasks IH]; [split; [constructor | reflexivity]|].
  cbn [List.filter]. case_bool_decide as Ht.
  - split; [discriminate|]. intros H. apply Forall_cons in H as [H _]. contradiction.
  - rewrite IH. split; [intros H; constructor; assumption|].
    intros H. apply Forall_cons in H as [_ H]. exact H.
Qed.

(** X25: when a batch counts as complete.  From the number of tasks of the
    batch and the counts of its tasks by status, [checkBatchCompletion]
    takes the batch for complete exactly when every task is [COMPLETED],
    [SKIPPED] or [FAILED]: one task left in any other status, [RETRY]
    included, keeps the batch from being completed. *)
Theorem batch_complete_when_all_settled (tasks : list TaskStatus)
    (taskStats : list StatusRow) :
  grouped_by_status tasks taskStats →
  isComplete (getBatchProgress (length tasks) taskStats) = true
  ↔ Forall settled tasks.
Proof.
  intros Hg. unfold isComplete, getBatchProgress. cbv zeta.
  cbn [totalTasks completedTasks failedTasks].
  rewrite !(counted tasks taskStats _ Hg), Nat.leb_le.
  pose proof (count_all tasks) as Hall. split.
  - intros Hle.
    assert (count PENDING tasks = 0 ∧ count QUEUED tasks = 0 ∧ count PROCESSING tasks = 0
            ∧ count RETRY tasks = 0 ∧ count CANCELLED tasks = 0)
      as (H1 & H2 & H3 & H4 & H5) by lia.
    apply count_zero in H1, H2, H3, H4, H5.
    rewrite Forall_forall in *. intros t Ht. unfold settled.
    specialize (H1 t Ht). specialize (H2 t Ht). specialize (H3 t Ht).
    specialize (H4 t Ht). specialize (H5 t Ht).
    destruct t; auto; congruence.
  - intros Hs.
    assert (∀ s, ¬ settled s → count s tasks = 0) as Hzero.
    { intros s Hn. apply count_zero. eapply Forall_impl; [exact Hs|].
      intros t Ht ->. contradiction. }
    rewrite (Hzero PENDING), (Hzero QUEUED), (Hzero PROCESSING), (Hzero RETRY),
      (Hzero CANCELLED) in Hall;
      try (unfold settled; intros [H|[H|H]]; discriminate).
    lia.
Qed.

Lemma batch_complete_when_all_settled_witness :
  isComplete (getBatchProgress (length [COMPLETED; RETRY; COMPLETED])
                               [(RETRY, 1); (COMPLETED, 2)]) = true
  ↔ Forall settled [COMPLETED; RETRY; COMPLETED].
Proof.
  apply (batch_complete_when_all_settled [COMPLETED; RETRY; COMPLETED]
           [(RETRY, 1); (COMPLETED, 2)]).
  split.
  - repeat constructor; cbn; intros H; apply list_elem_of_In in H; cbn in H;
      repeat (destruct H as [H|H]; [discriminate|]); exact H.
  - intros s n. split.
    + intros H. apply list_elem_of_In in H. cbn in H.
      destruct H as [[= <- <-]|[[= <- <-]|[]]]; vm_compute; split; (reflexivity || lia).
    + intros [-> Hpos]. destruct s; vm_compute in Hpos |- *; try lia.
      * right. left.
      * left.
Defined.

End ProgressFacts.
(* ====================================================================== *)
(** ** The rules of the table analysis, from the markup *)
(* ====================================================================== *)

Module TableFacts.
Import JS JSFacts Dom AuditService Scenarios GhostRule GridNotions TableNotions.
Import AuditFacts GridFacts ListFacts StructureFacts CleanFacts.

Section Exits.
Variable JSDOM : jsstring → option node.
Variable tableHtml : jsstring.
Variable context : Context.

(** A markup with a layout keyword, or one read as Markdown, gets the one
    issue of the return it takes. *)
Lemma analyzeTable_early :
  returns_early tableHtml = true →
  ∃ i, analyzeTable JSDOM tableHtml context = Some [i]
       ∧ (i_type i = CONTENT_SWALLOW ∨ i_type i = MARKDOWN_DETECTED).
Proof.
  unfold returns_early, analyzeTable. cbv zeta. intros Hearly.
  destruct (test REGEX_CONTENT_SWALLOW tableHtml).
  - eexists. split; [reflexivity|]. left. reflexivity.
  - cbn [orb] in Hearly. rewrite Hearly.
    eexists. split; [reflexivity|]. right. reflexivity.
Qed.

(** Past the two returns, a markup whose parse holds a table gets the
    issues of the rules, or the one issue of a table without rows. *)
Lemma analyzeTable_past_the_exits (root : node) (table : elem) :
  returns_early tableHtml = false →
  JSDOM tableHtml = Some root →
  querySelector (tags ["table"]) (document root) = Some table →
  analyzeTable JSDOM tableHtml context
  = Some (if length (querySelectorAll (tags ["tr"]) table) =? 0
          then [createIssue context WARN NO_DATA (lit "Table has no rows (<tr>)")
                  nowhere tableHtml]
          else analyzeParsedTable context tableHtml table).
Proof.
  unfold returns_early, analyzeTable. cbv zeta. intros Hearly Hroot Htable.
  apply orb_false_iff in Hearly as [Hearly Hsep].
  apply orb_false_iff in Hearly as [Hswallow Hpipe].
  rewrite Hswallow, Hpipe, Hsep, Hroot. cbn [orb mbind option_bind]. rewrite Htable.
  destruct (_ =? 0); reflexivity.
Qed.

(** A table without any [tr] has no body row. *)
Lemma no_row_no_body (table : elem) :
  length (querySelectorAll (tags ["tr"]) table) = 0 → snd (header_and_body table) = [].
Proof.
  intros Hnone. apply length_zero_iff_nil in Hnone.
  destruct (snd (header_and_body table)) as [|tr rows] eqn:Hrows; [reflexivity|].
  assert (tr ∈ querySelectorAll (tags ["tr"]) table) as Hin
    by (apply body_rows_are_rows; rewrite Hrows; left).
  rewrite Hnone in Hin. inversion Hin.
Qed.

(** C4, amended: let the parse of a table's markup hold a table.  When the
    markup holds a layout keyword or is read as Markdown, [analyzeTable]
    returns the one issue of that return and no issue of the ghost-column
    rule.  Otherwise a column is a ghost when no body cell contributes
    content to it, and among the issues returned those of the ghost-column
    rule are: none when there is at most one expected column or no body
    row; one aggregate [BAD] [GHOST_COLUMNS] issue when the last three
    expected columns are ghosts; otherwise one [GHOST_COLUMN] issue per
    ghost column, in column order, [BAD] for the last expected column and
    [WARN] for any other. *)
Theorem ghost_column_rule (root : node) (table : elem) :
  JSDOM tableHtml = Some root →
  querySelector (tags ["table"]) (document root) = Some table →
  let headerRow := fst (header_and_body table) in
  let bodyRows := snd (header_and_body table) in
  let grid := buildGrid headerRow bodyRows in
  ∃ issues,
    analyzeTable JSDOM tableHtml context = Some issues
    ∧ let found := List.filter is_ghost_issue issues in
      (returns_early tableHtml = true →
       found = []
       ∧ ∃ i, issues = [i] ∧ (i_type i = CONTENT_SWALLOW ∨ i_type i = MARKDOWN_DETECTED))
      ∧ (returns_early tableHtml = false →
         (∀ c, ghost grid c = negb (existsb (contributes c) (bodyCells grid)))
         ∧ (expectedCols grid ≤ 1 ∨ length bodyRows = 0 → found = [])
         ∧ (1 < expectedCols grid → 0 < length bodyRows → trailing_ghost_run grid 3 = true →
            ∃ n, 3 ≤ n ∧ trailing_ghost_run grid n = true
                 ∧ trailing_ghost_run grid (S n) = false
                 ∧ found = [createIssue context BAD GHOST_COLUMNS
                              (of_nat n ++ lit " trailing ghost columns detected")
                              nowhere tableHtml])
         ∧ (1 < expectedCols grid → 0 < length bodyRows →
            trailing_ghost_run grid 3 = false →
            found = map (fun c =>
                           createIssue context
                             (if c =? expectedCols grid - 1 then BAD else WARN) GHOST_COLUMN
                             (lit "Ghost Column (Col " ++ of_nat (c + 1)
                              ++ lit " empty in all rows)")
                             (at_col (Z.of_nat c)) tableHtml)
                        (List.filter (ghost grid) (seq 0 (expectedCols grid))))).
Proof.
  intros Hroot Htable. cbv zeta.
  destruct (returns_early tableHtml) eqn:Hearly.
  - destruct (analyzeTable_early Hearly) as (i & Hi & Hty).
    exists [i]. split; [exact Hi|]. split; [|discriminate].
    intros _. split; [|exists i; split; [reflexivity | exact Hty]].
    cbn [List.filter]. unfold is_ghost_issue.
    destruct Hty as [-> | ->]; reflexivity.
  - rewrite (analyzeTable_past_the_exits root table Hearly Hroot Htable).
    eexists. split; [reflexivity|]. split; [discriminate|]. intros _.
    pose proof (ghost_rule_of_parsed_table context tableHtml table) as Hrule.
    cbv zeta in Hrule. destruct Hrule as (Hghost & Hnone & Hrun & Heach).
    split; [exact Hghost|].
    destruct (Nat.eqb_spec (length (querySelectorAll (tags ["tr"]) table)) 0) as [Hrows|_].
    + apply no_row_no_body in Hrows. rewrite Hrows. cbn [length].
      split; [intros _; reflexivity|]. split; intros _ Hbody; lia.
    + split; [exact Hnone|]. split; [exact Hrun | exact Heach].
Qed.

(** X2: in a table without column or row spans whose header row has
    [h >= 1] cells and whose markup holds no layout keyword and is not read
    as Markdown, the [COL_MISMATCH] issues that [analyzeTable] returns are
    exactly one [BAD] issue for each body row whose number of cells differs
    from [h], in row order, located at that row and naming both numbers. *)
Theorem col_mismatch_counts_cells (root : node) (table : elem) :
  returns_early tableHtml = false →
  JSDOM tableHtml = Some root →
  querySelector (tags ["table"]) (document root) = Some table →
  let headerRow := fst (header_and_body table) in
  let bodyRows := snd (header_and_body table) in
  let h := length (header_cells headerRow) in
  0 < h →
  Forall (fun cell => safeInt (getAttribute "colspan" (e_node cell)) = 1)
         (header_cells headerRow) →
  unit_spans bodyRows →
  ∃ issues,
    analyzeTable JSDOM tableHtml context = Some issues
    ∧ List.filter is_col_mismatch issues
      = concat (imap (fun r tr =>
                        let n := length (querySelectorAll (tags ["td"; "th"]) tr) in
                        if n =? h then []
                        else [createIssue context BAD COL_MISMATCH
                                (lit "Row " ++ of_nat (r + 1) ++ lit ": " ++ of_nat n
                                 ++ lit " logical cols (expected " ++ of_nat h ++ lit ")")
                                (at_row (Z.of_nat r)) tableHtml])
                     bodyRows).
Proof.
  intros Hearly Hroot Htable. cbv zeta. intros Hh Hcols Hspans.
  rewrite (analyzeTable_past_the_exits root table Hearly Hroot Htable).
  eexists. split; [reflexivity|].
  destruct (Nat.eqb_spec (length (querySelectorAll (tags ["tr"]) table)) 0) as [Hrows|_].
  - apply no_row_no_body in Hrows. rewrite Hrows. reflexivity.
  - apply (col_mismatch_of_parsed_table context tableHtml table Hh Hcols Hspans).
Qed.

End Exits.

(** The table of the ghost-column scenario: its markup holds no keyword and
    is no Markdown, and its one ghost column is not the last. *)
Lemma ghost_column_rule_witness :
  let table := in_body ghost_table in
  let tableHtml := outerHTML ghost_table in
  let headerRow := fst (header_and_body table) in
  let bodyRows := snd (header_and_body table) in
  let grid := buildGrid headerRow bodyRows in
  ∃ issues,
    analyzeTable ghost_parser tableHtml ghost_context = Some issues
    ∧ let found := List.filter is_ghost_issue issues in
      (returns_early tableHtml = true →
       found = []
       ∧ ∃ i, issues = [i] ∧ (i_type i = CONTENT_SWALLOW ∨ i_type i = MARKDOWN_DETECTED))
      ∧ (returns_early tableHtml = false →
         (∀ c, ghost grid c = negb (existsb (contributes c) (bodyCells grid)))
         ∧ (expectedCols grid ≤ 1 ∨ length bodyRows = 0 → found = [])
         ∧ (1 < expectedCols grid → 0 < length bodyRows → trailing_ghost_run grid 3 = true →
            ∃ n, 3 ≤ n ∧ trailing_ghost_run grid n = true
                 ∧ trailing_ghost_run grid (S n) = false
                 ∧ found = [createIssue ghost_context BAD GHOST_COLUMNS
                              (of_nat n ++ lit " trailing ghost columns detected")
                              nowhere tableHtml])
         ∧ (1 < expectedCols grid → 0 < length bodyRows →
            trailing_ghost_run grid 3 = false →
            found = map (fun c =>
                           createIssue ghost_context
                             (if c =? expectedCols grid - 1 then BAD else WARN) GHOST_COLUMN
                             (lit "Ghost Column (Col " ++ of_nat (c + 1)
                              ++ lit " empty in all rows)")
                             (at_col (Z.of_nat c)) tableHtml)
                        (List.filter (ghost grid) (seq 0 (expectedCols grid))))).
Proof.
  apply (ghost_column_rule ghost_parser (outerHTML ghost_table) ghost_context
           ghost_document (in_body ghost_table)); vm_compute; reflexivity.
Defined.

(** C4, the counterexample: a table of four expected columns and one body
    row whose last three columns are ghosts, with a layout keyword in its
    first header cell.  [analyzeTable] returns the [CONTENT_SWALLOW] issue
    alone: no aggregate [GHOST_COLUMNS] issue is among its issues. *)
Lemma keyword_table_gets_no_ghost_issue :
  let table := in_body keyword_table in
  let grid := buildGrid (fst (header_and_body table)) (snd (header_and_body table)) in
  parser_of keyword_table (outerHTML keyword_table) = Some (around keyword_table)
  ∧ querySelector (tags ["table"]) (document (around keyword_table)) = Some table
  ∧ expectedCols grid = 4
  ∧ length (snd (header_and_body table)) = 1
  ∧ trailing_ghost_run grid 3 = true
  ∧ ∃ i, analyzeTable (parser_of keyword_table) (outerHTML keyword_table) ghost_context
         = Some [i]
         ∧ i_type i = CONTENT_SWALLOW
         ∧ List.filter is_ghost_issue [i] = [].
Proof.
  cbv zeta. split; [vm_compute; reflexivity|]. split; [vm_compute; reflexivity|].
  split; [vm_compute; reflexivity|]. split; [vm_compute; reflexivity|].
  split; [vm_compute; reflexivity|].
  eexists. split; [vm_compute; reflexivity|]. split; reflexivity.
Qed.

(** Three header cells over a body row of two cells. *)
Lemma col_mismatch_counts_cells_witness :
  let table := in_body narrow_row_table in
  let tableHtml := outerHTML narrow_row_table in
  ∃ issues,
    analyzeTable (parser_of narrow_row_table) tableHtml ghost_context = Some issues
    ∧ List.filter is_col_mismatch issues
      = concat (imap (fun r tr =>
                        let n := length (querySelectorAll (tags ["td"; "th"]) tr) in
                        if n =? 3 then []
                        else [createIssue ghost_context BAD COL_MISMATCH
                                (lit "Row " ++ of_nat (r + 1) ++ lit ": " ++ of_nat n
                                 ++ lit " logical cols (expected " ++ of_nat 3 ++ lit ")")
                                (at_row (Z.of_nat r)) tableHtml])
                     (snd (header_and_body table))).
Proof.
  apply (col_mismatch_counts_cells (parser_of narrow_row_table) (outerHTML narrow_row_table)
           ghost_context (around narrow_row_table) (in_body narrow_row_table)).
  - vm_compute. reflexivity.
  - vm_compute. reflexivity.
  - vm_compute. reflexivity.
  - vm_compute. lia.
  - vm_compute. repeat constructor.
  - intros tr cell Htr Hcell.
    apply list_elem_of_In in Htr. vm_compute in Htr.
    destruct Htr as [<-|[]].
    apply list_elem_of_In in Hcell; vm_compute in Hcell.
    destruct Hcell as [<-|[<-|[]]]; vm_compute; auto.
Defined.

End TableFacts.
